(** * Quantization fusers of Paddle-Lite: a shallow embedding

    This development embeds [lite/core/mir/fusion/quant_dequant_op_fuser.cc]
    and proves properties of its five rewrite rules.

    - C++ [float] is IEEE-754 binary32, modelled by the Standard Library's
      [spec_float] at precision 24 and maximal exponent 128.
    - C++ [int] is a 32-bit signed integer; an operation whose result is
      not representable has no defined behaviour and is an error here.
    - Code that aborts ([CHECK], a failed lookup, an exception) or has no
      defined behaviour returns an [error]; everything else returns [Ok]. *)

From Stdlib Require Import ZArith List String QArith Qabs Qpower Lia Lqa.
From Stdlib Require Import Floats.SpecFloat.
From stdpp Require Import base gmap strings list fin_maps.

#[local] Set Warnings "-clear-no-such-hyp".

Open Scope string_scope.
Open Scope list_scope.
Open Scope Z_scope.

(** ** Outcomes of a rewrite *)

Inductive error : Type :=
| LookupError          (* a variable or tensor is absent from storage *)
| InvariantViolation   (* a CHECK fails, an attribute is missing *)
| OutOfRange           (* std::out_of_range, std::length_error *)
| UndefinedBehavior.   (* no defined C++ behaviour *)

Inductive result (A : Type) : Type :=
| Ok (a : A)
| Err (e : error).
Arguments Ok {A} a.
Arguments Err {A} e.

Definition bind {A B : Type} (m : result A) (k : A -> result B) : result B :=
  match m with
  | Ok a => k a
  | Err e => Err e
  end.

Notation "'do' x <- m ; k" := (bind m (fun x => k))
  (at level 10, x name, m at level 100, k at level 200,
   format "'[v' 'do'  x  <-  m ; '/' k ']'").

Definition is_Ok {A : Type} (r : result A) : bool :=
  match r with Ok _ => true | Err _ => false end.

(** A loop whose body may fail: the elements are visited in order and the
    first failure ends the loop. *)
Fixpoint for_each {S A : Type} (body : S -> A -> result S) (l : list A) (s : S)
  : result S :=
  match l with
  | [] => Ok s
  | x :: l' => do s' <- body s x; for_each body l' s'
  end.

Fixpoint map_result {A B : Type} (f : A -> result B) (l : list A)
  : result (list B) :=
  match l with
  | [] => Ok []
  | x :: l' => do y <- f x; do ys <- map_result f l'; Ok (y :: ys)
  end.

(** ** 32-bit signed integers *)

Module Int32.
Definition min_int : Z := - 2 ^ 31.
Definition max_int : Z := 2 ^ 31 - 1.

Definition in_range (z : Z) : bool := (min_int <=? z) && (z <=? max_int).

Definition checked (z : Z) : result Z :=
  if in_range z then Ok z else Err UndefinedBehavior.

Definition sub (a b : Z) : result Z := checked (a - b).
Definition mul (a b : Z) : result Z := checked (a * b).

(** [a << n]: defined for a non-negative [a], a shift count in [0, 32)
    and a representable result. *)
Definition shl (a n : Z) : result Z :=
  if (0 <=? a) && (0 <=? n) && (n <? 32)
  then checked (Z.shiftl a n)
  else Err UndefinedBehavior.

(** Conversion of a 64-bit value to [int]: reduction modulo 2^32. *)
Definition narrow (z : Z) : Z := (z + 2 ^ 31) mod 2 ^ 32 - 2 ^ 31.
End Int32.

(** [((1 << (bit_length - 1)) - 1)], the expression every rule calls
    [range]. *)
Definition range_of_bit_length (bit_length : Z) : result Z :=
  do n <- Int32.sub bit_length 1;
  do p <- Int32.shl 1 n;
  Int32.sub p 1.

(** ** binary32 floating point *)

Abbreviation float := spec_float.

Definition prec : Z := 24.
Definition emax : Z := 128.

Definition float_div : float -> float -> float := SFdiv prec emax.
Definition float_abs : float -> float := SFabs.
Definition float_lt : float -> float -> bool := SFltb.
Definition float_le : float -> float -> bool := SFleb.

(** Conversion of an [int] to [float] (round to nearest even). *)
Definition float_of_int (z : Z) : float := binary_normalize prec emax z 0 false.

(** [std::round]: nearest integer, halfway cases away from zero. *)
Definition float_round (x : float) : float :=
  match x with
  | S754_finite s m e =>
      if 0 <=? e then x
      else
        let d := 2 ^ (- e) in
        binary_normalize prec emax (cond_Zopp s ((2 * Z.pos m + d) / (2 * d))) 0 s
  | _ => x
  end.

(** The integer a finite float truncates to (fractional part discarded). *)
Definition float_trunc (x : float) : option Z :=
  match x with
  | S754_zero _ => Some 0
  | S754_finite s m e =>
      Some (cond_Zopp s (if 0 <=? e then Z.pos m * 2 ^ e else Z.pos m / 2 ^ (- e)))
  | _ => None
  end.

(** [static_cast<int8_t>(x)]: truncation; undefined when the truncated
    value is not an [int8_t], or for an infinity or a NaN. *)
Definition float_to_int8 (x : float) : result Z :=
  match float_trunc x with
  | Some z => if (-128 <=? z) && (z <=? 127) then Ok z else Err UndefinedBehavior
  | None => Err UndefinedBehavior
  end.

(** The rational number a finite float denotes. *)
Definition float_to_Q (x : float) : option Q :=
  match x with
  | S754_zero _ => Some 0%Q
  | S754_finite s m e =>
      Some (if 0 <=? e then inject_Z (cond_Zopp s (Z.pos m * 2 ^ e))
            else Qmake (cond_Zopp s (Z.pos m)) (Z.to_pos (2 ^ (- e))))
  | _ => None
  end.

(** The two element conversions of the rules: [QuantizeTensorInPlace] and
    [DynamicQuantOpFuser] store [round(x / scale)], the two dequantize
    fusers store the weight element itself. *)
Definition quantize_rounded (scale x : float) : result Z :=
  float_to_int8 (float_round (float_div x scale)).

Definition quantize_truncated (x : float) : result Z :=
  float_to_int8 x.

(** ** Helpers of the translation unit *)

(** [GetWeightArgname] *)
Definition conv_ops : list string := ["conv2d"; "depthwise_conv2d"; "conv2d_transpose"].
Definition mul_ops : list string := ["mul"; "matmul"].

Definition GetWeightArgname (op_type : string) : string :=
  if bool_decide (op_type ∈ conv_ops) then "Filter"
  else if bool_decide (op_type ∈ mul_ops) then "Y"
  else "".

(** The comparison passed to [std::max_element]. *)
Definition abs_compare_func (a b : float) : bool :=
  float_lt (float_abs a) (float_abs b).

(** [std::max_element] over a range given as a list.  The result is an
    iterator, here the offset from the start of the range; for the empty
    range it is the end of the range, offset 0.  The loop keeps the first
    of the largest elements. *)
Fixpoint max_element_loop {A : Type} (comp : A -> A -> bool)
    (largest : A) (ilargest i : nat) (rest : list A) : nat :=
  match rest with
  | [] => ilargest
  | x :: rest' =>
      if comp largest x
      then max_element_loop comp x i (S i) rest'
      else max_element_loop comp largest ilargest (S i) rest'
  end.

Definition max_element {A : Type} (comp : A -> A -> bool) (range : list A) : nat :=
  match range with
  | [] => O
  | x :: rest => max_element_loop comp x O 1%nat rest
  end.

(** [FindAbsMax(input, size)]: [input] is the memory the pointer gives
    access to.  A negative [size] or one beyond the buffer is no valid
    range; the iterator [max_element] returns is dereferenced without a
    test. *)
Definition FindAbsMax (input : list float) (size : Z) : result float :=
  if (size <? 0) || (Z.of_nat (length input) <? size) then Err UndefinedBehavior
  else
    let range := take (Z.to_nat size) input in
    match range !! max_element abs_compare_func range with
    | Some x => Ok (float_abs x)
    | None => Err UndefinedBehavior
    end.

(** [m] is the greatest of the absolute values of [l]. *)
Definition is_abs_max (l : list float) (m : float) : Prop :=
  m ∈ map float_abs l /\ Forall (fun x => float_le (float_abs x) m = true) l.

(** ** Tensors and variable storage *)

Inductive PrecisionType : Type := kFloat | kInt8.

(** The raw buffer of a tensor, with the element type its content was
    written at.  [BufFree] is a buffer that was released. *)
Inductive Buffer : Type :=
| BufFloat (xs : list float)
| BufInt8 (qs : list Z)
| BufFree.

(** Modelled from the spec: the class [Tensor] is not part of the source.
    Section 3 gives a tensor a shape, an element type and a raw buffer;
    section 6 lists its operations [copy_from], [clear], [mutable_data],
    [data], [element_count], [set_persistable], [set_element_type]; section
    9 forbids reading a buffer at two element widths, so [data<float>()] of
    a buffer that does not hold floats yields no defined values. *)
Record Tensor : Type := mkTensor {
  dims : list Z;
  buffer : Buffer;
  persistable : bool;
  precision : PrecisionType
}.

(** Modelled from the spec: [Tensor::numel] is not part of the source;
    it is the [element_count] of section 6, the product of the shape. *)
Definition numel (t : Tensor) : Z := fold_right Z.mul 1 (dims t).

(** Modelled from the spec: [Tensor::data_size] is not part of the source;
    the rules use it as the bound of the loops over all elements, the
    [element_count] of section 6. *)
Definition data_size (t : Tensor) : Z := numel t.

(** Modelled from the spec: [Tensor::CopyDataFrom] is not part of the
    source; section 5: the full original buffer is read into a temporary
    copy. *)
Definition CopyDataFrom (other : Tensor) : Tensor := other.

(** Modelled from the spec: [Tensor::clear] is not part of the source;
    section 9: the original storage is cleared, the shape stays. *)
Definition clear (t : Tensor) : Tensor :=
  mkTensor (dims t) BufFree (persistable t) (precision t).

(** Modelled from the spec: [Tensor::data<float>] and
    [Tensor::mutable_data<float>] are not part of the source; they give
    the elements of a buffer that holds floats. *)
Definition data_float (t : Tensor) : result (list float) :=
  match buffer t with
  | BufFloat xs => Ok xs
  | _ => Err UndefinedBehavior
  end.

(** Modelled from the spec: [Tensor::mutable_data<T>] is not part of the
    source; section 9: the storage is reallocated at the new element
    width and written; section 8: after rule 4.5, which calls only [clear]
    and [mutable_data<int8_t>] on the weight, the tensor has element type
    int8, so [mutable_data<T>] makes [T] the element type.  [set_buffer]
    is the tensor once the loop has written every element. *)
Definition element_type (b : Buffer) (old : PrecisionType) : PrecisionType :=
  match b with
  | BufFloat _ => kFloat
  | BufInt8 _ => kInt8
  | BufFree => old
  end.

Definition set_buffer (t : Tensor) (b : Buffer) : Tensor :=
  mkTensor (dims t) b (persistable t) (element_type b (precision t)).

(** Modelled from the spec: [Tensor::set_persistable] is not part of the
    source (section 6). *)
Definition set_persistable (t : Tensor) (p : bool) : Tensor :=
  mkTensor (dims t) (buffer t) p (precision t).

(** Modelled from the spec: [Tensor::set_precision] is not part of the
    source; it is the [set_element_type] of section 6. *)
Definition set_precision (t : Tensor) (p : PrecisionType) : Tensor :=
  mkTensor (dims t) (buffer t) (persistable t) p.

(** [dims()[i]]: an index beyond the rank reads outside the shape. *)
Definition dims_at (t : Tensor) (i : nat) : result Z :=
  match dims t !! i with
  | Some d => Ok d
  | None => Err UndefinedBehavior
  end.

(** [data[0]] of a float buffer. *)
Definition first_elem (xs : list float) : result float :=
  match xs with
  | x :: _ => Ok x
  | [] => Err UndefinedBehavior
  end.

(** The loop [for (i = 0; i < n; i++) dst[i] = f(src[i])] of the four
    conversions: it reads [src[0 .. n)]. *)
Definition convert_elements (f : float -> result Z) (n : Z) (src : list float)
  : result (list Z) :=
  if (n <? 0) || (Z.of_nat (length src) <? n) then Err UndefinedBehavior
  else map_result f (take (Z.to_nat n) src).

(** [QuantizeTensorInPlace<int8_t>] *)
Definition QuantizeTensorInPlace (weight : Tensor) (scale : float) : result Tensor :=
  let temp_tensor := CopyDataFrom weight in
  let weight := clear weight in
  do temp_data <- data_float temp_tensor;
  do weight_data <- convert_elements (quantize_rounded scale) (numel weight) temp_data;
  Ok (set_buffer weight (BufInt8 weight_data)).

Abbreviation Scope := (gmap string Tensor).

(** Modelled from the spec: [Scope::FindVar] and [Variable::GetMutable] are
    not part of the source.  Section 6: [lookup_tensor(name)] fails with
    LookupError if the tensor is absent. *)
Definition lookup_tensor (scope : Scope) (name : string) : result Tensor :=
  match scope !! name with
  | Some t => Ok t
  | None => Err LookupError
  end.

(** ** Operator descriptors *)

Inductive Attribute : Type :=
| AttrInt (z : Z)
| AttrFloat (x : float)
| AttrBool (b : bool)
| AttrString (s : string)
| AttrInts (zs : list Z)
| AttrFloats (xs : list float).

(** Modelled from the spec: the class [OpInfo] is not part of the source.
    Section 3: a descriptor holds named input arguments and named output
    arguments, each a list of variable names, a map of typed attributes,
    and a quantization-scale map from input variable name to a list of
    floats. *)
Record OpInfo : Type := mkOpInfo {
  Type_ : string;
  inputs : gmap string (list string);
  outputs : gmap string (list string);
  attrs : gmap string Attribute;
  input_scales : gmap string (list float)
}.

(** Modelled from the spec: [OpInfo::SetInput] is not part of the source;
    it binds a named input argument to a list of variable names. *)
Definition SetInput (op : OpInfo) (argname : string) (vars : list string) : OpInfo :=
  mkOpInfo (Type_ op) (<[argname := vars]> (inputs op)) (outputs op) (attrs op)
    (input_scales op).

(** Modelled from the spec: [OpInfo::SetOutput] is not part of the
    source; it binds a named output argument to a list of variable
    names. *)
Definition SetOutput (op : OpInfo) (argname : string) (vars : list string) : OpInfo :=
  mkOpInfo (Type_ op) (inputs op) (<[argname := vars]> (outputs op)) (attrs op)
    (input_scales op).

(** Modelled from the spec: [OpInfo::SetAttr] is not part of the source;
    it sets one entry of the attribute map. *)
Definition SetAttr (op : OpInfo) (name : string) (v : Attribute) : OpInfo :=
  mkOpInfo (Type_ op) (inputs op) (outputs op) (<[name := v]> (attrs op))
    (input_scales op).

(** Modelled from the spec: [OpInfo::SetInputScale] is not part of the
    source; sections 3 and 4.2: the list is attached as the
    quantization-scale list of the named input variable. *)
Definition SetInputScale (op : OpInfo) (input_name : string) (scale : list float)
  : OpInfo :=
  mkOpInfo (Type_ op) (inputs op) (outputs op) (attrs op)
    (<[input_name := scale]> (input_scales op)).

Definition rename_var (from to v : string) : string :=
  if bool_decide (v = from) then to else v.

(** Modelled from the spec: [OpInfo::UpdateAllInputs] is not part of the
    source; section 4.2: every input reference to [from] is rewritten to
    point at [to]. *)
Definition UpdateAllInputs (op : OpInfo) (from to : string) : OpInfo :=
  mkOpInfo (Type_ op) (map (rename_var from to) <$> inputs op) (outputs op)
    (attrs op) (input_scales op).

(** Modelled from the spec: [OpInfo::GetAttr<int>] is not part of the
    source; section 7 makes a missing required attribute an invariant
    violation, an attribute of another type is treated alike. *)
Definition GetAttr_int (op : OpInfo) (name : string) : result Z :=
  match attrs op !! name with
  | Some (AttrInt z) => Ok z
  | _ => Err InvariantViolation
  end.

(** Modelled from the spec: [OpInfo::GetAttr<float>], as [GetAttr_int]. *)
Definition GetAttr_float (op : OpInfo) (name : string) : result float :=
  match attrs op !! name with
  | Some (AttrFloat x) => Ok x
  | _ => Err InvariantViolation
  end.

(** Modelled from the spec: [OpInfo::GetAttr<std::vector<int>>], as
    [GetAttr_int]. *)
Definition GetAttr_ints (op : OpInfo) (name : string) : result (list Z) :=
  match attrs op !! name with
  | Some (AttrInts zs) => Ok zs
  | _ => Err InvariantViolation
  end.

(** ** The graph *)

(** A node is known by its address; [node_id] stands for it. *)
Abbreviation node_id := nat.

(** Modelled from the spec: the class [Node] is not part of the source.
    Section 3: an operator node holds a descriptor, a variable node a name
    and an "is weight" flag; both have incoming and outgoing edges. *)
Inductive NodeKind : Type :=
| Arg (name : string) (is_weight : bool)
| Stmt (op_info : OpInfo).

Record Node : Type := mkNode {
  kind : NodeKind;
  inlinks : list node_id;
  outlinks : list node_id
}.

Abbreviation SSAGraph := (gmap node_id Node).
Abbreviation key2nodes_t := (gmap string node_id).

(** Graph and variable storage, the two objects a rewrite mutates. *)
Record State : Type := mkState {
  graph : SSAGraph;
  scope : Scope
}.

(** [matched.at(key)] *)
Definition at_ (matched : key2nodes_t) (key : string) : result node_id :=
  match matched !! key with
  | Some n => Ok n
  | None => Err OutOfRange
  end.

(** Dereferencing a node pointer. *)
Definition get_node (g : SSAGraph) (n : node_id) : result Node :=
  match g !! n with
  | Some nd => Ok nd
  | None => Err UndefinedBehavior
  end.

(** Modelled from the spec: [Node::stmt] is not part of the source;
    [node->stmt()->op_info()] is the descriptor of an operator node, and
    asking a variable node for it is a structural precondition that is
    false (section 7). *)
Definition stmt_op_info (g : SSAGraph) (n : node_id) : result OpInfo :=
  do nd <- get_node g n;
  match kind nd with
  | Stmt op => Ok op
  | Arg _ _ => Err InvariantViolation
  end.

(** Modelled from the spec: [Node::arg] is not part of the source;
    [node->arg()->name] is the name of a variable node. *)
Definition arg_name (g : SSAGraph) (n : node_id) : result string :=
  do nd <- get_node g n;
  match kind nd with
  | Arg name _ => Ok name
  | Stmt _ => Err InvariantViolation
  end.

(** Modelled from the spec: [node->arg()->is_weight], as [arg_name]. *)
Definition arg_is_weight (g : SSAGraph) (n : node_id) : result bool :=
  do nd <- get_node g n;
  match kind nd with
  | Arg _ w => Ok w
  | Stmt _ => Err InvariantViolation
  end.

(** [node->outlinks] *)
Definition node_outlinks (g : SSAGraph) (n : node_id) : result (list node_id) :=
  do nd <- get_node g n; Ok (outlinks nd).

(** Modelled from the spec: [ResetOp] is not part of the source; section
    4.6 calls [node->stmt()->ResetOp(op_info, valid_places)] an in-place
    attribute mutation on the existing operator node: the statement gets
    the new descriptor. *)
Definition ResetOp (g : SSAGraph) (n : node_id) (op : OpInfo) : result SSAGraph :=
  do nd <- get_node g n;
  match kind nd with
  | Stmt _ => Ok (<[n := mkNode (Stmt op) (inlinks nd) (outlinks nd)]> g)
  | Arg _ _ => Err InvariantViolation
  end.

(** Modelled from the spec: the macro [IR_NODE_LINK_TO] is not part of
    the source; it is the [link] of section 6, an edge from [a] to [b]:
    [b] joins the outgoing edges of [a], then [a] the incoming edges of
    [b]. *)
Definition IR_NODE_LINK_TO (g : SSAGraph) (a b : node_id) : result SSAGraph :=
  do na <- get_node g a;
  let g := <[a := mkNode (kind na) (inlinks na) (outlinks na ++ [b])]> g in
  do nb <- get_node g b;
  Ok (<[b := mkNode (kind nb) (inlinks nb ++ [a]) (outlinks nb)]> g).

(** Modelled from the spec: [LiteOpRegistry::Create], [Attach] and
    [GraphCreateInstructNode] are not part of the source; together they
    are the [create_operator_node] of section 6: a new operator node with
    the given descriptor and no edges, at an address no node of the graph
    has. *)
Definition GraphCreateInstructNode (g : SSAGraph) (op : OpInfo)
  : SSAGraph * node_id :=
  let n := fresh (dom g) in
  (<[n := mkNode (Stmt op) [] []]> g, n).

(** Modelled from the spec: the removal of section 6 takes all incident
    edges with the nodes. *)
Definition erase_links (rm : gset node_id) (nd : Node) : Node :=
  mkNode (kind nd)
    (filter (fun n => n ∉ rm) (inlinks nd))
    (filter (fun n => n ∉ rm) (outlinks nd)).

(** Modelled from the spec: the removal of section 6 without its test. *)
Definition remove_nodes (g : SSAGraph) (rm : gset node_id) : SSAGraph :=
  erase_links rm <$> filter (fun kv => kv.1 ∉ rm) g.

(** Modelled from the spec: [GraphSafeRemoveNodes] is not part of the
    source.  Section 6: [remove_nodes] removes the nodes and all incident
    edges, and fails fatally if the removal would disconnect a
    still-referenced producer without removing its consumer too.  The spec
    does not define that test, so the graph collaborator supplies it. *)
Class GraphCollaborator : Type := {
  removal_is_safe : SSAGraph -> gset node_id -> bool
}.

(** Modelled from the spec: [GraphSafeRemoveNodes], the [remove_nodes] of
    section 6 with its test. *)
Definition GraphSafeRemoveNodes `{GraphCollaborator} (g : SSAGraph)
    (rm : gset node_id) : result SSAGraph :=
  if removal_is_safe g rm then Ok (remove_nodes g rm)
  else Err InvariantViolation.

(** [std::vector<float>(n, x)]: a negative count converts to a size beyond
    [max_size]. *)
Definition make_vector (n : Z) (x : float) : result (list float) :=
  if n <? 0 then Err OutOfRange else Ok (replicate (Z.to_nat n) x).

(** ** Patterns *)

(** Modelled from the spec: the classes [PMNode] and [PMPattern] and their
    methods are not part of the source.  Section 9 makes a pattern a
    data-only value of roles, connectivity and predicates, bound later by
    an external matcher; section 3 gives a role a lifecycle within a match:
    source input, generated output, or intermediate value slated for
    deletion. *)
Inductive PMAssert : Type :=
| IsOp (op_type : string)
| IsOpInput (op_type : string) (argname : option string)
| IsOpOutput (op_type : string) (argname : option string)
| OpAttrSatisfied (attr_name : string) (condition : string -> bool).

Inductive PMRole : Type := kUnknown | kInput | kOutput | kIntermediate.

Inductive PMType : Type := kOp (op_type : string) | kVar.

Record PMNode : Type := mkPMNode {
  pm_name : string;
  pm_type : PMType;
  pm_asserts : list PMAssert;
  pm_role : PMRole
}.

Record PMPattern : Type := mkPMPattern {
  pm_nodes : list PMNode;
  pm_edges : list (string * string)
}.

(** Modelled from the spec: [VarNode(key)] and [OpNode(key, op_type)]
    declare a role of the pattern under the name [key]. *)
Definition VarNode (key : string) : PMNode := mkPMNode key kVar [] kUnknown.

Definition OpNode (key op_type : string) : PMNode :=
  mkPMNode key (kOp op_type) [] kUnknown.

Definition add_assert (a : PMAssert) (n : PMNode) : PMNode :=
  mkPMNode (pm_name n) (pm_type n) (pm_asserts n ++ [a]) (pm_role n).

(** Modelled from the spec: the predicates a role must satisfy.  The
    argument name is optional, as in the calls of the source. *)
Definition assert_is_op (op_type : string) : PMNode -> PMNode :=
  add_assert (IsOp op_type).

Definition assert_is_op_input (op_type : string) (argname : option string)
  : PMNode -> PMNode :=
  add_assert (IsOpInput op_type argname).

Definition assert_is_op_output (op_type : string) (argname : option string)
  : PMNode -> PMNode :=
  add_assert (IsOpOutput op_type argname).

Definition assert_op_attr_satisfied (attr_name : string) (condition : string -> bool)
  : PMNode -> PMNode :=
  add_assert (OpAttrSatisfied attr_name condition).

Definition set_role (r : PMRole) (n : PMNode) : PMNode :=
  mkPMNode (pm_name n) (pm_type n) (pm_asserts n) r.

(** Modelled from the spec: the lifecycle of a role. *)
Definition AsInput : PMNode -> PMNode := set_role kInput.
Definition AsOutput : PMNode -> PMNode := set_role kOutput.
Definition AsIntermediate : PMNode -> PMNode := set_role kIntermediate.

(** Modelled from the spec: [n->LinksFrom({a, b})] declares the edges
    [a -> n] and [b -> n]. *)
Definition LinksFrom (n : PMNode) (others : list PMNode) : list (string * string) :=
  map (fun o => (pm_name o, pm_name n)) others.

(** [node->method(...)] chains read from left to right. *)
Notation "n '|>' f" := (f n) (at level 50, left associativity, only parsing).

(** ** The rewrite rules *)

Module DeleteQuantOpFuser.
Definition BuildPattern (quant_op_type_ : string) : PMPattern :=
  let input_scale_node :=
    VarNode "input_scale_node"
    |> assert_is_op_input quant_op_type_ (Some "InScale") in
  let input_act_node :=
    VarNode "input_act_node" |> assert_is_op_input quant_op_type_ (Some "X") in
  let quant_node :=
    OpNode "quant_node" quant_op_type_ |> assert_is_op quant_op_type_ in
  let output_scale_node :=
    VarNode "output_scale_node"
    |> assert_is_op_output quant_op_type_ (Some "OutScale") in
  let output_act_node :=
    VarNode "output_act_node" |> assert_is_op_output quant_op_type_ (Some "Out") in
  mkPMPattern
    [input_scale_node; input_act_node; quant_node; output_scale_node;
     output_act_node]
    (LinksFrom quant_node [input_scale_node; input_act_node]
     ++ LinksFrom output_scale_node [quant_node]
     ++ LinksFrom output_act_node [quant_node]).

Section Rewrite.
Context `{GraphCollaborator}.

(** The body of the loop over the consumers of the quantized output. *)
Definition relink_quantized_node (input_act_node : node_id)
  (in_act_name out_act_name : string) (bit_length : Z) (scale_value : float)
  (g : SSAGraph) (quantized_node : node_id) : result SSAGraph :=
do op_desc <- stmt_op_info g quantized_node;
let op_desc := SetInputScale op_desc out_act_name [scale_value] in
let op_desc := SetAttr op_desc "bit_length" (AttrInt bit_length) in
let op_desc := UpdateAllInputs op_desc out_act_name in_act_name in
do g <- ResetOp g quantized_node op_desc;
IR_NODE_LINK_TO g input_act_node quantized_node.

Definition InsertNewNode (st : State) (matched : key2nodes_t) : result State :=
let g := graph st in
do input_scale_node <- at_ matched "input_scale_node";
do input_act_node <- at_ matched "input_act_node";
do quant_node <- at_ matched "quant_node";
do output_scale_node <- at_ matched "output_scale_node";
do output_act_node <- at_ matched "output_act_node";
(* obtain scale, save attrs and relink node *)
do quant_info <- stmt_op_info g quant_node;
do bit_length <- GetAttr_int quant_info "bit_length";
do range <- range_of_bit_length bit_length;
do output_scale_name <- arg_name g output_scale_node;
do scale_tensor <- lookup_tensor (scope st) output_scale_name;
do scale_data <- data_float scale_tensor;
do scale0 <- first_elem scale_data;
let scale_value := float_div scale0 (float_of_int range) in
do in_act_name <- arg_name g input_act_node;
do out_act_name <- arg_name g output_act_node;
do outlinks <- node_outlinks g output_act_node;
do g <- for_each
          (relink_quantized_node input_act_node in_act_name out_act_name
             bit_length scale_value)
          outlinks g;
(* delete nodes and edges *)
let nodes2rm : gset node_id :=
  {[input_scale_node; quant_node; output_scale_node; output_act_node]} in
do g <- GraphSafeRemoveNodes g nodes2rm;
Ok (mkState g (scope st)).
End Rewrite.
End DeleteQuantOpFuser.

(** The operator types the two dequantize fusers tell apart. *)
Definition is_conv_type (op_type : string) : bool :=
  bool_decide (op_type = "conv2d") || bool_decide (op_type = "depthwise_conv2d")
  || bool_decide (op_type = "conv2d_transpose").

Definition is_mul_type (op_type : string) : bool :=
  bool_decide (op_type = "mul") || bool_decide (op_type = "matmul").

(** The last steps of both dequantize fusers: the weight buffer is read
    as floats and every element is cast to [int8_t]; then a new operator
    node is created and linked. *)
Definition cast_weight_to_int8 (quantized_weight_t : Tensor) : result Tensor :=
  let temp_tensor := CopyDataFrom quantized_weight_t in
  do temp_data <- data_float temp_tensor;
  let weight_num := data_size quantized_weight_t in
  do quantized_weight_data <- convert_elements quantize_truncated weight_num temp_data;
  let t := set_buffer quantized_weight_t (BufInt8 quantized_weight_data) in
  let t := set_persistable t true in
  Ok (set_precision t kInt8).

Definition create_and_link (g : SSAGraph) (op_desc : OpInfo)
    (quantized_op_input quantized_op_weight dequant_op_out : node_id)
  : result SSAGraph :=
  let '(g, new_quantized_op_node) := GraphCreateInstructNode g op_desc in
  do g <- IR_NODE_LINK_TO g quantized_op_input new_quantized_op_node;
  do g <- IR_NODE_LINK_TO g quantized_op_weight new_quantized_op_node;
  IR_NODE_LINK_TO g new_quantized_op_node dequant_op_out.

Module DequantOpFuser.
Definition BuildPattern (quantized_op_type_ : string) : PMPattern :=
  let weight_argname := GetWeightArgname quantized_op_type_ in
  let quantized_op_input :=
    VarNode "quantized_op_input"
    |> assert_is_op_input quantized_op_type_ None
    |> AsInput in
  let quantized_op_weight :=
    VarNode "quantized_op_weight"
    |> assert_is_op_input quantized_op_type_ (Some weight_argname)
    |> AsInput in
  let quantized_op :=
    OpNode "quantized_op" quantized_op_type_
    |> assert_is_op quantized_op_type_
    |> AsIntermediate in
  let quantized_op_out :=
    VarNode "quantized_op_out"
    |> assert_is_op_output quantized_op_type_ None
    |> assert_is_op_input "fake_dequantize_max_abs" (Some "X")
    |> AsIntermediate in
  let dequant_op :=
    OpNode "dequant_op" "fake_dequantize_max_abs"
    |> assert_is_op "fake_dequantize_max_abs"
    |> AsIntermediate in
  let dequant_op_out :=
    VarNode "dequant_op_out"
    |> assert_is_op_output "fake_dequantize_max_abs" (Some "Out")
    |> AsOutput in
  mkPMPattern
    [quantized_op_input; quantized_op_weight; quantized_op; quantized_op_out;
     dequant_op; dequant_op_out]
    (LinksFrom quantized_op [quantized_op_input; quantized_op_weight]
     ++ LinksFrom quantized_op_out [quantized_op]
     ++ LinksFrom dequant_op [quantized_op_out]
     ++ LinksFrom dequant_op_out [dequant_op]).

Definition InsertNewNode (quantized_op_type_ : string) (st : State)
    (matched : key2nodes_t) : result State :=
  let g := graph st in
  do quantized_op_input <- at_ matched "quantized_op_input";
  do quantized_op_weight <- at_ matched "quantized_op_weight";
  do quantized_op <- at_ matched "quantized_op";
  do dequant_op <- at_ matched "dequant_op";
  do dequant_op_out <- at_ matched "dequant_op_out";
  do weight_name <- arg_name g quantized_op_weight;
  (* obtain weight_scale from max_range *)
  do quantized_info <- stmt_op_info g quantized_op;
  do bit_length <- GetAttr_int quantized_info "bit_length";
  do range <- range_of_bit_length bit_length;
  do dequant_info <- stmt_op_info g dequant_op;
  do max_range <- GetAttr_float dequant_info "max_range";
  do range2 <- Int32.mul range range;
  let whole_weight_scale :=
    float_div (float_div (float_of_int range2) max_range) (float_of_int range) in
  (* set op desc *)
  let op_desc := quantized_info in
  let quantized_weight_var_name := weight_name in
  do quantized_weight_t <- lookup_tensor (scope st) quantized_weight_var_name;
  do sized <-
    (if is_conv_type quantized_op_type_ then
       do in_name <- arg_name g quantized_op_input;
       let op_desc := SetInput op_desc "Input" [in_name] in
       do out_name <- arg_name g dequant_op_out;
       let op_desc := SetOutput op_desc "Output" [out_name] in
       do d <- dims_at quantized_weight_t 0;
       Ok (op_desc, Int32.narrow d)
     else if is_mul_type quantized_op_type_ then
       do in_name <- arg_name g quantized_op_input;
       let op_desc := SetInput op_desc "X" [in_name] in
       do out_name <- arg_name g dequant_op_out;
       let op_desc := SetOutput op_desc "Out" [out_name] in
       do d <- dims_at quantized_weight_t 1;
       Ok (op_desc, Int32.narrow d)
     else Ok (op_desc, 0));
  let '(op_desc, weight_scale_size) := sized in
  let weight_scale := replicate (Z.to_nat weight_scale_size) whole_weight_scale in
  let op_desc := SetAttr op_desc "enable_int8" (AttrBool true) in
  let op_desc := SetInputScale op_desc weight_name weight_scale in
  (* change the weight from the float type to int8 type. *)
  do quantized_weight_t <- cast_weight_to_int8 quantized_weight_t;
  let scope := <[quantized_weight_var_name := quantized_weight_t]> (scope st) in
  (* new op and relink nodes *)
  do g <- create_and_link g op_desc quantized_op_input quantized_op_weight
            dequant_op_out;
  Ok (mkState g scope).
End DequantOpFuser.

Module ChannelWiseDequantOpFuser.
Definition BuildPattern (quantized_op_type_ : string) : PMPattern :=
  let dequant_op_type := "fake_channel_wise_dequantize_max_abs" in
  let weight_argname := GetWeightArgname quantized_op_type_ in
  let quantized_op_input :=
    VarNode "quantized_op_input"
    |> assert_is_op_input quantized_op_type_ None
    |> AsInput in
  let quantized_op_weight :=
    VarNode "quantized_op_weight"
    |> assert_is_op_input quantized_op_type_ (Some weight_argname)
    |> AsInput in
  let quantized_op :=
    OpNode "quantized_op" quantized_op_type_
    |> assert_is_op quantized_op_type_
    |> AsIntermediate in
  let quantized_op_out :=
    VarNode "quantized_op_out"
    |> assert_is_op_output quantized_op_type_ None
    |> assert_is_op_input dequant_op_type (Some "X")
    |> AsIntermediate in
  (* The scale var_node of input activation is deleted in DeleteQuantOpFuser *)
  let dequant_op_channel_scale :=
    VarNode "dequant_op_channel_scale"
    |> assert_is_op_input dequant_op_type None
    |> AsIntermediate in
  let dequant_op :=
    OpNode "dequant_op" dequant_op_type
    |> assert_is_op dequant_op_type
    |> AsIntermediate in
  let dequant_op_out :=
    VarNode "dequant_op_out"
    |> assert_is_op_output dequant_op_type (Some "Out")
    |> AsOutput in
  mkPMPattern
    [quantized_op_input; quantized_op_weight; quantized_op; quantized_op_out;
     dequant_op_channel_scale; dequant_op; dequant_op_out]
    (LinksFrom quantized_op [quantized_op_input; quantized_op_weight]
     ++ LinksFrom quantized_op_out [quantized_op]
     ++ LinksFrom dequant_op [quantized_op_out; dequant_op_channel_scale]
     ++ LinksFrom dequant_op_out [dequant_op]).

Definition InsertNewNode (quantized_op_type_ : string) (st : State)
    (matched : key2nodes_t) : result State :=
  let g := graph st in
  do quantized_op_input <- at_ matched "quantized_op_input";
  do quantized_op_weight <- at_ matched "quantized_op_weight";
  do quantized_op <- at_ matched "quantized_op";
  do dequant_op_channel_scale <- at_ matched "dequant_op_channel_scale";
  do dequant_op <- at_ matched "dequant_op";
  do dequant_op_out <- at_ matched "dequant_op_out";
  do weight_name <- arg_name g quantized_op_weight;
  (* obtain input weight_scale from fake_dequant op *)
  do quantized_info <- stmt_op_info g quantized_op;
  do dequant_info <- stmt_op_info g dequant_op;
  do quant_bits <- GetAttr_ints dequant_info "quant_bits";
  do weight_bit_length <-
    match quant_bits with
    | b :: _ => Ok b
    | [] => Err UndefinedBehavior
    end;
  do range <- range_of_bit_length weight_bit_length;
  do channel_scale_name <- arg_name g dequant_op_channel_scale;
  do channel_scale_tensor <- lookup_tensor (scope st) channel_scale_name;
  do channel_scale_data <- data_float channel_scale_tensor;
  let n := data_size channel_scale_tensor in
  do weight_scale <-
    (if (n <? 0) || (Z.of_nat (length channel_scale_data) <? n)
     then Err UndefinedBehavior
     else Ok (map (fun x => float_div x (float_of_int range))
                (take (Z.to_nat n) channel_scale_data)));
  (* set op desc *)
  let op_desc := quantized_info in
  do op_desc <-
    (if is_conv_type quantized_op_type_ then
       do in_name <- arg_name g quantized_op_input;
       let op_desc := SetInput op_desc "Input" [in_name] in
       do out_name <- arg_name g dequant_op_out;
       Ok (SetOutput op_desc "Output" [out_name])
     else if is_mul_type quantized_op_type_ then
       do in_name <- arg_name g quantized_op_input;
       let op_desc := SetInput op_desc "X" [in_name] in
       do out_name <- arg_name g dequant_op_out;
       Ok (SetOutput op_desc "Out" [out_name])
     else Ok op_desc);
  let op_desc := SetAttr op_desc "enable_int8" (AttrBool true) in
  let op_desc := SetInputScale op_desc weight_name weight_scale in
  (* change the weight from the float type to int8 type. *)
  let quantized_weight_var_name := weight_name in
  do quantized_weight_t <- lookup_tensor (scope st) quantized_weight_var_name;
  do quantized_weight_t <- cast_weight_to_int8 quantized_weight_t;
  let scope := <[quantized_weight_var_name := quantized_weight_t]> (scope st) in
  (* new op and relink nodes *)
  do g <- create_and_link g op_desc quantized_op_input quantized_op_weight
            dequant_op_out;
  Ok (mkState g scope).
End ChannelWiseDequantOpFuser.

Module QuantDequantOpFuser.
Definition BuildPattern (quant_dequant_op_type_ : string) : PMPattern :=
  let input_var_node :=
    VarNode "input_var_node"
    |> assert_is_op_input quant_dequant_op_type_ (Some "X") in
  let quant_dequant_node :=
    OpNode "quant_dequant_node" quant_dequant_op_type_
    |> assert_is_op quant_dequant_op_type_ in
  let output_scale_node :=
    VarNode "output_scale_node"
    |> assert_is_op_output quant_dequant_op_type_ (Some "OutScale") in
  let output_var_node :=
    VarNode "output_var_node"
    |> assert_is_op_output quant_dequant_op_type_ (Some "Out") in
  let '(declared, links) :=
    if bool_decide (quant_dequant_op_type_
                    = "fake_quantize_dequantize_moving_average_abs_max")
    then
      let input_scale_node :=
        VarNode "input_scale_node"
        |> assert_is_op_input quant_dequant_op_type_ (Some "InScale") in
      ([input_scale_node],
       LinksFrom quant_dequant_node [input_scale_node; input_var_node])
    else ([], LinksFrom quant_dequant_node [input_var_node]) in
  mkPMPattern
    ([input_var_node; quant_dequant_node; output_scale_node; output_var_node]
     ++ declared)
    (links
     ++ LinksFrom output_scale_node [quant_dequant_node]
     ++ LinksFrom output_var_node [quant_dequant_node]).

Section Rewrite.
Context `{GraphCollaborator}.

Definition abs_max_type : string := "fake_quantize_dequantize_abs_max".
Definition moving_average_type : string :=
"fake_quantize_dequantize_moving_average_abs_max".

(** [CHECK_EQ] on the operator type of the fuser. *)
Definition check_type (quant_dequant_op_type_ expected : string) : result unit :=
if bool_decide (quant_dequant_op_type_ = expected) then Ok tt
else Err InvariantViolation.

(** The part before the loop that yields the threshold. *)
Definition get_threshold (quant_dequant_op_type_ : string) (st : State)
  (input_var_is_weight : bool) (input_var_tensor : Tensor)
  (output_scale_node : node_id) : result float :=
if input_var_is_weight then
  do _ <- check_type quant_dequant_op_type_ abs_max_type;
  do input_var_data <- data_float input_var_tensor;
  FindAbsMax input_var_data (Int32.narrow (numel input_var_tensor))
else
  do _ <- check_type quant_dequant_op_type_ moving_average_type;
  do output_scale_name <- arg_name (graph st) output_scale_node;
  do scale_tensor <- lookup_tensor (scope st) output_scale_name;
  do scale_data <- data_float scale_tensor;
  first_elem scale_data.

Definition quant_axis (op_type : string) : nat :=
if bool_decide (op_type = "conv2d") || bool_decide (op_type = "depthwise_conv2d")
then 0%nat else 1%nat.

Definition converts_weight (op_type : string) : bool :=
bool_decide (op_type = "mul") || bool_decide (op_type = "conv2d")
|| bool_decide (op_type = "depthwise_conv2d").

(** The body of the loop over the consumers of the output variable.
  [input_var_tensor] is a pointer into the storage: the tensor is read
  from, and written back to, the storage at every use. *)
Definition update_quantized_node (input_var_node : node_id)
  (input_var_name output_var_name : string) (input_var_is_weight : bool)
  (bit_length : Z) (scale_value : float)
  (st : State) (quantized_node : node_id) : result State :=
do op_info <- stmt_op_info (graph st) quantized_node;
let op_info := UpdateAllInputs op_info output_var_name input_var_name in
let op_info := SetAttr op_info "bit_length" (AttrInt bit_length) in
do updated <-
  (if input_var_is_weight then
     do input_var_tensor <- lookup_tensor (scope st) input_var_name;
     (* the quant axis of conv2d and depthwise_conv2d is 0
        the quant axis of conv2d_transpose, mul and matmul is 1 *)
     let op_type := Type_ op_info in
     do d <- dims_at input_var_tensor (quant_axis op_type);
     let scale_size := Int32.narrow d in
     do scales <- make_vector scale_size scale_value;
     let op_info := SetInputScale op_info input_var_name scales in
     if converts_weight op_type then
       let op_info := SetAttr op_info "enable_int8" (AttrBool true) in
       do t <- QuantizeTensorInPlace input_var_tensor scale_value;
       Ok (op_info, <[input_var_name := t]> (scope st))
     else Ok (op_info, scope st)
   else
     Ok (SetInputScale op_info input_var_name [scale_value], scope st));
let '(op_info, scope) := updated in
do g <- ResetOp (graph st) quantized_node op_info;
do g <- IR_NODE_LINK_TO g input_var_node quantized_node;
Ok (mkState g scope).

Definition InsertNewNode (quant_dequant_op_type_ : string) (st : State)
  (matched : key2nodes_t) : result State :=
let g := graph st in
do input_var_node <- at_ matched "input_var_node";
do quant_dequant_node <- at_ matched "quant_dequant_node";
do output_scale_node <- at_ matched "output_scale_node";
do output_var_node <- at_ matched "output_var_node";
do input_var_name <- arg_name g input_var_node;
do output_var_name <- arg_name g output_var_node;
do input_var_is_weight <- arg_is_weight g input_var_node;
(* get scale value *)
do quant_dequant_info <- stmt_op_info g quant_dequant_node;
do input_var_tensor <- lookup_tensor (scope st) input_var_name;
do threshold <- get_threshold quant_dequant_op_type_ st input_var_is_weight
                  input_var_tensor output_scale_node;
do bit_length <- GetAttr_int quant_dequant_info "bit_length";
do range <- range_of_bit_length bit_length;
let scale_value := float_div threshold (float_of_int range) in
(* update op_info of the quantized op: the loop walks
   output_var_node->outlinks itself while its body appends to
   input_var_node->outlinks, which must be another list *)
do outlinks <- node_outlinks g output_var_node;
do _ <- (if bool_decide (input_var_node = output_var_node)
         then Err UndefinedBehavior else Ok tt);
do st <- for_each
           (update_quantized_node input_var_node input_var_name
              output_var_name input_var_is_weight bit_length scale_value)
           outlinks st;
(* delete nodes and edges *)
let nodes2rm : gset node_id :=
  {[quant_dequant_node; output_scale_node; output_var_node]} in
do nodes2rm <-
  (if bool_decide (quant_dequant_op_type_ = moving_average_type) then
     do input_scale_node <- at_ matched "input_scale_node";
     Ok (nodes2rm ∪ {[input_scale_node]})
   else Ok nodes2rm);
do g <- GraphSafeRemoveNodes (graph st) nodes2rm;
Ok (mkState g (scope st)).
End Rewrite.
End QuantDequantOpFuser.

Module DynamicQuantOpFuser.
Definition BuildPattern (op_type_ input_argname_ : string) : PMPattern :=
  let weight_node :=
    VarNode "weight_node" |> assert_is_op_input op_type_ (Some input_argname_) in
  (* op_node should have "quantization_type" attribute *)
  let op_node :=
    OpNode "op_node" op_type_
    |> assert_is_op op_type_
    |> assert_op_attr_satisfied "quantization_type" (fun x => true) in
  mkPMPattern [weight_node; op_node] (LinksFrom op_node [weight_node]).

(** The conversion at the end of the rewrite: the same steps as
    [QuantizeTensorInPlace], then the two flags. *)
Definition convert_weight (weight_tensor : Tensor) (weight_scale : float)
  : result Tensor :=
  let temp_tensor := CopyDataFrom weight_tensor in
  let weight_tensor := clear weight_tensor in
  do temp_data <- data_float temp_tensor;
  let weight_num := data_size weight_tensor in
  do weight_data <- convert_elements (quantize_rounded weight_scale) weight_num
                      temp_data;
  let t := set_buffer weight_tensor (BufInt8 weight_data) in
  let t := set_persistable t true in
  Ok (set_precision t kInt8).

Definition InsertNewNode (op_type_ input_argname_ : string) (st : State)
    (matched : key2nodes_t) : result State :=
  let g := graph st in
  do op_node <- at_ matched "op_node";
  do weight_node <- at_ matched "weight_node";
  do op_info <- stmt_op_info g op_node;
  do weight_name <- arg_name g weight_node;
  do weight_tensor <- lookup_tensor (scope st) weight_name;
  let weight_dims := dims weight_tensor in
  do _ <- (if bool_decide (length weight_dims = 2%nat) then Ok tt
           else Err InvariantViolation);
  (* process weight scale *)
  do bit_length <- GetAttr_int op_info "bit_length";
  do weight_threshold <- GetAttr_float op_info (input_argname_ +:+ "0_threshold");
  do range <- range_of_bit_length bit_length;
  let weight_scale := float_div weight_threshold (float_of_int range) in
  do d <- dims_at weight_tensor 1;
  do weight_scale_vct <- make_vector d weight_scale;
  let op_info := SetAttr op_info "enable_int8" (AttrBool true) in
  let op_info := SetAttr op_info "bit_length" (AttrInt bit_length) in
  let op_info := SetInputScale op_info weight_name weight_scale_vct in
  do g <- ResetOp g op_node op_info;
  (* convert the weight from float to int8 *)
  do weight_tensor <- convert_weight weight_tensor weight_scale;
  Ok (mkState g (<[weight_name := weight_tensor]> (scope st))).
End DynamicQuantOpFuser.


(** ** Vocabulary of the statements *)

(** The element [std::max_element] settles on, as a fold. *)
Definition largest_of {A : Type} (comp : A -> A -> bool) (largest : A)
    (rest : list A) : A :=
  fold_left (fun l x => if comp l x then x else l) rest largest.

(** [spec_float] has more representations than binary32 has numbers;
    these are the binary32 numbers. *)
Definition is_binary32 (x : float) : Prop := valid_binary prec emax x = true.

Definition kind_of (g : SSAGraph) (n : node_id) : option NodeKind :=
  kind <$> g !! n.

Definition upd_kind (F : OpInfo -> OpInfo) (k : NodeKind) : NodeKind :=
  match k with
  | Stmt op => Stmt (F op)
  | Arg name w => Arg name w
  end.

(** [g'] has the nodes of [g]; the descriptors of the statements in [l]
    went through [F], every other node kept its kind. *)
Definition relinked (F : OpInfo -> OpInfo) (l : list node_id)
    (g g' : SSAGraph) : Prop :=
  dom g' = dom g
  /\ forall k, kind_of g' k
               = if decide (k ∈ l) then upd_kind F <$> kind_of g k else kind_of g k.

(** What [DeleteQuantOpFuser] does to the descriptor of a consumer. *)
Definition DeleteQuant_update (in_act_name out_act_name : string)
    (bit_length : Z) (scale_value : float) (op : OpInfo) : OpInfo :=
  UpdateAllInputs
    (SetAttr (SetInputScale op out_act_name [scale_value])
       "bit_length" (AttrInt bit_length))
    out_act_name in_act_name.

(** What [QuantDequantOpFuser] does to the descriptor of a consumer of a
    weight whose tensor has the shape [tensor_dims]. *)
Definition QuantDequant_weight_update (input_var_name output_var_name : string)
    (bit_length : Z) (scale_value : float) (tensor_dims : list Z) (op : OpInfo)
  : OpInfo :=
  let op1 :=
    SetAttr (UpdateAllInputs op output_var_name input_var_name)
      "bit_length" (AttrInt bit_length) in
  match tensor_dims !! QuantDequantOpFuser.quant_axis (Type_ op) with
  | Some d =>
      let op2 :=
        SetInputScale op1 input_var_name
          (replicate (Z.to_nat (Int32.narrow d)) scale_value) in
      if QuantDequantOpFuser.converts_weight (Type_ op)
      then SetAttr op2 "enable_int8" (AttrBool true)
      else op2
  | None => op1
  end.

(** [n] conversions in a row, each reading the buffer the one before
    wrote. *)
Fixpoint quantize_times (n : nat) (t : Tensor) (scale : float) : result Tensor :=
  match n with
  | O => Ok t
  | S n' => do t' <- QuantizeTensorInPlace t scale; quantize_times n' t' scale
  end.

(** The operator type of a statement node. *)
Definition stmt_type (g : SSAGraph) (n : node_id) : option string :=
  match kind_of g n with
  | Some (Stmt op) => Some (Type_ op)
  | _ => None
  end.

(** The nodes of [l] whose operator type is one the rewrite converts the
    weight for. *)
Definition is_converting (g : SSAGraph) (c : node_id) : bool :=
  match stmt_type g c with
  | Some ty => bool_decide (ty ∈ ["mul"; "conv2d"; "depthwise_conv2d"])
  | None => false
  end.

Definition converting (g : SSAGraph) (l : list node_id) : list node_id :=
  filter (fun c => is_converting g c = true) l.

(** A consumer the loop over a weight can process: a statement whose
    quantization axis exists in the shape [ds], with a size that is an
    [int]. *)
Definition weight_consumer (g : SSAGraph) (ds : list Z) (c : node_id) : Prop :=
  exists op d,
    kind_of g c = Some (Stmt op)
    /\ ds !! QuantDequantOpFuser.quant_axis (Type_ op) = Some d
    /\ 0 <= d < 2 ^ 31.

(** [q] steps of size [s] are within [k] steps of the float [t] counted
    in steps of [s]: |t * s - q * s| <= k * |s|.  For the rounding rules
    [t] is the quotient [v / s] the code computes, for the truncating
    rules it is the stored weight element. *)
Definition scaled_within (k : Q) (s t : float) (q : Z) : Prop :=
  exists qt qs,
    float_to_Q t = Some qt /\ float_to_Q s = Some qs
    /\ (Qabs (qt * qs - inject_Z q * qs) <= k * Qabs qs)%Q.

(** The round-trip bound read literally: |v - q * s| <= k * s. *)
Definition roundtrip_within (k : Q) (s v : float) (q : Z) : Prop :=
  exists qv qs,
    float_to_Q v = Some qv /\ float_to_Q s = Some qs
    /\ (Qabs (qv - inject_Z q * qs) <= k * qs)%Q.

(** ** Concrete graphs *)

Module Examples.
(** A collaborator that accepts every removal. *)
Definition always_safe : GraphCollaborator :=
  {| removal_is_safe := fun _ _ => true |}.

Definition op0 (ty : string) : OpInfo := mkOpInfo ty ∅ ∅ ∅ ∅.

(** An activation quantizer (bit length 8, recorded scale 5) in front
    of a convolution. *)
Definition delete_quant_graph : SSAGraph :=
  list_to_map [
    (0%nat, mkNode (Arg "x.scale_in" false) [] [2%nat]);
    (1%nat, mkNode (Arg "x" false) [] [2%nat]);
    (2%nat, mkNode
              (Stmt (SetAttr (op0 "fake_quantize_moving_average_abs_max")
                       "bit_length" (AttrInt 8)))
              [0%nat; 1%nat] [3%nat; 4%nat]);
    (3%nat, mkNode (Arg "x.scale" false) [2%nat] []);
    (4%nat, mkNode (Arg "x.q" false) [2%nat] [5%nat]);
    (5%nat, mkNode
              (Stmt (SetInput (SetInput (op0 "conv2d") "Input" ["x.q"])
                       "Filter" ["w"]))
              [4%nat] [])].

Definition delete_quant_scope : Scope :=
  {[ "x.scale" := mkTensor [1] (BufFloat [float_of_int 5]) true kFloat ]}.

Definition delete_quant_state : State :=
  mkState delete_quant_graph delete_quant_scope.

Definition delete_quant_match : key2nodes_t :=
  list_to_map [("input_scale_node", 0%nat); ("input_act_node", 1%nat);
               ("quant_node", 2%nat); ("output_scale_node", 3%nat);
               ("output_act_node", 4%nat)].

(** A matrix multiplication marked for dynamic quantization: weight of
    shape 10 x 20 filled with 1, threshold 5, bit length 8. *)
Definition dynamic_op : OpInfo :=
  SetAttr
    (SetAttr
       (SetAttr (SetInput (SetInput (op0 "matmul") "X" ["x"]) "Y" ["w"])
          "quantization_type" (AttrString "dynamic"))
       "bit_length" (AttrInt 8))
    "Y0_threshold" (AttrFloat (float_of_int 5)).

Definition dynamic_graph : SSAGraph :=
  list_to_map [
    (0%nat, mkNode (Arg "x" false) [] [2%nat]);
    (1%nat, mkNode (Arg "w" true) [] [2%nat]);
    (2%nat, mkNode (Stmt dynamic_op) [0%nat; 1%nat] [3%nat]);
    (3%nat, mkNode (Arg "y" false) [2%nat] [])].

Definition dynamic_weight : Tensor :=
  mkTensor [10; 20] (BufFloat (replicate 200 (float_of_int 1))) true kFloat.

Definition dynamic_state : State :=
  mkState dynamic_graph {[ "w" := dynamic_weight ]}.

Definition dynamic_match : key2nodes_t :=
  list_to_map [("op_node", 2%nat); ("weight_node", 1%nat)].

(** A convolution followed by a channel-wise dequantizer: two output
    channels with channel scales 127 and 254, stored weights 1.75 and
    -3, bit length 8. *)
Definition channel_wise_graph : SSAGraph :=
  list_to_map [
    (0%nat, mkNode (Arg "x" false) [] [2%nat]);
    (1%nat, mkNode (Arg "w" true) [] [2%nat]);
    (2%nat, mkNode
              (Stmt (SetOutput
                       (SetInput (SetInput (op0 "conv2d") "Input" ["x"])
                          "Filter" ["w"])
                       "Output" ["t"]))
              [0%nat; 1%nat] [3%nat]);
    (3%nat, mkNode (Arg "t" false) [2%nat] [5%nat]);
    (4%nat, mkNode (Arg "w.scale" true) [] [5%nat]);
    (5%nat, mkNode
              (Stmt (SetAttr (op0 "fake_channel_wise_dequantize_max_abs")
                       "quant_bits" (AttrInts [8])))
              [3%nat; 4%nat] [6%nat]);
    (6%nat, mkNode (Arg "y" false) [5%nat] [])].

Definition one_and_three_quarters : float :=
  float_div (float_of_int 7) (float_of_int 4).

Definition channel_wise_weight : Tensor :=
  mkTensor [2; 1; 1; 1]
    (BufFloat [one_and_three_quarters; float_of_int (-3)]) true kFloat.

Definition channel_wise_scale : Tensor :=
  mkTensor [2] (BufFloat [float_of_int 127; float_of_int 254]) true kFloat.

Definition channel_wise_state : State :=
  mkState channel_wise_graph
    (<["w" := channel_wise_weight]> {[ "w.scale" := channel_wise_scale ]}).

Definition channel_wise_match : key2nodes_t :=
  list_to_map [("quantized_op_input", 0%nat); ("quantized_op_weight", 1%nat);
               ("quantized_op", 2%nat); ("dequant_op_channel_scale", 4%nat);
               ("dequant_op", 5%nat); ("dequant_op_out", 6%nat)].

(** A convolution with a weight of shape 16 x 8 x 3 x 3 followed by a
    per-tensor dequantizer with max_range 254, bit length 8. *)
Definition dequant_conv_op : OpInfo :=
  SetAttr
    (SetOutput
       (SetInput (SetInput (op0 "conv2d") "Input" ["x"]) "Filter" ["w"])
       "Output" ["t"])
    "bit_length" (AttrInt 8).

Definition dequant_op_info : OpInfo :=
  SetAttr (op0 "fake_dequantize_max_abs") "max_range" (AttrFloat (float_of_int 254)).

Definition dequant_graph : SSAGraph :=
  list_to_map [
    (0%nat, mkNode (Arg "x" false) [] [2%nat]);
    (1%nat, mkNode (Arg "w" true) [] [2%nat]);
    (2%nat, mkNode (Stmt dequant_conv_op) [0%nat; 1%nat] [3%nat]);
    (3%nat, mkNode (Arg "t" false) [2%nat] [4%nat]);
    (4%nat, mkNode (Stmt dequant_op_info) [3%nat] [5%nat]);
    (5%nat, mkNode (Arg "y" false) [4%nat] [])].

Definition dequant_weight : Tensor :=
  mkTensor [16; 8; 3; 3] (BufFloat (replicate 1152 (float_of_int 3))) true kFloat.

Definition dequant_state : State :=
  mkState dequant_graph {[ "w" := dequant_weight ]}.

Definition dequant_match : key2nodes_t :=
  list_to_map [("quantized_op_input", 0%nat); ("quantized_op_weight", 1%nat);
               ("quantized_op", 2%nat); ("dequant_op", 4%nat);
               ("dequant_op_out", 5%nat)].

(** A convolution whose weight, of shape 4 x 3 x 3 x 3 and greatest
    absolute value 2, goes through a fused quantize-dequantize marker
    of bit length 8. *)
Definition qdq_op : OpInfo :=
  SetAttr (op0 "fake_quantize_dequantize_abs_max") "bit_length" (AttrInt 8).

Definition qdq_conv_op : OpInfo :=
  SetInput (SetInput (op0 "conv2d") "Input" ["x"]) "Filter" ["w.qdq"].

Definition qdq_graph : SSAGraph :=
  list_to_map [
    (0%nat, mkNode (Arg "w" true) [] [1%nat]);
    (1%nat, mkNode (Stmt qdq_op) [0%nat] [2%nat; 3%nat]);
    (2%nat, mkNode (Arg "w.scale" false) [1%nat] []);
    (3%nat, mkNode (Arg "w.qdq" false) [1%nat] [5%nat]);
    (4%nat, mkNode (Arg "x" false) [] [5%nat]);
    (5%nat, mkNode (Stmt qdq_conv_op) [3%nat; 4%nat] [6%nat]);
    (6%nat, mkNode (Arg "y" false) [5%nat] [])].

Definition qdq_weight_data : list float :=
  float_of_int (-2) :: replicate 107 (float_div (float_of_int 1) (float_of_int 2)).

Definition qdq_weight : Tensor :=
  mkTensor [4; 3; 3; 3] (BufFloat qdq_weight_data) true kFloat.

Definition qdq_state : State := mkState qdq_graph {[ "w" := qdq_weight ]}.

Definition qdq_match : key2nodes_t :=
  list_to_map [("input_var_node", 0%nat); ("quant_dequant_node", 1%nat);
               ("output_scale_node", 2%nat); ("output_var_node", 3%nat)].



(** The scale of the dynamic example, 5 / 127, and a small weight. *)
Definition five_over_127 : float := float_div (float_of_int 5) (float_of_int 127).

Definition small_weight : Tensor :=
  mkTensor [2] (BufFloat [float_of_int 1; float_of_int 0]) true kFloat.
End Examples.

(** ** Vocabulary of the further statements *)

Definition is_nan (x : float) : bool :=
  match x with S754_nan => true | _ => false end.

Definition is_zero (x : float) : bool :=
  match x with S754_zero _ => true | _ => false end.

(** The edge [a -> b] as its source records it, and as its target does. *)
Definition edge_out (g : SSAGraph) (a b : node_id) : Prop :=
  b ∈ default [] (outlinks <$> g !! a).

Definition edge_in (g : SSAGraph) (a b : node_id) : Prop :=
  a ∈ default [] (inlinks <$> g !! b).

(** Every edge a node records ends at a node of the graph that records
    it too. *)
Definition links_wf (g : SSAGraph) : Prop :=
  map_Forall
    (fun a na => Forall (fun b => edge_in g a b) (outlinks na)
                 /\ Forall (fun b => edge_out g b a) (inlinks na))
    g.

(** The names of the roles a pattern declares, and the matches that bind
    them all. *)
Definition pattern_keys (p : PMPattern) : list string := pm_name <$> pm_nodes p.

Definition binds (matched : key2nodes_t) (p : PMPattern) : Prop :=
  Forall (fun key => is_Some (matched !! key)) (pattern_keys p).

#[global] Instance PMRole_eq_dec : EqDecision PMRole.
Proof. solve_decision. Defined.

(** The nodes a match binds to the roles with lifecycle [r]. *)
Definition bound_as (p : PMPattern) (matched : key2nodes_t) (r : PMRole)
  : list node_id :=
  omap (fun key => matched !! key)
    (pm_name <$> filter (fun n => pm_role n = r) (pm_nodes p)).

#[global] Instance edge_out_dec (g : SSAGraph) (a b : node_id) : Decision (edge_out g a b).
Proof. unfold edge_out. apply _. Defined.

#[global] Instance edge_in_dec (g : SSAGraph) (a b : node_id) : Decision (edge_in g a b).
Proof. unfold edge_in. apply _. Defined.

#[global] Instance links_wf_dec (g : SSAGraph) : Decision (links_wf g).
Proof. unfold links_wf. apply _. Defined.

(** A match binds role names to nodes of the graph. *)
Definition match_in_graph (matched : key2nodes_t) (g : SSAGraph) : Prop :=
  map_Forall (fun _ n => n ∈ dom g) matched.

#[global] Instance match_in_graph_dec (matched : key2nodes_t) (g : SSAGraph)
  : Decision (match_in_graph matched g).
Proof. unfold match_in_graph. apply _. Defined.

(** [g'] has the nodes of [g] with their kinds, but for the descriptors of
    the statements in [reset]; its edges are those of [g] and the edges
    [added]; a node outside [reset] and off the edges [added] is as it
    was. *)
Record rewired (reset : list node_id) (added : list (node_id * node_id))
    (g g' : SSAGraph) : Prop := {
  rewired_dom : dom g' = dom g;
  rewired_kind : forall k, k ∉ reset -> kind_of g' k = kind_of g k;
  rewired_stmt : forall k op, kind_of g k = Some (Stmt op) ->
                              exists op', kind_of g' k = Some (Stmt op');
  rewired_out : forall x y, edge_out g' x y <-> edge_out g x y \/ (x, y) ∈ added;
  rewired_in : forall x y, edge_in g' x y <-> edge_in g x y \/ (x, y) ∈ added;
  rewired_frame : forall k, k ∉ reset -> k ∉ added.*1 -> k ∉ added.*2 ->
                            g' !! k = g !! k
}.

(** What [QuantDequantOpFuser] does to the descriptor of a consumer of an
    activation. *)
Definition QuantDequant_activation_update (input_var_name output_var_name : string)
    (bit_length : Z) (scale_value : float) (op : OpInfo) : OpInfo :=
  SetInputScale
    (SetAttr (UpdateAllInputs op output_var_name input_var_name)
       "bit_length" (AttrInt bit_length))
    input_var_name [scale_value].

(** What the two dequantize fusers do to the named arguments of the
    descriptor they copy. *)
Definition Dequant_io_update (quantized_op_type_ in_name out_name : string)
    (op : OpInfo) : OpInfo :=
  if is_conv_type quantized_op_type_
  then SetOutput (SetInput op "Input" [in_name]) "Output" [out_name]
  else if is_mul_type quantized_op_type_
       then SetOutput (SetInput op "X" [in_name]) "Out" [out_name]
       else op.

(** What a run of either dequantize fuser that returned has done. *)
Definition dequant_fused (quantized_op_type_ : string) (st st' : State)
    (matched : key2nodes_t) : Prop :=
  exists (quantized_op_input quantized_op_weight quantized_op dequant_op_out : node_id)
         (weight_name in_name out_name : string) (w : bool) (quantized_info : OpInfo)
         (weight_t : Tensor) (xs : list float) (qs : list Z)
         (weight_scale : list float),
    matched !! "quantized_op_input" = Some quantized_op_input
    /\ matched !! "quantized_op_weight" = Some quantized_op_weight
    /\ matched !! "quantized_op" = Some quantized_op
    /\ matched !! "dequant_op_out" = Some dequant_op_out
    /\ kind_of (graph st) quantized_op_weight = Some (Arg weight_name w)
    /\ kind_of (graph st) quantized_op = Some (Stmt quantized_info)
    /\ (is_conv_type quantized_op_type_ || is_mul_type quantized_op_type_ = true ->
        (exists w0, kind_of (graph st) quantized_op_input = Some (Arg in_name w0))
        /\ (exists w2, kind_of (graph st) dequant_op_out = Some (Arg out_name w2)))
    /\ scope st !! weight_name = Some weight_t
    /\ buffer weight_t = BufFloat xs
    /\ 0 <= numel weight_t <= Z.of_nat (length xs)
    /\ Forall2 (fun x q => quantize_truncated x = Ok q)
         (take (Z.to_nat (numel weight_t)) xs) qs
    /\ create_and_link (graph st)
         (SetInputScale
            (SetAttr (Dequant_io_update quantized_op_type_ in_name out_name
                        quantized_info)
               "enable_int8" (AttrBool true))
            weight_name weight_scale)
         quantized_op_input quantized_op_weight dequant_op_out
       = Ok (graph st')
    /\ scope st'
       = <[weight_name := mkTensor (dims weight_t) (BufInt8 qs) true kInt8]> (scope st).

(** A run that does not end in [std::out_of_range]. *)
Definition no_oor {A : Type} (r : result A) : Prop := r <> Err OutOfRange.

(** The tensors of the storage have shapes a C++ [int] can index. *)
Definition dims_in_int (sc : Scope) : Prop :=
  map_Forall (fun _ t => Forall (fun d => 0 <= d < 2 ^ 31) (dims t)) sc.

(** Whether the role a pattern declares under [key] is an operator. *)
Definition role_is_op (p : PMPattern) (key : string) : option bool :=
  (fun n => match pm_type n with kOp _ => true | kVar => false end)
    <$> head (filter (fun n => pm_name n = key) (pm_nodes p)).

(** A pattern is a graph over its roles in which variables and operators
    alternate: the roles have distinct names, every edge joins a declared
    variable and a declared operator, every role is at an edge, and every
    operator role asserts the type it was declared with. *)
Definition pattern_wf (p : PMPattern) : Prop :=
  NoDup (pattern_keys p)
  /\ Forall (fun e => exists a b, role_is_op p e.1 = Some a
                                 /\ role_is_op p e.2 = Some b /\ a <> b)
       (pm_edges p)
  /\ Forall (fun key => key ∈ (pm_edges p).*1 \/ key ∈ (pm_edges p).*2)
       (pattern_keys p)
  /\ Forall (fun n => match pm_type n with
                      | kOp op_type => head (pm_asserts n) = Some (IsOp op_type)
                      | kVar => True
                      end)
       (pm_nodes p).


(** ** Rounding of quotients *)

(** The flags of a shift record place the fraction [rho / D] in [0, 1). *)
Definition frac_loc (r s : bool) (rho D : Z) : Prop :=
  0 < D /\ 0 <= rho < D
  /\ match r, s with
     | false, false => rho = 0
     | false, true => 0 < rho /\ 2 * rho < D
     | true, false => 2 * rho = D
     | true, true => D < 2 * rho
     end.

(** The record stands for the number [N / D]. *)
Definition shr_inv (mrs : shr_record) (N D : Z) : Prop :=
  0 <= shr_m mrs
  /\ exists rho, frac_loc (shr_r mrs) (shr_s mrs) rho D /\ N = shr_m mrs * D + rho.

(** The number [m * 2^e]. *)
Definition Qval (m e : Z) : Q := (inject_Z m * 2 ^ e)%Q.

(** A binary32 number of the normal range: the mantissa has 24 digits. *)
Definition is_normal (x : float) : bool :=
  match x with
  | S754_finite _ m _ => 2 ^ 23 <=? Z.pos m
  | _ => false
  end.

(** ** Further concrete graphs *)

Module MoreExamples.
(** A collaborator that does the test of section 6 on the descriptors:
    it refuses a removal that takes away a variable which an operator
    that stays still names among its inputs. *)
Definition names_input (op : OpInfo) (name : string) : bool :=
  existsb (fun kv : string * list string => existsb (String.eqb name) kv.2)
    (map_to_list (inputs op)).

Definition still_referenced (g : SSAGraph) (rm : gset node_id) (op : OpInfo) : bool :=
  existsb (fun r => match kind_of g r with
                    | Some (Arg name _) => names_input op name
                    | _ => false
                    end)
    (elements rm).

Definition reference_checking : GraphCollaborator :=
  {| removal_is_safe := fun g rm =>
       forallb (fun kv : node_id * Node =>
                  match kind kv.2 with
                  | Stmt op => bool_decide (kv.1 ∈ rm) || negb (still_referenced g rm op)
                  | Arg _ _ => true
                  end)
         (map_to_list g) |}.

(** A fused quantize-dequantize marker of the moving-average type on
    the activation [x] (bit length 8, recorded scale 5) in front of a
    convolution. *)
Definition qdq_act_op : OpInfo :=
  SetAttr (Examples.op0 "fake_quantize_dequantize_moving_average_abs_max")
    "bit_length" (AttrInt 8).

Definition qdq_act_conv_op : OpInfo :=
  SetInput (SetInput (Examples.op0 "conv2d") "Input" ["x.qdq"]) "Filter" ["w"].

Definition qdq_act_graph : SSAGraph :=
  list_to_map [
    (0%nat, mkNode (Arg "x.scale_in" false) [] [2%nat]);
    (1%nat, mkNode (Arg "x" false) [] [2%nat]);
    (2%nat, mkNode (Stmt qdq_act_op) [0%nat; 1%nat] [3%nat; 4%nat]);
    (3%nat, mkNode (Arg "x.scale" false) [2%nat] []);
    (4%nat, mkNode (Arg "x.qdq" false) [2%nat] [5%nat]);
    (5%nat, mkNode (Stmt qdq_act_conv_op) [4%nat] [])].

Definition qdq_act_scope : Scope :=
  <["x" := mkTensor [1] (BufFloat [float_of_int 1]) false kFloat]>
    {[ "x.scale" := mkTensor [1] (BufFloat [float_of_int 5]) true kFloat ]}.

Definition qdq_act_state : State := mkState qdq_act_graph qdq_act_scope.

Definition qdq_act_match : key2nodes_t :=
  list_to_map [("input_var_node", 1%nat); ("quant_dequant_node", 2%nat);
               ("output_scale_node", 3%nat); ("output_var_node", 4%nat);
               ("input_scale_node", 0%nat)].

(** The weight marker of [Examples.qdq_graph] with a bit length of 16. *)
Definition qdq16_op : OpInfo :=
  SetAttr (Examples.op0 "fake_quantize_dequantize_abs_max") "bit_length" (AttrInt 16).

Definition qdq16_graph : SSAGraph :=
  <[1%nat := mkNode (Stmt qdq16_op) [0%nat] [2%nat; 3%nat]]> Examples.qdq_graph.

Definition qdq16_state : State :=
  mkState qdq16_graph {[ "w" := Examples.qdq_weight ]}.
End MoreExamples.


(** * Proofs *)

Ltac Zbool :=
  rewrite ?andb_true_iff, ?orb_false_iff, ?Z.leb_le, ?Z.ltb_lt, ?Z.ltb_ge, ?Z.leb_gt; lia.

Lemma Int32_checked_in (z : Z) :
  - 2 ^ 31 <= z <= 2 ^ 31 - 1 -> Int32.checked z = Ok z.
Proof.
  intros Hz. unfold Int32.checked, Int32.in_range, Int32.min_int, Int32.max_int.
  replace ((- 2 ^ 31 <=? z) && (z <=? 2 ^ 31 - 1)) with true by (symmetry; Zbool).
  reflexivity.
Qed.

Lemma range_of_bit_length_spec (b : Z) :
  1 <= b <= 31 -> range_of_bit_length b = Ok (2 ^ (b - 1) - 1).
Proof.
  intros Hb.
  assert (H1 : 1 <= 2 ^ (b - 1) <= 2 ^ 30).
  { split.
    - assert (0 < 2 ^ (b - 1)) by (apply Z.pow_pos_nonneg; lia). lia.
    - apply Z.pow_le_mono_r; lia. }
  unfold range_of_bit_length, Int32.sub, Int32.shl.
  rewrite Int32_checked_in by lia. cbn [bind].
  replace ((0 <=? 1) && (0 <=? b - 1) && (b - 1 <? 32)) with true
    by (symmetry; Zbool).
  rewrite Z.shiftl_1_l.
  rewrite Int32_checked_in by lia. cbn [bind].
  apply Int32_checked_in. lia.
Qed.

(** ** The order of absolute values *)


Lemma max_element_loop_lookup {A} (comp : A -> A -> bool) (rest pre : list A)
    (largest : A) (il : nat) :
  pre !! il = Some largest ->
  (pre ++ rest) !! max_element_loop comp largest il (length pre) rest
  = Some (largest_of comp largest rest).
Proof.
  revert pre largest il.
  induction rest as [|x rest IH]; intros pre largest il Hil; simpl.
  - rewrite app_nil_r. exact Hil.
  - specialize (IH (pre ++ [x])).
    rewrite length_app in IH. simpl in IH. rewrite Nat.add_1_r in IH.
    rewrite <- app_assoc in IH. simpl in IH.
    destruct (comp largest x).
    + apply IH. apply list_lookup_middle. reflexivity.
    + apply IH. apply lookup_app_l_Some. exact Hil.
Qed.

Lemma max_element_lookup {A} (comp : A -> A -> bool) (x : A) (rest : list A) :
  (x :: rest) !! max_element comp (x :: rest) = Some (largest_of comp x rest).
Proof. exact (max_element_loop_lookup comp rest [x] x 0 eq_refl). Qed.

Lemma largest_of_elem {A} (comp : A -> A -> bool) (rest : list A) (x : A) :
  largest_of comp x rest ∈ x :: rest.
Proof.
  revert x. induction rest as [|y rest IH]; intros x.
  - apply list_elem_of_here.
  - unfold largest_of in *. simpl. destruct (comp x y).
    + apply list_elem_of_further, IH.
    + specialize (IH x). apply elem_of_cons in IH as [->|IH].
      * apply list_elem_of_here.
      * do 2 apply list_elem_of_further. exact IH.
Qed.

Lemma float_le_abs_trans (a b c : float) :
  float_le (float_abs a) (float_abs b) = true ->
  float_le (float_abs b) (float_abs c) = true ->
  float_le (float_abs a) (float_abs c) = true.
Proof.
  unfold float_le, SFleb, float_abs.
  destruct a as [sa|sa| |sa ma ea], b as [sb|sb| |sb mb eb], c as [sc|sc| |sc mc ec];
    simpl; try (intros; congruence); try reflexivity.
  change (Pos.compare_cont Eq) with Pos.compare.
  destruct (Z.compare_spec ea eb), (Z.compare_spec eb ec), (Z.compare_spec ea ec);
    try lia; try (intros; congruence).
  all: destruct (Pos.compare_spec ma mb), (Pos.compare_spec mb mc), (Pos.compare_spec ma mc);
    try lia; intros; congruence.
Qed.

(** Without a NaN, the comparison decides the order. *)
Lemma abs_compare_true_le (a b : float) :
  abs_compare_func a b = true -> float_le (float_abs a) (float_abs b) = true.
Proof.
  unfold abs_compare_func, float_lt, float_le, SFltb, SFleb.
  destruct (SFcompare _ _) as [[]|]; congruence.
Qed.

Lemma abs_compare_false_le (a b : float) :
  a <> S754_nan -> b <> S754_nan ->
  abs_compare_func a b = false -> float_le (float_abs b) (float_abs a) = true.
Proof.
  unfold abs_compare_func, float_lt, float_le, SFltb, SFleb, float_abs.
  destruct a as [sa|sa| |sa ma ea], b as [sb|sb| |sb mb eb];
    simpl; try congruence; try reflexivity.
  intros _ _. change (Pos.compare_cont Eq) with Pos.compare.
  rewrite (Z.compare_antisym ea eb), (Pos.compare_antisym ma mb).
  destruct (Z.compare ea eb); simpl; try congruence.
  destruct (Pos.compare ma mb); simpl; congruence.
Qed.

Lemma float_le_abs_refl (a : float) :
  a <> S754_nan -> float_le (float_abs a) (float_abs a) = true.
Proof.
  unfold float_le, SFleb, float_abs. destruct a; simpl; try congruence.
  intros _. change (Pos.compare_cont Eq) with Pos.compare.
  rewrite Z.compare_refl, Pos.compare_refl. reflexivity.
Qed.

Lemma float_le_abs_antisym (a b : float) :
  float_le (float_abs a) (float_abs b) = true ->
  float_le (float_abs b) (float_abs a) = true ->
  float_abs a = float_abs b.
Proof.
  unfold float_le, SFleb, float_abs.
  destruct a as [sa|sa| |sa ma ea], b as [sb|sb| |sb mb eb];
    simpl; try congruence.
  change (Pos.compare_cont Eq) with Pos.compare.
  rewrite (Z.compare_antisym ea eb), (Pos.compare_antisym ma mb).
  destruct (Z.compare_spec ea eb); simpl; try congruence.
  destruct (Pos.compare_spec ma mb); simpl; congruence.
Qed.

Lemma largest_of_upper (rest : list float) (x : float) :
  Forall (fun y => y <> S754_nan) (x :: rest) ->
  Forall (fun z => float_le (float_abs z)
                     (float_abs (largest_of abs_compare_func x rest)) = true)
    (x :: rest).
Proof.
  revert x. induction rest as [|y rest IH]; intros x Hnan.
  - constructor; [|constructor]. apply float_le_abs_refl.
    apply Forall_cons in Hnan. tauto.
  - apply Forall_cons in Hnan as [Hx Hrest].
    pose proof Hrest as Hy. apply Forall_cons in Hy as [Hy Hrest'].
    change (largest_of abs_compare_func x (y :: rest))
      with (largest_of abs_compare_func
              (if abs_compare_func x y then y else x) rest).
    destruct (abs_compare_func x y) eqn:Hcmp.
    + specialize (IH y Hrest). constructor; [|exact IH].
      apply Forall_cons in IH as [IHy _].
      eapply float_le_abs_trans; [|exact IHy]. apply abs_compare_true_le, Hcmp.
    + assert (Hx' : Forall (fun y => y <> S754_nan) (x :: rest)) by (constructor; assumption).
      specialize (IH x Hx'). apply Forall_cons in IH as [IHx IHrest].
      constructor; [exact IHx|]. constructor; [|exact IHrest].
      eapply float_le_abs_trans; [|exact IHx]. apply abs_compare_false_le; assumption.
Qed.

Lemma is_abs_max_no_nan (l : list float) (m : float) :
  is_abs_max l m -> Forall (fun y => y <> S754_nan) l.
Proof.
  intros [_ Hle]. eapply Forall_impl; [exact Hle|].
  intros x Hx ->. discriminate Hx.
Qed.

Lemma FindAbsMax_take (input : list float) (size : Z) (m : float) :
  0 <= size <= Z.of_nat (length input) ->
  is_abs_max (take (Z.to_nat size) input) m ->
  FindAbsMax input size = Ok m.
Proof.
  intros Hsize Hmax. unfold FindAbsMax.
  replace ((size <? 0) || (Z.of_nat (length input) <? size)) with false
    by (symmetry; apply orb_false_iff; split; apply Z.ltb_ge; lia).
  pose proof (is_abs_max_no_nan _ _ Hmax) as Hnan.
  destruct Hmax as [Hin Hle].
  destruct (take (Z.to_nat size) input) as [|x rest] eqn:Hrange.
  - simpl in Hin. apply elem_of_nil in Hin. contradiction.
  - rewrite max_element_lookup. f_equal.
    apply list_elem_of_fmap in Hin as (z & -> & Hz).
    apply float_le_abs_antisym.
    + pose proof (largest_of_elem abs_compare_func rest x) as HL.
      rewrite Forall_forall in Hle. apply Hle. exact HL.
    + pose proof (largest_of_upper rest x Hnan) as Hup.
      rewrite Forall_forall in Hup. apply Hup. exact Hz.
Qed.

(** Claim C10.  For a buffer of n >= 1 floats, [FindAbsMax] returns the
    greatest of the absolute values |input[i]|, i < n: whenever [m] is that
    greatest value, the result is [m], and for a non-empty buffer the call
    always returns.  (A greatest value exists unless an entry is a NaN,
    which compares with nothing.)  For size 0 the iterator [max_element]
    returns is the end of the range, and dereferencing it has no defined
    behaviour. *)
Theorem FindAbsMax_spec (input : list float) :
  (forall m, is_abs_max input m ->
             FindAbsMax input (Z.of_nat (length input)) = Ok m)
  /\ (input <> [] -> is_Ok (FindAbsMax input (Z.of_nat (length input))) = true)
  /\ FindAbsMax input 0 = Err UndefinedBehavior.
Proof.
  split; [|split].
  - intros m Hmax. apply FindAbsMax_take; [lia|].
    rewrite Nat2Z.id, firstn_all. exact Hmax.
  - intros Hne. unfold FindAbsMax.
    replace ((Z.of_nat (length input) <? 0)
             || (Z.of_nat (length input) <? Z.of_nat (length input))) with false
      by (symmetry; apply orb_false_iff; split; apply Z.ltb_ge; lia).
    rewrite Nat2Z.id, firstn_all.
    destruct input as [|x rest]; [congruence|].
    rewrite max_element_lookup. reflexivity.
  - unfold FindAbsMax.
    replace ((0 <? 0) || (Z.of_nat (length input) <? 0)) with false
      by (symmetry; apply orb_false_iff; split; apply Z.ltb_ge; lia).
    reflexivity.
Qed.

Lemma FindAbsMax_spec_witness :
  FindAbsMax [float_of_int 3; float_of_int (-7); float_of_int 2] 3
  = Ok (float_of_int 7).
Proof.
  apply (proj1 (FindAbsMax_spec [float_of_int 3; float_of_int (-7); float_of_int 2])).
  split.
  - vm_compute. apply list_elem_of_further, list_elem_of_here.
  - repeat constructor.
Defined.

(** ** Integers as binary32 numbers *)

Lemma iter_xO_spec (n d : positive) :
  digits2_pos (Pos.iter xO n d) = (digits2_pos n + d)%positive
  /\ Z.pos (Pos.iter xO n d) = Z.pos n * 2 ^ Z.pos d.
Proof.
  apply (Pos.iter_ind positive xO n
           (fun d a => digits2_pos a = (digits2_pos n + d)%positive
                       /\ Z.pos a = Z.pos n * 2 ^ Z.pos d)).
  - split; simpl; [lia|]. change (Z.pos n~0) with (2 * Z.pos n). lia.
  - intros p a [Hd Hv]. split.
    + simpl. rewrite Hd. lia.
    + change (Z.pos a~0) with (2 * Z.pos a).
      rewrite Hv, Pos2Z.inj_succ, Z.pow_succ_r by lia. lia.
Qed.

Lemma digits2_pos_bound (n : positive) :
  2 ^ (Z.pos (digits2_pos n) - 1) <= Z.pos n < 2 ^ Z.pos (digits2_pos n).
Proof.
  induction n as [n IH|n IH|]; simpl digits2_pos.
  - rewrite Pos2Z.inj_succ. change (Z.pos n~1) with (2 * Z.pos n + 1).
    replace (Z.succ (Z.pos (digits2_pos n)) - 1) with (Z.succ (Z.pos (digits2_pos n) - 1)) by lia.
    rewrite !Z.pow_succ_r by lia. lia.
  - rewrite Pos2Z.inj_succ. change (Z.pos n~0) with (2 * Z.pos n).
    replace (Z.succ (Z.pos (digits2_pos n)) - 1) with (Z.succ (Z.pos (digits2_pos n) - 1)) by lia.
    rewrite !Z.pow_succ_r by lia. lia.
  - simpl. lia.
Qed.

Lemma digits2_pos_le (n : positive) (k : Z) :
  0 <= k -> Z.pos n < 2 ^ k -> Z.pos (digits2_pos n) <= k.
Proof.
  intros Hk Hn. pose proof (digits2_pos_bound n) as [Hlo _].
  destruct (Z_le_gt_dec (Z.pos (digits2_pos n)) k) as [|Hgt]; [assumption|exfalso].
  assert (2 ^ k <= 2 ^ (Z.pos (digits2_pos n) - 1)) by (apply Z.pow_le_mono_r; lia).
  lia.
Qed.

(** An integer below 2^24 converts to binary32 without rounding. *)
Lemma binary_round_int_exact (s : bool) (n : positive) :
  Z.pos n < 2 ^ 24 ->
  float_trunc (binary_round prec emax s n 0) = Some (cond_Zopp s (Z.pos n)).
Proof.
  intros Hn.
  pose proof (digits2_pos_le n 24 ltac:(lia) Hn) as Hdg.
  assert (Hshift : exists mz ez,
             shl_align n 0 (fexp prec emax (Z.pos (digits2_pos n) + 0)) = (mz, ez)
             /\ Z.pos (digits2_pos mz) = 24 /\ -23 <= ez <= 0
             /\ Z.pos mz = Z.pos n * 2 ^ (- ez)).
  { unfold shl_align, fexp, emin, prec, emax.
    replace (Z.max (Z.pos (digits2_pos n) + 0 - 24) (3 - 128 - 24))
      with (Z.pos (digits2_pos n) - 24) by lia.
    destruct (Z.pos (digits2_pos n) - 24 - 0) as [|d|d] eqn:Hd; try lia.
    - exists n, 0. repeat split; try lia.
    - destruct (iter_xO_spec n d) as [H1 H2].
      exists (Pos.iter xO n d), (Z.pos (digits2_pos n) - 24).
      repeat split; try lia.
      rewrite H2. f_equal. f_equal. lia. }
  destruct Hshift as (mz & ez & Hal & Hdz & Hez & Hmz).
  unfold binary_round. rewrite Hal.
  assert (Hshr : forall l, shr_fexp prec emax (Z.pos mz) ez l
                           = (shr_record_of_loc (Z.pos mz) l, ez)).
  { intros l. unfold shr_fexp, fexp, emin, prec, emax. simpl Zdigits2. rewrite Hdz.
    replace (Z.max (24 + ez - 24) (3 - 128 - 24) - ez) with 0 by lia. reflexivity. }
  unfold binary_round_aux. rewrite Hshr. simpl. rewrite Hshr. simpl.
  replace (ez <=? emax - prec) with true by (symmetry; apply Z.leb_le; unfold emax, prec; lia).
  unfold float_trunc. f_equal. f_equal.
  destruct (0 <=? ez) eqn:H0.
  - apply Z.leb_le in H0. assert (ez = 0) by lia. subst ez. simpl in Hmz. lia.
  - rewrite Hmz. apply Z.div_mul.
    assert (0 < 2 ^ (- ez)) by (apply Z.pow_pos_nonneg; lia). lia.
Qed.

Lemma binary_normalize_int_exact (s : bool) (n : Z) :
  0 <= n < 2 ^ 24 ->
  float_trunc (binary_normalize prec emax (cond_Zopp s n) 0 s) = Some (cond_Zopp s n).
Proof.
  intros Hn. destruct n as [|n|n]; try lia.
  - destruct s; reflexivity.
  - destruct s; simpl; apply binary_round_int_exact; lia.
Qed.


Lemma is_binary32_mantissa (s : bool) (m : positive) (e : Z) :
  is_binary32 (S754_finite s m e) -> Z.pos m < 2 ^ 24.
Proof.
  unfold is_binary32, valid_binary, bounded, canonical_mantissa, fexp, emin, prec, emax.
  intros H. apply andb_true_iff in H as [H _]. apply Z.eqb_eq in H.
  pose proof (digits2_pos_bound m) as [_ Hup].
  assert (Z.pos (digits2_pos m) <= 24) by lia.
  assert (2 ^ Z.pos (digits2_pos m) <= 2 ^ 24) by (apply Z.pow_le_mono_r; lia).
  lia.
Qed.

Lemma float_to_int8_Ok (x : float) (q : Z) :
  float_to_int8 x = Ok q -> float_trunc x = Some q /\ -128 <= q <= 127.
Proof.
  unfold float_to_int8. destruct (float_trunc x) as [z|]; [|discriminate].
  destruct ((-128 <=? z) && (z <=? 127)) eqn:Hr; [|discriminate].
  intros [= ->]. apply andb_true_iff in Hr as [H1 H2].
  apply Z.leb_le in H1, H2. split; [reflexivity|lia].
Qed.

(** Rounding to nearest: the rounded value is within 1/2 of the float. *)
Lemma float_round_error (t : float) (q : Z) :
  is_binary32 t ->
  float_to_int8 (float_round t) = Ok q ->
  exists qt, float_to_Q t = Some qt /\ (Qabs (qt - inject_Z q) <= 1 # 2)%Q.
Proof.
  intros Hvalid Hq. apply float_to_int8_Ok in Hq as [Hq _].
  destruct t as [s|s| |s m e]; simpl in Hq; try discriminate.
  - injection Hq as <-. exists 0%Q. split; [reflexivity|]. vm_compute. discriminate.
  - pose proof (is_binary32_mantissa s m e Hvalid) as Hm.
    unfold float_to_Q. destruct (0 <=? e) eqn:He.
    + simpl in Hq. rewrite He in Hq. injection Hq as <-.
      eexists. split; [reflexivity|].
      apply Qabs_Qle_condition. unfold Qle, Qminus, Qplus, Qopp, inject_Z. simpl. lia.
    + apply Z.leb_gt in He.
      assert (HD : 2 <= 2 ^ (- e)).
      { change 2 with (2 ^ 1) at 1. apply Z.pow_le_mono_r; lia. }
      set (D := 2 ^ (- e)) in *.
      pose proof (Z.div_mod (2 * Z.pos m + D) (2 * D) ltac:(lia)) as Hdiv.
      pose proof (Z.mod_pos_bound (2 * Z.pos m + D) (2 * D) ltac:(lia)) as Hmod.
      set (n := (2 * Z.pos m + D) / (2 * D)) in *.
      assert (Hn : 0 <= n < 2 ^ 24) by (change (2 ^ 24) with 16777216 in *; nia).
      rewrite (binary_normalize_int_exact s n Hn) in Hq. injection Hq as <-.
      eexists. split; [reflexivity|].
      apply Qabs_Qle_condition. unfold Qle, Qminus, Qplus, Qopp, inject_Z.
      cbn [Qnum Qden]. rewrite Pos.mul_1_r, Z2Pos.id by lia.
      destruct s; simpl cond_Zopp; nia.
Qed.

(** Truncation: the truncated value is less than 1 away. *)
Lemma float_trunc_error (x : float) (q : Z) :
  float_to_int8 x = Ok q ->
  exists qx, float_to_Q x = Some qx /\ (Qabs (qx - inject_Z q) <= 1)%Q.
Proof.
  intros Hq. apply float_to_int8_Ok in Hq as [Hq _].
  destruct x as [s|s| |s m e]; simpl in Hq; try discriminate.
  - injection Hq as <-. exists 0%Q. split; [reflexivity|]. vm_compute. discriminate.
  - unfold float_to_Q. injection Hq as <-. destruct (0 <=? e) eqn:He.
    + eexists. split; [reflexivity|].
      apply Qabs_Qle_condition. unfold Qle, Qminus, Qplus, Qopp, inject_Z. simpl. lia.
    + apply Z.leb_gt in He.
      assert (HD : 0 < 2 ^ (- e)) by (apply Z.pow_pos_nonneg; lia).
      set (D := 2 ^ (- e)) in *.
      pose proof (Z.div_mod (Z.pos m) D ltac:(lia)) as Hdiv.
      pose proof (Z.mod_pos_bound (Z.pos m) D ltac:(lia)) as Hmod.
      eexists. split; [reflexivity|].
      apply Qabs_Qle_condition. unfold Qle, Qminus, Qplus, Qopp, inject_Z.
      cbn [Qnum Qden]. rewrite Pos.mul_1_r, Z2Pos.id by lia.
      destruct s; simpl cond_Zopp; nia.
Qed.

Lemma Qabs_scale (a b s k : Q) :
  (Qabs (a - b) <= k)%Q -> (Qabs (a * s - b * s) <= k * Qabs s)%Q.
Proof.
  intros H.
  assert (Heq : (a * s - b * s == (a - b) * s)%Q) by ring.
  rewrite Heq, Qabs_Qmult.
  apply Qmult_le_compat_r; [exact H|apply Qabs_nonneg].
Qed.


(** ** Quotients are binary32 numbers *)

Lemma Zdigits2_bound (m : Z) :
  0 < m -> 2 ^ (Zdigits2 m - 1) <= m < 2 ^ Zdigits2 m.
Proof.
  intros Hm. destruct m as [|p|p]; try lia. simpl. apply digits2_pos_bound.
Qed.

Lemma Zdigits2_nonneg (m : Z) : 0 <= Zdigits2 m.
Proof. destruct m; simpl; lia. Qed.

Lemma Zdigits2_pos (m : Z) : 0 < m -> 0 < Zdigits2 m.
Proof. destruct m; simpl; lia. Qed.

Lemma Zdigits2_unique (m n : Z) :
  2 ^ (n - 1) <= m < 2 ^ n -> 0 < m -> Zdigits2 m = n.
Proof.
  intros Hn Hm. pose proof (Zdigits2_bound m Hm) as Hd.
  pose proof (Zdigits2_pos m Hm) as Hpos.
  assert (Hn0 : 0 < n).
  { destruct (Z_lt_le_dec 0 n) as [|Hle]; [assumption|exfalso].
    assert (2 ^ n <= 2 ^ 0) by (destruct (Z_lt_le_dec n 0);
      [rewrite Z.pow_neg_r by assumption; simpl; lia|apply Z.pow_le_mono_r; lia]).
    simpl in *. lia. }
  destruct (Z.lt_trichotomy (Zdigits2 m) n) as [Hlt|[Heq|Hgt]]; [exfalso|assumption|exfalso].
  - assert (2 ^ Zdigits2 m <= 2 ^ (n - 1)) by (apply Z.pow_le_mono_r; lia). lia.
  - assert (2 ^ n <= 2 ^ (Zdigits2 m - 1)) by (apply Z.pow_le_mono_r; lia). lia.
Qed.

Lemma Zdigits2_le (m n : Z) : 0 <= m <= n -> Zdigits2 m <= Zdigits2 n.
Proof.
  intros [Hm Hmn]. destruct (Z.eq_dec m 0) as [->|Hne].
  - apply Zdigits2_nonneg.
  - pose proof (Zdigits2_bound m ltac:(lia)) as Hdm.
    pose proof (Zdigits2_bound n ltac:(lia)) as Hdn.
    destruct (Z_le_gt_dec (Zdigits2 m) (Zdigits2 n)) as [|Hgt]; [assumption|exfalso].
    assert (2 ^ Zdigits2 n <= 2 ^ (Zdigits2 m - 1)).
    { apply Z.pow_le_mono_r; [lia|]. lia. }
    lia.
Qed.

Lemma Zdigits2_div_pow2 (m k : Z) :
  0 < m -> 0 <= k -> 0 < m / 2 ^ k -> Zdigits2 (m / 2 ^ k) = Zdigits2 m - k.
Proof.
  intros Hm Hk Hq. pose proof (Zdigits2_bound m Hm) as [Hlo Hhi].
  assert (Hpk : 0 < 2 ^ k) by (apply Z.pow_pos_nonneg; lia).
  assert (Hkd : k < Zdigits2 m).
  { destruct (Z_lt_le_dec k (Zdigits2 m)) as [|Hle]; [assumption|exfalso].
    assert (2 ^ Zdigits2 m <= 2 ^ k)
      by (apply Z.pow_le_mono_r; [lia|assumption]).
    rewrite Z.div_small in Hq by lia. lia. }
  apply Zdigits2_unique; [|assumption]. split.
  - apply Z.div_le_lower_bound; [assumption|].
    rewrite <- Z.pow_add_r by lia. replace (k + (Zdigits2 m - k - 1)) with (Zdigits2 m - 1) by lia.
    assumption.
  - apply Z.div_lt_upper_bound; [assumption|].
    rewrite <- Z.pow_add_r by lia. replace (k + (Zdigits2 m - k)) with (Zdigits2 m) by lia.
    assumption.
Qed.

Lemma shr_1_m (mrs : shr_record) :
  0 <= shr_m mrs -> shr_m (shr_1 mrs) = shr_m mrs / 2.
Proof.
  destruct mrs as [m r s]. simpl. intros Hm.
  destruct m as [|[p|p|]|p]; simpl; try reflexivity; try lia.
  - apply (Z.div_unique _ _ _ 1); lia.
  - apply (Z.div_unique _ _ _ 0); lia.
Qed.

Lemma pow2_xI (p : positive) : 2 ^ Z.pos p~1 = 2 * 2 ^ Z.pos p * 2 ^ Z.pos p.
Proof.
  replace (Z.pos p~1) with (1 + Z.pos p + Z.pos p) by lia.
  rewrite !Z.pow_add_r by lia. reflexivity.
Qed.

Lemma pow2_xO (p : positive) : 2 ^ Z.pos p~0 = 2 ^ Z.pos p * 2 ^ Z.pos p.
Proof.
  replace (Z.pos p~0) with (Z.pos p + Z.pos p) by lia.
  rewrite Z.pow_add_r by lia. reflexivity.
Qed.

Lemma iter_pos_shr_1_m (p : positive) (mrs : shr_record) :
  0 <= shr_m mrs -> shr_m (SpecFloat.iter_pos shr_1 p mrs) = shr_m mrs / 2 ^ Z.pos p.
Proof.
  revert mrs. induction p as [p IH|p IH|]; intros mrs Hm; simpl SpecFloat.iter_pos.
  - assert (H1 : 0 <= shr_m (shr_1 mrs)).
    { rewrite shr_1_m by assumption. apply Z.div_pos; lia. }
    assert (Hp : 0 < 2 ^ Z.pos p) by (apply Z.pow_pos_nonneg; lia).
    assert (H2 : 0 <= shr_m (SpecFloat.iter_pos shr_1 p (shr_1 mrs))).
    { rewrite IH by assumption. apply Z.div_pos; lia. }
    rewrite IH, IH, shr_1_m by assumption.
    rewrite pow2_xI, <- !Z.div_div by lia. reflexivity.
  - assert (Hp : 0 < 2 ^ Z.pos p) by (apply Z.pow_pos_nonneg; lia).
    assert (H2 : 0 <= shr_m (SpecFloat.iter_pos shr_1 p mrs)).
    { rewrite IH by assumption. apply Z.div_pos; lia. }
    rewrite IH, IH by assumption.
    rewrite pow2_xO, <- Z.div_div by lia. reflexivity.
  - rewrite shr_1_m by assumption. reflexivity.
Qed.

Lemma shr_record_of_loc_m (m : Z) (l : location) : shr_m (shr_record_of_loc m l) = m.
Proof. destruct l as [|[]]; reflexivity. Qed.

(** When the exponent is not above the one of the format, [shr_fexp]
    shifts the mantissa down to the exponent of the format. *)
Lemma shr_fexp_spec (m e : Z) (l : location) :
  0 <= m -> e <= fexp prec emax (Zdigits2 m + e) ->
  exists mrs,
    shr_fexp prec emax m e l = (mrs, fexp prec emax (Zdigits2 m + e))
    /\ shr_m mrs = m / 2 ^ (fexp prec emax (Zdigits2 m + e) - e).
Proof.
  intros Hm He. unfold shr_fexp, shr.
  destruct (fexp prec emax (Zdigits2 m + e) - e) as [|k|k] eqn:Hk; try lia.
  - eexists. split; [f_equal; lia|].
    rewrite shr_record_of_loc_m, Z.div_1_r. reflexivity.
  - eexists. split; [f_equal; lia|].
    rewrite iter_pos_shr_1_m; rewrite shr_record_of_loc_m; [reflexivity|assumption].
Qed.

Lemma round_nearest_even_bound (m : Z) (l : location) :
  m <= round_nearest_even m l <= m + 1.
Proof. destruct l as [|[]]; simpl; try destruct (Z.even m); lia. Qed.

Lemma fexp_mono (a b : Z) : a <= b -> fexp prec emax a <= fexp prec emax b.
Proof. unfold fexp, emin, prec, emax. lia. Qed.

Lemma binary_round_aux_valid (sx : bool) (mx ex : Z) (lx : location) :
  0 <= mx -> ex <= fexp prec emax (Zdigits2 mx + ex) ->
  is_binary32 (binary_round_aux prec emax sx mx ex lx).
Proof.
  intros Hm He. unfold is_binary32, binary_round_aux.
  destruct (shr_fexp_spec mx ex lx Hm He) as (mrs1 & -> & Hm1).
  set (fe := fexp prec emax (Zdigits2 mx + ex)) in *.
  set (k := fe - ex) in *.
  assert (Hk : 0 <= k) by (unfold k; lia).
  assert (Hpk : 0 < 2 ^ k) by (apply Z.pow_pos_nonneg; lia).
  assert (Hm1pos : 0 <= shr_m mrs1) by (rewrite Hm1; apply Z.div_pos; lia).
  pose proof (round_nearest_even_bound (shr_m mrs1) (loc_of_shr_record mrs1)) as Hr.
  set (m2 := round_nearest_even (shr_m mrs1) (loc_of_shr_record mrs1)) in *.
  assert (Hfe : fe <= fexp prec emax (Zdigits2 m2 + fe)).
  { unfold fe at 1. apply fexp_mono.
    assert (Zdigits2 mx - k <= Zdigits2 (shr_m mrs1)).
    { destruct (Z.eq_dec (shr_m mrs1) 0) as [H0|H0].
      - rewrite H0. simpl.
        destruct (Z.eq_dec mx 0) as [->|Hne]; [simpl; lia|].
        pose proof (Zdigits2_bound mx ltac:(lia)) as [_ Hhi].
        destruct (Z_le_gt_dec (Zdigits2 mx) k) as [|Hgt]; [lia|exfalso].
        assert (2 ^ k <= mx).
        { pose proof (Zdigits2_bound mx ltac:(lia)) as [Hlo _].
          assert (2 ^ k <= 2 ^ (Zdigits2 mx - 1)) by (apply Z.pow_le_mono_r; lia). lia. }
        assert (1 <= mx / 2 ^ k) by (apply Z.div_le_lower_bound; lia).
        lia.
      - assert (0 < mx).
        { destruct (Z.eq_dec mx 0) as [Hz|]; [|lia].
          rewrite Hz, Z.div_0_l in Hm1 by lia. lia. }
        rewrite Hm1 in H0, Hm1pos |- *. rewrite Zdigits2_div_pow2; lia. }
    pose proof (Zdigits2_le (shr_m mrs1) m2 ltac:(lia)). unfold k in *. lia. }
  destruct (shr_fexp_spec m2 fe loc_Exact ltac:(lia) Hfe) as (mrs2 & -> & Hm2).
  destruct (shr_m mrs2) as [|p|p] eqn:Hp; try reflexivity.
  set (e2 := fexp prec emax (Zdigits2 m2 + fe)) in *.
  destruct (e2 <=? emax - prec) eqn:Hle; [|reflexivity].
  simpl. unfold bounded, canonical_mantissa. rewrite Hle, andb_true_r.
  apply Z.eqb_eq.
  change (Z.pos (digits2_pos p)) with (Zdigits2 (Z.pos p)).
  rewrite Hm2.
  assert (0 < m2).
  { destruct (Z.eq_dec m2 0) as [H0|]; [|lia]. rewrite H0, Z.div_0_l in Hm2; [lia|].
    assert (0 < 2 ^ (e2 - fe)) by (apply Z.pow_pos_nonneg; lia). lia. }
  rewrite Zdigits2_div_pow2; try lia.
  unfold e2 at 2. f_equal. lia.
Qed.

Lemma SFdiv_core_binary_exponent (m1 e1 m2 e2 : Z) :
  0 < m1 -> 0 < m2 ->
  let '(q, e', _) := SFdiv_core_binary prec emax m1 e1 m2 e2 in
  0 <= q /\ e' <= fexp prec emax (Zdigits2 q + e').
Proof.
  intros Hm1 Hm2. unfold SFdiv_core_binary.
  set (d1 := Zdigits2 m1). set (d2 := Zdigits2 m2).
  set (e' := Z.min (fexp prec emax (d1 + e1 - (d2 + e2))) (e1 - e2)).
  remember (e1 - e2 - e') as s eqn:Hsd.
  assert (Hs : 0 <= s) by (subst s; unfold e'; lia).
  set (m' := match s with Z.pos _ => Z.shiftl m1 s | 0 => m1 | Z.neg _ => 0 end).
  assert (Hm' : m' = m1 * 2 ^ s).
  { unfold m'. destruct s as [|p|p]; try lia.
    apply Z.shiftl_mul_pow2. lia. }
  destruct (Z.div_eucl m' m2) as [q r] eqn:Hdiv.
  assert (Hqdef : q = m' / m2) by (unfold Z.div; rewrite Hdiv; reflexivity).
  rewrite Hqdef. clear Hdiv Hqdef q r.
  assert (Hps : 0 < 2 ^ s) by (apply Z.pow_pos_nonneg; lia).
  assert (Hq : 0 <= m' / m2) by (apply Z.div_pos; nia).
  split; [exact Hq|].
  transitivity (fexp prec emax (d1 + e1 - (d2 + e2))); [unfold e'; lia|].
  apply fexp_mono.
  assert (Hdig : d1 + s - d2 <= Zdigits2 (m' / m2)).
  { pose proof (Zdigits2_nonneg (m' / m2)).
    destruct (Z_le_gt_dec (d1 + s - d2) 0) as [|Hgt]; [lia|].
    pose proof (Zdigits2_bound m1 Hm1) as [Hlo1 _].
    pose proof (Zdigits2_bound m2 Hm2) as [_ Hhi2]. fold d1 in Hlo1. fold d2 in Hhi2.
    pose proof (Zdigits2_pos m2 Hm2). fold d2 in H0.
    assert (Hge : 2 ^ (d1 + s - d2 - 1) <= m' / m2).
    { apply Z.div_le_lower_bound; [assumption|].
      transitivity (2 ^ d2 * 2 ^ (d1 + s - d2 - 1)).
      - apply Z.mul_le_mono_nonneg_r; [apply Z.pow_nonneg|]; lia.
      - rewrite <- Z.pow_add_r by lia.
        replace (d2 + (d1 + s - d2 - 1)) with ((d1 - 1) + s) by lia.
        pose proof (Zdigits2_pos m1 Hm1). fold d1 in H1.
        rewrite Z.pow_add_r by lia. rewrite Hm'.
        apply Z.mul_le_mono_nonneg_r; lia. }
    assert (0 < m' / m2).
    { assert (0 < 2 ^ (d1 + s - d2 - 1)) by (apply Z.pow_pos_nonneg; lia). lia. }
    destruct (Z_le_gt_dec (d1 + s - d2) (Zdigits2 (m' / m2))) as [|Hlt]; [assumption|exfalso].
    pose proof (Zdigits2_bound (m' / m2) H1) as [_ Hhi].
    assert (2 ^ Zdigits2 (m' / m2) <= 2 ^ (d1 + s - d2 - 1))
      by (apply Z.pow_le_mono_r; lia).
    lia. }
  lia.
Qed.

(** Every quotient is a binary32 number. *)
Lemma float_div_binary32 (x y : float) : is_binary32 (float_div x y).
Proof.
  unfold float_div, SFdiv.
  destruct x as [sx|sx| |sx mx ex], y as [sy|sy| |sy my ey]; try reflexivity.
  pose proof (SFdiv_core_binary_exponent (Z.pos mx) ex (Z.pos my) ey
                ltac:(lia) ltac:(lia)) as Hcore.
  destruct (SFdiv_core_binary prec emax (Z.pos mx) ex (Z.pos my) ey) as [[q e'] l].
  destruct Hcore as [Hq He]. apply binary_round_aux_valid; assumption.
Qed.


(** ** Graph primitives *)

Lemma kind_of_insert (g : SSAGraph) (n k : node_id) (nd : Node) :
  kind_of (<[n := nd]> g) k = if decide (k = n) then Some (kind nd) else kind_of g k.
Proof.
  unfold kind_of. destruct (decide (k = n)) as [->|Hne].
  - rewrite lookup_insert_eq. reflexivity.
  - rewrite lookup_insert_ne by congruence. reflexivity.
Qed.

Lemma kind_of_Some (g : SSAGraph) (n : node_id) (k : NodeKind) :
  kind_of g n = Some k -> exists nd, g !! n = Some nd /\ kind nd = k.
Proof.
  unfold kind_of. destruct (g !! n) as [nd|]; [|discriminate].
  intros [= <-]. eauto.
Qed.

Lemma kind_of_dom (g : SSAGraph) (n : node_id) :
  n ∈ dom g <-> is_Some (kind_of g n).
Proof.
  unfold kind_of. rewrite elem_of_dom. destruct (g !! n); simpl; split;
    intros [x Hx]; try discriminate; eauto.
Qed.

Lemma stmt_op_info_Ok (g : SSAGraph) (n : node_id) (op : OpInfo) :
  kind_of g n = Some (Stmt op) -> stmt_op_info g n = Ok op.
Proof.
  intros (nd & Hnd & Hk)%kind_of_Some. unfold stmt_op_info, get_node.
  rewrite Hnd. simpl. rewrite Hk. reflexivity.
Qed.

Lemma arg_name_Ok (g : SSAGraph) (n : node_id) (name : string) (w : bool) :
  kind_of g n = Some (Arg name w) -> arg_name g n = Ok name.
Proof.
  intros (nd & Hnd & Hk)%kind_of_Some. unfold arg_name, get_node.
  rewrite Hnd. simpl. rewrite Hk. reflexivity.
Qed.

Lemma arg_is_weight_Ok (g : SSAGraph) (n : node_id) (name : string) (w : bool) :
  kind_of g n = Some (Arg name w) -> arg_is_weight g n = Ok w.
Proof.
  intros (nd & Hnd & Hk)%kind_of_Some. unfold arg_is_weight, get_node.
  rewrite Hnd. simpl. rewrite Hk. reflexivity.
Qed.

Lemma ResetOp_Ok (g : SSAGraph) (n : node_id) (op op' : OpInfo) :
  kind_of g n = Some (Stmt op) ->
  exists g', ResetOp g n op' = Ok g'
             /\ dom g' = dom g
             /\ forall k, kind_of g' k
                          = if decide (k = n) then Some (Stmt op') else kind_of g k.
Proof.
  intros (nd & Hnd & Hk)%kind_of_Some. unfold ResetOp, get_node.
  rewrite Hnd. simpl. rewrite Hk. eexists. split; [reflexivity|]. split.
  - rewrite dom_insert_L. apply elem_of_dom_2 in Hnd. set_solver.
  - intros k. apply kind_of_insert.
Qed.

Lemma IR_NODE_LINK_TO_Ok (g : SSAGraph) (a b : node_id) :
  a ∈ dom g -> b ∈ dom g ->
  exists g', IR_NODE_LINK_TO g a b = Ok g'
             /\ dom g' = dom g
             /\ forall k, kind_of g' k = kind_of g k.
Proof.
  intros Ha Hb. unfold IR_NODE_LINK_TO, get_node.
  apply elem_of_dom in Ha as [na Hna]. rewrite Hna. simpl.
  set (g1 := <[a := mkNode (kind na) (inlinks na) (outlinks na ++ [b])]> g).
  assert (Hb1 : b ∈ dom g1).
  { unfold g1. rewrite dom_insert_L. set_solver. }
  assert (Hk1 : forall k, kind_of g1 k = kind_of g k).
  { intros k. unfold g1. rewrite kind_of_insert. destruct (decide (k = a)) as [->|]; [|reflexivity].
    unfold kind_of. rewrite Hna. reflexivity. }
  apply elem_of_dom in Hb1 as [nb Hnb]. rewrite Hnb. simpl.
  eexists. split; [reflexivity|]. split.
  - rewrite dom_insert_L. apply elem_of_dom_2 in Hnb.
    assert (dom g1 = dom g).
    { unfold g1. rewrite dom_insert_L. apply elem_of_dom_2 in Hna. set_solver. }
    set_solver.
  - intros k. rewrite kind_of_insert. destruct (decide (k = b)) as [->|]; [|apply Hk1].
    rewrite <- Hk1. unfold kind_of. rewrite Hnb. reflexivity.
Qed.

(** The statements a loop went through *)

Lemma relinked_nil (F : OpInfo -> OpInfo) (g : SSAGraph) : relinked F [] g g.
Proof.
  split; [reflexivity|]. intros k. destruct (decide (k ∈ [])) as [Hin|]; [|reflexivity].
  apply elem_of_nil in Hin. contradiction.
Qed.

Lemma upd_kind_idemp (F : OpInfo -> OpInfo) :
  (forall op, F (F op) = F op) -> forall k, upd_kind F (upd_kind F k) = upd_kind F k.
Proof. intros HF [name w|op]; simpl; [reflexivity|]. rewrite HF. reflexivity. Qed.

Lemma relinked_cons (F : OpInfo -> OpInfo) (c : node_id) (l : list node_id)
    (g g1 g' : SSAGraph) :
  (forall op, F (F op) = F op) ->
  relinked F [c] g g1 -> relinked F l g1 g' -> relinked F (c :: l) g g'.
Proof.
  intros HF [Hd1 Hk1] [Hd2 Hk2]. split; [congruence|].
  intros k. rewrite Hk2, Hk1.
  destruct (decide (k ∈ l)) as [Hl|Hl], (decide (k ∈ [c])) as [Hc|Hc],
    (decide (k ∈ c :: l)) as [Hcl|Hcl]; try reflexivity.
  - destruct (kind_of g k); simpl; [|reflexivity]. rewrite upd_kind_idemp by exact HF.
    reflexivity.
  - exfalso. apply Hcl. apply list_elem_of_further, Hl.
  - exfalso. apply Hcl. apply list_elem_of_further, Hl.
  - exfalso. apply Hcl. apply list_elem_of_singleton in Hc as ->. apply list_elem_of_here.
  - exfalso. apply elem_of_cons in Hcl as [->|?]; [|contradiction].
    apply Hc, list_elem_of_here.
Qed.

(** Removal *)

Lemma remove_nodes_lookup (g : SSAGraph) (rm : gset node_id) (k : node_id) :
  remove_nodes g rm !! k
  = if decide (k ∈ rm) then None else erase_links rm <$> g !! k.
Proof.
  unfold remove_nodes. rewrite lookup_fmap.
  destruct (decide (k ∈ rm)) as [Hin|Hnin].
  - rewrite map_lookup_filter_None_2; [reflexivity|].
    right. intros x _. simpl. tauto.
  - destruct (g !! k) as [nd|] eqn:Hk.
    + erewrite map_lookup_filter_Some_2; [reflexivity|exact Hk|exact Hnin].
    + rewrite map_lookup_filter_None_2; [reflexivity|]. left. exact Hk.
Qed.

Lemma remove_nodes_kind (g : SSAGraph) (rm : gset node_id) (k : node_id) :
  kind_of (remove_nodes g rm) k = if decide (k ∈ rm) then None else kind_of g k.
Proof.
  unfold kind_of. rewrite remove_nodes_lookup.
  destruct (decide (k ∈ rm)); [reflexivity|]. destruct (g !! k); reflexivity.
Qed.

Lemma remove_nodes_dom (g : SSAGraph) (rm : gset node_id) :
  dom (remove_nodes g rm) = dom g ∖ rm.
Proof.
  apply set_eq. intros k. rewrite elem_of_difference, !elem_of_dom, remove_nodes_lookup.
  destruct (decide (k ∈ rm)) as [Hin|Hnin].
  - split; [intros [x Hx]; discriminate|tauto].
  - rewrite fmap_is_Some. tauto.
Qed.

Lemma remove_nodes_size (g : SSAGraph) (rm : gset node_id) :
  rm ⊆ dom g -> (size (remove_nodes g rm) + size rm = size g)%nat.
Proof.
  intros Hsub. rewrite <- !size_dom, remove_nodes_dom.
  pose proof (size_union (dom g ∖ rm) rm ltac:(set_solver)) as Hu.
  rewrite <- Hu. f_equal. apply set_eq. intros k.
  rewrite elem_of_union, elem_of_difference.
  destruct (decide (k ∈ rm)); set_solver.
Qed.

Lemma size_four (a b c d : node_id) :
  NoDup [a; b; c; d] -> size ({[a; b; c; d]} : gset node_id) = 4%nat.
Proof.
  intros Hnd. replace ({[a; b; c; d]} : gset node_id) with (list_to_set [a; b; c; d] : gset node_id).
  - rewrite size_list_to_set by exact Hnd. reflexivity.
  - simpl. set_solver.
Qed.


(** ** DeleteQuantOpFuser *)

Lemma rename_var_idemp (from to v : string) :
  rename_var from to (rename_var from to v) = rename_var from to v.
Proof.
  unfold rename_var. destruct (bool_decide (v = from)) eqn:Hv; [|rewrite Hv; reflexivity].
  destruct (bool_decide (to = from)); reflexivity.
Qed.

Lemma UpdateAllInputs_inputs_idemp (from to : string) (m : gmap string (list string)) :
  map (rename_var from to) <$> (map (rename_var from to) <$> m)
  = map (rename_var from to) <$> m.
Proof.
  rewrite <- map_fmap_compose. apply map_fmap_ext. intros k l _. simpl.
  rewrite map_map. apply map_ext. intros v. apply rename_var_idemp.
Qed.

Lemma DeleteQuant_update_idemp (i o : string) (b : Z) (s : float) (op : OpInfo) :
  DeleteQuant_update i o b s (DeleteQuant_update i o b s op)
  = DeleteQuant_update i o b s op.
Proof.
  destruct op as [ty ins outs ats scs].
  unfold DeleteQuant_update, UpdateAllInputs, SetAttr, SetInputScale. simpl.
  rewrite UpdateAllInputs_inputs_idemp, !insert_insert_eq. reflexivity.
Qed.

Section DeleteQuant.
Context `{GraphCollaborator}.

Lemma relink_quantized_node_spec (a : node_id) (i o : string) (b : Z) (s : float)
    (g : SSAGraph) (c : node_id) (op : OpInfo) :
  kind_of g c = Some (Stmt op) -> a ∈ dom g ->
  exists g', DeleteQuantOpFuser.relink_quantized_node a i o b s g c = Ok g'
             /\ relinked (DeleteQuant_update i o b s) [c] g g'.
Proof.
  intros Hc Ha. unfold DeleteQuantOpFuser.relink_quantized_node.
  rewrite (stmt_op_info_Ok _ _ _ Hc). cbn [bind].
  change (UpdateAllInputs _ _ _) with (DeleteQuant_update i o b s op).
  destruct (ResetOp_Ok g c op (DeleteQuant_update i o b s op) Hc)
    as (g1 & -> & Hd1 & Hk1).
  cbn [bind].
  destruct (IR_NODE_LINK_TO_Ok g1 a c) as (g2 & -> & Hd2 & Hk2).
  { rewrite Hd1. exact Ha. }
  { rewrite Hd1. apply kind_of_dom. rewrite Hc. eauto. }
  exists g2. split; [reflexivity|]. split; [congruence|].
  intros k. rewrite Hk2, Hk1.
  destruct (decide (k = c)) as [->|Hne].
  - rewrite decide_True by apply list_elem_of_here. rewrite Hc. reflexivity.
  - rewrite decide_False; [reflexivity|]. intros ->%list_elem_of_singleton. congruence.
Qed.

Lemma relink_all_spec (a : node_id) (i o : string) (b : Z) (s : float)
    (l : list node_id) (g : SSAGraph) :
  Forall (fun c => exists op, kind_of g c = Some (Stmt op)) l -> a ∈ dom g ->
  exists g', for_each (DeleteQuantOpFuser.relink_quantized_node a i o b s) l g = Ok g'
             /\ relinked (DeleteQuant_update i o b s) l g g'.
Proof.
  revert g. induction l as [|c l IH]; intros g Hl Ha.
  - exists g. split; [reflexivity|apply relinked_nil].
  - apply Forall_cons in Hl as [[op Hc] Hl]. simpl.
    destruct (relink_quantized_node_spec a i o b s g c op Hc Ha) as (g1 & -> & Hr1).
    cbn [bind]. destruct Hr1 as [Hd1 Hk1].
    destruct (IH g1) as (g' & -> & Hr').
    + eapply Forall_impl; [exact Hl|]. intros k [opk Hk]. rewrite Hk1, Hk.
      destruct (decide (k ∈ [c])); simpl; eauto.
    + rewrite Hd1. exact Ha.
    + exists g'. split; [reflexivity|].
      eapply relinked_cons; [apply DeleteQuant_update_idemp| |exact Hr'].
      split; assumption.
Qed.
End DeleteQuant.
Section DeleteQuantTheorem.
Context `{GraphCollaborator}.

(** Claim C1.  On a match of [DeleteQuantOpFuser] whose quantize
    operator has bit length [b] (1 <= b <= 31, the bit lengths for
    which the [int] expression of the range is defined) and whose
    output-scale tensor starts with [S], the rewrite succeeds once the
    graph collaborator accepts the removal of the four nodes from the
    graph the loop over the consumers has produced; it leaves the
    variable storage alone; every consumer of the quantized output gets
    the scale list [S / (2^(b-1) - 1)] for that input, the attribute
    [bit_length = b], and its inputs renamed from the quantized output
    to the original activation; and exactly the four nodes quantize
    operator, input scale, output scale and quantized output leave the
    graph. *)
Theorem DeleteQuantOpFuser_rewrite
    (st : State) (matched : key2nodes_t)
    (input_scale_node input_act_node quant_node output_scale_node
       output_act_node : node_id)
    (quant_info : OpInfo) (in_scale_name scale_name in_act_name out_act_name : string)
    (w0 w1 w2 w3 : bool) (scale_tensor : Tensor) (S : float) (rest : list float)
    (b : Z) (consumers : list node_id) :
  let g := graph st in
  let nodes2rm : gset node_id :=
    {[input_scale_node; quant_node; output_scale_node; output_act_node]} in
  let scale_value := float_div S (float_of_int (2 ^ (b - 1) - 1)) in
  matched !! "input_scale_node" = Some input_scale_node ->
  matched !! "input_act_node" = Some input_act_node ->
  matched !! "quant_node" = Some quant_node ->
  matched !! "output_scale_node" = Some output_scale_node ->
  matched !! "output_act_node" = Some output_act_node ->
  NoDup [input_scale_node; quant_node; output_scale_node; output_act_node] ->
  kind_of g input_scale_node = Some (Arg in_scale_name w0) ->
  kind_of g input_act_node = Some (Arg in_act_name w1) ->
  kind_of g quant_node = Some (Stmt quant_info) ->
  kind_of g output_scale_node = Some (Arg scale_name w2) ->
  kind_of g output_act_node = Some (Arg out_act_name w3) ->
  outlinks <$> g !! output_act_node = Some consumers ->
  Forall (fun c => exists op, kind_of g c = Some (Stmt op)) consumers ->
  quant_node ∉ consumers ->
  attrs quant_info !! "bit_length" = Some (AttrInt b) ->
  1 <= b <= 31 ->
  scope st !! scale_name = Some scale_tensor ->
  buffer scale_tensor = BufFloat (S :: rest) ->
  (forall g1,
     for_each (DeleteQuantOpFuser.relink_quantized_node input_act_node in_act_name
                 out_act_name b scale_value) consumers g = Ok g1 ->
     removal_is_safe g1 nodes2rm = true) ->
  exists st',
    DeleteQuantOpFuser.InsertNewNode st matched = Ok st'
    /\ scope st' = scope st
    /\ dom (graph st') = dom g ∖ nodes2rm
    /\ (size (graph st') + 4 = size g)%nat
    /\ forall c op,
         c ∈ consumers -> kind_of g c = Some (Stmt op) ->
         exists op',
           kind_of (graph st') c = Some (Stmt op')
           /\ input_scales op' !! out_act_name = Some [scale_value]
           /\ attrs op' !! "bit_length" = Some (AttrInt b)
           /\ inputs op' = map (rename_var out_act_name in_act_name) <$> inputs op.
Proof.
  intros g nodes2rm scale_value Hm0 Hm1 Hm2 Hm3 Hm4 Hnd Hk0 Hk1 Hk2 Hk3 Hk4 Hout Hcons Hq
    Hbit Hb Hsc Hbuf Hsafe.
  unfold DeleteQuantOpFuser.InsertNewNode, at_.
  rewrite Hm0, Hm1, Hm2, Hm3, Hm4. cbn [bind]. fold g.
  rewrite (stmt_op_info_Ok _ _ _ Hk2). cbn [bind].
  unfold GetAttr_int. rewrite Hbit. cbn [bind].
  rewrite (range_of_bit_length_spec b Hb). cbn [bind].
  rewrite (arg_name_Ok _ _ _ _ Hk3). cbn [bind].
  unfold lookup_tensor. rewrite Hsc. cbn [bind].
  unfold data_float. rewrite Hbuf. cbn [bind first_elem].
  rewrite (arg_name_Ok _ _ _ _ Hk1), (arg_name_Ok _ _ _ _ Hk4). cbn [bind].
  unfold node_outlinks, get_node.
  destruct (g !! output_act_node) as [out_node|] eqn:Hon; [|discriminate].
  injection Hout as Hout. cbn [bind]. rewrite Hout.
  fold scale_value.
  destruct (relink_all_spec input_act_node in_act_name out_act_name b scale_value
              consumers g Hcons) as (g1 & Hloop & Hd1 & Hkind1).
  { apply kind_of_dom. rewrite Hk1. eauto. }
  rewrite Hloop. cbn [bind]. unfold GraphSafeRemoveNodes.
  fold nodes2rm. rewrite (Hsafe g1 Hloop). cbn [bind].
  eexists. split; [reflexivity|]. cbn [graph scope].
  split; [reflexivity|]. split; [|split].
  - rewrite remove_nodes_dom, Hd1. reflexivity.
  - rewrite <- (size_four _ _ _ _ Hnd). fold nodes2rm.
    rewrite <- (size_dom g), <- Hd1, size_dom. apply remove_nodes_size.
    rewrite Hd1. intros k Hk. unfold nodes2rm in Hk.
    apply kind_of_dom.
    rewrite !elem_of_union, !elem_of_singleton in Hk.
    destruct Hk as [[[-> | ->] | ->] | ->]; eauto.
  - intros c op Hc Hop.
    assert (Hnot : c ∉ nodes2rm).
    { unfold nodes2rm. rewrite !elem_of_union, !elem_of_singleton.
      intros [[[-> | ->] | ->] | ->]; first [congruence | contradiction]. }
    exists (DeleteQuant_update in_act_name out_act_name b scale_value op).
    split; [|split; [|split]].
    + rewrite remove_nodes_kind, decide_False by exact Hnot.
      rewrite Hkind1, decide_True by exact Hc. rewrite Hop. reflexivity.
    + simpl. apply lookup_insert_eq.
    + simpl. apply lookup_insert_eq.
    + reflexivity.
Qed.
End DeleteQuantTheorem.
Lemma DeleteQuantOpFuser_rewrite_witness :
  exists st',
    @DeleteQuantOpFuser.InsertNewNode MoreExamples.reference_checking
      Examples.delete_quant_state Examples.delete_quant_match = Ok st'
    /\ (size (graph st') + 4 = size Examples.delete_quant_graph)%nat
    /\ exists op',
         kind_of (graph st') 5%nat = Some (Stmt op')
         /\ input_scales op' !! "x.q" = Some [float_div (float_of_int 5) (float_of_int 127)]
         /\ attrs op' !! "bit_length" = Some (AttrInt 8)
         /\ inputs op' !! "Input" = Some ["x"].
Proof.
  destruct (@DeleteQuantOpFuser_rewrite MoreExamples.reference_checking
              Examples.delete_quant_state Examples.delete_quant_match
              0%nat 1%nat 2%nat 3%nat 4%nat
              (SetAttr (Examples.op0 "fake_quantize_moving_average_abs_max")
                 "bit_length" (AttrInt 8))
              "x.scale_in" "x.scale" "x" "x.q" false false false false
              (mkTensor [1] (BufFloat [float_of_int 5]) true kFloat)
              (float_of_int 5) [] 8 [5%nat])
    as (st' & Hrun & _ & _ & Hsize & Hcons);
    try reflexivity.
  - apply (bool_decide_unpack _). vm_compute. exact I.
  - repeat constructor. eexists. reflexivity.
  - intros Hin. apply list_elem_of_singleton in Hin. discriminate Hin.
  - lia.
  - intros g1 Hloop.
    assert (Hacc : exists gx,
               for_each (DeleteQuantOpFuser.relink_quantized_node 1%nat "x" "x.q" 8
                           (float_div (float_of_int 5) (float_of_int (2 ^ (8 - 1) - 1))))
                 [5%nat] (graph Examples.delete_quant_state) = Ok gx
               /\ @removal_is_safe MoreExamples.reference_checking gx
                    {[0%nat; 2%nat; 3%nat; 4%nat]} = true)
      by (eexists; split; vm_compute; reflexivity).
    destruct Hacc as (gx & Hgx & Hacc). rewrite Hgx in Hloop.
    injection Hloop as <-. exact Hacc.
  - exists st'. split; [exact Hrun|]. split; [exact Hsize|].
    destruct (Hcons 5%nat _ ltac:(apply list_elem_of_here) eq_refl)
      as (op' & Hk & Hs & Hb & Hi).
    exists op'. split; [exact Hk|]. split; [exact Hs|]. split; [exact Hb|].
    rewrite Hi. reflexivity.
Defined.


(** Runs a rewrite up to its first lookup in the variable storage; a step
    that fails before ends the goal. *)
Ltac step_or_fail :=
  repeat match goal with
         | |- bind ?m _ <> Ok _ =>
             lazymatch m with
             | lookup_tensor _ _ => fail
             | _ => let E := fresh "E" in
                    destruct m eqn:E; cbn [bind]; [|discriminate]
             end
         end.

Section DeleteQuantLookup.
Context `{GraphCollaborator}.

(** Claim C8.  If the variable of the output-scale node is absent from
    the storage, the rewrite of [DeleteQuantOpFuser] never returns a
    state: it neither continues nor attaches a default scale.  When the
    steps before the lookup succeed the failure is the LookupError of
    the storage. *)
Theorem DeleteQuantOpFuser_scale_absent
    (st : State) (matched : key2nodes_t) (output_scale_node : node_id)
    (scale_name : string) (w : bool) :
  matched !! "output_scale_node" = Some output_scale_node ->
  kind_of (graph st) output_scale_node = Some (Arg scale_name w) ->
  scope st !! scale_name = None ->
  (forall st', DeleteQuantOpFuser.InsertNewNode st matched <> Ok st')
  /\ (forall input_scale_node input_act_node quant_node output_act_node
             quant_info b,
        matched !! "input_scale_node" = Some input_scale_node ->
        matched !! "input_act_node" = Some input_act_node ->
        matched !! "quant_node" = Some quant_node ->
        matched !! "output_act_node" = Some output_act_node ->
        kind_of (graph st) quant_node = Some (Stmt quant_info) ->
        attrs quant_info !! "bit_length" = Some (AttrInt b) ->
        1 <= b <= 31 ->
        DeleteQuantOpFuser.InsertNewNode st matched = Err LookupError).
Proof.
  intros Hm3 Hk3 Hsc. split.
  - intros st'. unfold DeleteQuantOpFuser.InsertNewNode.
    step_or_fail.
    match goal with
    | E1 : at_ matched "output_scale_node" = Ok ?n,
      E2 : arg_name _ ?n = Ok ?s |- _ =>
        unfold at_ in E1; rewrite Hm3 in E1; injection E1 as <-;
        rewrite (arg_name_Ok _ _ _ _ Hk3) in E2; injection E2 as <-
    end.
    unfold lookup_tensor. rewrite Hsc. discriminate.
  - intros input_scale_node input_act_node quant_node output_act_node quant_info b
      Hm0 Hm1 Hm2 Hm4 Hk2 Hbit Hb.
    unfold DeleteQuantOpFuser.InsertNewNode, at_.
    rewrite Hm0, Hm1, Hm2, Hm3, Hm4. cbn [bind].
    rewrite (stmt_op_info_Ok _ _ _ Hk2). cbn [bind].
    unfold GetAttr_int. rewrite Hbit. cbn [bind].
    rewrite (range_of_bit_length_spec b Hb). cbn [bind].
    rewrite (arg_name_Ok _ _ _ _ Hk3). cbn [bind].
    unfold lookup_tensor. rewrite Hsc. reflexivity.
Qed.
End DeleteQuantLookup.

Lemma DeleteQuantOpFuser_scale_absent_witness :
  @DeleteQuantOpFuser.InsertNewNode Examples.always_safe
    (mkState Examples.delete_quant_graph ∅) Examples.delete_quant_match
  = Err LookupError.
Proof.
  refine (proj2 (@DeleteQuantOpFuser_scale_absent Examples.always_safe
                   (mkState Examples.delete_quant_graph ∅) Examples.delete_quant_match
                   3%nat "x.scale" false _ _ _)
            0%nat 1%nat 2%nat 4%nat _ 8 _ _ _ _ _ _ _);
    try reflexivity.
  lia.
Defined.


(** ** Element-wise conversion *)

Lemma map_result_Forall2 {A B} (f : A -> result B) (l : list A) (ys : list B) :
  map_result f l = Ok ys <-> Forall2 (fun x y => f x = Ok y) l ys.
Proof.
  revert ys. induction l as [|x l IH]; intros ys; simpl.
  - split.
    + intros [= <-]. constructor.
    + intros Hf. inversion Hf. reflexivity.
  - split.
    + destruct (f x) as [y|] eqn:Hx; cbn [bind]; [|discriminate].
      destruct (map_result f l) as [ys'|] eqn:Hl; cbn [bind]; [|discriminate].
      intros [= <-]. constructor; [exact Hx|]. apply IH. reflexivity.
    + intros Hf. inversion Hf as [|x' y l' ys' Hx Hl]; subst.
      rewrite Hx. cbn [bind]. apply IH in Hl. rewrite Hl. reflexivity.
Qed.

Lemma convert_elements_Ok (f : float -> result Z) (n : Z) (src : list float)
    (qs : list Z) :
  convert_elements f n src = Ok qs
  <-> 0 <= n <= Z.of_nat (length src)
      /\ Forall2 (fun x q => f x = Ok q) (take (Z.to_nat n) src) qs.
Proof.
  unfold convert_elements.
  destruct ((n <? 0) || (Z.of_nat (length src) <? n)) eqn:Hn.
  - split; [discriminate|]. intros [Hr _]. exfalso.
    apply orb_true_iff in Hn as [Hn|Hn]; apply Z.ltb_lt in Hn; lia.
  - apply orb_false_iff in Hn as [H1 H2]. apply Z.ltb_ge in H1, H2.
    rewrite map_result_Forall2. split; [intros Hf; split; [lia|exact Hf]|tauto].
Qed.

(** ** DynamicQuantOpFuser *)





(** ** The two dequantize fusers *)

Lemma create_and_link_Ok (g : SSAGraph) (op : OpInfo) (a b c : node_id) :
  a ∈ dom g -> b ∈ dom g -> c ∈ dom g ->
  exists g', create_and_link g op a b c = Ok g'
             /\ (fresh (dom g) ∉ dom g)
             /\ dom g' = {[fresh (dom g)]} ∪ dom g
             /\ kind_of g' (fresh (dom g)) = Some (Stmt op)
             /\ forall k, k <> fresh (dom g) -> kind_of g' k = kind_of g k.
Proof.
  intros Ha Hb Hc. unfold create_and_link, GraphCreateInstructNode.
  set (n := fresh (dom g)).
  assert (Hn : n ∉ dom g) by apply is_fresh.
  set (g0 := <[n := mkNode (Stmt op) [] []]> g).
  assert (Hd0 : dom g0 = {[n]} ∪ dom g) by (unfold g0; apply dom_insert_L).
  assert (Hk0 : forall k, kind_of g0 k = if decide (k = n) then Some (Stmt op) else kind_of g k).
  { intros k. unfold g0. apply kind_of_insert. }
  destruct (IR_NODE_LINK_TO_Ok g0 a n) as (g1 & -> & Hd1 & Hk1); [set_solver|set_solver|].
  cbn [bind].
  destruct (IR_NODE_LINK_TO_Ok g1 b n) as (g2 & -> & Hd2 & Hk2); [set_solver|set_solver|].
  cbn [bind].
  destruct (IR_NODE_LINK_TO_Ok g2 n c) as (g3 & -> & Hd3 & Hk3); [set_solver|set_solver|].
  exists g3. split; [reflexivity|]. split; [exact Hn|]. split; [congruence|]. split.
  - rewrite Hk3, Hk2, Hk1, Hk0, decide_True by reflexivity. reflexivity.
  - intros k Hk. rewrite Hk3, Hk2, Hk1, Hk0, decide_False by exact Hk. reflexivity.
Qed.

Lemma cast_weight_to_int8_Ok (t : Tensor) (xs : list float) (qs : list Z) :
  buffer t = BufFloat xs ->
  0 <= numel t <= Z.of_nat (length xs) ->
  Forall2 (fun x q => quantize_truncated x = Ok q) (take (Z.to_nat (numel t)) xs) qs ->
  cast_weight_to_int8 t = Ok (mkTensor (dims t) (BufInt8 qs) true kInt8).
Proof.
  intros Hbuf Hn Hconv. unfold cast_weight_to_int8, CopyDataFrom, data_float, data_size.
  rewrite Hbuf. cbn [bind].
  rewrite (proj2 (convert_elements_Ok _ _ _ qs)) by (split; assumption).
  reflexivity.
Qed.

(** Claim C5.  On a match of [ChannelWiseDequantOpFuser] the operator
    node the rewrite creates carries, for the weight, a scale list as long
    as the channel-scale tensor has elements, whose i-th entry is
    channel_scale[i] / (2^(b-1) - 1), [b] being the first element of the
    attribute [quant_bits] of the dequantize operator (1 <= b <= 31). *)
Theorem ChannelWiseDequantOpFuser_rewrite
    (quantized_op_type_ : string) (st : State) (matched : key2nodes_t)
    (quantized_op_input quantized_op_weight quantized_op dequant_op_channel_scale
       dequant_op dequant_op_out : node_id)
    (quantized_info dequant_info : OpInfo)
    (in_name weight_name channel_scale_name out_name : string) (w0 w1 w2 w3 : bool)
    (b : Z) (bits : list Z)
    (channel_scale_tensor weight_t : Tensor) (channel_scale_data ws : list float)
    (qs : list Z) :
  let g := graph st in
  matched !! "quantized_op_input" = Some quantized_op_input ->
  matched !! "quantized_op_weight" = Some quantized_op_weight ->
  matched !! "quantized_op" = Some quantized_op ->
  matched !! "dequant_op_channel_scale" = Some dequant_op_channel_scale ->
  matched !! "dequant_op" = Some dequant_op ->
  matched !! "dequant_op_out" = Some dequant_op_out ->
  kind_of g quantized_op_input = Some (Arg in_name w0) ->
  kind_of g quantized_op_weight = Some (Arg weight_name w1) ->
  kind_of g quantized_op = Some (Stmt quantized_info) ->
  kind_of g dequant_op_channel_scale = Some (Arg channel_scale_name w2) ->
  kind_of g dequant_op = Some (Stmt dequant_info) ->
  kind_of g dequant_op_out = Some (Arg out_name w3) ->
  attrs dequant_info !! "quant_bits" = Some (AttrInts (b :: bits)) ->
  1 <= b <= 31 ->
  scope st !! channel_scale_name = Some channel_scale_tensor ->
  buffer channel_scale_tensor = BufFloat channel_scale_data ->
  0 <= numel channel_scale_tensor <= Z.of_nat (length channel_scale_data) ->
  scope st !! weight_name = Some weight_t ->
  buffer weight_t = BufFloat ws ->
  0 <= numel weight_t <= Z.of_nat (length ws) ->
  Forall2 (fun x q => quantize_truncated x = Ok q) (take (Z.to_nat (numel weight_t)) ws) qs ->
  exists st' op' weight_scale,
    ChannelWiseDequantOpFuser.InsertNewNode quantized_op_type_ st matched = Ok st'
    /\ (fresh (dom g) ∉ dom g)
    /\ kind_of (graph st') (fresh (dom g)) = Some (Stmt op')
    /\ input_scales op' !! weight_name = Some weight_scale
    /\ Z.of_nat (length weight_scale) = numel channel_scale_tensor
    /\ forall (i : nat) x,
         Z.of_nat i < numel channel_scale_tensor ->
         channel_scale_data !! i = Some x ->
         weight_scale !! i = Some (float_div x (float_of_int (2 ^ (b - 1) - 1))).
Proof.
  intros g Hm0 Hm1 Hm2 Hm3 Hm4 Hm5 Hk0 Hk1 Hk2 Hk3 Hk4 Hk5 Hbits Hb Hcs Hcsbuf Hcsn
    Hwt Hwbuf Hwn Hconv.
  unfold ChannelWiseDequantOpFuser.InsertNewNode, at_.
  rewrite Hm0, Hm1, Hm2, Hm3, Hm4, Hm5. cbn [bind]. fold g.
  rewrite (arg_name_Ok _ _ _ _ Hk1). cbn [bind].
  rewrite (stmt_op_info_Ok _ _ _ Hk2), (stmt_op_info_Ok _ _ _ Hk4). cbn [bind].
  unfold GetAttr_ints. rewrite Hbits. cbn [bind].
  rewrite (range_of_bit_length_spec b Hb). cbn [bind].
  rewrite (arg_name_Ok _ _ _ _ Hk3). cbn [bind].
  unfold lookup_tensor. rewrite Hcs. cbn [bind].
  unfold data_float. rewrite Hcsbuf. cbn [bind]. unfold data_size.
  replace ((numel channel_scale_tensor <? 0)
           || (Z.of_nat (length channel_scale_data) <? numel channel_scale_tensor))
    with false by (symmetry; apply orb_false_iff; split; apply Z.ltb_ge; lia).
  cbn [bind].
  set (weight_scale := map (fun x => float_div x (float_of_int (2 ^ (b - 1) - 1)))
                         (take (Z.to_nat (numel channel_scale_tensor)) channel_scale_data)).
  rewrite (arg_name_Ok _ _ _ _ Hk0), (arg_name_Ok _ _ _ _ Hk5).
  match goal with
  | |- context [bind ?m _] =>
      match m with
      | (if is_conv_type _ then _ else _) =>
          assert (Hdesc : exists op_desc, m = Ok op_desc)
            by (destruct (is_conv_type quantized_op_type_);
                [|destruct (is_mul_type quantized_op_type_)]; cbn [bind]; eauto)
      end
  end.
  destruct Hdesc as [op_desc ->]. cbn [bind].
  rewrite Hwt. cbn [bind].
  rewrite (cast_weight_to_int8_Ok weight_t ws qs Hwbuf Hwn Hconv). cbn [bind].
  match goal with
  | |- context [create_and_link g ?op ?a ?b ?c] =>
      destruct (create_and_link_Ok g op a b c) as (g' & -> & Hfresh & _ & Hnew & _)
  end.
  { apply kind_of_dom. rewrite Hk0. eauto. }
  { apply kind_of_dom. rewrite Hk1. eauto. }
  { apply kind_of_dom. rewrite Hk5. eauto. }
  cbn [bind]. eexists _, _, weight_scale.
  split; [reflexivity|]. split; [exact Hfresh|]. split; [exact Hnew|].
  split; [apply lookup_insert_eq|]. split.
  - unfold weight_scale. rewrite length_map, length_take. lia.
  - intros i x Hi Hx. unfold weight_scale.
    rewrite list_lookup_fmap, lookup_take_lt by lia. rewrite Hx. reflexivity.
Qed.


Lemma ChannelWiseDequantOpFuser_rewrite_witness :
  exists st' op',
    ChannelWiseDequantOpFuser.InsertNewNode "conv2d"
      Examples.channel_wise_state Examples.channel_wise_match = Ok st'
    /\ kind_of (graph st') 7%nat = Some (Stmt op')
    /\ input_scales op' !! "w" = Some [float_of_int 1; float_of_int 2].
Proof.
  destruct (ChannelWiseDequantOpFuser_rewrite "conv2d"
              Examples.channel_wise_state Examples.channel_wise_match
              0%nat 1%nat 2%nat 4%nat 5%nat 6%nat
              (SetOutput
                 (SetInput (SetInput (Examples.op0 "conv2d") "Input" ["x"])
                    "Filter" ["w"])
                 "Output" ["t"])
              (SetAttr (Examples.op0 "fake_channel_wise_dequantize_max_abs")
                 "quant_bits" (AttrInts [8]))
              "x" "w" "w.scale" "y" false true true false 8 []
              Examples.channel_wise_scale Examples.channel_wise_weight
              [float_of_int 127; float_of_int 254]
              [Examples.one_and_three_quarters; float_of_int (-3)]
              [1; -3])
    as (st' & op' & scales & Hrun & _ & Hnew & Hsc & Hlen & Hval);
    try reflexivity; try (vm_compute; intuition congruence).
  - apply map_result_Forall2. vm_compute. reflexivity.
  - exists st', op'. split; [exact Hrun|]. split; [exact Hnew|].
    rewrite Hsc. f_equal.
    change (numel Examples.channel_wise_scale) with 2 in Hlen, Hval.
    destruct scales as [|s0 [|s1 [|s2 scales]]]; simpl length in Hlen; try lia.
    pose proof (Hval 0%nat _ ltac:(lia) eq_refl) as H0.
    pose proof (Hval 1%nat _ ltac:(lia) eq_refl) as H1.
    injection H0 as ->. injection H1 as ->. vm_compute. reflexivity.
Defined.


(** ** DequantOpFuser *)

Lemma Int32_mul_range (b : Z) :
  1 <= b <= 16 ->
  Int32.mul (2 ^ (b - 1) - 1) (2 ^ (b - 1) - 1)
  = Ok ((2 ^ (b - 1) - 1) * (2 ^ (b - 1) - 1)).
Proof.
  intros Hb.
  assert (H1 : 1 <= 2 ^ (b - 1) <= 2 ^ 15).
  { split.
    - assert (0 < 2 ^ (b - 1)) by (apply Z.pow_pos_nonneg; lia). lia.
    - apply Z.pow_le_mono_r; lia. }
  change (2 ^ 15) with 32768 in H1.
  unfold Int32.mul. apply Int32_checked_in.
  change (2 ^ 31) with 2147483648. nia.
Qed.

Lemma narrow_small (d : Z) : 0 <= d < 2 ^ 31 -> Int32.narrow d = d.
Proof.
  intros Hd. unfold Int32.narrow.
  change (2 ^ 31) with 2147483648 in *. change (2 ^ 32) with 4294967296.
  rewrite Z.mod_small by lia. lia.
Qed.

(** Claim C2.  On a match of [DequantOpFuser] with bit length [b] of the
    quantized operator and [max_range] of the dequantize operator, the
    operator node the rewrite creates carries, for the weight, the scale
    range * range / max_range / range with range = 2^(b-1) - 1, repeated
    dims[0] times for conv2d, depthwise_conv2d and conv2d_transpose and
    dims[1] times for mul and matmul.  The code squares the range as an
    [int], which is defined for bit lengths up to 16. *)
Theorem DequantOpFuser_rewrite
    (quantized_op_type_ : string) (st : State) (matched : key2nodes_t)
    (quantized_op_input quantized_op_weight quantized_op dequant_op
       dequant_op_out : node_id)
    (quantized_info dequant_info : OpInfo)
    (in_name weight_name out_name : string) (w0 w1 w2 : bool)
    (b : Z) (max_range : float) (weight_t : Tensor) (ws : list float) (qs : list Z)
    (axis : nat) (d : Z) :
  let g := graph st in
  matched !! "quantized_op_input" = Some quantized_op_input ->
  matched !! "quantized_op_weight" = Some quantized_op_weight ->
  matched !! "quantized_op" = Some quantized_op ->
  matched !! "dequant_op" = Some dequant_op ->
  matched !! "dequant_op_out" = Some dequant_op_out ->
  kind_of g quantized_op_input = Some (Arg in_name w0) ->
  kind_of g quantized_op_weight = Some (Arg weight_name w1) ->
  kind_of g quantized_op = Some (Stmt quantized_info) ->
  kind_of g dequant_op = Some (Stmt dequant_info) ->
  kind_of g dequant_op_out = Some (Arg out_name w2) ->
  attrs quantized_info !! "bit_length" = Some (AttrInt b) ->
  1 <= b <= 16 ->
  attrs dequant_info !! "max_range" = Some (AttrFloat max_range) ->
  (quantized_op_type_ ∈ ["conv2d"; "depthwise_conv2d"; "conv2d_transpose"]
   /\ axis = 0%nat)
  \/ (quantized_op_type_ ∈ ["mul"; "matmul"] /\ axis = 1%nat) ->
  scope st !! weight_name = Some weight_t ->
  dims weight_t !! axis = Some d ->
  0 <= d < 2 ^ 31 ->
  buffer weight_t = BufFloat ws ->
  0 <= numel weight_t <= Z.of_nat (length ws) ->
  Forall2 (fun x q => quantize_truncated x = Ok q) (take (Z.to_nat (numel weight_t)) ws) qs ->
  let range := 2 ^ (b - 1) - 1 in
  let whole_weight_scale :=
    float_div (float_div (float_of_int (range * range)) max_range) (float_of_int range) in
  exists st' op',
    DequantOpFuser.InsertNewNode quantized_op_type_ st matched = Ok st'
    /\ (fresh (dom g) ∉ dom g)
    /\ kind_of (graph st') (fresh (dom g)) = Some (Stmt op')
    /\ input_scales op' !! weight_name
       = Some (replicate (Z.to_nat d) whole_weight_scale).
Proof.
  intros g Hm0 Hm1 Hm2 Hm3 Hm4 Hk0 Hk1 Hk2 Hk3 Hk4 Hbit Hb Hmax Hty Hwt Hdim Hd
    Hwbuf Hwn Hconv range whole_weight_scale.
  unfold DequantOpFuser.InsertNewNode, at_.
  rewrite Hm0, Hm1, Hm2, Hm3, Hm4. cbn [bind]. fold g.
  rewrite (arg_name_Ok _ _ _ _ Hk1). cbn [bind].
  rewrite (stmt_op_info_Ok _ _ _ Hk2). cbn [bind].
  unfold GetAttr_int. rewrite Hbit. cbn [bind].
  rewrite (range_of_bit_length_spec b ltac:(lia)). cbn [bind].
  rewrite (stmt_op_info_Ok _ _ _ Hk3). cbn [bind].
  unfold GetAttr_float. rewrite Hmax. cbn [bind].
  rewrite (Int32_mul_range b Hb). cbn [bind].
  unfold lookup_tensor. rewrite Hwt. cbn [bind].
  rewrite (arg_name_Ok _ _ _ _ Hk0), (arg_name_Ok _ _ _ _ Hk4).
  match goal with
  | |- context [bind ?m _] =>
      match m with
      | (if is_conv_type _ then _ else _) =>
          assert (Hsized : exists op_desc, m = Ok (op_desc, d))
      end
  end.
  { destruct Hty as [[Hty ->]|[Hty ->]];
      repeat (apply elem_of_cons in Hty as [->|Hty]);
      try (apply elem_of_nil in Hty; contradiction);
      cbn [is_conv_type is_mul_type bool_decide decide_rel orb];
      unfold dims_at; rewrite Hdim; cbn [bind]; rewrite (narrow_small d Hd); eauto. }
  destruct Hsized as [op_desc ->]. cbn [bind].
  rewrite (cast_weight_to_int8_Ok weight_t ws qs Hwbuf Hwn Hconv). cbn [bind].
  match goal with
  | |- context [create_and_link g ?op ?a ?b ?c] =>
      destruct (create_and_link_Ok g op a b c) as (g' & -> & Hfresh & _ & Hnew & _)
  end.
  { apply kind_of_dom. rewrite Hk0. eauto. }
  { apply kind_of_dom. rewrite Hk1. eauto. }
  { apply kind_of_dom. rewrite Hk4. eauto. }
  cbn [bind]. eexists _, _.
  split; [reflexivity|]. split; [exact Hfresh|]. split; [exact Hnew|].
  apply lookup_insert_eq.
Qed.


Lemma DequantOpFuser_rewrite_witness :
  exists st' op',
    DequantOpFuser.InsertNewNode "conv2d" Examples.dequant_state Examples.dequant_match
    = Ok st'
    /\ kind_of (graph st') 6%nat = Some (Stmt op')
    /\ input_scales op' !! "w"
       = Some (replicate 16
                 (float_div (float_div (float_of_int (127 * 127)) (float_of_int 254))
                    (float_of_int 127))).
Proof.
  destruct (DequantOpFuser_rewrite "conv2d" Examples.dequant_state Examples.dequant_match
              0%nat 1%nat 2%nat 4%nat 5%nat
              Examples.dequant_conv_op Examples.dequant_op_info
              "x" "w" "y" false true false 8 (float_of_int 254)
              Examples.dequant_weight (replicate 1152 (float_of_int 3))
              (replicate 1152 3) 0%nat 16)
    as (st' & op' & Hrun & _ & Hnew & Hsc);
    try reflexivity; try lia.
  - left. split; [|reflexivity]. apply list_elem_of_here.
  - vm_compute. intuition congruence.
  - apply map_result_Forall2. vm_compute. reflexivity.
  - exists st', op'. split; [exact Hrun|]. split; [exact Hnew|]. exact Hsc.
Defined.


(** ** QuantDequantOpFuser *)

Lemma converts_weight_elem (ty : string) :
  QuantDequantOpFuser.converts_weight ty
  = bool_decide (ty ∈ ["mul"; "conv2d"; "depthwise_conv2d"]).
Proof.
  unfold QuantDequantOpFuser.converts_weight.
  destruct (bool_decide (ty ∈ ["mul"; "conv2d"; "depthwise_conv2d"])) eqn:Hin.
  - apply bool_decide_eq_true in Hin.
    repeat (apply elem_of_cons in Hin as [->|Hin]); try reflexivity.
    apply elem_of_nil in Hin. contradiction.
  - apply bool_decide_eq_false in Hin.
    rewrite !orb_false_iff. repeat split; apply bool_decide_eq_false; intros ->;
      apply Hin; repeat constructor.
Qed.


Lemma QuantDequant_weight_update_Type (i o : string) (b : Z) (s : float)
    (ds : list Z) (op : OpInfo) :
  Type_ (QuantDequant_weight_update i o b s ds op) = Type_ op.
Proof.
  unfold QuantDequant_weight_update.
  destruct (ds !! _); [destruct (QuantDequantOpFuser.converts_weight _)|]; reflexivity.
Qed.

Lemma insert_twice {V} (m : gmap string V) (k1 k2 : string) (v1 v2 : V) :
  <[k1 := v1]> (<[k2 := v2]> (<[k1 := v1]> (<[k2 := v2]> m)))
  = <[k1 := v1]> (<[k2 := v2]> m).
Proof.
  apply map_eq. intros k. rewrite !lookup_insert.
  repeat case_decide; reflexivity.
Qed.

Lemma QuantDequant_weight_update_idemp (i o : string) (b : Z) (s : float)
    (ds : list Z) (op : OpInfo) :
  QuantDequant_weight_update i o b s ds (QuantDequant_weight_update i o b s ds op)
  = QuantDequant_weight_update i o b s ds op.
Proof.
  unfold QuantDequant_weight_update at 1.
  rewrite QuantDequant_weight_update_Type.
  unfold QuantDequant_weight_update.
  destruct op as [ty ins outs ats scs]. cbn [Type_].
  destruct (ds !! _) as [d|];
    [destruct (QuantDequantOpFuser.converts_weight ty)|];
    unfold UpdateAllInputs, SetAttr, SetInputScale; cbn;
    rewrite UpdateAllInputs_inputs_idemp, ?insert_twice, ?insert_insert_eq;
    reflexivity.
Qed.

Lemma QuantizeTensorInPlace_dims (t t' : Tensor) (s : float) :
  QuantizeTensorInPlace t s = Ok t' -> dims t' = dims t.
Proof.
  unfold QuantizeTensorInPlace.
  destruct (data_float _); cbn [bind]; [|discriminate].
  destruct (convert_elements _ _ _); cbn [bind]; [|discriminate].
  intros [= <-]. reflexivity.
Qed.


Lemma relinked_stmt_type (F : OpInfo -> OpInfo) (l : list node_id) (g g' : SSAGraph)
    (k : node_id) :
  (forall op, Type_ (F op) = Type_ op) ->
  relinked F l g g' -> stmt_type g' k = stmt_type g k.
Proof.
  intros HF [_ Hk]. unfold stmt_type. rewrite Hk.
  destruct (decide (k ∈ l)); [|reflexivity].
  destruct (kind_of g k) as [[name w|op]|]; simpl; [reflexivity| |reflexivity].
  rewrite HF. reflexivity.
Qed.

Lemma converting_relinked (F : OpInfo -> OpInfo) (l l' : list node_id)
    (g g' : SSAGraph) :
  (forall op, Type_ (F op) = Type_ op) ->
  relinked F l g g' -> converting g' l' = converting g l'.
Proof.
  intros HF Hr. unfold converting. apply list_filter_iff. intros c.
  unfold is_converting. rewrite (relinked_stmt_type F l g g' c HF Hr). tauto.
Qed.

Lemma update_quantized_node_weight (a : node_id) (i o : string) (b : Z) (s : float)
    (g : SSAGraph) (sc : Scope) (c : node_id) (op : OpInfo) (d : Z) (t : Tensor) :
  kind_of g c = Some (Stmt op) -> a ∈ dom g -> sc !! i = Some t ->
  dims t !! QuantDequantOpFuser.quant_axis (Type_ op) = Some d ->
  0 <= d < 2 ^ 31 ->
  exists g1,
    relinked (QuantDequant_weight_update i o b s (dims t)) [c] g g1
    /\ QuantDequantOpFuser.update_quantized_node a i o true b s (mkState g sc) c
       = do t1 <- (if QuantDequantOpFuser.converts_weight (Type_ op)
                   then QuantizeTensorInPlace t s else Ok t);
         Ok (mkState g1 (<[i := t1]> sc)).
Proof.
  intros Hc Ha Hsc Hdim Hd.
  set (F := QuantDequant_weight_update i o b s (dims t)).
  destruct (ResetOp_Ok g c op (F op) Hc) as (g1 & Hreset & Hd1 & Hk1).
  destruct (IR_NODE_LINK_TO_Ok g1 a c) as (g2 & Hlink & Hd2 & Hk2).
  { rewrite Hd1. exact Ha. }
  { rewrite Hd1. apply kind_of_dom. rewrite Hc. eauto. }
  exists g2. split.
  - split; [congruence|]. intros k. rewrite Hk2, Hk1.
    destruct (decide (k = c)) as [->|Hne].
    + rewrite decide_True by apply list_elem_of_here. rewrite Hc. reflexivity.
    + rewrite decide_False; [reflexivity|]. intros ->%list_elem_of_singleton. congruence.
  - unfold QuantDequantOpFuser.update_quantized_node. cbn [graph scope].
    rewrite (stmt_op_info_Ok _ _ _ Hc). cbn [bind].
    unfold lookup_tensor. rewrite Hsc. cbn [bind Type_ SetAttr UpdateAllInputs].
    unfold dims_at. rewrite Hdim. cbn [bind].
    rewrite (narrow_small d Hd). unfold make_vector.
    replace (d <? 0) with false by (symmetry; apply Z.ltb_ge; lia). cbn [bind].
    assert (HF : F op
                 = let op2 :=
                     SetInputScale
                       (SetAttr (UpdateAllInputs op o i) "bit_length" (AttrInt b))
                       i (replicate (Z.to_nat d) s) in
                   if QuantDequantOpFuser.converts_weight (Type_ op)
                   then SetAttr op2 "enable_int8" (AttrBool true) else op2).
    { unfold F, QuantDequant_weight_update. rewrite Hdim, (narrow_small d Hd).
      reflexivity. }
    cbn zeta in HF.
    destruct (QuantDequantOpFuser.converts_weight (Type_ op)).
    + destruct (QuantizeTensorInPlace t s) as [t1|e]; cbn [bind]; [|reflexivity].
      cbn [SetAttr SetInputScale UpdateAllInputs] in HF |- *.
      rewrite <- HF, Hreset. cbn [bind]. rewrite Hlink. reflexivity.
    + cbn [bind]. cbn [SetAttr SetInputScale UpdateAllInputs] in HF |- *.
      rewrite <- HF, Hreset. cbn [bind]. rewrite Hlink. cbn [bind].
      rewrite insert_id by exact Hsc. reflexivity.
Qed.

Lemma is_converting_stmt (g : SSAGraph) (c : node_id) (op : OpInfo) :
  kind_of g c = Some (Stmt op) ->
  is_converting g c = QuantDequantOpFuser.converts_weight (Type_ op).
Proof.
  intros Hc. unfold is_converting, stmt_type. rewrite Hc.
  symmetry. apply converts_weight_elem.
Qed.

Lemma weight_consumer_relinked (F : OpInfo -> OpInfo) (l : list node_id)
    (g g' : SSAGraph) (ds : list Z) (c : node_id) :
  (forall op, Type_ (F op) = Type_ op) ->
  relinked F l g g' -> weight_consumer g ds c -> weight_consumer g' ds c.
Proof.
  intros HF [_ Hk] (op & d & Hc & Hdim & Hd). unfold weight_consumer.
  rewrite Hk, Hc. destruct (decide (c ∈ l)); simpl.
  - exists (F op), d. rewrite HF. auto.
  - exists op, d. auto.
Qed.

Lemma update_all_weight (a : node_id) (i o : string) (b : Z) (s : float)
    (ds : list Z) (l : list node_id) :
  forall (g : SSAGraph) (sc : Scope) (t : Tensor),
    Forall (weight_consumer g ds) l -> a ∈ dom g -> sc !! i = Some t -> dims t = ds ->
    exists g',
      relinked (QuantDequant_weight_update i o b s ds) l g g'
      /\ for_each (QuantDequantOpFuser.update_quantized_node a i o true b s) l
           (mkState g sc)
         = do t' <- quantize_times (length (converting g l)) t s;
           Ok (mkState g' (<[i := t']> sc)).
Proof.
  set (F := QuantDequant_weight_update i o b s ds).
  assert (HFT : forall op, Type_ (F op) = Type_ op)
    by (intros op; apply QuantDequant_weight_update_Type).
  induction l as [|c l IH]; intros g sc t Hl Ha Hsc Hdims.
  - exists g. split; [apply relinked_nil|]. simpl.
    rewrite insert_id by exact Hsc. reflexivity.
  - apply Forall_cons in Hl as [Hc Hl].
    pose proof Hc as (op & d & Hck & Hdim & Hd).
    rewrite <- Hdims in Hdim.
    destruct (update_quantized_node_weight a i o b s g sc c op d t Hck Ha Hsc Hdim Hd)
      as (g1 & Hr1 & Hstep).
    rewrite Hdims in Hr1. fold F in Hr1.
    assert (Hl1 : Forall (weight_consumer g1 ds) l).
    { eapply Forall_impl; [exact Hl|]. intros k. apply (weight_consumer_relinked F [c]); assumption. }
    assert (Ha1 : a ∈ dom g1) by (destruct Hr1 as [-> _]; exact Ha).
    assert (Hcount : length (converting g (c :: l))
                     = ((if QuantDequantOpFuser.converts_weight (Type_ op) then 1 else 0)
                        + length (converting g1 l))%nat).
    { rewrite (converting_relinked F [c] l g g1 HFT Hr1).
      unfold converting. rewrite filter_cons.
      rewrite (is_converting_stmt g c op Hck).
      destruct (QuantDequantOpFuser.converts_weight (Type_ op));
        [rewrite decide_True by reflexivity|rewrite decide_False by discriminate];
        reflexivity. }
    rewrite Hcount. cbn [for_each]. rewrite Hstep.
    destruct (QuantDequantOpFuser.converts_weight (Type_ op)).
    + cbn [Nat.add quantize_times].
      destruct (QuantizeTensorInPlace t s) as [t1|e] eqn:Hq; cbn [bind].
      * destruct (IH g1 (<[i := t1]> sc) t1 Hl1 Ha1) as (g' & Hr' & Hrun).
        { apply lookup_insert_eq. }
        { rewrite (QuantizeTensorInPlace_dims _ _ _ Hq). exact Hdims. }
        exists g'. split; [eapply relinked_cons; eauto; apply QuantDequant_weight_update_idemp|].
        rewrite Hrun. destruct (quantize_times _ t1 s); cbn [bind]; [|reflexivity].
        rewrite insert_insert_eq. reflexivity.
      * destruct (IH g1 sc t Hl1 Ha1 Hsc Hdims) as (g' & Hr' & _).
        exists g'. split; [|reflexivity].
        eapply relinked_cons; eauto; apply QuantDequant_weight_update_idemp.
    + cbn [Nat.add bind].
      destruct (IH g1 (<[i := t]> sc) t Hl1 Ha1) as (g' & Hr' & Hrun).
      { apply lookup_insert_eq. }
      { exact Hdims. }
      exists g'. split; [eapply relinked_cons; eauto; apply QuantDequant_weight_update_idemp|].
      rewrite Hrun. destruct (quantize_times _ t s); cbn [bind]; [|reflexivity].
      rewrite insert_insert_eq. reflexivity.
Qed.

Lemma FindAbsMax_whole (w : Tensor) (xs : list float) (m : float) :
  numel w = Z.of_nat (length xs) -> numel w < 2 ^ 31 -> is_abs_max xs m ->
  FindAbsMax xs (Int32.narrow (numel w)) = Ok m.
Proof.
  intros Hn Hlt Hmax. rewrite narrow_small by lia. apply FindAbsMax_take; [lia|].
  rewrite Hn, Nat2Z.id, firstn_all. exact Hmax.
Qed.

Section QuantDequant.
Context `{GraphCollaborator}.


(** Claim C7.  On a match of [QuantDequantOpFuser] whose input variable
    is in the storage: if the input is a weight and the operator type of
    the fuser is not the abs-max one, or the input is an activation and
    the type is not the moving-average one, the rewrite fails with an
    invariant violation.  Otherwise the threshold is, for a weight, the
    greatest absolute value of the elements of the input tensor, and for
    an activation the first element of the output-scale tensor. *)
Theorem QuantDequantOpFuser_threshold
    (quant_dequant_op_type_ : string) (st : State) (matched : key2nodes_t)
    (input_var_node quant_dequant_node output_scale_node output_var_node : node_id)
    (input_var_name output_var_name : string) (input_var_is_weight w_o : bool)
    (quant_dequant_info : OpInfo) (input_var_tensor : Tensor) :
  let g := graph st in
  let expected :=
    if input_var_is_weight then "fake_quantize_dequantize_abs_max"
    else "fake_quantize_dequantize_moving_average_abs_max" in
  matched !! "input_var_node" = Some input_var_node ->
  matched !! "quant_dequant_node" = Some quant_dequant_node ->
  matched !! "output_scale_node" = Some output_scale_node ->
  matched !! "output_var_node" = Some output_var_node ->
  kind_of g input_var_node = Some (Arg input_var_name input_var_is_weight) ->
  kind_of g quant_dequant_node = Some (Stmt quant_dequant_info) ->
  kind_of g output_var_node = Some (Arg output_var_name w_o) ->
  scope st !! input_var_name = Some input_var_tensor ->
  (quant_dequant_op_type_ <> expected ->
   QuantDequantOpFuser.InsertNewNode quant_dequant_op_type_ st matched
   = Err InvariantViolation)
  /\ (quant_dequant_op_type_ = expected ->
      (input_var_is_weight = true ->
       forall xs m,
         buffer input_var_tensor = BufFloat xs ->
         numel input_var_tensor = Z.of_nat (length xs) ->
         numel input_var_tensor < 2 ^ 31 ->
         is_abs_max xs m ->
         QuantDequantOpFuser.get_threshold quant_dequant_op_type_ st true
           input_var_tensor output_scale_node = Ok m)
      /\ (input_var_is_weight = false ->
          forall scale_name w_s scale_tensor S rest,
            kind_of g output_scale_node = Some (Arg scale_name w_s) ->
            scope st !! scale_name = Some scale_tensor ->
            buffer scale_tensor = BufFloat (S :: rest) ->
            QuantDequantOpFuser.get_threshold quant_dequant_op_type_ st false
              input_var_tensor output_scale_node = Ok S)).
Proof.
  intros g expected Hm0 Hm1 Hm2 Hm3 Hk0 Hk1 Hk3 Hsc. split.
  - intros Hty. unfold QuantDequantOpFuser.InsertNewNode, at_.
    rewrite Hm0, Hm1, Hm2, Hm3. cbn [bind]. fold g.
    rewrite (arg_name_Ok _ _ _ _ Hk0), (arg_name_Ok _ _ _ _ Hk3),
      (arg_is_weight_Ok _ _ _ _ Hk0). cbn [bind].
    rewrite (stmt_op_info_Ok _ _ _ Hk1). cbn [bind].
    unfold lookup_tensor at 1. rewrite Hsc. cbn [bind].
    unfold QuantDequantOpFuser.get_threshold, QuantDequantOpFuser.check_type.
    subst expected. destruct input_var_is_weight;
      rewrite bool_decide_eq_false_2 by exact Hty; reflexivity.
  - intros Hty. split.
    + intros -> xs m Hbuf Hn Hlt Hmax. subst expected. subst quant_dequant_op_type_.
      unfold QuantDequantOpFuser.get_threshold, QuantDequantOpFuser.check_type.
      rewrite bool_decide_eq_true_2 by reflexivity. cbn [bind].
      unfold data_float. rewrite Hbuf. cbn [bind].
      apply FindAbsMax_whole; assumption.
    + intros -> scale_name w_s scale_tensor S rest Hk2 Hst Hbuf.
      subst expected. subst quant_dequant_op_type_.
      unfold QuantDequantOpFuser.get_threshold, QuantDequantOpFuser.check_type.
      rewrite bool_decide_eq_true_2 by reflexivity. cbn [bind]. fold g.
      rewrite (arg_name_Ok _ _ _ _ Hk2). cbn [bind].
      unfold lookup_tensor. rewrite Hst. cbn [bind].
      unfold data_float. rewrite Hbuf. reflexivity.
Qed.
End QuantDequant.




Lemma quantize_rounded_error (s x : float) (e : error) :
  quantize_rounded s x = Err e -> e = UndefinedBehavior.
Proof.
  unfold quantize_rounded, float_to_int8.
  destruct (float_trunc _) as [z|]; [|congruence].
  destruct ((-128 <=? z) && (z <=? 127)); congruence.
Qed.




Section QuantDequantTheorems.
Context `{GraphCollaborator}.


End QuantDequantTheorems.


Lemma qdq_weight_abs_max :
  is_abs_max Examples.qdq_weight_data (float_of_int 2).
Proof.
  split.
  - apply list_elem_of_here.
  - apply Forall_cons. split; [reflexivity|].
    apply Forall_replicate. reflexivity.
Qed.



Lemma QuantDequantOpFuser_threshold_witness :
  @QuantDequantOpFuser.InsertNewNode Examples.always_safe
    "fake_quantize_dequantize_moving_average_abs_max" Examples.qdq_state
    Examples.qdq_match = Err InvariantViolation.
Proof.
  refine (proj1 (@QuantDequantOpFuser_threshold Examples.always_safe
                   "fake_quantize_dequantize_moving_average_abs_max"
                   Examples.qdq_state Examples.qdq_match 0%nat 1%nat 2%nat 3%nat
                   "w" "w.qdq" true false Examples.qdq_op Examples.qdq_weight
                   _ _ _ _ _ _ _ _) _);
    try reflexivity.
  discriminate.
Defined.


(** ** The range of a bit length *)

Lemma Int32_checked_out (z : Z) :
  ~ (- 2 ^ 31 <= z <= 2 ^ 31 - 1) -> Int32.checked z = Err UndefinedBehavior.
Proof.
  intros Hz. unfold Int32.checked, Int32.in_range, Int32.min_int, Int32.max_int.
  destruct ((- 2 ^ 31 <=? z) && (z <=? 2 ^ 31 - 1)) eqn:E; [|reflexivity].
  exfalso. apply Hz. apply andb_true_iff in E as [E1 E2].
  apply Z.leb_le in E1, E2. lia.
Qed.

Lemma float_div_by_zero (x : float) (sign : bool) :
  float_to_Q (float_div x (S754_zero sign)) = None.
Proof. destruct x; reflexivity. Qed.

(** Property X1.  The expression ((1 << (bit_length - 1)) - 1) every
    rule computes is defined exactly for the bit lengths 1 to 31, where it
    is 2^(bit_length-1) - 1; for any other bit length the subtraction, the
    shift or the result leaves [int].  For bit length 1 the range is 0, and
    the scale threshold / range is then an infinity or a NaN whatever the
    threshold. *)
Theorem range_of_bit_length_defined (b : Z) :
  (1 <= b <= 31 -> range_of_bit_length b = Ok (2 ^ (b - 1) - 1))
  /\ (~ 1 <= b <= 31 -> range_of_bit_length b = Err UndefinedBehavior)
  /\ (b = 1 ->
      forall threshold r,
        range_of_bit_length b = Ok r ->
        float_to_Q (float_div threshold (float_of_int r)) = None).
Proof.
  split; [apply range_of_bit_length_spec|]. split.
  - intros Hb. unfold range_of_bit_length, Int32.sub, Int32.shl.
    destruct (Z_le_gt_dec (- 2 ^ 31) (b - 1)) as [Hlo|Hlo];
      [|rewrite Int32_checked_out by lia; reflexivity].
    destruct (Z_le_gt_dec (b - 1) (2 ^ 31 - 1)) as [Hhi|Hhi];
      [|rewrite Int32_checked_out by lia; reflexivity].
    rewrite Int32_checked_in by lia. cbn [bind].
    destruct ((0 <=? 1) && (0 <=? b - 1) && (b - 1 <? 32)) eqn:E; [|reflexivity].
    apply andb_true_iff in E as [E E3]. apply andb_true_iff in E as [_ E2].
    apply Z.leb_le in E2. apply Z.ltb_lt in E3.
    assert (b = 32) as -> by lia. reflexivity.
  - intros -> threshold r. change (range_of_bit_length 1) with (Ok (A := Z) 0).
    intros [= <-]. apply float_div_by_zero.
Qed.

(** ** [FindAbsMax] and NaN *)

Lemma FindAbsMax_largest (x : float) (l : list float) :
  FindAbsMax (x :: l) (Z.of_nat (length (x :: l)))
  = Ok (float_abs (largest_of abs_compare_func x l)).
Proof.
  unfold FindAbsMax.
  replace ((Z.of_nat (length (x :: l)) <? 0)
           || (Z.of_nat (length (x :: l)) <? Z.of_nat (length (x :: l)))) with false
    by (symmetry; apply orb_false_iff; split; apply Z.ltb_ge; lia).
  rewrite Nat2Z.id, firstn_all, max_element_lookup. reflexivity.
Qed.

Lemma abs_compare_nan_l (y : float) : abs_compare_func S754_nan y = false.
Proof. reflexivity. Qed.

Lemma abs_compare_nan_r (x y : float) : is_nan y = true -> abs_compare_func x y = false.
Proof. destruct y; try discriminate. intros _. destruct x; reflexivity. Qed.

Lemma largest_of_nan (l : list float) : largest_of abs_compare_func S754_nan l = S754_nan.
Proof. induction l as [|y l IH]; [reflexivity|exact IH]. Qed.

Lemma largest_of_skips_nan (l : list float) (x : float) :
  largest_of abs_compare_func x l
  = largest_of abs_compare_func x (filter (fun y => is_nan y = false) l).
Proof.
  revert x. induction l as [|y l IH]; intros x; [reflexivity|].
  destruct (is_nan y) eqn:Hy.
  - rewrite filter_cons_False by (rewrite Hy; discriminate).
    unfold largest_of at 1. simpl. rewrite (abs_compare_nan_r x y Hy). apply IH.
  - rewrite filter_cons_True by exact Hy.
    unfold largest_of. simpl. apply IH.
Qed.

(** Property X2.  [FindAbsMax] on a buffer with NaN entries: if the
    first element is a NaN the result is a NaN, whatever follows; otherwise
    the NaN entries are passed over and the result is the greatest absolute
    value of the other elements.  So the result depends on where a NaN
    stands. *)
Theorem FindAbsMax_nan (x : float) (l : list float) :
  let n := Z.of_nat (length (x :: l)) in
  (is_nan x = true -> FindAbsMax (x :: l) n = Ok S754_nan)
  /\ (is_nan x = false ->
      forall m, is_abs_max (x :: filter (fun y => is_nan y = false) l) m ->
                FindAbsMax (x :: l) n = Ok m).
Proof.
  intros n. subst n. rewrite FindAbsMax_largest. split.
  - destruct x; try discriminate. intros _. rewrite largest_of_nan. reflexivity.
  - intros _ m Hmax. rewrite largest_of_skips_nan, <- FindAbsMax_largest.
    apply FindAbsMax_take; [lia|]. rewrite Nat2Z.id, firstn_all. exact Hmax.
Qed.

(** Property X3.  For 1 <= size <= the length of the buffer,
    [FindAbsMax] returns the absolute value of one of the first [size]
    elements, whatever they are (NaN and infinities included), and the
    result never compares below zero. *)
Theorem FindAbsMax_member (input : list float) (size : Z) :
  1 <= size <= Z.of_nat (length input) ->
  exists (i : nat) (x : float),
    Z.of_nat i < size
    /\ input !! i = Some x
    /\ FindAbsMax input size = Ok (float_abs x)
    /\ float_lt (float_abs x) (S754_zero false) = false.
Proof.
  intros Hsize. unfold FindAbsMax.
  replace ((size <? 0) || (Z.of_nat (length input) <? size)) with false
    by (symmetry; apply orb_false_iff; split; apply Z.ltb_ge; lia).
  destruct (take (Z.to_nat size) input !! max_element abs_compare_func
              (take (Z.to_nat size) input)) as [x|] eqn:Hx.
  - exists (max_element abs_compare_func (take (Z.to_nat size) input)), x.
    apply lookup_take_Some in Hx as [Hx Hi].
    split; [lia|]. split; [exact Hx|]. split; [reflexivity|].
    destruct x as [s|s| |s m e]; try reflexivity.
  - exfalso. destruct (take (Z.to_nat size) input) as [|y rest] eqn:Ht.
    + apply (f_equal length) in Ht. rewrite length_take in Ht. simpl in Ht. lia.
    + rewrite max_element_lookup in Hx. discriminate.
Qed.

Lemma FindAbsMax_member_witness :
  exists (i : nat) (x : float),
    Z.of_nat i < 2
    /\ [S754_nan; float_of_int 3; float_of_int (-7)] !! i = Some x
    /\ FindAbsMax [S754_nan; float_of_int 3; float_of_int (-7)] 2 = Ok (float_abs x)
    /\ float_lt (float_abs x) (S754_zero false) = false.
Proof.
  apply (FindAbsMax_member [S754_nan; float_of_int 3; float_of_int (-7)] 2).
  simpl. lia.
Defined.

Lemma FindAbsMax_nan_witness :
  FindAbsMax [float_of_int 1; S754_nan; float_of_int (-3)] 3 = Ok (float_of_int 3).
Proof.
  apply (proj2 (FindAbsMax_nan (float_of_int 1) [S754_nan; float_of_int (-3)]) eq_refl).
  split.
  - vm_compute. apply list_elem_of_further, list_elem_of_here.
  - repeat constructor.
Defined.

(** ** A scale of zero *)

Lemma quantize_rounded_zero_scale (sign : bool) (x : float) :
  quantize_rounded (S754_zero sign) x = Err UndefinedBehavior.
Proof. destruct x; reflexivity. Qed.

Lemma convert_elements_first_fails (f : float -> result Z) (n : Z) (src : list float)
    (e : error) :
  1 <= n <= Z.of_nat (length src) ->
  (forall x, f x = Err e) ->
  convert_elements f n src = Err e.
Proof.
  intros Hn Hf. unfold convert_elements.
  replace ((n <? 0) || (Z.of_nat (length src) <? n)) with false
    by (symmetry; apply orb_false_iff; split; apply Z.ltb_ge; lia).
  destruct (take (Z.to_nat n) src) as [|x rest] eqn:Ht.
  - apply (f_equal length) in Ht. rewrite length_take in Ht. simpl in Ht. lia.
  - simpl. rewrite Hf. reflexivity.
Qed.

(** Property X4.  With a scale of zero (of either sign) and at least
    one element, [QuantizeTensorInPlace] and the conversion of
    [DynamicQuantOpFuser] have no defined result: every quotient x / 0 is
    an infinity or a NaN, which [static_cast<int8_t>] cannot convert. *)
Theorem QuantizeTensorInPlace_zero_scale (w : Tensor) (xs : list float) (sign : bool) :
  buffer w = BufFloat xs ->
  1 <= numel w <= Z.of_nat (length xs) ->
  QuantizeTensorInPlace w (S754_zero sign) = Err UndefinedBehavior
  /\ DynamicQuantOpFuser.convert_weight w (S754_zero sign) = Err UndefinedBehavior.
Proof.
  intros Hbuf Hn.
  unfold QuantizeTensorInPlace, DynamicQuantOpFuser.convert_weight, CopyDataFrom,
    data_float, data_size.
  rewrite Hbuf. cbn [bind]. change (numel (clear w)) with (numel w).
  rewrite (convert_elements_first_fails _ _ _ UndefinedBehavior Hn
             (quantize_rounded_zero_scale sign)).
  split; reflexivity.
Qed.

Lemma QuantizeTensorInPlace_zero_scale_witness :
  QuantizeTensorInPlace Examples.small_weight (S754_zero false) = Err UndefinedBehavior
  /\ DynamicQuantOpFuser.convert_weight Examples.small_weight (S754_zero false)
     = Err UndefinedBehavior.
Proof.
  apply (QuantizeTensorInPlace_zero_scale Examples.small_weight
           [float_of_int 1; float_of_int 0] false).
  - reflexivity.
  - split; discriminate.
Defined.

(** ** Symmetry of the rounded conversion *)

Lemma binary_round_aux_opp (s : bool) (m e : Z) (l : location) :
  SFopp (binary_round_aux prec emax s m e l) = binary_round_aux prec emax (negb s) m e l.
Proof.
  unfold binary_round_aux.
  destruct (shr_fexp prec emax m e l) as [mrs' e'].
  destruct (shr_fexp prec emax _ e' loc_Exact) as [mrs'' e''].
  destruct (shr_m mrs''); [reflexivity| |reflexivity].
  destruct (e'' <=? emax - prec); reflexivity.
Qed.

Lemma float_div_opp_l (x y : float) :
  float_div (SFopp x) y = SFopp (float_div x y).
Proof.
  unfold float_div.
  destruct x as [sx|sx| |sx mx ex], y as [sy|sy| |sy my ey]; simpl;
    try reflexivity; try (destruct sx, sy; reflexivity).
  destruct (SFdiv_core_binary prec emax (Z.pos mx) ex (Z.pos my) ey) as [[mz ez] lz].
  rewrite binary_round_aux_opp. destruct sx, sy; reflexivity.
Qed.

Lemma binary_normalize_opp (s : bool) (n : Z) :
  0 <= n ->
  binary_normalize prec emax (cond_Zopp (negb s) n) 0 (negb s)
  = SFopp (binary_normalize prec emax (cond_Zopp s n) 0 s).
Proof.
  intros Hn. destruct n as [|n|n]; [destruct s; reflexivity| |lia].
  destruct s; simpl; unfold binary_round;
    destruct (shl_align n 0 _) as [mz ez]; rewrite binary_round_aux_opp; reflexivity.
Qed.

Lemma float_round_opp (x : float) : float_round (SFopp x) = SFopp (float_round x).
Proof.
  destruct x as [s|s| |s m e]; try reflexivity.
  simpl. destruct (0 <=? e) eqn:He; [reflexivity|].
  apply binary_normalize_opp. apply Z.leb_gt in He.
  apply Z.div_pos.
  - assert (0 < 2 ^ (- e)) by (apply Z.pow_pos_nonneg; lia). lia.
  - assert (0 < 2 ^ (- e)) by (apply Z.pow_pos_nonneg; lia). lia.
Qed.

Lemma cond_Zopp_negb (s : bool) (z : Z) : cond_Zopp (negb s) z = - cond_Zopp s z.
Proof. destruct s; simpl; lia. Qed.

Lemma float_trunc_opp (x : float) :
  float_trunc (SFopp x) = Z.opp <$> float_trunc x.
Proof.
  destruct x as [s|s| |s m e]; try reflexivity.
  simpl. rewrite cond_Zopp_negb. reflexivity.
Qed.

(** Property X5.  The rounded conversion is symmetric: if x converts to
    q then q is an [int8_t], and -x converts to -q, unless q = -128, whose
    opposite is no [int8_t]; negating the scale is the same as negating
    the element. *)
Theorem quantize_rounded_symmetric (scale x : float) (q : Z) :
  quantize_rounded scale x = Ok q ->
  -128 <= q <= 127
  /\ quantize_rounded scale (SFopp x)
     = (if q =? -128 then Err UndefinedBehavior else Ok (- q))
  /\ quantize_rounded (SFopp scale) x = quantize_rounded scale (SFopp x).
Proof.
  intros Hq. split; [apply float_to_int8_Ok in Hq; tauto|]. split.
  - unfold quantize_rounded in *.
    rewrite float_div_opp_l, float_round_opp.
    apply float_to_int8_Ok in Hq as [Ht Hq].
    unfold float_to_int8. rewrite float_trunc_opp, Ht. simpl.
    destruct (q =? -128) eqn:E.
    + apply Z.eqb_eq in E. subst q. reflexivity.
    + apply Z.eqb_neq in E.
      replace ((-128 <=? - q) && (- q <=? 127)) with true by (symmetry; Zbool).
      reflexivity.
  - unfold quantize_rounded. f_equal. f_equal. unfold float_div.
    destruct x as [sx|sx| |sx mx ex], scale as [sy|sy| |sy my ey]; simpl;
      try reflexivity; destruct sx, sy; reflexivity.
Qed.

Lemma quantize_rounded_symmetric_witness :
  -128 <= 3 <= 127
  /\ quantize_rounded (float_of_int 2) (SFopp (float_of_int 5))
     = (if 3 =? -128 then Err UndefinedBehavior else Ok (- 3))
  /\ quantize_rounded (SFopp (float_of_int 2)) (float_of_int 5)
     = quantize_rounded (float_of_int 2) (SFopp (float_of_int 5)).
Proof.
  apply (quantize_rounded_symmetric (float_of_int 2) (float_of_int 5) 3).
  reflexivity.
Defined.

(** ** Edges *)

Lemma links_wf_iff (g : SSAGraph) :
  links_wf g <-> forall a b, edge_out g a b <-> edge_in g a b.
Proof.
  unfold links_wf, edge_out, edge_in. rewrite map_Forall_lookup. split.
  - intros Hwf a b. split.
    + destruct (g !! a) as [na|] eqn:Ha; simpl; [|intros []%elem_of_nil].
      intros Hb. destruct (Hwf a na Ha) as [Hout _].
      rewrite Forall_forall in Hout. apply Hout, Hb.
    + destruct (g !! b) as [nb|] eqn:Hb; simpl; [|intros []%elem_of_nil].
      intros Ha. destruct (Hwf b nb Hb) as [_ Hin].
      rewrite Forall_forall in Hin. apply Hin, Ha.
  - intros Hsym a na Ha. split; apply Forall_forall; intros b Hb.
    + apply Hsym. rewrite Ha. exact Hb.
    + apply Hsym. rewrite Ha. exact Hb.
Qed.

(** What a primitive that returned did to the graph. *)

Lemma ResetOp_inv (g g' : SSAGraph) (n : node_id) (op : OpInfo) :
  ResetOp g n op = Ok g' ->
  exists nd op0,
    g !! n = Some nd /\ kind nd = Stmt op0
    /\ g' = <[n := mkNode (Stmt op) (inlinks nd) (outlinks nd)]> g.
Proof.
  unfold ResetOp, get_node. destruct (g !! n) as [nd|]; [|discriminate].
  cbn [bind]. destruct (kind nd) as [|op0] eqn:Hk; [discriminate|].
  intros [= <-]. eauto.
Qed.

Lemma IR_NODE_LINK_TO_inv (g g' : SSAGraph) (a b : node_id) :
  IR_NODE_LINK_TO g a b = Ok g' ->
  exists na nb,
    g !! a = Some na
    /\ <[a := mkNode (kind na) (inlinks na) (outlinks na ++ [b])]> g !! b = Some nb
    /\ g' = <[b := mkNode (kind nb) (inlinks nb ++ [a]) (outlinks nb)]>
              (<[a := mkNode (kind na) (inlinks na) (outlinks na ++ [b])]> g).
Proof.
  unfold IR_NODE_LINK_TO, get_node. destruct (g !! a) as [na|]; [|discriminate].
  cbn [bind].
  destruct (<[a := _]> g !! b) as [nb|] eqn:Hb; [|discriminate].
  cbn [bind]. intros [= <-]. eauto.
Qed.

Lemma rewired_refl (g : SSAGraph) : rewired [] [] g g.
Proof.
  split; try reflexivity; eauto.
  - intros x y. split; [tauto|]. intros [?|[]%elem_of_nil]. assumption.
  - intros x y. split; [tauto|]. intros [?|[]%elem_of_nil]. assumption.
Qed.

Lemma rewired_trans (r1 r2 : list node_id) (a1 a2 : list (node_id * node_id))
    (g g1 g2 : SSAGraph) :
  rewired r1 a1 g g1 -> rewired r2 a2 g1 g2 -> rewired (r1 ++ r2) (a1 ++ a2) g g2.
Proof.
  intros [Hd1 Hk1 Hs1 Ho1 Hi1 Hf1] [Hd2 Hk2 Hs2 Ho2 Hi2 Hf2]. split.
  - congruence.
  - intros k Hk. rewrite Hk2, Hk1; [reflexivity| |]; set_solver.
  - intros k op Hk. destruct (Hs1 k op Hk) as [op1 H1]. apply (Hs2 k op1 H1).
  - intros x y. rewrite Ho2, Ho1, elem_of_app. tauto.
  - intros x y. rewrite Hi2, Hi1, elem_of_app. tauto.
  - intros k Hr Ha Hb. rewrite fmap_app in Ha, Hb. rewrite Hf2, Hf1; [reflexivity|..]; set_solver.
Qed.

Lemma rewired_weaken (r r' : list node_id) (a a' : list (node_id * node_id))
    (g g' : SSAGraph) :
  r ⊆ r' -> (forall e, e ∈ a <-> e ∈ a') -> rewired r a g g' -> rewired r' a' g g'.
Proof.
  intros Hr Ha [Hd Hk Hs Ho Hi Hf]. split; [exact Hd| |exact Hs| | |].
  - intros k Hk'. apply Hk. set_solver.
  - intros x y. rewrite Ho, Ha. reflexivity.
  - intros x y. rewrite Hi, Ha. reflexivity.
  - intros k H1 H2 H3. apply Hf; [set_solver| |].
    + intros (e & -> & He)%list_elem_of_fmap. apply H2. apply list_elem_of_fmap.
      exists e. split; [reflexivity|]. apply Ha, He.
    + intros (e & -> & He)%list_elem_of_fmap. apply H3. apply list_elem_of_fmap.
      exists e. split; [reflexivity|]. apply Ha, He.
Qed.

Lemma ResetOp_rewired (g g' : SSAGraph) (n : node_id) (op : OpInfo) :
  ResetOp g n op = Ok g' ->
  rewired [n] [] g g' /\ kind_of g' n = Some (Stmt op).
Proof.
  intros (nd & op0 & Hn & Hk & ->)%ResetOp_inv. split; [split|].
  - rewrite dom_insert_L. apply elem_of_dom_2 in Hn. set_solver.
  - intros k Hk'. rewrite kind_of_insert, decide_False; [reflexivity|]. set_solver.
  - intros k op1 Hk1. rewrite kind_of_insert. destruct (decide (k = n)); eauto.
  - intros x y. unfold edge_out. split.
    + destruct (decide (x = n)) as [->|Hne].
      * rewrite lookup_insert_eq, Hn. simpl. tauto.
      * rewrite lookup_insert_ne by congruence. tauto.
    + intros [H|[]%elem_of_nil]. destruct (decide (x = n)) as [->|Hne].
      * rewrite lookup_insert_eq. rewrite Hn in H. exact H.
      * rewrite lookup_insert_ne by congruence. exact H.
  - intros x y. unfold edge_in. split.
    + destruct (decide (y = n)) as [->|Hne].
      * rewrite lookup_insert_eq, Hn. simpl. tauto.
      * rewrite lookup_insert_ne by congruence. tauto.
    + intros [H|[]%elem_of_nil]. destruct (decide (y = n)) as [->|Hne].
      * rewrite lookup_insert_eq. rewrite Hn in H. exact H.
      * rewrite lookup_insert_ne by congruence. exact H.
  - intros k Hk' _ _. rewrite lookup_insert_ne; [reflexivity|]. set_solver.
  - rewrite kind_of_insert, decide_True by reflexivity. reflexivity.
Qed.

Lemma IR_NODE_LINK_TO_rewired (g g' : SSAGraph) (a b : node_id) :
  IR_NODE_LINK_TO g a b = Ok g' -> rewired [] [(a, b)] g g' /\ a ∈ dom g /\ b ∈ dom g.
Proof.
  intros (na & nb & Ha & Hb & ->)%IR_NODE_LINK_TO_inv.
  assert (Hdb : b ∈ dom g).
  { apply elem_of_dom_2 in Hb. rewrite dom_insert_L in Hb.
    apply elem_of_dom_2 in Ha. set_solver. }
  split; [|split; [eapply elem_of_dom_2, Ha|exact Hdb]].
  set (g1 := <[a := mkNode (kind na) (inlinks na) (outlinks na ++ [b])]> g) in *.
  assert (Hk1 : forall k, kind_of g1 k = kind_of g k).
  { intros k. unfold g1. rewrite kind_of_insert.
    destruct (decide (k = a)) as [->|]; [|reflexivity].
    unfold kind_of. rewrite Ha. reflexivity. }
  assert (Hk2 : forall k, kind_of (<[b := mkNode (kind nb) (inlinks nb ++ [a]) (outlinks nb)]> g1) k
                          = kind_of g k).
  { intros k. rewrite kind_of_insert. destruct (decide (k = b)) as [->|]; [|apply Hk1].
    rewrite <- Hk1. unfold kind_of. rewrite Hb. reflexivity. }
  split.
  - rewrite dom_insert_L. unfold g1. rewrite dom_insert_L.
    apply elem_of_dom_2 in Ha. set_solver.
  - intros k _. apply Hk2.
  - intros k op Hk. exists op. rewrite Hk2. exact Hk.
  - intros x y. unfold edge_out. rewrite list_elem_of_singleton.
    destruct (decide (x = b)) as [->|Hxb].
    + rewrite lookup_insert_eq. simpl.
      destruct (decide (b = a)) as [->|Hba].
      * unfold g1 in Hb. rewrite lookup_insert_eq in Hb. injection Hb as <-. simpl.
        rewrite Ha. simpl. rewrite elem_of_app, list_elem_of_singleton.
        split; [intros [?| ->]; eauto|intros [?|[= ->]]; eauto].
      * unfold g1 in Hb. rewrite lookup_insert_ne in Hb by congruence. rewrite Hb. simpl.
        split; [tauto|]. intros [?|[= ? ?]]; [assumption|congruence].
    + rewrite lookup_insert_ne by congruence. unfold g1.
      destruct (decide (x = a)) as [->|Hxa].
      * rewrite lookup_insert_eq, Ha. simpl. rewrite elem_of_app, list_elem_of_singleton.
        split; [intros [?| ->]; eauto|intros [?|[= ->]]; eauto].
      * rewrite lookup_insert_ne by congruence.
        split; [tauto|]. intros [?|[= ? ?]]; [assumption|congruence].
  - intros x y. unfold edge_in. rewrite list_elem_of_singleton.
    destruct (decide (y = b)) as [->|Hyb].
    + rewrite lookup_insert_eq. simpl. rewrite elem_of_app, list_elem_of_singleton.
      assert (Hin : inlinks nb = default [] (inlinks <$> g !! b)).
      { unfold g1 in Hb. destruct (decide (b = a)) as [->|Hba].
        - rewrite lookup_insert_eq in Hb. injection Hb as <-. rewrite Ha. reflexivity.
        - rewrite lookup_insert_ne in Hb by congruence. rewrite Hb. reflexivity. }
      rewrite Hin. split; [intros [?| ->]; eauto|intros [?|[= ->]]; eauto].
    + rewrite lookup_insert_ne by congruence. unfold g1.
      destruct (decide (y = a)) as [->|Hya].
      * rewrite lookup_insert_eq, Ha. simpl.
        split; [tauto|]. intros [?|[= ? ?]]; [assumption|congruence].
      * rewrite lookup_insert_ne by congruence.
        split; [tauto|]. intros [?|[= ? ?]]; [assumption|congruence].
  - intros k _ Hka Hkb. simpl in Hka, Hkb.
    rewrite list_elem_of_singleton in Hka, Hkb.
    rewrite lookup_insert_ne by congruence. unfold g1.
    rewrite lookup_insert_ne by congruence. reflexivity.
Qed.

Lemma rewired_wf (r : list node_id) (a : list (node_id * node_id)) (g g' : SSAGraph) :
  rewired r a g g' -> links_wf g -> links_wf g'.
Proof.
  intros Hr Hwf. rewrite links_wf_iff in *. intros x y.
  rewrite (rewired_out _ _ _ _ Hr), (rewired_in _ _ _ _ Hr), Hwf. reflexivity.
Qed.

Lemma remove_nodes_edge_out (g : SSAGraph) (rm : gset node_id) (x y : node_id) :
  edge_out (remove_nodes g rm) x y <-> edge_out g x y /\ (x ∉ rm) /\ (y ∉ rm).
Proof.
  unfold edge_out. rewrite remove_nodes_lookup.
  destruct (decide (x ∈ rm)) as [Hx|Hx]; simpl.
  - split; [intros []%elem_of_nil|tauto].
  - destruct (g !! x) as [nx|]; simpl.
    + rewrite list_elem_of_filter. tauto.
    + split; [intros []%elem_of_nil|intros [[]%elem_of_nil _]].
Qed.

Lemma remove_nodes_edge_in (g : SSAGraph) (rm : gset node_id) (x y : node_id) :
  edge_in (remove_nodes g rm) x y <-> edge_in g x y /\ (x ∉ rm) /\ (y ∉ rm).
Proof.
  unfold edge_in. rewrite remove_nodes_lookup.
  destruct (decide (y ∈ rm)) as [Hy|Hy]; simpl.
  - split; [intros []%elem_of_nil|tauto].
  - destruct (g !! y) as [ny|]; simpl.
    + rewrite list_elem_of_filter. tauto.
    + split; [intros []%elem_of_nil|intros [[]%elem_of_nil _]].
Qed.

Lemma remove_nodes_wf (g : SSAGraph) (rm : gset node_id) :
  links_wf g -> links_wf (remove_nodes g rm).
Proof.
  rewrite !links_wf_iff. intros Hwf x y.
  rewrite remove_nodes_edge_out, remove_nodes_edge_in, Hwf. reflexivity.
Qed.

Lemma fresh_not_in (g : SSAGraph) : g !! fresh (dom g) = None.
Proof. apply not_elem_of_dom. apply is_fresh. Qed.

Lemma create_edge_out (g : SSAGraph) (k : NodeKind) (x y : node_id) :
  edge_out (<[(fresh (dom g)) := mkNode k [] []]> g) x y <-> edge_out g x y.
Proof.
  unfold edge_out. destruct (decide (x = fresh (dom g))) as [->|Hne].
  - rewrite lookup_insert_eq, fresh_not_in. reflexivity.
  - rewrite lookup_insert_ne by congruence. reflexivity.
Qed.

Lemma create_edge_in (g : SSAGraph) (k : NodeKind) (x y : node_id) :
  edge_in (<[(fresh (dom g)) := mkNode k [] []]> g) x y <-> edge_in g x y.
Proof.
  unfold edge_in. destruct (decide (y = fresh (dom g))) as [->|Hne].
  - rewrite lookup_insert_eq, fresh_not_in. reflexivity.
  - rewrite lookup_insert_ne by congruence. reflexivity.
Qed.

(** The node [create_and_link] makes and the three edges it adds. *)
Lemma create_and_link_inv (g g' : SSAGraph) (op : OpInfo) (a b c : node_id) :
  create_and_link g op a b c = Ok g' ->
  let new := fresh (dom g) in
  dom g' = {[new]} ∪ dom g
  /\ kind_of g' new = Some (Stmt op)
  /\ (forall k, k <> new -> kind_of g' k = kind_of g k)
  /\ (forall x y, edge_out g' x y
                  <-> edge_out g x y \/ (x, y) ∈ [(a, new); (b, new); (new, c)])
  /\ (forall x y, edge_in g' x y
                  <-> edge_in g x y \/ (x, y) ∈ [(a, new); (b, new); (new, c)])
  /\ (forall k, k ∉ [a; b; c; new] -> g' !! k = g !! k)
  /\ (a ∈ dom g -> b ∈ dom g -> c ∈ dom g ->
      g' !! new = Some (mkNode (Stmt op) [a; b] [c])).
Proof.
  intros Hrun new. unfold create_and_link, GraphCreateInstructNode in Hrun. fold new in Hrun.
  set (g0 := <[new := mkNode (Stmt op) [] []]> g) in *.
  destruct (IR_NODE_LINK_TO g0 a new) as [g1|] eqn:E1; [|discriminate].
  cbn [bind] in Hrun.
  destruct (IR_NODE_LINK_TO g1 b new) as [g2|] eqn:E2; [|discriminate].
  cbn [bind] in Hrun.
  pose proof (IR_NODE_LINK_TO_rewired _ _ _ _ E1) as [R1 _].
  pose proof (IR_NODE_LINK_TO_rewired _ _ _ _ E2) as [R2 _].
  pose proof (IR_NODE_LINK_TO_rewired _ _ _ _ Hrun) as [R3 _].
  pose proof (rewired_trans _ _ _ _ _ _ _ (rewired_trans _ _ _ _ _ _ _ R1 R2) R3) as R.
  simpl in R. destruct R as [Hd Hk _ Ho Hi Hf].
  assert (Hnew : g !! new = None) by apply fresh_not_in.
  split; [|split; [|split; [|split; [|split; [|split]]]]].
  - rewrite Hd. unfold g0. rewrite dom_insert_L. reflexivity.
  - rewrite Hk by apply not_elem_of_nil. unfold g0.
    rewrite kind_of_insert, decide_True by reflexivity. reflexivity.
  - intros k Hne. rewrite Hk by apply not_elem_of_nil. unfold g0.
    rewrite kind_of_insert, decide_False by exact Hne. reflexivity.
  - intros x y. rewrite Ho. unfold g0, new. rewrite create_edge_out. reflexivity.
  - intros x y. rewrite Hi. unfold g0, new. rewrite create_edge_in. reflexivity.
  - intros k Hk'. rewrite Hf; [|apply not_elem_of_nil| |].
    + unfold g0. rewrite lookup_insert_ne; [reflexivity|]. set_solver.
    + simpl. set_solver.
    + simpl. set_solver.
  - intros Ha Hb Hc.
    assert (Han : a <> new) by (intros E; apply (is_fresh (dom g)); fold new; rewrite <- E; exact Ha).
    assert (Hbn : b <> new) by (intros E; apply (is_fresh (dom g)); fold new; rewrite <- E; exact Hb).
    assert (Hcn : c <> new) by (intros E; apply (is_fresh (dom g)); fold new; rewrite <- E; exact Hc).
    clear Hd Hk Ho Hi Hf R1 R2 R3.
    apply IR_NODE_LINK_TO_inv in E1 as (na & nb & Ha1 & Hb1 & ->).
    rewrite lookup_insert_ne in Hb1 by congruence.
    unfold g0 in Hb1. rewrite lookup_insert_eq in Hb1. injection Hb1 as <-.
    apply IR_NODE_LINK_TO_inv in E2 as (na2 & nb2 & Ha2 & Hb2 & ->).
    rewrite lookup_insert_ne in Hb2 by congruence.
    rewrite lookup_insert_eq in Hb2. injection Hb2 as <-.
    apply IR_NODE_LINK_TO_inv in Hrun as (na3 & nb3 & Ha3 & Hb3 & ->).
    rewrite lookup_insert_eq in Ha3. injection Ha3 as <-.
    rewrite lookup_insert_ne by congruence.
    rewrite lookup_insert_eq. reflexivity.
Qed.

(** ** What a rewrite that returned has done *)

Lemma stmt_op_info_inv (g : SSAGraph) (n : node_id) (op : OpInfo) :
  stmt_op_info g n = Ok op -> kind_of g n = Some (Stmt op).
Proof.
  unfold stmt_op_info, get_node, kind_of. destruct (g !! n) as [nd|]; [|discriminate].
  simpl. destruct (kind nd); [discriminate|]. intros [= ->]. reflexivity.
Qed.

Lemma arg_name_inv (g : SSAGraph) (n : node_id) (name : string) :
  arg_name g n = Ok name -> exists w, kind_of g n = Some (Arg name w).
Proof.
  unfold arg_name, get_node, kind_of. destruct (g !! n) as [nd|]; [|discriminate].
  simpl. destruct (kind nd) as [nm w|]; [|discriminate]. intros [= ->]. eauto.
Qed.

Lemma arg_is_weight_inv (g : SSAGraph) (n : node_id) (w : bool) :
  arg_is_weight g n = Ok w -> exists name, kind_of g n = Some (Arg name w).
Proof.
  unfold arg_is_weight, get_node, kind_of. destruct (g !! n) as [nd|]; [|discriminate].
  simpl. destruct (kind nd) as [nm w'|]; [|discriminate]. intros [= ->]. eauto.
Qed.

Lemma node_outlinks_inv (g : SSAGraph) (n : node_id) (l : list node_id) :
  node_outlinks g n = Ok l -> outlinks <$> g !! n = Some l.
Proof.
  unfold node_outlinks, get_node. destruct (g !! n) as [nd|]; [|discriminate].
  simpl. intros [= ->]. reflexivity.
Qed.

Lemma at_inv (matched : key2nodes_t) (key : string) (n : node_id) :
  at_ matched key = Ok n -> matched !! key = Some n.
Proof. unfold at_. destruct (matched !! key); [|discriminate]. intros [= ->]. reflexivity. Qed.

Lemma lookup_tensor_inv (sc : Scope) (name : string) (t : Tensor) :
  lookup_tensor sc name = Ok t -> sc !! name = Some t.
Proof.
  unfold lookup_tensor. destruct (sc !! name); [|discriminate]. intros [= ->]. reflexivity.
Qed.

Lemma data_float_inv (t : Tensor) (xs : list float) :
  data_float t = Ok xs -> buffer t = BufFloat xs.
Proof. unfold data_float. destruct (buffer t); try discriminate. intros [= ->]. reflexivity. Qed.

Lemma relinked_stmt_back (F : OpInfo -> OpInfo) (l : list node_id) (g g' : SSAGraph)
    (k : node_id) (op' : OpInfo) :
  relinked F l g g' -> kind_of g' k = Some (Stmt op') ->
  exists op, kind_of g k = Some (Stmt op).
Proof.
  intros [_ Hk] Hop. rewrite Hk in Hop. destruct (decide (k ∈ l)); [|eauto].
  destruct (kind_of g k) as [[nm w|op]|]; try discriminate. eauto.
Qed.

(** Splits a run that returned into its steps. *)
Tactic Notation "ok_step" hyp(H) "as" simple_intropattern(x) ident(E) :=
  match type of H with
  | bind ?m _ = Ok _ => destruct m as [x|] eqn:E; cbn [bind] in H; [|discriminate H]
  end.

Section DeleteQuantRewiring.
Context `{GraphCollaborator}.

Lemma relink_quantized_node_inv (a : node_id) (i o : string) (b : Z) (s : float)
    (g g' : SSAGraph) (c : node_id) :
  DeleteQuantOpFuser.relink_quantized_node a i o b s g c = Ok g' ->
  (exists op, kind_of g c = Some (Stmt op))
  /\ a ∈ dom g
  /\ relinked (DeleteQuant_update i o b s) [c] g g'
  /\ rewired [c] [(a, c)] g g'.
Proof.
  intros Hrun. pose proof Hrun as Hrun0.
  unfold DeleteQuantOpFuser.relink_quantized_node in Hrun.
  ok_step Hrun as op E. apply stmt_op_info_inv in E. ok_step Hrun as g1 E0.
  apply ResetOp_rewired in E0 as [R1 _].
  apply IR_NODE_LINK_TO_rewired in Hrun as (R2 & Ha & _).
  rewrite (rewired_dom _ _ _ _ R1) in Ha.
  split; [eauto|]. split; [exact Ha|]. split.
  - destruct (relink_quantized_node_spec a i o b s g c op E Ha) as (g'' & Hg & Hr).
    rewrite Hrun0 in Hg. injection Hg as <-. exact Hr.
  - exact (rewired_trans _ _ _ _ _ _ _ R1 R2).
Qed.

Lemma relink_all_inv (a : node_id) (i o : string) (b : Z) (s : float)
    (l : list node_id) (g g' : SSAGraph) :
  for_each (DeleteQuantOpFuser.relink_quantized_node a i o b s) l g = Ok g' ->
  Forall (fun c => exists op, kind_of g c = Some (Stmt op)) l
  /\ relinked (DeleteQuant_update i o b s) l g g'
  /\ rewired l (pair a <$> l) g g'.
Proof.
  revert g. induction l as [|c l IH]; intros g Hrun; simpl in Hrun.
  - injection Hrun as <-. split; [constructor|]. split; [apply relinked_nil|apply rewired_refl].
  - ok_step Hrun as g1 E.
    apply relink_quantized_node_inv in E as (Hc & Ha & Hr1 & Hw1).
    destruct (IH _ Hrun) as (Hl & Hr & Hw).
    split; [|split].
    + constructor; [exact Hc|]. eapply Forall_impl; [exact Hl|].
      intros k [op Hk]. eapply relinked_stmt_back; eassumption.
    + eapply relinked_cons; [apply DeleteQuant_update_idemp|exact Hr1|exact Hr].
    + exact (rewired_trans _ _ _ _ _ _ _ Hw1 Hw).
Qed.

Lemma DeleteQuant_InsertNewNode_inv (st st' : State) (matched : key2nodes_t) :
  DeleteQuantOpFuser.InsertNewNode st matched = Ok st' ->
  exists input_scale_node input_act_node quant_node output_scale_node
         output_act_node consumers g1,
    matched !! "input_scale_node" = Some input_scale_node
    /\ matched !! "input_act_node" = Some input_act_node
    /\ matched !! "quant_node" = Some quant_node
    /\ matched !! "output_scale_node" = Some output_scale_node
    /\ matched !! "output_act_node" = Some output_act_node
    /\ outlinks <$> graph st !! output_act_node = Some consumers
    /\ rewired consumers (pair input_act_node <$> consumers) (graph st) g1
    /\ st' = mkState
               (remove_nodes g1
                  {[input_scale_node; quant_node; output_scale_node; output_act_node]})
               (scope st).
Proof.
  intros Hrun. unfold DeleteQuantOpFuser.InsertNewNode in Hrun.
  ok_step Hrun as isn E0. ok_step Hrun as ian E1. ok_step Hrun as qn E2.
  ok_step Hrun as osn E3. ok_step Hrun as oan E4.
  apply at_inv in E0, E1, E2, E3, E4.
  ok_step Hrun as quant_info E5. ok_step Hrun as bit_length E6.
  ok_step Hrun as range E7. ok_step Hrun as output_scale_name E8.
  ok_step Hrun as scale_tensor E9. ok_step Hrun as scale_data E10.
  ok_step Hrun as scale0 E11. ok_step Hrun as in_act_name E12.
  ok_step Hrun as out_act_name E13. ok_step Hrun as consumers E14.
  ok_step Hrun as g1 E15. ok_step Hrun as g2 E16.
  injection Hrun as <-.
  apply node_outlinks_inv in E14.
  apply relink_all_inv in E15 as (_ & _ & Hw).
  unfold GraphSafeRemoveNodes in E16.
  destruct (removal_is_safe g1 _); [|discriminate]. injection E16 as <-.
  exists isn, ian, qn, osn, oan, consumers, g1. repeat (split; [assumption|]).
  reflexivity.
Qed.

(** Property X6.  Whatever the match, a run of
    [DeleteQuantOpFuser::InsertNewNode] that returns leaves the variable
    storage as it was; the nodes of the graph are the old ones without
    the four removed; the edges are the old ones and one edge from the
    input activation to each consumer of the quantized output, without
    every edge at a removed node; and a node that is neither removed,
    nor such a consumer, nor the input activation is as it was, but for
    its edges to removed nodes. *)
Theorem DeleteQuantOpFuser_rewiring (st st' : State) (matched : key2nodes_t)
    (input_scale_node input_act_node quant_node output_scale_node
       output_act_node : node_id) :
  let g := graph st in
  let g' := graph st' in
  let nodes2rm : gset node_id :=
    {[input_scale_node; quant_node; output_scale_node; output_act_node]} in
  let consumers := default [] (outlinks <$> g !! output_act_node) in
  matched !! "input_scale_node" = Some input_scale_node ->
  matched !! "input_act_node" = Some input_act_node ->
  matched !! "quant_node" = Some quant_node ->
  matched !! "output_scale_node" = Some output_scale_node ->
  matched !! "output_act_node" = Some output_act_node ->
  DeleteQuantOpFuser.InsertNewNode st matched = Ok st' ->
  scope st' = scope st
  /\ dom g' = dom g ∖ nodes2rm
  /\ (forall x y,
        edge_out g' x y
        <-> (edge_out g x y \/ (x = input_act_node /\ y ∈ consumers))
            /\ (x ∉ nodes2rm) /\ (y ∉ nodes2rm))
  /\ (forall x y,
        edge_in g' x y
        <-> (edge_in g x y \/ (x = input_act_node /\ y ∈ consumers))
            /\ (x ∉ nodes2rm) /\ (y ∉ nodes2rm))
  /\ (forall k, k ∉ nodes2rm -> k ∉ consumers -> kind_of g' k = kind_of g k)
  /\ (forall k, k ∉ nodes2rm -> k ∉ consumers -> k <> input_act_node ->
                g' !! k = erase_links nodes2rm <$> g !! k).
Proof.
  intros g g' nodes2rm consumers Hm0 Hm1 Hm2 Hm3 Hm4 Hrun.
  apply DeleteQuant_InsertNewNode_inv in Hrun
    as (isn & ian & qn & osn & oan & l & g1 & H0 & H1 & H2 & H3 & H4 & Hout & Hw & ->).
  rewrite Hm0 in H0. rewrite Hm1 in H1. rewrite Hm2 in H2. rewrite Hm3 in H3.
  rewrite Hm4 in H4.
  injection H0 as <-. injection H1 as <-. injection H2 as <-. injection H3 as <-.
  injection H4 as <-.
  subst g g'. cbn [graph scope] in *. fold nodes2rm.
  assert (Hl : consumers = l) by (unfold consumers; rewrite Hout; reflexivity).
  clearbody consumers. subst l.
  assert (Hadd : forall x y, (x, y) ∈ pair input_act_node <$> consumers
                             <-> x = input_act_node /\ y ∈ consumers).
  { intros x y. rewrite list_elem_of_fmap. split.
    - intros (c & [= -> ->] & Hc). tauto.
    - intros [-> Hy]. eauto. }
  destruct Hw as [Hd Hk _ Ho Hi Hf].
  split; [reflexivity|]. split; [rewrite remove_nodes_dom, Hd; reflexivity|].
  split; [|split; [|split]].
  - intros x y. rewrite remove_nodes_edge_out, Ho, Hadd. reflexivity.
  - intros x y. rewrite remove_nodes_edge_in, Hi, Hadd. reflexivity.
  - intros k Hrm Hc. rewrite remove_nodes_kind, decide_False by exact Hrm.
    apply Hk, Hc.
  - intros k Hrm Hc Hne. rewrite remove_nodes_lookup, decide_False by exact Hrm.
    rewrite Hf; [reflexivity|exact Hc| |].
    + intros (e & -> & (c & -> & _)%list_elem_of_fmap)%list_elem_of_fmap.
      apply Hne. reflexivity.
    + intros (e & -> & (c & -> & Hc')%list_elem_of_fmap)%list_elem_of_fmap.
      apply Hc. exact Hc'.
Qed.
End DeleteQuantRewiring.
Lemma DeleteQuantOpFuser_rewiring_witness :
  exists st',
    @DeleteQuantOpFuser.InsertNewNode Examples.always_safe
      Examples.delete_quant_state Examples.delete_quant_match = Ok st'
    /\ scope st' = Examples.delete_quant_scope
    /\ dom (graph st') = {[1%nat; 5%nat]}
    /\ edge_out (graph st') 1%nat 5%nat
    /\ graph st' !! 1%nat
       = Some (mkNode (Arg "x" false) [] [5%nat]).
Proof.
  eexists. split; [vm_compute; reflexivity|].
  destruct (@DeleteQuantOpFuser_rewiring Examples.always_safe
              Examples.delete_quant_state _ Examples.delete_quant_match
              0%nat 1%nat 2%nat 3%nat 4%nat eq_refl eq_refl eq_refl eq_refl eq_refl
              ltac:(vm_compute; reflexivity))
    as (Hs & Hd & Ho & _ & _ & _).
  split; [exact Hs|]. split; [|split].
  - rewrite Hd. apply (bool_decide_unpack _). vm_compute. exact I.
  - apply Ho. vm_compute. repeat split; try (apply (bool_decide_unpack _); vm_compute; exact I).
    right. split; [reflexivity|]. apply list_elem_of_here.
  - vm_compute. reflexivity.
Defined.

(** ** QuantDequantOpFuser: the loop over the consumers *)

Lemma QuantDequant_activation_update_idemp (i o : string) (b : Z) (s : float)
    (op : OpInfo) :
  QuantDequant_activation_update i o b s (QuantDequant_activation_update i o b s op)
  = QuantDequant_activation_update i o b s op.
Proof.
  destruct op as [ty ins outs ats scs].
  unfold QuantDequant_activation_update, UpdateAllInputs, SetAttr, SetInputScale. simpl.
  rewrite UpdateAllInputs_inputs_idemp, !insert_insert_eq. reflexivity.
Qed.

Lemma QuantizeTensorInPlace_inv (t t' : Tensor) (s : float) :
  QuantizeTensorInPlace t s = Ok t' ->
  exists xs qs,
    buffer t = BufFloat xs
    /\ 0 <= numel t <= Z.of_nat (length xs)
    /\ Forall2 (fun x q => quantize_rounded s x = Ok q) (take (Z.to_nat (numel t)) xs) qs
    /\ t' = mkTensor (dims t) (BufInt8 qs) (persistable t) kInt8.
Proof.
  unfold QuantizeTensorInPlace, CopyDataFrom. intros Hrun.
  ok_step Hrun as xs E. apply data_float_inv in E.
  ok_step Hrun as qs E0. change (numel (clear t)) with (numel t) in E0.
  apply convert_elements_Ok in E0 as [Hn Hq]. injection Hrun as <-.
  exists xs, qs. repeat (split; [assumption|]). reflexivity.
Qed.

Section QuantDequantLoop.
Context `{GraphCollaborator}.

Lemma update_quantized_node_activation (a : node_id) (i o : string) (b : Z)
    (s : float) (g : SSAGraph) (sc : Scope) (c : node_id) (op : OpInfo) :
  kind_of g c = Some (Stmt op) -> a ∈ dom g ->
  exists g1,
    QuantDequantOpFuser.update_quantized_node a i o false b s (mkState g sc) c
    = Ok (mkState g1 sc)
    /\ relinked (QuantDequant_activation_update i o b s) [c] g g1.
Proof.
  intros Hc Ha. unfold QuantDequantOpFuser.update_quantized_node. cbn [graph scope].
  rewrite (stmt_op_info_Ok _ _ _ Hc). cbn [bind].
  change (SetInputScale _ _ _) with (QuantDequant_activation_update i o b s op).
  destruct (ResetOp_Ok g c op (QuantDequant_activation_update i o b s op) Hc)
    as (g1 & -> & Hd1 & Hk1).
  cbn [bind].
  destruct (IR_NODE_LINK_TO_Ok g1 a c) as (g2 & -> & Hd2 & Hk2).
  { rewrite Hd1. exact Ha. }
  { rewrite Hd1. apply kind_of_dom. rewrite Hc. eauto. }
  exists g2. split; [reflexivity|]. split; [congruence|].
  intros k. rewrite Hk2, Hk1.
  destruct (decide (k = c)) as [->|Hne].
  - rewrite decide_True by apply list_elem_of_here. rewrite Hc. reflexivity.
  - rewrite decide_False; [reflexivity|]. intros ->%list_elem_of_singleton. congruence.
Qed.

Lemma update_all_activation (a : node_id) (i o : string) (b : Z) (s : float)
    (sc : Scope) (l : list node_id) (g : SSAGraph) :
  Forall (fun c => exists op, kind_of g c = Some (Stmt op)) l -> a ∈ dom g ->
  exists g',
    for_each (QuantDequantOpFuser.update_quantized_node a i o false b s) l
      (mkState g sc)
    = Ok (mkState g' sc)
    /\ relinked (QuantDequant_activation_update i o b s) l g g'.
Proof.
  revert g. induction l as [|c l IH]; intros g Hl Ha.
  - exists g. split; [reflexivity|apply relinked_nil].
  - apply Forall_cons in Hl as [[op Hc] Hl]. simpl.
    destruct (update_quantized_node_activation a i o b s g sc c op Hc Ha)
      as (g1 & -> & Hr1).
    cbn [bind]. destruct Hr1 as [Hd1 Hk1].
    destruct (IH g1) as (g' & -> & Hr').
    + eapply Forall_impl; [exact Hl|]. intros k [opk Hk]. rewrite Hk1, Hk.
      destruct (decide (k ∈ [c])); simpl; eauto.
    + rewrite Hd1. exact Ha.
    + exists g'. split; [reflexivity|].
      eapply relinked_cons; [apply QuantDequant_activation_update_idemp| |exact Hr'].
      split; assumption.
Qed.

(** A step of the loop that returned. *)
Lemma update_quantized_node_inv (a : node_id) (i o : string) (w : bool) (b : Z)
    (s : float) (st st' : State) (c : node_id) :
  QuantDequantOpFuser.update_quantized_node a i o w b s st c = Ok st' ->
  rewired [c] [(a, c)] (graph st) (graph st')
  /\ (forall name, name <> i -> scope st' !! name = scope st !! name)
  /\ (w = false -> scope st' = scope st)
  /\ (forall t, scope st !! i = Some t ->
                exists t', scope st' !! i = Some t' /\ dims t' = dims t).
Proof.
  intros Hrun. unfold QuantDequantOpFuser.update_quantized_node in Hrun.
  ok_step Hrun as op E. ok_step Hrun as updated E0. destruct updated as [op' sc'].
  ok_step Hrun as g1 E1. ok_step Hrun as g2 E2. injection Hrun as <-.
  cbn [graph scope].
  apply ResetOp_rewired in E1 as [R1 _].
  apply IR_NODE_LINK_TO_rewired in E2 as (R2 & _ & _).
  split; [exact (rewired_trans _ _ _ _ _ _ _ R1 R2)|].
  destruct w.
  - ok_step E0 as t E3. apply lookup_tensor_inv in E3.
    ok_step E0 as d E4. ok_step E0 as scales E5.
    destruct (QuantDequantOpFuser.converts_weight _).
    + ok_step E0 as t1 E6. injection E0 as <- <-.
      apply QuantizeTensorInPlace_dims in E6.
      split; [|split; [discriminate|]].
      * intros name Hne. rewrite lookup_insert_ne by congruence. reflexivity.
      * intros t0 Ht0. rewrite E3 in Ht0. injection Ht0 as <-.
        exists t1. rewrite lookup_insert_eq. split; [reflexivity|exact E6].
    + injection E0 as <- <-. split; [reflexivity|]. split; [reflexivity|]. eauto.
  - injection E0 as <- <-. split; [reflexivity|]. split; [reflexivity|]. eauto.
Qed.

Lemma update_all_inv (a : node_id) (i o : string) (w : bool) (b : Z) (s : float)
    (l : list node_id) (st st' : State) :
  for_each (QuantDequantOpFuser.update_quantized_node a i o w b s) l st = Ok st' ->
  rewired l (pair a <$> l) (graph st) (graph st')
  /\ (forall name, name <> i -> scope st' !! name = scope st !! name)
  /\ (w = false -> scope st' = scope st)
  /\ (forall t, scope st !! i = Some t ->
                exists t', scope st' !! i = Some t' /\ dims t' = dims t).
Proof.
  revert st. induction l as [|c l IH]; intros st Hrun; simpl in Hrun.
  - injection Hrun as <-. split; [apply rewired_refl|]. eauto.
  - ok_step Hrun as st1 E.
    apply update_quantized_node_inv in E as (R1 & F1 & W1 & D1).
    destruct (IH _ Hrun) as (R & F & W & D).
    split; [exact (rewired_trans _ _ _ _ _ _ _ R1 R)|]. split; [|split].
    + intros name Hne. rewrite F, F1 by exact Hne. reflexivity.
    + intros Hw. rewrite W, W1 by exact Hw. reflexivity.
    + intros t Ht. destruct (D1 t Ht) as (t1 & Ht1 & Hd1).
      destruct (D t1 Ht1) as (t' & Ht' & Hd'). exists t'. split; [exact Ht'|congruence].
Qed.
End QuantDequantLoop.

Section QuantDequantRewiring.
Context `{GraphCollaborator}.

Lemma QuantDequant_InsertNewNode_inv (t : string) (st st' : State)
    (matched : key2nodes_t) :
  QuantDequantOpFuser.InsertNewNode t st matched = Ok st' ->
  exists input_var_node quant_dequant_node output_scale_node output_var_node
         input_var_name input_var_is_weight consumers st1 nodes2rm,
    matched !! "input_var_node" = Some input_var_node
    /\ matched !! "quant_dequant_node" = Some quant_dequant_node
    /\ matched !! "output_scale_node" = Some output_scale_node
    /\ matched !! "output_var_node" = Some output_var_node
    /\ kind_of (graph st) input_var_node
       = Some (Arg input_var_name input_var_is_weight)
    /\ t = (if input_var_is_weight then QuantDequantOpFuser.abs_max_type
            else QuantDequantOpFuser.moving_average_type)
    /\ is_Some (scope st !! input_var_name)
    /\ outlinks <$> graph st !! output_var_node = Some consumers
    /\ rewired consumers (pair input_var_node <$> consumers) (graph st) (graph st1)
    /\ (forall name, name <> input_var_name ->
                     scope st1 !! name = scope st !! name)
    /\ (input_var_is_weight = false -> scope st1 = scope st)
    /\ nodes2rm
       = {[quant_dequant_node; output_scale_node; output_var_node]}
         ∪ (if bool_decide (t = QuantDequantOpFuser.moving_average_type)
            then from_option singleton ∅ (matched !! "input_scale_node")
            else ∅)
    /\ (t = QuantDequantOpFuser.moving_average_type ->
        is_Some (matched !! "input_scale_node"))
    /\ st' = mkState (remove_nodes (graph st1) nodes2rm) (scope st1).
Proof.
  intros Hrun. unfold QuantDequantOpFuser.InsertNewNode in Hrun.
  ok_step Hrun as ivn E0. ok_step Hrun as qdn E1. ok_step Hrun as osn E2.
  ok_step Hrun as ovn E3. apply at_inv in E0, E1, E2, E3.
  ok_step Hrun as input_var_name E4. ok_step Hrun as output_var_name E5.
  ok_step Hrun as is_weight E6. ok_step Hrun as info E7.
  ok_step Hrun as tensor E8. ok_step Hrun as threshold E9.
  ok_step Hrun as bit_length E10. ok_step Hrun as range E11.
  ok_step Hrun as consumers E12. ok_step Hrun as u E13.
  ok_step Hrun as st1 E14. ok_step Hrun as nodes2rm E15.
  ok_step Hrun as g2 E16. injection Hrun as <-.
  apply arg_name_inv in E4 as [w4 E4].
  apply arg_is_weight_inv in E6 as [n6 E6].
  rewrite E4 in E6. injection E6 as <- ->.
  apply lookup_tensor_inv in E8. apply node_outlinks_inv in E12.
  apply update_all_inv in E14 as (R & F & W & _).
  unfold GraphSafeRemoveNodes in E16.
  destruct (removal_is_safe _ _); [|discriminate]. injection E16 as <-.
  assert (Hty : t = (if is_weight then QuantDequantOpFuser.abs_max_type
                     else QuantDequantOpFuser.moving_average_type)).
  { unfold QuantDequantOpFuser.get_threshold, QuantDequantOpFuser.check_type in E9.
    destruct is_weight.
    - destruct (bool_decide_reflect (t = QuantDequantOpFuser.abs_max_type));
        [assumption|discriminate].
    - destruct (bool_decide_reflect (t = QuantDequantOpFuser.moving_average_type));
        [assumption|discriminate]. }
  exists ivn, qdn, osn, ovn, input_var_name, is_weight, consumers, st1, nodes2rm.
  split_and!; try assumption; try (eexists; eassumption); try reflexivity.
  - destruct (bool_decide (t = QuantDequantOpFuser.moving_average_type)).
    + ok_step E15 as isn E17. apply at_inv in E17. injection E15 as <-.
      rewrite E17. reflexivity.
    + injection E15 as <-. set_solver.
  - intros Hmov. rewrite bool_decide_eq_true_2 in E15 by exact Hmov.
    ok_step E15 as isn E17. apply at_inv in E17. rewrite E17. eauto.
Qed.

(** Property X7.  Whatever the match, a run of
    [QuantDequantOpFuser::InsertNewNode] that returns removes the fused
    operator, its output scale and its output variable, and the input
    scale too when the fuser is of the moving-average type; it adds one
    edge from the input variable to each consumer of the output variable
    and drops every edge at a removed node; a node that is neither
    removed, nor such a consumer, nor the input variable is as it was but
    for its edges to removed nodes; every variable of the storage other
    than the input variable keeps its tensor, and for an activation the
    storage is unchanged. *)
Theorem QuantDequantOpFuser_rewiring (quant_dequant_op_type_ : string)
    (st st' : State) (matched : key2nodes_t)
    (input_var_node quant_dequant_node output_scale_node output_var_node : node_id)
    (input_var_name : string) (input_var_is_weight : bool) :
  let g := graph st in
  let g' := graph st' in
  let consumers := default [] (outlinks <$> g !! output_var_node) in
  let nodes2rm : gset node_id :=
    {[quant_dequant_node; output_scale_node; output_var_node]}
    ∪ (if bool_decide (quant_dequant_op_type_
                       = "fake_quantize_dequantize_moving_average_abs_max")
       then from_option singleton ∅ (matched !! "input_scale_node")
       else ∅) in
  matched !! "input_var_node" = Some input_var_node ->
  matched !! "quant_dequant_node" = Some quant_dequant_node ->
  matched !! "output_scale_node" = Some output_scale_node ->
  matched !! "output_var_node" = Some output_var_node ->
  kind_of g input_var_node = Some (Arg input_var_name input_var_is_weight) ->
  QuantDequantOpFuser.InsertNewNode quant_dequant_op_type_ st matched = Ok st' ->
  dom g' = dom g ∖ nodes2rm
  /\ (quant_dequant_op_type_ = "fake_quantize_dequantize_moving_average_abs_max" ->
      exists input_scale_node,
        matched !! "input_scale_node" = Some input_scale_node
        /\ input_scale_node ∉ dom g')
  /\ (forall x y,
        edge_out g' x y
        <-> (edge_out g x y \/ (x = input_var_node /\ y ∈ consumers))
            /\ (x ∉ nodes2rm) /\ (y ∉ nodes2rm))
  /\ (forall x y,
        edge_in g' x y
        <-> (edge_in g x y \/ (x = input_var_node /\ y ∈ consumers))
            /\ (x ∉ nodes2rm) /\ (y ∉ nodes2rm))
  /\ (forall k, k ∉ nodes2rm -> k ∉ consumers -> kind_of g' k = kind_of g k)
  /\ (forall k, k ∉ nodes2rm -> k ∉ consumers -> k <> input_var_node ->
                g' !! k = erase_links nodes2rm <$> g !! k)
  /\ (forall name, name <> input_var_name -> scope st' !! name = scope st !! name)
  /\ (input_var_is_weight = false -> scope st' = scope st).
Proof.
  intros g g' consumers nodes2rm Hm0 Hm1 Hm2 Hm3 Hk0 Hrun.
  apply QuantDequant_InsertNewNode_inv in Hrun
    as (ivn & qdn & osn & ovn & name0 & w0 & l & st1 & rm
        & H0 & H1 & H2 & H3 & Hk & Hty & _ & Hout & Hw & HF & HW & Hrm & Hisn & ->).
  rewrite Hm0 in H0. rewrite Hm1 in H1. rewrite Hm2 in H2. rewrite Hm3 in H3.
  injection H0 as <-. injection H1 as <-. injection H2 as <-. injection H3 as <-.
  fold g in Hk. rewrite Hk0 in Hk. injection Hk as <- <-.
  change QuantDequantOpFuser.moving_average_type
    with "fake_quantize_dequantize_moving_average_abs_max" in Hrm, Hisn.
  fold nodes2rm in Hrm. subst rm.
  subst g'. cbn [graph scope]. fold g in Hw, Hout.
  assert (Hl : consumers = l) by (unfold consumers; rewrite Hout; reflexivity).
  clearbody consumers. subst l.
  assert (Hadd : forall x y, (x, y) ∈ pair input_var_node <$> consumers
                             <-> x = input_var_node /\ y ∈ consumers).
  { intros x y. rewrite list_elem_of_fmap. split.
    - intros (c & [= -> ->] & Hc). tauto.
    - intros [-> Hy]. eauto. }
  destruct Hw as [Hd Hkd _ Ho Hi Hf].
  split_and!.
  - rewrite remove_nodes_dom, Hd. reflexivity.
  - intros Hmov. destruct (Hisn Hmov) as [isn Hi0]. exists isn. split; [exact Hi0|].
    rewrite remove_nodes_dom. unfold nodes2rm.
    rewrite bool_decide_eq_true_2 by exact Hmov. rewrite Hi0. simpl. set_solver.
  - intros x y. rewrite remove_nodes_edge_out, Ho, Hadd. reflexivity.
  - intros x y. rewrite remove_nodes_edge_in, Hi, Hadd. reflexivity.
  - intros k Hrm Hc. rewrite remove_nodes_kind, decide_False by exact Hrm.
    apply Hkd, Hc.
  - intros k Hrm Hc Hne. rewrite remove_nodes_lookup, decide_False by exact Hrm.
    rewrite Hf; [reflexivity|exact Hc| |].
    + intros (e & -> & (c & -> & _)%list_elem_of_fmap)%list_elem_of_fmap.
      apply Hne. reflexivity.
    + intros (e & -> & (c & -> & Hc')%list_elem_of_fmap)%list_elem_of_fmap.
      apply Hc. exact Hc'.
  - exact HF.
  - exact HW.
Qed.

(** Property X8.  On a match of [QuantDequantOpFuser] of
    the moving-average type whose input is an activation, with bit length
    [b] (1 <= b <= 31) and an output-scale tensor that starts with [S],
    the rewrite succeeds once the graph collaborator accepts the removal
    from the graph the loop over the consumers has produced; every
    consumer of the output variable gets the one-element scale list
    [S / (2^(b-1) - 1)] for the input variable, the attribute
    [bit_length = b] and its inputs renamed from the output variable to
    the input variable, and keeps its other attributes ([enable_int8] is
    not set); the storage is unchanged; exactly the fused operator, its
    two scale variables and its output variable leave the graph. *)
Theorem QuantDequantOpFuser_activation
    (st : State) (matched : key2nodes_t)
    (input_var_node quant_dequant_node output_scale_node output_var_node
       input_scale_node : node_id)
    (input_var_name output_scale_name output_var_name input_scale_name : string)
    (w_s w_o w_i : bool)
    (quant_dequant_info : OpInfo) (b : Z) (input_var_tensor scale_tensor : Tensor)
    (S : float) (rest : list float) (consumers : list node_id) :
  let g := graph st in
  let nodes2rm : gset node_id :=
    {[quant_dequant_node; output_scale_node; output_var_node; input_scale_node]} in
  matched !! "input_var_node" = Some input_var_node ->
  matched !! "quant_dequant_node" = Some quant_dequant_node ->
  matched !! "output_scale_node" = Some output_scale_node ->
  matched !! "output_var_node" = Some output_var_node ->
  matched !! "input_scale_node" = Some input_scale_node ->
  input_var_node <> output_var_node ->
  kind_of g input_var_node = Some (Arg input_var_name false) ->
  kind_of g quant_dequant_node = Some (Stmt quant_dequant_info) ->
  kind_of g output_scale_node = Some (Arg output_scale_name w_s) ->
  kind_of g output_var_node = Some (Arg output_var_name w_o) ->
  kind_of g input_scale_node = Some (Arg input_scale_name w_i) ->
  outlinks <$> g !! output_var_node = Some consumers ->
  Forall (fun c => exists op, kind_of g c = Some (Stmt op)) consumers ->
  quant_dequant_node ∉ consumers ->
  attrs quant_dequant_info !! "bit_length" = Some (AttrInt b) ->
  1 <= b <= 31 ->
  scope st !! input_var_name = Some input_var_tensor ->
  scope st !! output_scale_name = Some scale_tensor ->
  buffer scale_tensor = BufFloat (S :: rest) ->
  (forall st1,
     for_each (QuantDequantOpFuser.update_quantized_node input_var_node
                 input_var_name output_var_name false b
                 (float_div S (float_of_int (2 ^ (b - 1) - 1)))) consumers st
     = Ok st1 ->
     removal_is_safe (graph st1) nodes2rm = true) ->
  exists st',
    QuantDequantOpFuser.InsertNewNode
      "fake_quantize_dequantize_moving_average_abs_max" st matched = Ok st'
    /\ scope st' = scope st
    /\ dom (graph st') = dom g ∖ nodes2rm
    /\ forall c op,
         c ∈ consumers -> kind_of g c = Some (Stmt op) ->
         exists op',
           kind_of (graph st') c = Some (Stmt op')
           /\ input_scales op' !! input_var_name
              = Some [float_div S (float_of_int (2 ^ (b - 1) - 1))]
           /\ attrs op' = <["bit_length" := AttrInt b]> (attrs op)
           /\ inputs op' = map (rename_var output_var_name input_var_name) <$> inputs op
           /\ outputs op' = outputs op
           /\ Type_ op' = Type_ op.
Proof.
  intros g nodes2rm Hm0 Hm1 Hm2 Hm3 Hm4 Hne Hk0 Hk1 Hk2 Hk3 Hk4 Hout Hcons Hq Hbit Hb
    Hsc Hss Hbuf Hsafe.
  unfold QuantDequantOpFuser.InsertNewNode, at_.
  rewrite Hm0, Hm1, Hm2, Hm3. cbn [bind]. fold g.
  rewrite (arg_name_Ok _ _ _ _ Hk0), (arg_name_Ok _ _ _ _ Hk3),
    (arg_is_weight_Ok _ _ _ _ Hk0). cbn [bind].
  rewrite (stmt_op_info_Ok _ _ _ Hk1). cbn [bind].
  unfold lookup_tensor at 1. rewrite Hsc. cbn [bind].
  unfold QuantDequantOpFuser.get_threshold, QuantDequantOpFuser.check_type.
  rewrite bool_decide_eq_true_2 by reflexivity. cbn [bind]. fold g.
  rewrite (arg_name_Ok _ _ _ _ Hk2). cbn [bind].
  unfold lookup_tensor. rewrite Hss. cbn [bind].
  unfold data_float. rewrite Hbuf. cbn [bind first_elem].
  unfold GetAttr_int. rewrite Hbit. cbn [bind].
  rewrite (range_of_bit_length_spec b Hb). cbn [bind].
  unfold node_outlinks, get_node.
  destruct (g !! output_var_node) as [out_node|] eqn:Hon; [|discriminate].
  injection Hout as Hout. cbn [bind]. rewrite Hout.
  rewrite bool_decide_eq_false_2 by exact Hne. cbn [bind].
  set (scale_value := float_div S (float_of_int (2 ^ (b - 1) - 1))) in *.
  destruct st as [g0 sc0]. cbn [graph scope] in *. subst g.
  destruct (update_all_activation input_var_node input_var_name output_var_name b
              scale_value sc0 consumers g0 Hcons) as (g1 & Hloop & Hd1 & Hkind1).
  { apply kind_of_dom. rewrite Hk0. eauto. }
  rewrite Hloop.
  cbn [bind]. unfold at_. rewrite Hm4. cbn [bind graph scope]. unfold GraphSafeRemoveNodes.
  fold nodes2rm. pose proof (Hsafe _ Hloop) as Hacc. cbn [graph] in Hacc.
  rewrite Hacc. cbn [bind].
  eexists. split; [reflexivity|]. cbn [graph scope].
  split; [reflexivity|]. split.
  - rewrite remove_nodes_dom, Hd1. reflexivity.
  - intros c op Hc Hop.
    assert (Hnot : c ∉ nodes2rm).
    { unfold nodes2rm. rewrite !elem_of_union, !elem_of_singleton.
      intros [[[-> | ->] | ->] | ->]; first [congruence | contradiction]. }
    exists (QuantDequant_activation_update input_var_name output_var_name b
              scale_value op).
    split; [|split; [|split; [|split; [|split]]]].
    + rewrite remove_nodes_kind, decide_False by exact Hnot.
      rewrite Hkind1, decide_True by exact Hc. rewrite Hop. reflexivity.
    + simpl. apply lookup_insert_eq.
    + reflexivity.
    + reflexivity.
    + reflexivity.
    + reflexivity.
Qed.
End QuantDequantRewiring.
Lemma QuantDequantOpFuser_rewiring_witness :
  exists st',
    @QuantDequantOpFuser.InsertNewNode Examples.always_safe
      "fake_quantize_dequantize_abs_max" Examples.qdq_state Examples.qdq_match = Ok st'
    /\ dom (graph st') = {[0%nat; 4%nat; 5%nat; 6%nat]}
    /\ edge_out (graph st') 0%nat 5%nat
    /\ graph st' !! 4%nat = Some (mkNode (Arg "x" false) [] [5%nat]).
Proof.
  eexists. split; [vm_compute; reflexivity|].
  destruct (@QuantDequantOpFuser_rewiring Examples.always_safe
              "fake_quantize_dequantize_abs_max" Examples.qdq_state _ Examples.qdq_match
              0%nat 1%nat 2%nat 3%nat "w" true eq_refl eq_refl eq_refl eq_refl eq_refl
              ltac:(vm_compute; reflexivity))
    as (Hd & _ & Ho & _ & _ & Hf & _ & _).
  split; [|split].
  - rewrite Hd. apply (bool_decide_unpack _). vm_compute. exact I.
  - apply Ho. split; [|split].
    + right. split; [reflexivity|]. apply list_elem_of_here.
    + apply (bool_decide_unpack _). vm_compute. exact I.
    + apply (bool_decide_unpack _). vm_compute. exact I.
  - vm_compute. reflexivity.
Defined.

Lemma QuantDequantOpFuser_activation_witness :
  exists st',
    @QuantDequantOpFuser.InsertNewNode MoreExamples.reference_checking
      "fake_quantize_dequantize_moving_average_abs_max"
      MoreExamples.qdq_act_state MoreExamples.qdq_act_match = Ok st'
    /\ scope st' = MoreExamples.qdq_act_scope
    /\ dom (graph st') = {[1%nat; 5%nat]}
    /\ exists op',
         kind_of (graph st') 5%nat = Some (Stmt op')
         /\ input_scales op' !! "x" = Some [float_div (float_of_int 5) (float_of_int 127)]
         /\ attrs op' !! "bit_length" = Some (AttrInt 8)
         /\ attrs op' !! "enable_int8" = None
         /\ inputs op' !! "Input" = Some ["x"].
Proof.
  destruct (@QuantDequantOpFuser_activation MoreExamples.reference_checking
              MoreExamples.qdq_act_state MoreExamples.qdq_act_match
              1%nat 2%nat 3%nat 4%nat 0%nat "x" "x.scale" "x.qdq" "x.scale_in"
              false false false MoreExamples.qdq_act_op 8
              (mkTensor [1] (BufFloat [float_of_int 1]) false kFloat)
              (mkTensor [1] (BufFloat [float_of_int 5]) true kFloat)
              (float_of_int 5) [] [5%nat])
    as (st' & Hrun & Hs & Hd & Hcons);
    try reflexivity.
  - discriminate.
  - repeat constructor. eexists. reflexivity.
  - intros Hin. apply list_elem_of_singleton in Hin. discriminate Hin.
  - lia.
  - intros st1 Hloop.
    assert (Hacc : exists sx,
               for_each (QuantDequantOpFuser.update_quantized_node 1%nat "x" "x.qdq"
                           false 8
                           (float_div (float_of_int 5) (float_of_int (2 ^ (8 - 1) - 1))))
                 [5%nat] MoreExamples.qdq_act_state = Ok sx
               /\ @removal_is_safe MoreExamples.reference_checking (graph sx)
                    {[2%nat; 3%nat; 4%nat; 0%nat]} = true)
      by (eexists; split; vm_compute; reflexivity).
    destruct Hacc as (sx & Hsx & Hacc). rewrite Hsx in Hloop.
    injection Hloop as <-. exact Hacc.
  - exists st'. split; [exact Hrun|]. split; [exact Hs|]. split.
    + rewrite Hd. apply (bool_decide_unpack _). vm_compute. exact I.
    + destruct (Hcons 5%nat _ ltac:(apply list_elem_of_here) eq_refl)
        as (op' & Hk & Hsc & Ha & Hi & _ & _).
      exists op'. split; [exact Hk|]. split; [exact Hsc|].
      rewrite Ha, Hi. repeat split.
Defined.

(** ** The two dequantize fusers *)

Lemma cast_weight_to_int8_inv (t t' : Tensor) :
  cast_weight_to_int8 t = Ok t' ->
  exists xs qs,
    buffer t = BufFloat xs
    /\ 0 <= numel t <= Z.of_nat (length xs)
    /\ Forall2 (fun x q => quantize_truncated x = Ok q) (take (Z.to_nat (numel t)) xs) qs
    /\ t' = mkTensor (dims t) (BufInt8 qs) true kInt8.
Proof.
  unfold cast_weight_to_int8, CopyDataFrom, data_size. intros Hrun.
  ok_step Hrun as xs E. apply data_float_inv in E.
  ok_step Hrun as qs E0. apply convert_elements_Ok in E0 as [Hn Hq].
  injection Hrun as <-. exists xs, qs. repeat (split; [assumption|]). reflexivity.
Qed.

Lemma Dequant_InsertNewNode_inv (t : string) (st st' : State) (matched : key2nodes_t) :
  DequantOpFuser.InsertNewNode t st matched = Ok st' -> dequant_fused t st st' matched.
Proof.
  intros Hrun. unfold DequantOpFuser.InsertNewNode in Hrun.
  ok_step Hrun as input E0. ok_step Hrun as weight E1. ok_step Hrun as qop E2.
  ok_step Hrun as dop E3. ok_step Hrun as out E4.
  apply at_inv in E0, E1, E2, E3, E4.
  ok_step Hrun as weight_name E5. apply arg_name_inv in E5 as [w E5].
  ok_step Hrun as qinfo E6. apply stmt_op_info_inv in E6.
  ok_step Hrun as b E7. ok_step Hrun as range E8. ok_step Hrun as dinfo E9.
  ok_step Hrun as max_range E10. ok_step Hrun as range2 E11.
  ok_step Hrun as weight_t E12. apply lookup_tensor_inv in E12.
  ok_step Hrun as sized E13. destruct sized as [op_io size].
  ok_step Hrun as weight_t' E14.
  apply cast_weight_to_int8_inv in E14 as (xs & qs & Hbuf & Hn & Hq & ->).
  ok_step Hrun as g' E15. injection Hrun as <-. cbn [graph scope].
  assert (Hio : exists in_name out_name,
             (is_conv_type t || is_mul_type t = true ->
              (exists w0, kind_of (graph st) input = Some (Arg in_name w0))
              /\ (exists w2, kind_of (graph st) out = Some (Arg out_name w2)))
             /\ op_io = Dequant_io_update t in_name out_name qinfo).
  { unfold Dequant_io_update. destruct (is_conv_type t); [|destruct (is_mul_type t)].
    - ok_step E13 as in_name E16. ok_step E13 as out_name E17. ok_step E13 as d E18.
      injection E13 as <- <-. exists in_name, out_name.
      split; [|reflexivity]. intros _.
      split; [eapply arg_name_inv, E16|eapply arg_name_inv, E17].
    - ok_step E13 as in_name E16. ok_step E13 as out_name E17. ok_step E13 as d E18.
      injection E13 as <- <-. exists in_name, out_name.
      split; [|reflexivity]. intros _.
      split; [eapply arg_name_inv, E16|eapply arg_name_inv, E17].
    - injection E13 as <- <-. exists "", "". split; [discriminate|reflexivity]. }
  destruct Hio as (in_name & out_name & Hkinds & ->).
  exists input, weight, qop, out, weight_name, in_name, out_name, w, qinfo, weight_t,
    xs, qs.
  eexists. repeat (split; [eassumption|]). reflexivity.
Qed.

Lemma ChannelWise_InsertNewNode_inv (t : string) (st st' : State)
    (matched : key2nodes_t) :
  ChannelWiseDequantOpFuser.InsertNewNode t st matched = Ok st' ->
  dequant_fused t st st' matched.
Proof.
  intros Hrun. unfold ChannelWiseDequantOpFuser.InsertNewNode in Hrun.
  ok_step Hrun as input E0. ok_step Hrun as weight E1. ok_step Hrun as qop E2.
  ok_step Hrun as cs E2'. ok_step Hrun as dop E3. ok_step Hrun as out E4.
  apply at_inv in E0, E1, E2, E3, E4.
  ok_step Hrun as weight_name E5. apply arg_name_inv in E5 as [w E5].
  ok_step Hrun as qinfo E6. apply stmt_op_info_inv in E6.
  ok_step Hrun as dinfo E7. ok_step Hrun as quant_bits E8. ok_step Hrun as b E9.
  ok_step Hrun as range E10. ok_step Hrun as cs_name E11. ok_step Hrun as cs_t E12.
  ok_step Hrun as cs_data E13. ok_step Hrun as weight_scale E14.
  ok_step Hrun as op_io E15.
  ok_step Hrun as weight_t E16. apply lookup_tensor_inv in E16.
  ok_step Hrun as weight_t' E17.
  apply cast_weight_to_int8_inv in E17 as (xs & qs & Hbuf & Hn & Hq & ->).
  ok_step Hrun as g' E18. injection Hrun as <-. cbn [graph scope].
  assert (Hio : exists in_name out_name,
             (is_conv_type t || is_mul_type t = true ->
              (exists w0, kind_of (graph st) input = Some (Arg in_name w0))
              /\ (exists w2, kind_of (graph st) out = Some (Arg out_name w2)))
             /\ op_io = Dequant_io_update t in_name out_name qinfo).
  { unfold Dequant_io_update. destruct (is_conv_type t); [|destruct (is_mul_type t)].
    - ok_step E15 as in_name E19. ok_step E15 as out_name E20.
      injection E15 as <-. exists in_name, out_name.
      split; [|reflexivity]. intros _.
      split; [eapply arg_name_inv, E19|eapply arg_name_inv, E20].
    - ok_step E15 as in_name E19. ok_step E15 as out_name E20.
      injection E15 as <-. exists in_name, out_name.
      split; [|reflexivity]. intros _.
      split; [eapply arg_name_inv, E19|eapply arg_name_inv, E20].
    - injection E15 as <-. exists "", "". split; [discriminate|reflexivity]. }
  destruct Hio as (in_name & out_name & Hkinds & ->).
  exists input, weight, qop, out, weight_name, in_name, out_name, w, qinfo, weight_t,
    xs, qs.
  eexists. repeat (split; [eassumption|]). reflexivity.
Qed.

Lemma is_conv_type_elem (t : string) : is_conv_type t = bool_decide (t ∈ conv_ops).
Proof.
  unfold is_conv_type, conv_ops.
  destruct (bool_decide_reflect (t ∈ ["conv2d"; "depthwise_conv2d"; "conv2d_transpose"]))
    as [Hin|Hnin].
  - rewrite !elem_of_cons in Hin. destruct Hin as [->|[->|[->|[]%elem_of_nil]]]; reflexivity.
  - rewrite !elem_of_cons in Hnin.
    rewrite !bool_decide_eq_false_2; [reflexivity|..]; intros ->; tauto.
Qed.

Lemma is_mul_type_elem (t : string) : is_mul_type t = bool_decide (t ∈ mul_ops).
Proof.
  unfold is_mul_type, mul_ops.
  destruct (bool_decide_reflect (t ∈ ["mul"; "matmul"])) as [Hin|Hnin].
  - rewrite !elem_of_cons in Hin. destruct Hin as [->|[->|[]%elem_of_nil]]; reflexivity.
  - rewrite !elem_of_cons in Hnin.
    rewrite !bool_decide_eq_false_2; [reflexivity|..]; intros ->; tauto.
Qed.

Lemma GetWeightArgname_empty (t : string) :
  GetWeightArgname t = "" <-> is_conv_type t = false /\ is_mul_type t = false.
Proof.
  rewrite is_conv_type_elem, is_mul_type_elem. unfold GetWeightArgname.
  destruct (bool_decide (t ∈ conv_ops)); [split; [discriminate|intros [? _]; discriminate]|].
  destruct (bool_decide (t ∈ mul_ops)); [split; [discriminate|intros [_ ?]; discriminate]|].
  tauto.
Qed.

(** Property X9.  Whatever the match binds its roles to among
    the nodes of the graph, a run of [DequantOpFuser::InsertNewNode] or of
    [ChannelWiseDequantOpFuser::InsertNewNode] that returns adds exactly
    one node, removes none and keeps the kind of every node; the new
    operator node has the matched input activation and weight as its
    producers and the output of the dequantize operator as its consumer;
    the only new edges are those three; a node other than these four is as
    it was; and the storage changes at the weight variable alone, whose
    tensor keeps its shape, holds the truncated elements as int8 and is
    flagged persistable and int8. *)
Theorem dequantize_fusers_effect (quantized_op_type_ : string) (st st' : State)
    (matched : key2nodes_t)
    (quantized_op_input quantized_op_weight dequant_op_out : node_id) :
  let g := graph st in
  let g' := graph st' in
  let new := fresh (dom g) in
  matched !! "quantized_op_input" = Some quantized_op_input ->
  matched !! "quantized_op_weight" = Some quantized_op_weight ->
  matched !! "dequant_op_out" = Some dequant_op_out ->
  quantized_op_input ∈ dom g ->
  dequant_op_out ∈ dom g ->
  DequantOpFuser.InsertNewNode quantized_op_type_ st matched = Ok st'
  \/ ChannelWiseDequantOpFuser.InsertNewNode quantized_op_type_ st matched = Ok st' ->
  (new ∉ dom g)
  /\ dom g' = {[new]} ∪ dom g
  /\ (exists op',
        g' !! new
        = Some (mkNode (Stmt op') [quantized_op_input; quantized_op_weight]
                  [dequant_op_out]))
  /\ (forall k, k ∈ dom g -> kind_of g' k = kind_of g k)
  /\ (forall k, k ∉ [quantized_op_input; quantized_op_weight; dequant_op_out; new] ->
                g' !! k = g !! k)
  /\ (forall x y,
        edge_out g' x y
        <-> edge_out g x y
            \/ (x, y) ∈ [(quantized_op_input, new); (quantized_op_weight, new);
                         (new, dequant_op_out)])
  /\ (forall x y,
        edge_in g' x y
        <-> edge_in g x y
            \/ (x, y) ∈ [(quantized_op_input, new); (quantized_op_weight, new);
                         (new, dequant_op_out)])
  /\ exists weight_name w weight_t xs qs,
       kind_of g quantized_op_weight = Some (Arg weight_name w)
       /\ scope st !! weight_name = Some weight_t
       /\ buffer weight_t = BufFloat xs
       /\ Forall2 (fun x q => quantize_truncated x = Ok q)
            (take (Z.to_nat (numel weight_t)) xs) qs
       /\ scope st'
          = <[weight_name := mkTensor (dims weight_t) (BufInt8 qs) true kInt8]>
              (scope st).
Proof.
  intros g g' new Hm0 Hm1 Hm4 Hin Hout Hrun.
  assert (Hf : dequant_fused quantized_op_type_ st st' matched).
  { destruct Hrun as [Hrun|Hrun];
      [apply Dequant_InsertNewNode_inv|apply ChannelWise_InsertNewNode_inv]; exact Hrun. }
  clear Hrun.
  destruct Hf as (input & weight & qop & out & weight_name & in_name & out_name & w
                  & qinfo & weight_t & xs & qs & weight_scale
                  & H0 & H1 & H2 & H4 & Hkw & Hkq & Hkio & Hsc & Hbuf & Hn & Hq
                  & Hlink & Hscope).
  rewrite Hm0 in H0. rewrite Hm1 in H1. rewrite Hm4 in H4.
  injection H0 as <-. injection H1 as <-. injection H4 as <-.
  apply create_and_link_inv in Hlink. fold g new g' in Hlink.
  destruct Hlink as (Hd & Hknew & Hk & Ho & Hi & Hfr & Hnew).
  assert (Hw : quantized_op_weight ∈ dom g) by (apply kind_of_dom; unfold g; rewrite Hkw; eauto).
  split; [apply is_fresh|]. split; [exact Hd|].
  split; [eexists; apply Hnew; assumption|].
  split; [|split; [exact Hfr|split; [exact Ho|split; [exact Hi|]]]].
  - intros k Hkd. apply Hk. intros ->. apply (is_fresh (dom g)), Hkd.
  - exists weight_name, w, weight_t, xs, qs. repeat (split; [assumption|]). exact Hscope.
Qed.

(** Property X10.  The descriptor of the operator node that
    [DequantOpFuser] and [ChannelWiseDequantOpFuser] create is the
    descriptor of the quantized operator with [enable_int8 = true], a scale
    list for the weight variable, and, for conv2d, depthwise_conv2d and
    conv2d_transpose, the argument [Input] bound to the input activation
    and [Output] to the output of the dequantize operator; for mul and
    matmul these are [X] and [Out]; for any other type, those for which
    [GetWeightArgname] has no weight argument, the named arguments are left
    as they were.  The type and the other attributes, arguments and scale
    lists are those of the quantized operator. *)
Theorem dequantize_fusers_descriptor (quantized_op_type_ : string) (st st' : State)
    (matched : key2nodes_t) (quantized_op_weight quantized_op : node_id)
    (weight_name : string) (w : bool) (quantized_info : OpInfo) :
  let g := graph st in
  let g' := graph st' in
  matched !! "quantized_op_weight" = Some quantized_op_weight ->
  matched !! "quantized_op" = Some quantized_op ->
  kind_of g quantized_op_weight = Some (Arg weight_name w) ->
  kind_of g quantized_op = Some (Stmt quantized_info) ->
  DequantOpFuser.InsertNewNode quantized_op_type_ st matched = Ok st'
  \/ ChannelWiseDequantOpFuser.InsertNewNode quantized_op_type_ st matched = Ok st' ->
  exists op' weight_scale,
    kind_of g' (fresh (dom g)) = Some (Stmt op')
    /\ Type_ op' = Type_ quantized_info
    /\ attrs op' = <["enable_int8" := AttrBool true]> (attrs quantized_info)
    /\ input_scales op' = <[weight_name := weight_scale]> (input_scales quantized_info)
    /\ (quantized_op_type_ ∈ conv_ops ->
        exists input output in_name out_name w0 w2,
          matched !! "quantized_op_input" = Some input
          /\ matched !! "dequant_op_out" = Some output
          /\ kind_of g input = Some (Arg in_name w0)
          /\ kind_of g output = Some (Arg out_name w2)
          /\ inputs op' = <["Input" := [in_name]]> (inputs quantized_info)
          /\ outputs op' = <["Output" := [out_name]]> (outputs quantized_info))
    /\ (quantized_op_type_ ∈ mul_ops ->
        exists input output in_name out_name w0 w2,
          matched !! "quantized_op_input" = Some input
          /\ matched !! "dequant_op_out" = Some output
          /\ kind_of g input = Some (Arg in_name w0)
          /\ kind_of g output = Some (Arg out_name w2)
          /\ inputs op' = <["X" := [in_name]]> (inputs quantized_info)
          /\ outputs op' = <["Out" := [out_name]]> (outputs quantized_info))
    /\ (GetWeightArgname quantized_op_type_ = "" ->
        inputs op' = inputs quantized_info /\ outputs op' = outputs quantized_info).
Proof.
  intros g g' Hm1 Hm2 Hk1 Hk2 Hrun.
  assert (Hf : dequant_fused quantized_op_type_ st st' matched).
  { destruct Hrun as [Hrun|Hrun];
      [apply Dequant_InsertNewNode_inv|apply ChannelWise_InsertNewNode_inv]; exact Hrun. }
  clear Hrun.
  destruct Hf as (input & weight & qop & out & weight_name' & in_name & out_name & w'
                  & qinfo & weight_t & xs & qs & weight_scale
                  & H0 & H1 & H2 & H4 & Hkw & Hkq & Hkio & Hsc & Hbuf & Hn & Hq
                  & Hlink & Hscope).
  rewrite Hm1 in H1. rewrite Hm2 in H2. injection H1 as <-. injection H2 as <-.
  fold g in Hkw, Hkq, Hkio. rewrite Hk1 in Hkw. rewrite Hk2 in Hkq.
  injection Hkw as <- <-. injection Hkq as <-.
  apply create_and_link_inv in Hlink. fold g g' in Hlink.
  destruct Hlink as (_ & Hknew & _).
  eexists. exists weight_scale. split; [exact Hknew|].
  unfold Dequant_io_update. rewrite is_conv_type_elem, is_mul_type_elem in *.
  assert (Hdisj : quantized_op_type_ ∈ conv_ops -> quantized_op_type_ ∈ mul_ops -> False).
  { unfold conv_ops, mul_ops. rewrite !elem_of_cons.
    intros [->|[->|[->|[]%elem_of_nil]]] [?|[?|[]%elem_of_nil]]; discriminate. }
  destruct (bool_decide_reflect (quantized_op_type_ ∈ conv_ops)) as [Hc|Hc];
    [|destruct (bool_decide_reflect (quantized_op_type_ ∈ mul_ops)) as [Hm|Hm]].
  - destruct (Hkio eq_refl) as [[w0 Hki] [w2 Hko]].
    split_and!; try reflexivity.
    + intros _. exists input, out, in_name, out_name, w0, w2.
      repeat (split; [assumption|]). split; reflexivity.
    + intros Hm. destruct (Hdisj Hc Hm).
    + intros [He _]%GetWeightArgname_empty. rewrite is_conv_type_elem in He.
      rewrite bool_decide_eq_true_2 in He by exact Hc. discriminate.
  - destruct (Hkio eq_refl) as [[w0 Hki] [w2 Hko]].
    split_and!; try reflexivity.
    + intros Hc'. destruct (Hc Hc').
    + intros _. exists input, out, in_name, out_name, w0, w2.
      repeat (split; [assumption|]). split; reflexivity.
    + intros [_ He]%GetWeightArgname_empty. rewrite is_mul_type_elem in He.
      rewrite bool_decide_eq_true_2 in He by exact Hm. discriminate.
  - split_and!; try reflexivity.
    + intros Hc'. destruct (Hc Hc').
    + intros Hm'. destruct (Hm Hm').
    + intros _. split; reflexivity.
Qed.
Lemma dequantize_fusers_effect_witness :
  exists st',
    DequantOpFuser.InsertNewNode "conv2d" Examples.dequant_state Examples.dequant_match
    = Ok st'
    /\ dom (graph st') = {[fresh (dom Examples.dequant_graph)]} ∪ dom Examples.dequant_graph
    /\ (exists op',
          graph st' !! fresh (dom Examples.dequant_graph)
          = Some (mkNode (Stmt op') [0%nat; 1%nat] [5%nat]))
    /\ graph st' !! 2%nat = Examples.dequant_graph !! 2%nat.
Proof.
  eexists. split; [vm_compute; reflexivity|].
  match goal with
  | |- dom (graph ?s) = _ /\ _ =>
      assert (Hrun : DequantOpFuser.InsertNewNode "conv2d" Examples.dequant_state
                       Examples.dequant_match = Ok s) by (vm_compute; reflexivity)
  end.
  destruct (dequantize_fusers_effect "conv2d" Examples.dequant_state _
              Examples.dequant_match 0%nat 1%nat 5%nat eq_refl eq_refl eq_refl
              ltac:(apply (bool_decide_unpack _); vm_compute; exact I)
              ltac:(apply (bool_decide_unpack _); vm_compute; exact I)
              (or_introl Hrun))
    as (_ & Hd & Hnew & _ & Hf & _).
  split; [exact Hd|]. split; [exact Hnew|].
  apply Hf. apply (bool_decide_unpack _). vm_compute. exact I.
Defined.

Lemma dequantize_fusers_descriptor_witness :
  exists st' op' weight_scale,
    ChannelWiseDequantOpFuser.InsertNewNode "conv2d" Examples.channel_wise_state
      Examples.channel_wise_match = Ok st'
    /\ kind_of (graph st') (fresh (dom Examples.channel_wise_graph)) = Some (Stmt op')
    /\ Type_ op' = "conv2d"
    /\ attrs op' !! "enable_int8" = Some (AttrBool true)
    /\ input_scales op' !! "w" = Some weight_scale
    /\ inputs op' !! "Input" = Some ["x"]
    /\ inputs op' !! "Filter" = Some ["w"]
    /\ outputs op' !! "Output" = Some ["y"].
Proof.
  assert (Hrun : exists st',
             ChannelWiseDequantOpFuser.InsertNewNode "conv2d"
               Examples.channel_wise_state Examples.channel_wise_match = Ok st')
    by (eexists; vm_compute; reflexivity).
  destruct Hrun as [st' Hrun]. exists st'.
  destruct (dequantize_fusers_descriptor "conv2d" Examples.channel_wise_state st'
              Examples.channel_wise_match 1%nat 2%nat "w" true _
              eq_refl eq_refl eq_refl eq_refl (or_intror Hrun))
    as (op' & weight_scale & Hk & Hty & Ha & Hs & Hconv & _ & _).
  destruct Hconv as (input & output & in_name & out_name & w0 & w2
                     & Hi & Ho & Hki & Hko & Hin & Hout).
  { apply list_elem_of_here. }
  injection Hi as <-. injection Ho as <-.
  injection Hki as <- <-. injection Hko as <- <-.
  exists op', weight_scale. split; [exact Hrun|].
  split; [exact Hk|]. split; [exact Hty|].
  rewrite Ha, Hs, Hin, Hout. repeat split.
Defined.

(** Property X11.  [DequantOpFuser] squares the range as an
    [int]: for the bit lengths 17 to 31, for which the range itself is
    defined, range * range is beyond [int] and the rewrite has no defined
    behaviour. *)
Theorem DequantOpFuser_range_overflow
    (quantized_op_type_ : string) (st : State) (matched : key2nodes_t)
    (quantized_op_input quantized_op_weight quantized_op dequant_op
       dequant_op_out : node_id)
    (quantized_info dequant_info : OpInfo) (weight_name : string) (w : bool)
    (b : Z) (max_range : float) :
  let g := graph st in
  matched !! "quantized_op_input" = Some quantized_op_input ->
  matched !! "quantized_op_weight" = Some quantized_op_weight ->
  matched !! "quantized_op" = Some quantized_op ->
  matched !! "dequant_op" = Some dequant_op ->
  matched !! "dequant_op_out" = Some dequant_op_out ->
  kind_of g quantized_op_weight = Some (Arg weight_name w) ->
  kind_of g quantized_op = Some (Stmt quantized_info) ->
  kind_of g dequant_op = Some (Stmt dequant_info) ->
  attrs quantized_info !! "bit_length" = Some (AttrInt b) ->
  17 <= b <= 31 ->
  attrs dequant_info !! "max_range" = Some (AttrFloat max_range) ->
  range_of_bit_length b = Ok (2 ^ (b - 1) - 1)
  /\ DequantOpFuser.InsertNewNode quantized_op_type_ st matched
     = Err UndefinedBehavior.
Proof.
  intros g Hm0 Hm1 Hm2 Hm3 Hm4 Hk1 Hk2 Hk3 Hbit Hb Hmax.
  assert (Hr : range_of_bit_length b = Ok (2 ^ (b - 1) - 1))
    by (apply range_of_bit_length_spec; lia).
  split; [exact Hr|].
  unfold DequantOpFuser.InsertNewNode, at_.
  rewrite Hm0, Hm1, Hm2, Hm3, Hm4. cbn [bind]. fold g.
  rewrite (arg_name_Ok _ _ _ _ Hk1). cbn [bind].
  rewrite (stmt_op_info_Ok _ _ _ Hk2). cbn [bind].
  unfold GetAttr_int. rewrite Hbit. cbn [bind]. rewrite Hr. cbn [bind].
  rewrite (stmt_op_info_Ok _ _ _ Hk3). cbn [bind].
  unfold GetAttr_float. rewrite Hmax. cbn [bind].
  unfold Int32.mul. rewrite Int32_checked_out; [reflexivity|].
  assert (2 ^ 16 <= 2 ^ (b - 1)) by (apply Z.pow_le_mono_r; lia).
  change (2 ^ 16) with 65536 in *. change (2 ^ 31) with 2147483648. nia.
Qed.

Lemma DequantOpFuser_range_overflow_witness :
  range_of_bit_length 17 = Ok (2 ^ (17 - 1) - 1)
  /\ DequantOpFuser.InsertNewNode "conv2d"
       (mkState
          (<[2%nat := mkNode
                        (Stmt (SetAttr Examples.dequant_conv_op "bit_length" (AttrInt 17)))
                        [0%nat; 1%nat] [3%nat]]> Examples.dequant_graph)
          {[ "w" := Examples.dequant_weight ]})
       Examples.dequant_match
     = Err UndefinedBehavior.
Proof.
  apply (DequantOpFuser_range_overflow "conv2d" _ Examples.dequant_match
           0%nat 1%nat 2%nat 4%nat 5%nat
           (SetAttr Examples.dequant_conv_op "bit_length" (AttrInt 17))
           Examples.dequant_op_info "w" true 17 (float_of_int 254));
    try reflexivity.
  lia.
Defined.

(** Property X12.  For an operator type for which
    [GetWeightArgname] has no weight argument (any type other than the three
    convolutions, mul and matmul), a run of [DequantOpFuser::InsertNewNode]
    that returns has still created the operator node, and the scale list
    it attaches for the weight is empty. *)
Theorem DequantOpFuser_unsupported_type
    (quantized_op_type_ : string) (st st' : State) (matched : key2nodes_t)
    (quantized_op_weight : node_id) (weight_name : string) (w : bool) :
  let g := graph st in
  matched !! "quantized_op_weight" = Some quantized_op_weight ->
  kind_of g quantized_op_weight = Some (Arg weight_name w) ->
  GetWeightArgname quantized_op_type_ = "" ->
  DequantOpFuser.InsertNewNode quantized_op_type_ st matched = Ok st' ->
  exists op',
    kind_of (graph st') (fresh (dom g)) = Some (Stmt op')
    /\ input_scales op' !! weight_name = Some [].
Proof.
  intros g Hm1 Hk1 [Hc Hm]%GetWeightArgname_empty Hrun.
  unfold DequantOpFuser.InsertNewNode in Hrun.
  ok_step Hrun as input E0. ok_step Hrun as weight E1. ok_step Hrun as qop E2.
  ok_step Hrun as dop E3. ok_step Hrun as out E4.
  apply at_inv in E1. rewrite Hm1 in E1. injection E1 as <-.
  ok_step Hrun as weight_name' E5. fold g in E5.
  rewrite (arg_name_Ok _ _ _ _ Hk1) in E5. injection E5 as <-.
  ok_step Hrun as qinfo E6. ok_step Hrun as b E7. ok_step Hrun as range E8.
  ok_step Hrun as dinfo E9. ok_step Hrun as max_range E10.
  ok_step Hrun as range2 E11. ok_step Hrun as weight_t E12.
  rewrite Hc, Hm in Hrun. cbn [bind] in Hrun.
  ok_step Hrun as weight_t' E14. ok_step Hrun as g' E15. injection Hrun as <-.
  cbn [graph]. apply create_and_link_inv in E15 as (_ & Hknew & _).
  eexists. split; [exact Hknew|]. simpl. apply lookup_insert_eq.
Qed.

Lemma DequantOpFuser_unsupported_type_witness :
  exists st' op',
    DequantOpFuser.InsertNewNode "fc" Examples.dequant_state Examples.dequant_match
    = Ok st'
    /\ kind_of (graph st') (fresh (dom Examples.dequant_graph)) = Some (Stmt op')
    /\ input_scales op' !! "w" = Some [].
Proof.
  assert (Hrun : exists st',
             DequantOpFuser.InsertNewNode "fc" Examples.dequant_state
               Examples.dequant_match = Ok st')
    by (eexists; vm_compute; reflexivity).
  destruct Hrun as [st' Hrun]. exists st'.
  destruct (DequantOpFuser_unsupported_type "fc" Examples.dequant_state st'
              Examples.dequant_match 1%nat "w" true eq_refl eq_refl eq_refl Hrun)
    as (op' & Hk & Hs).
  exists op'. split; [exact Hrun|]. split; [exact Hk|exact Hs].
Defined.

(** Evaluates the list of names under an [omap]. *)
Ltac eval_names :=
  repeat match goal with
         | |- context [omap _ ?l] =>
             lazymatch l with
             | context [filter] =>
                 let l' := eval vm_compute in l in change l with l'
             end
         end;
  cbn [omap list_omap].

(** Property X13.  The pattern and the rewrite of the two
    dequantize fusers agree on the lifecycle of the roles: when the match
    binds its roles to nodes of the graph, the producers of the operator
    node the rewrite creates are the nodes bound to the roles the pattern
    declares as inputs, in the order of their declaration, and its
    consumers those bound to the roles declared as outputs; a node bound
    only to roles declared intermediate is left as it was. *)
Theorem dequantize_fusers_roles (quantized_op_type_ : string) (st st' : State)
    (matched : key2nodes_t) (p : PMPattern) :
  let g := graph st in
  let g' := graph st' in
  match_in_graph matched g ->
  (p = DequantOpFuser.BuildPattern quantized_op_type_
   /\ DequantOpFuser.InsertNewNode quantized_op_type_ st matched = Ok st')
  \/ (p = ChannelWiseDequantOpFuser.BuildPattern quantized_op_type_
      /\ ChannelWiseDequantOpFuser.InsertNewNode quantized_op_type_ st matched = Ok st') ->
  exists nd,
    g' !! fresh (dom g) = Some nd
    /\ inlinks nd = bound_as p matched kInput
    /\ outlinks nd = bound_as p matched kOutput
    /\ forall k, k ∈ bound_as p matched kIntermediate ->
                 k ∉ bound_as p matched kInput ->
                 k ∉ bound_as p matched kOutput ->
                 g' !! k = g !! k.
Proof.
  intros g g' Hmg Hrun.
  assert (Hf : dequant_fused quantized_op_type_ st st' matched).
  { destruct Hrun as [[_ Hrun]|[_ Hrun]];
      [apply Dequant_InsertNewNode_inv|apply ChannelWise_InsertNewNode_inv]; exact Hrun. }
  destruct Hf as (input & weight & qop & out & weight_name & in_name & out_name & w
                  & qinfo & weight_t & xs & qs & weight_scale
                  & H0 & H1 & H2 & H4 & Hkw & Hkq & Hkio & Hsc & Hbuf & Hn & Hq
                  & Hlink & Hscope).
  apply create_and_link_inv in Hlink. fold g g' in Hlink.
  destruct Hlink as (_ & _ & _ & _ & _ & Hfr & Hnew).
  unfold match_in_graph in Hmg. rewrite map_Forall_lookup in Hmg.
  specialize (Hnew (Hmg _ _ H0) (Hmg _ _ H1) (Hmg _ _ H4)).
  assert (Hin : bound_as p matched kInput = [input; weight]).
  { destruct Hrun as [[-> _]|[-> _]]; unfold bound_as; eval_names; rewrite H0, H1; reflexivity. }
  assert (Hout : bound_as p matched kOutput = [out]).
  { destruct Hrun as [[-> _]|[-> _]]; unfold bound_as; eval_names; rewrite H4; reflexivity. }
  assert (Hint : forall k, k ∈ bound_as p matched kIntermediate -> k ∈ dom g).
  { intros k Hk. unfold bound_as in Hk. apply list_elem_of_omap in Hk as (n & _ & Hn').
    apply (Hmg _ _ Hn'). }
  eexists. split; [exact Hnew|]. rewrite Hin, Hout. cbn [inlinks outlinks].
  split; [reflexivity|]. split; [reflexivity|].
  intros k Hk Hki Hko. apply Hfr.
  rewrite !not_elem_of_cons in Hki. rewrite !not_elem_of_cons in Hko.
  rewrite !not_elem_of_cons.
  split; [tauto|]. split; [tauto|]. split; [tauto|]. split; [|apply not_elem_of_nil].
  intros ->. apply (is_fresh (dom g)). apply Hint, Hk.
Qed.
Lemma dequantize_fusers_roles_witness :
  exists st' nd,
    ChannelWiseDequantOpFuser.InsertNewNode "conv2d" Examples.channel_wise_state
      Examples.channel_wise_match = Ok st'
    /\ graph st' !! fresh (dom Examples.channel_wise_graph) = Some nd
    /\ inlinks nd = [0%nat; 1%nat]
    /\ outlinks nd = [6%nat]
    /\ graph st' !! 5%nat = Examples.channel_wise_graph !! 5%nat.
Proof.
  assert (Hrun : exists st',
             ChannelWiseDequantOpFuser.InsertNewNode "conv2d"
               Examples.channel_wise_state Examples.channel_wise_match = Ok st')
    by (eexists; vm_compute; reflexivity).
  destruct Hrun as [st' Hrun]. exists st'.
  destruct (dequantize_fusers_roles "conv2d" Examples.channel_wise_state st'
              Examples.channel_wise_match
              (ChannelWiseDequantOpFuser.BuildPattern "conv2d")
              ltac:(apply (bool_decide_unpack _); vm_compute; exact I)
              (or_intror (conj eq_refl Hrun)))
    as (nd & Hnd & Hin & Hout & Hint).
  exists nd. split; [exact Hrun|]. split; [exact Hnd|].
  split; [rewrite Hin; vm_compute; reflexivity|].
  split; [rewrite Hout; vm_compute; reflexivity|].
  apply Hint.
  - apply (bool_decide_unpack _). vm_compute. exact I.
  - apply (bool_decide_unpack _). vm_compute. exact I.
  - apply (bool_decide_unpack _). vm_compute. exact I.
Defined.

(** ** Roles of the pattern and lookups of the rewrite *)

Lemma bind_no_oor {A B : Type} (m : result A) (k : A -> result B) :
  no_oor m -> (forall a, m = Ok a -> no_oor (k a)) -> no_oor (bind m k).
Proof.
  unfold no_oor. intros Hm Hk. destruct m as [a|e]; simpl; [apply Hk; reflexivity|].
  congruence.
Qed.

Lemma for_each_no_oor {S A : Type} (Inv : S -> Prop) (body : S -> A -> result S)
    (l : list A) :
  (forall s x, Inv s -> no_oor (body s x)) ->
  (forall s x s', Inv s -> body s x = Ok s' -> Inv s') ->
  forall s, Inv s -> no_oor (for_each body l s).
Proof.
  intros Hb Hi. induction l as [|x l IH]; intros s Hs; simpl; [discriminate|].
  apply bind_no_oor; [apply Hb, Hs|]. intros s' Hs'. apply IH. eapply Hi; eassumption.
Qed.

Lemma map_result_no_oor {A B : Type} (f : A -> result B) (l : list A) :
  (forall x, no_oor (f x)) -> no_oor (map_result f l).
Proof.
  intros Hf. induction l as [|x l IH]; simpl; [discriminate|].
  apply bind_no_oor; [apply Hf|]. intros y _.
  apply bind_no_oor; [exact IH|]. discriminate.
Qed.

Lemma no_oor_Ok {A : Type} (a : A) : no_oor (Ok a).
Proof. discriminate. Qed.

Lemma no_oor_get_node g n : no_oor (get_node g n).
Proof. unfold no_oor, get_node. destruct (g !! n); discriminate. Qed.

Lemma no_oor_stmt_op_info g n : no_oor (stmt_op_info g n).
Proof.
  unfold stmt_op_info. apply bind_no_oor; [apply no_oor_get_node|].
  intros nd _. destruct (kind nd); discriminate.
Qed.

Lemma no_oor_arg_name g n : no_oor (arg_name g n).
Proof.
  unfold arg_name. apply bind_no_oor; [apply no_oor_get_node|].
  intros nd _. destruct (kind nd); discriminate.
Qed.

Lemma no_oor_arg_is_weight g n : no_oor (arg_is_weight g n).
Proof.
  unfold arg_is_weight. apply bind_no_oor; [apply no_oor_get_node|].
  intros nd _. destruct (kind nd); discriminate.
Qed.

Lemma no_oor_node_outlinks g n : no_oor (node_outlinks g n).
Proof.
  unfold node_outlinks. apply bind_no_oor; [apply no_oor_get_node|]. discriminate.
Qed.

Lemma no_oor_lookup_tensor sc name : no_oor (lookup_tensor sc name).
Proof. unfold no_oor, lookup_tensor. destruct (sc !! name); discriminate. Qed.

Lemma no_oor_data_float t : no_oor (data_float t).
Proof. unfold no_oor, data_float. destruct (buffer t); discriminate. Qed.

Lemma no_oor_first_elem xs : no_oor (first_elem xs).
Proof. destruct xs; discriminate. Qed.

Lemma no_oor_dims_at t i : no_oor (dims_at t i).
Proof. unfold no_oor, dims_at. destruct (dims t !! i); discriminate. Qed.

Lemma no_oor_GetAttr_int op name : no_oor (GetAttr_int op name).
Proof. unfold no_oor, GetAttr_int. destruct (attrs op !! name) as [[]|]; discriminate. Qed.

Lemma no_oor_GetAttr_float op name : no_oor (GetAttr_float op name).
Proof. unfold no_oor, GetAttr_float. destruct (attrs op !! name) as [[]|]; discriminate. Qed.

Lemma no_oor_GetAttr_ints op name : no_oor (GetAttr_ints op name).
Proof. unfold no_oor, GetAttr_ints. destruct (attrs op !! name) as [[]|]; discriminate. Qed.

Lemma no_oor_checked z : no_oor (Int32.checked z).
Proof. unfold no_oor, Int32.checked. destruct (Int32.in_range z); discriminate. Qed.

Lemma no_oor_range b : no_oor (range_of_bit_length b).
Proof.
  unfold range_of_bit_length, Int32.sub, Int32.shl.
  apply bind_no_oor; [apply no_oor_checked|]. intros n _.
  apply bind_no_oor; [|intros p _; apply no_oor_checked].
  destruct (_ && _); [apply no_oor_checked|discriminate].
Qed.

Lemma no_oor_float_to_int8 x : no_oor (float_to_int8 x).
Proof.
  unfold no_oor, float_to_int8. destruct (float_trunc x); [|discriminate].
  destruct (_ && _); discriminate.
Qed.

Lemma no_oor_convert_elements f n src :
  (forall x, no_oor (f x)) -> no_oor (convert_elements f n src).
Proof.
  intros Hf. unfold convert_elements. destruct (_ || _); [discriminate|].
  apply map_result_no_oor, Hf.
Qed.

Lemma no_oor_cast_weight_to_int8 t : no_oor (cast_weight_to_int8 t).
Proof.
  unfold cast_weight_to_int8. apply bind_no_oor; [apply no_oor_data_float|]. intros xs _.
  apply bind_no_oor; [|discriminate].
  apply no_oor_convert_elements. intros x. apply no_oor_float_to_int8.
Qed.

Lemma no_oor_QuantizeTensorInPlace t s : no_oor (QuantizeTensorInPlace t s).
Proof.
  unfold QuantizeTensorInPlace. apply bind_no_oor; [apply no_oor_data_float|]. intros xs _.
  apply bind_no_oor; [|discriminate].
  apply no_oor_convert_elements. intros x. apply no_oor_float_to_int8.
Qed.

Lemma no_oor_convert_weight t s : no_oor (DynamicQuantOpFuser.convert_weight t s).
Proof.
  unfold DynamicQuantOpFuser.convert_weight.
  apply bind_no_oor; [apply no_oor_data_float|]. intros xs _.
  apply bind_no_oor; [|discriminate].
  apply no_oor_convert_elements. intros x. apply no_oor_float_to_int8.
Qed.

Lemma no_oor_ResetOp g n op : no_oor (ResetOp g n op).
Proof.
  unfold ResetOp. apply bind_no_oor; [apply no_oor_get_node|].
  intros nd _. destruct (kind nd); discriminate.
Qed.

Lemma no_oor_IR_NODE_LINK_TO g a b : no_oor (IR_NODE_LINK_TO g a b).
Proof.
  unfold IR_NODE_LINK_TO. apply bind_no_oor; [apply no_oor_get_node|]. intros na _.
  apply bind_no_oor; [apply no_oor_get_node|]. discriminate.
Qed.

Lemma no_oor_create_and_link g op a b c : no_oor (create_and_link g op a b c).
Proof.
  unfold create_and_link, GraphCreateInstructNode.
  apply bind_no_oor; [apply no_oor_IR_NODE_LINK_TO|]. intros g1 _.
  apply bind_no_oor; [apply no_oor_IR_NODE_LINK_TO|]. intros g2 _.
  apply no_oor_IR_NODE_LINK_TO.
Qed.

Lemma no_oor_make_vector n x : 0 <= n -> no_oor (make_vector n x).
Proof.
  intros Hn. unfold no_oor, make_vector.
  replace (n <? 0) with false by (symmetry; apply Z.ltb_ge; lia). discriminate.
Qed.

Lemma no_oor_at (matched : key2nodes_t) (key : string) :
  is_Some (matched !! key) -> no_oor (at_ matched key).
Proof. intros [n Hn]. unfold no_oor, at_. rewrite Hn. discriminate. Qed.

(** The primitives of the rewrites never throw [std::out_of_range]. *)
Lemma no_oor_primitives :
  (forall (A : Type) (a : A), no_oor (Ok a))
  /\ (forall g n, no_oor (stmt_op_info g n))
  /\ (forall g n, no_oor (arg_name g n))
  /\ (forall g n, no_oor (arg_is_weight g n))
  /\ (forall g n, no_oor (node_outlinks g n))
  /\ (forall sc name, no_oor (lookup_tensor sc name))
  /\ (forall t, no_oor (data_float t))
  /\ (forall xs, no_oor (first_elem xs))
  /\ (forall t i, no_oor (dims_at t i))
  /\ (forall op name, no_oor (GetAttr_int op name))
  /\ (forall op name, no_oor (GetAttr_float op name))
  /\ (forall op name, no_oor (GetAttr_ints op name))
  /\ (forall z, no_oor (Int32.checked z))
  /\ (forall b, no_oor (range_of_bit_length b))
  /\ (forall t, no_oor (cast_weight_to_int8 t))
  /\ (forall t s, no_oor (QuantizeTensorInPlace t s))
  /\ (forall t s, no_oor (DynamicQuantOpFuser.convert_weight t s))
  /\ (forall g n op, no_oor (ResetOp g n op))
  /\ (forall g a b, no_oor (IR_NODE_LINK_TO g a b))
  /\ (forall g op a b c, no_oor (create_and_link g op a b c)).
Proof.
  split_and!; intros.
  - apply no_oor_Ok.
  - apply no_oor_stmt_op_info.
  - apply no_oor_arg_name.
  - apply no_oor_arg_is_weight.
  - apply no_oor_node_outlinks.
  - apply no_oor_lookup_tensor.
  - apply no_oor_data_float.
  - apply no_oor_first_elem.
  - apply no_oor_dims_at.
  - apply no_oor_GetAttr_int.
  - apply no_oor_GetAttr_float.
  - apply no_oor_GetAttr_ints.
  - apply no_oor_checked.
  - apply no_oor_range.
  - apply no_oor_cast_weight_to_int8.
  - apply no_oor_QuantizeTensorInPlace.
  - apply no_oor_convert_weight.
  - apply no_oor_ResetOp.
  - apply no_oor_IR_NODE_LINK_TO.
  - apply no_oor_create_and_link.
Qed.

(** Walks through a sequence of binds with the lemma [bind_lemma]; the
    steps are settled from the hypotheses. *)
Ltac bind_steps bind_lemma :=
  repeat first
    [ solve [auto]
    | apply bind_lemma; [|intros ? ?]
    | match goal with
      | |- _ (if ?b then _ else _) => destruct b
      | |- _ (match ?p with (_, _) => _ end) => destruct p
      | |- _ (match ?l with [] => _ | _ :: _ => _ end) => destruct l
      | |- _ (match ?o with Some _ => _ | None => _ end) => destruct o
      end
    | discriminate ].

Lemma binds_at (matched : key2nodes_t) (p : PMPattern) (key : string) :
  binds matched p -> key ∈ pattern_keys p -> no_oor (at_ matched key).
Proof.
  unfold binds. rewrite Forall_forall. intros Hb Hk. apply no_oor_at, Hb, Hk.
Qed.

Section DeclaredRoles.
Context `{GraphCollaborator}.

Lemma no_oor_GraphSafeRemoveNodes g rm : no_oor (GraphSafeRemoveNodes g rm).
Proof. unfold no_oor, GraphSafeRemoveNodes. destruct (removal_is_safe g rm); discriminate. Qed.

Lemma no_oor_relink a i o b s g c :
  no_oor (DeleteQuantOpFuser.relink_quantized_node a i o b s g c).
Proof.
  pose proof no_oor_primitives as P. destruct_and? P.
  unfold DeleteQuantOpFuser.relink_quantized_node. bind_steps (@bind_no_oor).
Qed.

Lemma no_oor_update a i o w b s st c :
  (forall t, scope st !! i = Some t -> Forall (fun d => 0 <= d < 2 ^ 31) (dims t)) ->
  no_oor (QuantDequantOpFuser.update_quantized_node a i o w b s st c).
Proof.
  intros Hd. pose proof no_oor_primitives as P. destruct_and? P.
  unfold QuantDequantOpFuser.update_quantized_node.
  apply bind_no_oor; [solve [auto]|]. intros op _.
  apply bind_no_oor; [|intros [op' sc'] _; bind_steps (@bind_no_oor)].
  destruct w; [|discriminate].
  apply bind_no_oor; [solve [auto]|]. intros t Ht%lookup_tensor_inv.
  apply bind_no_oor; [solve [auto]|]. intros d Hdim.
  assert (Hd' : 0 <= d < 2 ^ 31).
  { unfold dims_at in Hdim. destruct (dims t !! _) as [d'|] eqn:E; [|discriminate].
    injection Hdim as <-. specialize (Hd t Ht). rewrite Forall_forall in Hd.
    apply Hd. eapply list_elem_of_lookup_2, E. }
  apply bind_no_oor; [apply no_oor_make_vector; rewrite narrow_small by lia; lia|].
  intros scales _. bind_steps (@bind_no_oor).
Qed.

(** Property X14.  Each pattern declares every role its
    rewrite looks up: on a match that binds all the roles of
    [BuildPattern], no [matched.at] of [InsertNewNode] throws
    [std::out_of_range], for each of the five fusers; this includes the
    role [input_scale_node], which [QuantDequantOpFuser] declares and
    reads for the moving-average type only.  (For the two rules that
    build a [std::vector] of a given size the tensors have shapes of
    non-negative sizes that fit an [int], so that the constructor does
    not throw either.) *)
Theorem declared_roles_suffice (st : State) (matched : key2nodes_t)
    (op_type input_argname : string) :
  (binds matched (DeleteQuantOpFuser.BuildPattern op_type) ->
   DeleteQuantOpFuser.InsertNewNode st matched <> Err OutOfRange)
  /\ (binds matched (DequantOpFuser.BuildPattern op_type) ->
      DequantOpFuser.InsertNewNode op_type st matched <> Err OutOfRange)
  /\ (binds matched (ChannelWiseDequantOpFuser.BuildPattern op_type) ->
      ChannelWiseDequantOpFuser.InsertNewNode op_type st matched <> Err OutOfRange)
  /\ (binds matched (QuantDequantOpFuser.BuildPattern op_type) ->
      dims_in_int (scope st) ->
      QuantDequantOpFuser.InsertNewNode op_type st matched <> Err OutOfRange)
  /\ (binds matched (DynamicQuantOpFuser.BuildPattern op_type input_argname) ->
      dims_in_int (scope st) ->
      DynamicQuantOpFuser.InsertNewNode op_type input_argname st matched
      <> Err OutOfRange).
Proof.
  pose proof no_oor_primitives as P. destruct_and? P.
  split; [|split; [|split; [|split]]].
  - intros Hb. change (no_oor (DeleteQuantOpFuser.InsertNewNode st matched)).
    unfold DeleteQuantOpFuser.InsertNewNode.
    do 5 (apply bind_no_oor; [eapply binds_at; [exact Hb|unfold pattern_keys; cbn; set_solver]|intros ? _]).
    do 10 (apply bind_no_oor; [solve [auto]|intros ? _]).
    apply bind_no_oor.
    { apply (for_each_no_oor (fun _ => True)); auto. intros. apply no_oor_relink. }
    intros g1 _. apply bind_no_oor; [apply no_oor_GraphSafeRemoveNodes|]. discriminate.
  - intros Hb. change (no_oor (DequantOpFuser.InsertNewNode op_type st matched)).
    unfold DequantOpFuser.InsertNewNode.
    do 5 (apply bind_no_oor; [eapply binds_at; [exact Hb|unfold pattern_keys; cbn; set_solver]|intros ? _]).
    unfold Int32.mul. bind_steps (@bind_no_oor).
  - intros Hb.
    change (no_oor (ChannelWiseDequantOpFuser.InsertNewNode op_type st matched)).
    unfold ChannelWiseDequantOpFuser.InsertNewNode.
    do 6 (apply bind_no_oor; [eapply binds_at; [exact Hb|unfold pattern_keys; cbn; set_solver]|intros ? _]).
    bind_steps (@bind_no_oor).
  - intros Hb Hdims.
    change (no_oor (QuantDequantOpFuser.InsertNewNode op_type st matched)).
    unfold QuantDequantOpFuser.InsertNewNode.
    assert (Hat : forall key,
               key ∈ ["input_var_node"; "quant_dequant_node"; "output_scale_node";
                      "output_var_node"] -> no_oor (at_ matched key)).
    { intros key Hkey. eapply binds_at; [exact Hb|].
      unfold pattern_keys, QuantDequantOpFuser.BuildPattern.
      destruct (bool_decide _); cbn; set_solver. }
    apply bind_no_oor; [apply Hat; set_solver|intros input_var_node _].
    apply bind_no_oor; [apply Hat; set_solver|intros quant_dequant_node _].
    apply bind_no_oor; [apply Hat; set_solver|intros output_scale_node _].
    apply bind_no_oor; [apply Hat; set_solver|intros output_var_node _].
    apply bind_no_oor; [solve [auto]|intros input_var_name _].
    apply bind_no_oor; [solve [auto]|intros output_var_name _].
    apply bind_no_oor; [solve [auto]|intros input_var_is_weight _].
    apply bind_no_oor; [solve [auto]|intros quant_dequant_info _].
    apply bind_no_oor; [solve [auto]|intros input_var_tensor _].
    apply bind_no_oor.
    { unfold QuantDequantOpFuser.get_threshold, QuantDequantOpFuser.check_type,
        FindAbsMax.
      bind_steps (@bind_no_oor). }
    intros threshold _.
    do 3 (apply bind_no_oor; [solve [auto]|intros ? _]).
    apply bind_no_oor; [destruct (bool_decide _); discriminate|]. intros _ _.
    apply bind_no_oor.
    { apply (for_each_no_oor
               (fun s => forall t, scope s !! input_var_name = Some t ->
                                   Forall (fun d => 0 <= d < 2 ^ 31) (dims t))).
      - intros s x Hs. apply no_oor_update, Hs.
      - intros s x s' Hs Hrun t' Ht'.
        pose proof (update_quantized_node_inv _ _ _ _ _ _ _ _ _ Hrun)
          as (_ & _ & Hw & Hd).
        destruct (scope s !! input_var_name) as [t0|] eqn:E0.
        + destruct (Hd t0 eq_refl) as (t1 & Ht1 & Hd1). rewrite Ht' in Ht1.
          injection Ht1 as <-. rewrite Hd1. apply Hs. reflexivity.
        + exfalso. unfold QuantDequantOpFuser.update_quantized_node in Hrun.
          ok_step Hrun as op E1. destruct input_var_is_weight.
          * unfold lookup_tensor in Hrun. rewrite E0 in Hrun. discriminate.
          * rewrite Hw in Ht' by reflexivity. congruence.
      - intros t Ht. unfold dims_in_int in Hdims. rewrite map_Forall_lookup in Hdims.
        eapply Hdims, Ht. }
    intros st1 _. apply bind_no_oor.
    { destruct (bool_decide_reflect
                  (op_type = QuantDequantOpFuser.moving_average_type)) as [->|Hne];
        [|discriminate].
      apply bind_no_oor; [|discriminate].
      eapply binds_at; [exact Hb|]. unfold pattern_keys. cbn. set_solver. }
    intros rm _. apply bind_no_oor; [apply no_oor_GraphSafeRemoveNodes|]. discriminate.
  - intros Hb Hdims.
    change (no_oor (DynamicQuantOpFuser.InsertNewNode op_type input_argname st matched)).
    unfold DynamicQuantOpFuser.InsertNewNode.
    do 2 (apply bind_no_oor; [eapply binds_at; [exact Hb|unfold pattern_keys; cbn; set_solver]|intros ? _]).
    do 2 (apply bind_no_oor; [solve [auto]|intros ? _]).
    apply bind_no_oor; [solve [auto]|]. intros t Ht%lookup_tensor_inv.
    apply bind_no_oor; [destruct (bool_decide _); discriminate|]. intros _ _.
    do 3 (apply bind_no_oor; [solve [auto]|intros ? _]).
    apply bind_no_oor; [solve [auto]|]. intros d Hdim.
    apply bind_no_oor; [|intros ? _; bind_steps (@bind_no_oor)].
    apply no_oor_make_vector.
    unfold dims_at in Hdim. destruct (dims t !! _) as [d'|] eqn:E; [|discriminate].
    injection Hdim as <-. unfold dims_in_int in Hdims.
    rewrite map_Forall_lookup in Hdims. specialize (Hdims _ _ Ht).
    rewrite Forall_forall in Hdims.
    apply (Hdims d'). eapply list_elem_of_lookup_2, E.
Qed.
End DeclaredRoles.
Lemma declared_roles_suffice_witness :
  @QuantDequantOpFuser.InsertNewNode Examples.always_safe
    "fake_quantize_dequantize_moving_average_abs_max"
    MoreExamples.qdq_act_state MoreExamples.qdq_act_match
  <> Err OutOfRange.
Proof.
  refine (proj1 (proj2 (proj2 (proj2 (@declared_roles_suffice Examples.always_safe
                   MoreExamples.qdq_act_state MoreExamples.qdq_act_match
                   "fake_quantize_dequantize_moving_average_abs_max" "")))) _ _).
  - unfold binds. apply (bool_decide_unpack _). vm_compute. exact I.
  - unfold dims_in_int. apply (bool_decide_unpack _). vm_compute. exact I.
Defined.

Ltac missing_role :=
  unfold at_;
  repeat match goal with
         | H : ?m !! ?k = None |- context [?m !! ?k] => rewrite H
         | |- context [match ?m !! ?k with _ => _ end] =>
             destruct (m !! k); cbn [bind]
         end;
  reflexivity.

Section MissingRole.
Context `{GraphCollaborator}.

(** Property X15.  A role the match does not bind makes the
    rewrite throw [std::out_of_range] before it reads or changes
    anything: for [DeleteQuantOpFuser] and [DynamicQuantOpFuser] any role
    of the pattern, for the two dequantize fusers any role but
    [quantized_op_out], which their rewrites never look up, and for
    [QuantDequantOpFuser] any role but [input_scale_node], which it
    looks up last. *)
Theorem rewrite_missing_role (st : State) (matched : key2nodes_t)
    (op_type input_argname key : string) :
  matched !! key = None ->
  (key ∈ pattern_keys (DeleteQuantOpFuser.BuildPattern op_type) ->
   DeleteQuantOpFuser.InsertNewNode st matched = Err OutOfRange)
  /\ (key ∈ pattern_keys (DequantOpFuser.BuildPattern op_type) ->
      key <> "quantized_op_out" ->
      DequantOpFuser.InsertNewNode op_type st matched = Err OutOfRange)
  /\ (key ∈ pattern_keys (ChannelWiseDequantOpFuser.BuildPattern op_type) ->
      key <> "quantized_op_out" ->
      ChannelWiseDequantOpFuser.InsertNewNode op_type st matched = Err OutOfRange)
  /\ (key ∈ pattern_keys (QuantDequantOpFuser.BuildPattern op_type) ->
      key <> "input_scale_node" ->
      QuantDequantOpFuser.InsertNewNode op_type st matched = Err OutOfRange)
  /\ (key ∈ pattern_keys (DynamicQuantOpFuser.BuildPattern op_type input_argname) ->
      DynamicQuantOpFuser.InsertNewNode op_type input_argname st matched
      = Err OutOfRange).
Proof.
  intros Hkey. split_and!.
  - unfold pattern_keys. cbn. rewrite !elem_of_cons.
    unfold DeleteQuantOpFuser.InsertNewNode.
    intros [->|[->|[->|[->|[->|[]%elem_of_nil]]]]]; missing_role.
  - unfold pattern_keys. cbn. rewrite !elem_of_cons.
    unfold DequantOpFuser.InsertNewNode.
    intros [->|[->|[->|[->|[->|[->|[]%elem_of_nil]]]]]] Hne; try congruence;
      missing_role.
  - unfold pattern_keys. cbn. rewrite !elem_of_cons.
    unfold ChannelWiseDequantOpFuser.InsertNewNode.
    intros [->|[->|[->|[->|[->|[->|[->|[]%elem_of_nil]]]]]]] Hne; try congruence;
      missing_role.
  - unfold pattern_keys, QuantDequantOpFuser.BuildPattern.
    unfold QuantDequantOpFuser.InsertNewNode.
    destruct (bool_decide _); cbn; rewrite !elem_of_cons;
      intros Hin Hne; decompose [or] Hin; subst; try congruence;
      try (exfalso; eapply elem_of_nil; eassumption); missing_role.
  - unfold pattern_keys. cbn. rewrite !elem_of_cons.
    unfold DynamicQuantOpFuser.InsertNewNode.
    intros [->|[->|[]%elem_of_nil]]; missing_role.
Qed.
End MissingRole.

Lemma rewrite_missing_role_witness :
  ChannelWiseDequantOpFuser.InsertNewNode "conv2d" Examples.channel_wise_state
    (delete "dequant_op_channel_scale" Examples.channel_wise_match)
  = Err OutOfRange.
Proof.
  refine (proj1 (proj2 (proj2 (@rewrite_missing_role Examples.always_safe
                   Examples.channel_wise_state
                   (delete "dequant_op_channel_scale" Examples.channel_wise_match)
                   "conv2d" "" "dequant_op_channel_scale" _))) _ _).
  - reflexivity.
  - unfold pattern_keys. cbn. set_solver.
  - discriminate.
Defined.

(** ** A rewrite consumes its match *)

Lemma string_length_app (a b : string) :
  String.length (a +:+ b) = (String.length a + String.length b)%nat.
Proof. induction a as [|c a IH]; simpl; [reflexivity|]. rewrite IH. reflexivity. Qed.

Lemma threshold_key_fresh (input_argname : string) :
  input_argname +:+ "0_threshold" <> "bit_length"
  /\ input_argname +:+ "0_threshold" <> "enable_int8".
Proof.
  split; intros E; pose proof (f_equal String.length E) as HL;
    rewrite string_length_app in HL; simpl in HL.
  - lia.
  - destruct input_argname; [discriminate E|simpl in HL; lia].
Qed.

Lemma get_node_removed (g : SSAGraph) (rm : gset node_id) (n : node_id) :
  n ∈ rm -> get_node (remove_nodes g rm) n = Err UndefinedBehavior.
Proof.
  intros Hn. unfold get_node. rewrite remove_nodes_lookup, decide_True by exact Hn.
  reflexivity.
Qed.

Lemma arg_name_kept (g g' : SSAGraph) (n : node_id) (name : string) :
  arg_name g n = Ok name -> kind_of g' n = kind_of g n -> arg_name g' n = Ok name.
Proof.
  intros [w Hk]%arg_name_inv Hk'. rewrite Hk in Hk'. eapply arg_name_Ok, Hk'.
Qed.

Lemma stmt_op_info_kept (g g' : SSAGraph) (n : node_id) (op : OpInfo) :
  stmt_op_info g n = Ok op -> kind_of g' n = kind_of g n -> stmt_op_info g' n = Ok op.
Proof.
  intros Hk%stmt_op_info_inv Hk'. rewrite Hk in Hk'. eapply stmt_op_info_Ok, Hk'.
Qed.

Lemma in_dom_of_arg_name (g : SSAGraph) (n : node_id) (name : string) :
  arg_name g n = Ok name -> n ∈ dom g.
Proof. intros [w Hk]%arg_name_inv. apply kind_of_dom. rewrite Hk. eauto. Qed.

Lemma in_dom_of_stmt (g : SSAGraph) (n : node_id) (op : OpInfo) :
  stmt_op_info g n = Ok op -> n ∈ dom g.
Proof. intros Hk%stmt_op_info_inv. apply kind_of_dom. rewrite Hk. eauto. Qed.

Lemma cast_weight_to_int8_twice (t t' : Tensor) :
  cast_weight_to_int8 t = Ok t' -> cast_weight_to_int8 t' = Err UndefinedBehavior.
Proof. intros (xs & qs & _ & _ & _ & ->)%cast_weight_to_int8_inv. reflexivity. Qed.

Lemma cast_weight_to_int8_dims (t t' : Tensor) :
  cast_weight_to_int8 t = Ok t' -> dims t' = dims t.
Proof. intros (xs & qs & _ & _ & _ & ->)%cast_weight_to_int8_inv. reflexivity. Qed.

Lemma convert_weight_inv (t t' : Tensor) (s : float) :
  DynamicQuantOpFuser.convert_weight t s = Ok t' ->
  exists xs qs,
    buffer t = BufFloat xs
    /\ 0 <= numel t <= Z.of_nat (length xs)
    /\ Forall2 (fun x q => quantize_rounded s x = Ok q) (take (Z.to_nat (numel t)) xs) qs
    /\ t' = mkTensor (dims t) (BufInt8 qs) true kInt8.
Proof.
  unfold DynamicQuantOpFuser.convert_weight, CopyDataFrom, data_size. intros Hrun.
  ok_step Hrun as xs E. apply data_float_inv in E.
  ok_step Hrun as qs E0. change (numel (clear t)) with (numel t) in E0.
  apply convert_elements_Ok in E0 as [Hn Hq]. injection Hrun as <-.
  exists xs, qs. repeat (split; [assumption|]). reflexivity.
Qed.

Lemma Dequant_twice (t : string) (st st' : State) (matched : key2nodes_t) :
  DequantOpFuser.InsertNewNode t st matched = Ok st' ->
  DequantOpFuser.InsertNewNode t st' matched = Err UndefinedBehavior.
Proof.
  intros Hrun. unfold DequantOpFuser.InsertNewNode in *.
  ok_step Hrun as input E0. ok_step Hrun as weight E1. ok_step Hrun as qop E2.
  ok_step Hrun as dop E3. ok_step Hrun as out E4.
  ok_step Hrun as weight_name E5. ok_step Hrun as qinfo E6.
  ok_step Hrun as b E7. ok_step Hrun as range E8. ok_step Hrun as dinfo E9.
  ok_step Hrun as max_range E10. ok_step Hrun as range2 E11.
  ok_step Hrun as weight_t E12. apply lookup_tensor_inv in E12.
  ok_step Hrun as sized E13. destruct sized as [op_io size].
  ok_step Hrun as weight_t' E14. ok_step Hrun as g' E15. injection Hrun as <-.
  cbn [graph scope bind].
  apply create_and_link_inv in E15 as (_ & _ & Hk & _).
  assert (Hkept : forall k, k ∈ dom (graph st) -> kind_of g' k = kind_of (graph st) k).
  { intros k Hk'. apply Hk. intros ->. apply (is_fresh (dom (graph st))), Hk'. }
  rewrite (arg_name_kept _ g' _ _ E5) by (eapply Hkept, in_dom_of_arg_name, E5).
  cbn [bind].
  rewrite (stmt_op_info_kept _ g' _ _ E6) by (eapply Hkept, in_dom_of_stmt, E6).
  cbn [bind]. rewrite E7. cbn [bind]. rewrite E8. cbn [bind].
  rewrite (stmt_op_info_kept _ g' _ _ E9) by (eapply Hkept, in_dom_of_stmt, E9).
  cbn [bind]. rewrite E10. cbn [bind]. rewrite E11. cbn [bind].
  unfold lookup_tensor. rewrite lookup_insert_eq. cbn [bind].
  rewrite (cast_weight_to_int8_twice _ _ E14).
  pose proof (cast_weight_to_int8_dims _ _ E14) as Hd.
  unfold dims_at in *. rewrite Hd.
  destruct (is_conv_type t); [|destruct (is_mul_type t)].
  - ok_step E13 as in_name E16. ok_step E13 as out_name E17. ok_step E13 as d E18.
    rewrite (arg_name_kept _ g' _ _ E16) by (eapply Hkept, in_dom_of_arg_name, E16).
    rewrite (arg_name_kept _ g' _ _ E17) by (eapply Hkept, in_dom_of_arg_name, E17).
    cbn [bind]. reflexivity.
  - ok_step E13 as in_name E16. ok_step E13 as out_name E17. ok_step E13 as d E18.
    rewrite (arg_name_kept _ g' _ _ E16) by (eapply Hkept, in_dom_of_arg_name, E16).
    rewrite (arg_name_kept _ g' _ _ E17) by (eapply Hkept, in_dom_of_arg_name, E17).
    cbn [bind]. reflexivity.
  - reflexivity.
Qed.

Lemma ChannelWise_twice (t : string) (st st' : State) (matched : key2nodes_t) :
  ChannelWiseDequantOpFuser.InsertNewNode t st matched = Ok st' ->
  ChannelWiseDequantOpFuser.InsertNewNode t st' matched = Err UndefinedBehavior.
Proof.
  intros Hrun. unfold ChannelWiseDequantOpFuser.InsertNewNode in *.
  ok_step Hrun as input E0. ok_step Hrun as weight E1. ok_step Hrun as qop E2.
  ok_step Hrun as cs E2'. ok_step Hrun as dop E3. ok_step Hrun as out E4.
  ok_step Hrun as weight_name E5. ok_step Hrun as qinfo E6.
  ok_step Hrun as dinfo E7. ok_step Hrun as quant_bits E8. ok_step Hrun as b E9.
  ok_step Hrun as range E10. ok_step Hrun as cs_name E11. ok_step Hrun as cs_t E12.
  ok_step Hrun as cs_data E13. ok_step Hrun as weight_scale E14.
  ok_step Hrun as op_io E15.
  ok_step Hrun as weight_t E16. apply lookup_tensor_inv in E16.
  ok_step Hrun as weight_t' E17. ok_step Hrun as g' E18. injection Hrun as <-.
  cbn [graph scope bind].
  apply create_and_link_inv in E18 as (_ & _ & Hk & _).
  assert (Hkept : forall k, k ∈ dom (graph st) -> kind_of g' k = kind_of (graph st) k).
  { intros k Hk'. apply Hk. intros ->. apply (is_fresh (dom (graph st))), Hk'. }
  rewrite (arg_name_kept _ g' _ _ E5) by (eapply Hkept, in_dom_of_arg_name, E5).
  cbn [bind].
  rewrite (stmt_op_info_kept _ g' _ _ E6) by (eapply Hkept, in_dom_of_stmt, E6).
  cbn [bind].
  rewrite (stmt_op_info_kept _ g' _ _ E7) by (eapply Hkept, in_dom_of_stmt, E7).
  cbn [bind]. rewrite E8. cbn [bind]. rewrite E9. cbn [bind]. rewrite E10. cbn [bind].
  rewrite (arg_name_kept _ g' _ _ E11) by (eapply Hkept, in_dom_of_arg_name, E11).
  cbn [bind].
  apply lookup_tensor_inv in E12. unfold lookup_tensor.
  destruct (decide (cs_name = weight_name)) as [->|Hne].
  - rewrite lookup_insert_eq. cbn [bind].
    apply cast_weight_to_int8_inv in E17 as (xs & qs & _ & _ & _ & ->). reflexivity.
  - rewrite lookup_insert_ne by congruence. rewrite E12. cbn [bind].
    rewrite E13. cbn [bind]. rewrite E14. cbn [bind].
    assert (Hio : (if is_conv_type t
              then do in_name <- arg_name g' input;
                   do out_name <- arg_name g' out;
                   Ok (SetOutput (SetInput qinfo "Input" [in_name]) "Output" [out_name])
              else if is_mul_type t
                   then do in_name <- arg_name g' input;
                        do out_name <- arg_name g' out;
                        Ok (SetOutput (SetInput qinfo "X" [in_name]) "Out" [out_name])
                   else Ok qinfo) = Ok op_io).
    { destruct (is_conv_type t); [|destruct (is_mul_type t)].
      - ok_step E15 as in_name E19. ok_step E15 as out_name E20.
        rewrite (arg_name_kept _ g' _ _ E19) by (eapply Hkept, in_dom_of_arg_name, E19).
        rewrite (arg_name_kept _ g' _ _ E20) by (eapply Hkept, in_dom_of_arg_name, E20).
        exact E15.
      - ok_step E15 as in_name E19. ok_step E15 as out_name E20.
        rewrite (arg_name_kept _ g' _ _ E19) by (eapply Hkept, in_dom_of_arg_name, E19).
        rewrite (arg_name_kept _ g' _ _ E20) by (eapply Hkept, in_dom_of_arg_name, E20).
        exact E15.
      - exact E15. }
    rewrite Hio. cbn [bind]. rewrite lookup_insert_eq. cbn [bind].
    rewrite (cast_weight_to_int8_twice _ _ E17). reflexivity.
Qed.

Lemma Dynamic_twice (t a : string) (st st' : State) (matched : key2nodes_t) :
  DynamicQuantOpFuser.InsertNewNode t a st matched = Ok st' ->
  DynamicQuantOpFuser.InsertNewNode t a st' matched = Err UndefinedBehavior.
Proof.
  intros Hrun. unfold DynamicQuantOpFuser.InsertNewNode in *.
  ok_step Hrun as op_node E0. ok_step Hrun as weight_node E1.
  ok_step Hrun as op_info E2. ok_step Hrun as weight_name E3.
  ok_step Hrun as weight_tensor E4. apply lookup_tensor_inv in E4.
  ok_step Hrun as u E5. ok_step Hrun as b E6. ok_step Hrun as threshold E7.
  ok_step Hrun as range E8. ok_step Hrun as d E9. ok_step Hrun as vct E10.
  ok_step Hrun as g' E11. ok_step Hrun as t' E12. injection Hrun as <-.
  cbn [graph scope bind].
  pose proof (ResetOp_rewired _ _ _ _ E11) as [R Hknew].
  rewrite (stmt_op_info_Ok _ _ _ Hknew). cbn [bind].
  assert (Hne : weight_node <> op_node).
  { intros ->. apply arg_name_inv in E3 as [w E3]. apply stmt_op_info_inv in E2.
    congruence. }
  rewrite (arg_name_kept _ g' _ _ E3)
    by (apply (rewired_kind _ _ _ _ R); set_solver).
  cbn [bind]. unfold lookup_tensor. rewrite lookup_insert_eq. cbn [bind].
  apply convert_weight_inv in E12 as (xs & qs & _ & _ & _ & ->). cbn [dims].
  rewrite E5. cbn [bind].
  destruct (threshold_key_fresh a) as [K1 K2].
  unfold GetAttr_int at 1. cbn [attrs SetInputScale SetAttr].
  rewrite lookup_insert_eq. cbn [bind].
  unfold GetAttr_float at 1. cbn [attrs SetInputScale SetAttr].
  rewrite !lookup_insert_ne by congruence.
  unfold GetAttr_float in E7. rewrite E7. cbn [bind]. unfold GetAttr_int in E6.
  destruct (attrs op_info !! "bit_length") as [[z| | | | |]|]; try discriminate.
  injection E6 as ->. rewrite E8. cbn [bind].
  unfold dims_at in *. cbn [dims]. rewrite E9. cbn [bind]. rewrite E10. cbn [bind].
  destruct (ResetOp_Ok g' op_node _
              (SetInputScale
                 (SetAttr
                    (SetAttr
                       (SetInputScale
                          (SetAttr (SetAttr op_info "enable_int8" (AttrBool true))
                             "bit_length" (AttrInt b))
                          weight_name vct)
                       "enable_int8" (AttrBool true))
                    "bit_length" (AttrInt b))
                 weight_name vct) Hknew) as (g'' & -> & _).
  reflexivity.
Qed.

Section Reapplication.
Context `{GraphCollaborator}.

Lemma DeleteQuant_twice (st st' : State) (matched : key2nodes_t) :
  DeleteQuantOpFuser.InsertNewNode st matched = Ok st' ->
  DeleteQuantOpFuser.InsertNewNode st' matched = Err UndefinedBehavior.
Proof.
  intros (isn & ian & qn & osn & oan & l & g1 & H0 & H1 & H2 & H3 & H4 & _ & _ & ->)
    %DeleteQuant_InsertNewNode_inv.
  unfold DeleteQuantOpFuser.InsertNewNode, at_.
  rewrite H0, H1, H2, H3, H4. cbn [bind graph].
  unfold stmt_op_info. rewrite get_node_removed by set_solver. reflexivity.
Qed.

Lemma update_all_stmts (a : node_id) (i o : string) (w : bool) (b : Z) (s : float)
    (l : list node_id) (st st' : State) :
  for_each (QuantDequantOpFuser.update_quantized_node a i o w b s) l st = Ok st' ->
  Forall (fun c => exists op, kind_of (graph st) c = Some (Stmt op)) l.
Proof.
  revert st. induction l as [|c l IH]; intros st Hrun; [constructor|].
  simpl in Hrun. ok_step Hrun as st1 E.
  assert (Hc : exists op, kind_of (graph st) c = Some (Stmt op)).
  { unfold QuantDequantOpFuser.update_quantized_node in E.
    ok_step E as op E0. apply stmt_op_info_inv in E0. eauto. }
  constructor; [exact Hc|].
  apply update_quantized_node_inv in E as (R & _).
  eapply Forall_impl; [exact (IH _ Hrun)|]. intros k [op' Hk]. cbn beta in Hk.
  destruct (decide (k = c)) as [->|Hne]; [exact Hc|].
  rewrite (rewired_kind _ _ _ _ R) in Hk by set_solver. eauto.
Qed.

Lemma QuantDequant_consumers_stmt (t : string) (st st' : State)
    (matched : key2nodes_t) (output_var_node : node_id) :
  QuantDequantOpFuser.InsertNewNode t st matched = Ok st' ->
  matched !! "output_var_node" = Some output_var_node ->
  Forall (fun c => exists op, kind_of (graph st) c = Some (Stmt op))
    (default [] (outlinks <$> graph st !! output_var_node)).
Proof.
  intros Hrun Hm. unfold QuantDequantOpFuser.InsertNewNode in Hrun.
  ok_step Hrun as ivn E0. ok_step Hrun as qdn E1. ok_step Hrun as osn E2.
  ok_step Hrun as ovn E3. apply at_inv in E3. rewrite Hm in E3. injection E3 as <-.
  ok_step Hrun as input_var_name E4. ok_step Hrun as output_var_name E5.
  ok_step Hrun as is_weight E6. ok_step Hrun as info E7.
  ok_step Hrun as tensor E8. ok_step Hrun as threshold E9.
  ok_step Hrun as bit_length E10. ok_step Hrun as range E11.
  ok_step Hrun as consumers E12. ok_step Hrun as u E13.
  ok_step Hrun as st1 E14.
  apply node_outlinks_inv in E12. rewrite E12. simpl.
  apply update_all_stmts in E14. exact E14.
Qed.

Lemma QuantDequant_twice (t : string) (st st' : State) (matched : key2nodes_t) :
  QuantDequantOpFuser.InsertNewNode t st matched = Ok st' ->
  QuantDequantOpFuser.InsertNewNode t st' matched = Err UndefinedBehavior.
Proof.
  intros Hrun. pose proof Hrun as Hrun0.
  apply QuantDequant_InsertNewNode_inv in Hrun
    as (ivn & qdn & osn & ovn & name & w & l & st1 & rm & H0 & H1 & H2 & H3 & Hk
        & _ & _ & Hout & R & _ & _ & Hrm & _ & ->).
  pose proof (QuantDequant_consumers_stmt _ _ _ _ _ Hrun0 H3) as Hstmt.
  rewrite Hout in Hstmt. simpl in Hstmt.
  unfold QuantDequantOpFuser.InsertNewNode, at_.
  rewrite H0, H1, H2, H3. cbn [bind graph].
  assert (Hov : ovn ∈ rm) by (subst rm; set_solver).
  destruct (decide (ivn ∈ rm)) as [Hiv|Hiv].
  - unfold arg_name at 1. rewrite get_node_removed by exact Hiv. reflexivity.
  - rewrite (arg_name_Ok _ ivn name w).
    + cbn [bind]. unfold arg_name at 1. rewrite get_node_removed by exact Hov.
      reflexivity.
    + rewrite remove_nodes_kind, decide_False by exact Hiv.
      rewrite (rewired_kind _ _ _ _ R); [exact Hk|].
      intros Hl. rewrite Forall_forall in Hstmt. destruct (Hstmt _ Hl) as [op Hop].
      congruence.
Qed.

(** Property X16.  A rewrite consumes its match: after a run of
    [InsertNewNode] that returned, running it again on the resulting
    graph and storage with the same match has no defined behaviour, for
    each of the five fusers.  [DeleteQuantOpFuser] and
    [QuantDequantOpFuser] would dereference a node they removed; the two
    dequantize fusers and [DynamicQuantOpFuser], which remove nothing,
    would read as floats the int8 buffer they wrote. *)
Theorem reapplication_undefined (st st' : State) (matched : key2nodes_t)
    (op_type input_argname : string) :
  (DeleteQuantOpFuser.InsertNewNode st matched = Ok st' ->
   DeleteQuantOpFuser.InsertNewNode st' matched = Err UndefinedBehavior)
  /\ (DequantOpFuser.InsertNewNode op_type st matched = Ok st' ->
      DequantOpFuser.InsertNewNode op_type st' matched = Err UndefinedBehavior)
  /\ (ChannelWiseDequantOpFuser.InsertNewNode op_type st matched = Ok st' ->
      ChannelWiseDequantOpFuser.InsertNewNode op_type st' matched
      = Err UndefinedBehavior)
  /\ (QuantDequantOpFuser.InsertNewNode op_type st matched = Ok st' ->
      QuantDequantOpFuser.InsertNewNode op_type st' matched = Err UndefinedBehavior)
  /\ (DynamicQuantOpFuser.InsertNewNode op_type input_argname st matched = Ok st' ->
      DynamicQuantOpFuser.InsertNewNode op_type input_argname st' matched
      = Err UndefinedBehavior).
Proof.
  split_and!.
  - apply DeleteQuant_twice.
  - apply Dequant_twice.
  - apply ChannelWise_twice.
  - apply QuantDequant_twice.
  - apply Dynamic_twice.
Qed.
End Reapplication.

Lemma reapplication_undefined_witness :
  exists st',
    DynamicQuantOpFuser.InsertNewNode "matmul" "Y" Examples.dynamic_state
      Examples.dynamic_match = Ok st'
    /\ DynamicQuantOpFuser.InsertNewNode "matmul" "Y" st' Examples.dynamic_match
       = Err UndefinedBehavior.
Proof.
  assert (Hrun : exists st',
             DynamicQuantOpFuser.InsertNewNode "matmul" "Y" Examples.dynamic_state
               Examples.dynamic_match = Ok st')
    by (eexists; vm_compute; reflexivity).
  destruct Hrun as [st' Hrun]. exists st'. split; [exact Hrun|].
  exact (proj2 (proj2 (proj2 (proj2
           (@reapplication_undefined Examples.always_safe Examples.dynamic_state st'
              Examples.dynamic_match "matmul" "Y")))) Hrun).
Defined.

(** ** Edges stay recorded at both ends *)

Lemma create_and_link_wf (g g' : SSAGraph) (op : OpInfo) (a b c : node_id) :
  create_and_link g op a b c = Ok g' -> links_wf g -> links_wf g'.
Proof.
  intros (_ & _ & _ & Ho & Hi & _)%create_and_link_inv. rewrite !links_wf_iff.
  intros Hwf x y. rewrite Ho, Hi, Hwf. reflexivity.
Qed.

Section LinksWf.
Context `{GraphCollaborator}.

(** Property X17.  Every rewrite keeps the edges of the graph
    consistent: if each edge of the graph is recorded by its source and
    by its target, both nodes of the graph, then so it is after a run of
    [InsertNewNode] that returned, for each of the five fusers; no edge
    to a removed node is left behind and every edge added by
    [IR_NODE_LINK_TO] is recorded at both ends. *)
Theorem rewrites_keep_links_wf (st st' : State) (matched : key2nodes_t)
    (op_type input_argname : string) :
  links_wf (graph st) ->
  DeleteQuantOpFuser.InsertNewNode st matched = Ok st'
  \/ DequantOpFuser.InsertNewNode op_type st matched = Ok st'
  \/ ChannelWiseDequantOpFuser.InsertNewNode op_type st matched = Ok st'
  \/ QuantDequantOpFuser.InsertNewNode op_type st matched = Ok st'
  \/ DynamicQuantOpFuser.InsertNewNode op_type input_argname st matched = Ok st' ->
  links_wf (graph st').
Proof.
  intros Hwf [Hrun|[Hrun|[Hrun|[Hrun|Hrun]]]].
  - apply DeleteQuant_InsertNewNode_inv in Hrun
      as (isn & ian & qn & osn & oan & l & g1 & _ & _ & _ & _ & _ & _ & R & ->).
    cbn [graph]. apply remove_nodes_wf. eapply rewired_wf; eassumption.
  - apply Dequant_InsertNewNode_inv in Hrun.
    destruct Hrun as (input & weight & qop & out & weight_name & in_name & out_name
                      & w & qinfo & weight_t & xs & qs & weight_scale
                      & _ & _ & _ & _ & _ & _ & _ & _ & _ & _ & _ & Hlink & _).
    eapply create_and_link_wf; eassumption.
  - apply ChannelWise_InsertNewNode_inv in Hrun.
    destruct Hrun as (input & weight & qop & out & weight_name & in_name & out_name
                      & w & qinfo & weight_t & xs & qs & weight_scale
                      & _ & _ & _ & _ & _ & _ & _ & _ & _ & _ & _ & Hlink & _).
    eapply create_and_link_wf; eassumption.
  - apply QuantDequant_InsertNewNode_inv in Hrun
      as (ivn & qdn & osn & ovn & name & w & l & st1 & rm & _ & _ & _ & _ & _
          & _ & _ & _ & R & _ & _ & _ & _ & ->).
    cbn [graph]. apply remove_nodes_wf. eapply rewired_wf; eassumption.
  - unfold DynamicQuantOpFuser.InsertNewNode in Hrun.
    ok_step Hrun as op_node E0. ok_step Hrun as weight_node E1.
    ok_step Hrun as op_info E2. ok_step Hrun as weight_name E3.
    ok_step Hrun as weight_tensor E4. ok_step Hrun as u E5.
    ok_step Hrun as b E6. ok_step Hrun as threshold E7.
    ok_step Hrun as range E8. ok_step Hrun as d E9. ok_step Hrun as vct E10.
    ok_step Hrun as g' E11. ok_step Hrun as t' E12. injection Hrun as <-.
    cbn [graph]. apply ResetOp_rewired in E11 as [R _].
    eapply rewired_wf; eassumption.
Qed.
End LinksWf.

Lemma rewrites_keep_links_wf_witness :
  exists st',
    @DeleteQuantOpFuser.InsertNewNode Examples.always_safe
      Examples.delete_quant_state Examples.delete_quant_match = Ok st'
    /\ links_wf (graph st').
Proof.
  assert (Hrun : exists st',
             @DeleteQuantOpFuser.InsertNewNode Examples.always_safe
               Examples.delete_quant_state Examples.delete_quant_match = Ok st')
    by (eexists; vm_compute; reflexivity).
  destruct Hrun as [st' Hrun]. exists st'. split; [exact Hrun|].
  apply (@rewrites_keep_links_wf Examples.always_safe Examples.delete_quant_state st'
           Examples.delete_quant_match "" "").
  - apply (bool_decide_unpack _). vm_compute. exact I.
  - left. exact Hrun.
Defined.

(** ** A weight tensor of zeros *)

Lemma float_div_zero_l (sign : bool) (y : float) :
  float_div (S754_zero sign) y = S754_nan
  \/ exists sign', float_div (S754_zero sign) y = S754_zero sign'.
Proof. destruct y; simpl; eauto. Qed.

Lemma quantize_rounded_nan_scale (x : float) :
  quantize_rounded S754_nan x = Err UndefinedBehavior.
Proof. destruct x; reflexivity. Qed.

Lemma is_abs_max_zeros (xs : list float) :
  xs <> [] -> Forall (fun x => is_zero x = true) xs -> is_abs_max xs (S754_zero false).
Proof.
  intros Hne Hz. split.
  - destruct xs as [|x xs]; [congruence|]. apply Forall_cons in Hz as [Hx _].
    destruct x; try discriminate. apply list_elem_of_here.
  - eapply Forall_impl; [exact Hz|]. intros x Hx. destruct x; try discriminate. reflexivity.
Qed.

Section ZeroWeight.
Context `{GraphCollaborator}.

(** The weight branch up to the first conversion: when
    [QuantizeTensorInPlace] fails on the weight, so does the rewrite. *)
Lemma QuantDequant_weight_conversion_fails
    (st : State) (matched : key2nodes_t)
    (input_var_node quant_dequant_node output_scale_node output_var_node : node_id)
    (input_var_name output_var_name : string) (w_o : bool)
    (quant_dequant_info : OpInfo) (b : Z) (w : Tensor) (xs : list float)
    (threshold : float) (e : error) (consumers : list node_id) :
  let g := graph st in
  matched !! "input_var_node" = Some input_var_node ->
  matched !! "quant_dequant_node" = Some quant_dequant_node ->
  matched !! "output_scale_node" = Some output_scale_node ->
  matched !! "output_var_node" = Some output_var_node ->
  input_var_node <> output_var_node ->
  kind_of g input_var_node = Some (Arg input_var_name true) ->
  kind_of g quant_dequant_node = Some (Stmt quant_dequant_info) ->
  kind_of g output_var_node = Some (Arg output_var_name w_o) ->
  outlinks <$> g !! output_var_node = Some consumers ->
  attrs quant_dequant_info !! "bit_length" = Some (AttrInt b) ->
  1 <= b <= 31 ->
  scope st !! input_var_name = Some w ->
  buffer w = BufFloat xs ->
  numel w = Z.of_nat (length xs) ->
  numel w < 2 ^ 31 ->
  is_abs_max xs threshold ->
  Forall (weight_consumer g (dims w)) consumers ->
  converting g consumers <> [] ->
  QuantizeTensorInPlace w (float_div threshold (float_of_int (2 ^ (b - 1) - 1))) = Err e ->
  QuantDequantOpFuser.InsertNewNode "fake_quantize_dequantize_abs_max" st matched = Err e.
Proof.
  intros g Hm0 Hm1 Hm2 Hm3 Hne Hk0 Hk1 Hk3 Hout Hbit Hb Hsc Hbuf Hn Hlt Hmax
    Hcons Hconv Hq.
  set (scale_value := float_div threshold (float_of_int (2 ^ (b - 1) - 1))) in *.
  destruct (update_all_weight input_var_node input_var_name output_var_name b
              scale_value (dims w) consumers g (scope st) w Hcons)
    as (g' & Hr & Hloop); [apply kind_of_dom; rewrite Hk0; eauto|exact Hsc|reflexivity|].
  unfold QuantDequantOpFuser.InsertNewNode, at_.
  rewrite Hm0, Hm1, Hm2, Hm3. cbn [bind]. fold g.
  rewrite (arg_name_Ok _ _ _ _ Hk0), (arg_name_Ok _ _ _ _ Hk3),
    (arg_is_weight_Ok _ _ _ _ Hk0). cbn [bind].
  rewrite (stmt_op_info_Ok _ _ _ Hk1). cbn [bind].
  unfold lookup_tensor at 1. rewrite Hsc. cbn [bind].
  unfold QuantDequantOpFuser.get_threshold, QuantDequantOpFuser.check_type.
  rewrite bool_decide_eq_true_2 by reflexivity. cbn [bind].
  unfold data_float. rewrite Hbuf. cbn [bind].
  rewrite (FindAbsMax_whole w xs _ Hn Hlt Hmax). cbn [bind].
  unfold GetAttr_int. rewrite Hbit. cbn [bind].
  rewrite (range_of_bit_length_spec b Hb). cbn [bind].
  unfold node_outlinks, get_node.
  destruct (g !! output_var_node) as [out_node|] eqn:Hon; [|discriminate].
  injection Hout as Hout. cbn [bind]. rewrite Hout.
  rewrite bool_decide_eq_false_2 by exact Hne. cbn [bind].
  destruct st as [g0 sc0]. cbn [graph scope] in *. subst g.
  fold scale_value. rewrite Hloop.
  destruct (converting g0 consumers) as [|c cs]; [congruence|].
  cbn [length quantize_times]. rewrite Hq. reflexivity.
Qed.

(** Property X18.  A weight tensor whose elements are all zero
    cannot be fused by [QuantDequantOpFuser]: its greatest absolute
    value is 0, so the scale is 0 (or a NaN, for bit length 1), and for
    the first consumer of type mul, conv2d or depthwise_conv2d the
    conversion divides by it; the quotient is a NaN, whose conversion to
    [int8_t] has no defined behaviour. *)
Theorem QuantDequantOpFuser_zero_weight
    (st : State) (matched : key2nodes_t)
    (input_var_node quant_dequant_node output_scale_node output_var_node : node_id)
    (input_var_name output_var_name : string) (w_o : bool)
    (quant_dequant_info : OpInfo) (b : Z) (w : Tensor) (xs : list float)
    (consumers : list node_id) :
  let g := graph st in
  matched !! "input_var_node" = Some input_var_node ->
  matched !! "quant_dequant_node" = Some quant_dequant_node ->
  matched !! "output_scale_node" = Some output_scale_node ->
  matched !! "output_var_node" = Some output_var_node ->
  input_var_node <> output_var_node ->
  kind_of g input_var_node = Some (Arg input_var_name true) ->
  kind_of g quant_dequant_node = Some (Stmt quant_dequant_info) ->
  kind_of g output_var_node = Some (Arg output_var_name w_o) ->
  outlinks <$> g !! output_var_node = Some consumers ->
  attrs quant_dequant_info !! "bit_length" = Some (AttrInt b) ->
  1 <= b <= 31 ->
  scope st !! input_var_name = Some w ->
  buffer w = BufFloat xs ->
  numel w = Z.of_nat (length xs) ->
  numel w < 2 ^ 31 ->
  xs <> [] ->
  Forall (fun x => is_zero x = true) xs ->
  Forall (weight_consumer g (dims w)) consumers ->
  converting g consumers <> [] ->
  QuantDequantOpFuser.InsertNewNode "fake_quantize_dequantize_abs_max" st matched
  = Err UndefinedBehavior.
Proof.
  intros g Hm0 Hm1 Hm2 Hm3 Hne Hk0 Hk1 Hk3 Hout Hbit Hb Hsc Hbuf Hn Hlt Hxs Hz
    Hcons Hconv.
  pose proof (is_abs_max_zeros xs Hxs Hz) as Hmax.
  eapply QuantDequant_weight_conversion_fails; try eassumption.
  assert (Hn1 : 1 <= numel w <= Z.of_nat (length xs)).
  { rewrite Hn. destruct xs; [congruence|]. cbn [length]. lia. }
  unfold QuantizeTensorInPlace, CopyDataFrom, data_float. rewrite Hbuf. cbn [bind].
  change (numel (clear w)) with (numel w).
  rewrite (convert_elements_first_fails _ _ _ UndefinedBehavior Hn1); [reflexivity|].
  intros x.
  destruct (float_div_zero_l false (float_of_int (2 ^ (b - 1) - 1)))
    as [->|[s' ->]].
  - apply quantize_rounded_nan_scale.
  - apply quantize_rounded_zero_scale.
Qed.
End ZeroWeight.

Lemma QuantDequantOpFuser_zero_weight_witness :
  @QuantDequantOpFuser.InsertNewNode Examples.always_safe
    "fake_quantize_dequantize_abs_max"
    (mkState Examples.qdq_graph
       {[ "w" := mkTensor [4; 3; 3; 3] (BufFloat (replicate 108 (S754_zero false)))
                   true kFloat ]})
    Examples.qdq_match
  = Err UndefinedBehavior.
Proof.
  apply (@QuantDequantOpFuser_zero_weight Examples.always_safe
           (mkState Examples.qdq_graph
              {[ "w" := mkTensor [4; 3; 3; 3]
                          (BufFloat (replicate 108 (S754_zero false))) true kFloat ]})
           Examples.qdq_match 0%nat 1%nat 2%nat 3%nat "w" "w.qdq" false
           Examples.qdq_op 8
           (mkTensor [4; 3; 3; 3] (BufFloat (replicate 108 (S754_zero false))) true kFloat)
           (replicate 108 (S754_zero false)) [5%nat]);
    try reflexivity.
  - discriminate.
  - lia.
  - discriminate.
  - apply Forall_replicate. reflexivity.
  - repeat constructor. exists Examples.qdq_conv_op, 4. repeat split; reflexivity || lia.
  - vm_compute. discriminate.
Defined.

(** ** The patterns *)

Ltac by_evaluation :=
  split_and!;
  [ apply (bool_decide_unpack _); vm_compute; exact I
  | repeat constructor; cbn; eexists _, _; split_and!; try reflexivity; discriminate
  | repeat constructor; cbn; set_solver
  | repeat constructor ].

(** Property X19.  Each of the five [BuildPattern] functions
    declares, for every operator type it is constructed with, a pattern
    whose roles have distinct names, in which every edge joins a declared
    variable role and a declared operator role, every role is at an edge,
    and every operator role asserts the operator type it was declared
    with; this holds for both shapes of the pattern of
    [QuantDequantOpFuser]. *)
Theorem patterns_wf (op_type input_argname : string) :
  pattern_wf (DeleteQuantOpFuser.BuildPattern op_type)
  /\ pattern_wf (DequantOpFuser.BuildPattern op_type)
  /\ pattern_wf (ChannelWiseDequantOpFuser.BuildPattern op_type)
  /\ pattern_wf (QuantDequantOpFuser.BuildPattern op_type)
  /\ pattern_wf (DynamicQuantOpFuser.BuildPattern op_type input_argname).
Proof.
  split_and!.
  - unfold pattern_wf; by_evaluation.
  - unfold pattern_wf; by_evaluation.
  - unfold pattern_wf; by_evaluation.
  - unfold QuantDequantOpFuser.BuildPattern.
    destruct (bool_decide _); unfold pattern_wf; by_evaluation.
  - unfold pattern_wf; by_evaluation.
Qed.

Lemma patterns_wf_witness :
  pattern_wf
    (QuantDequantOpFuser.BuildPattern "fake_quantize_dequantize_moving_average_abs_max").
Proof.
  exact (proj1 (proj2 (proj2 (proj2
           (patterns_wf "fake_quantize_dequantize_moving_average_abs_max" ""))))).
Defined.

(** ** Rounding of quotients *)

Lemma shr_1_inv (mrs : shr_record) (N D : Z) :
  shr_inv mrs N D -> shr_inv (shr_1 mrs) N (2 * D).
Proof.
  destruct mrs as [m r s]. unfold shr_inv, frac_loc. cbn [shr_m shr_r shr_s].
  intros (Hm & rho & (HD & Hrho & Hloc) & ->).
  destruct m as [|[p|p|]|p]; try lia; cbn [shr_1 shr_m shr_r shr_s].
  - split; [lia|]. exists rho. split; [|lia].
    split; [lia|]. split; [lia|]. destruct r, s; simpl; lia.
  - split; [lia|]. exists (D + rho). split; [|lia].
    split; [lia|]. split; [lia|]. destruct r, s; simpl; lia.
  - split; [lia|]. exists rho. split; [|lia].
    split; [lia|]. split; [lia|]. destruct r, s; simpl; lia.
  - split; [lia|]. exists (D + rho). split; [|lia].
    split; [lia|]. split; [lia|]. destruct r, s; simpl; lia.
Qed.

Lemma iter_pos_shr_1_inv (p : positive) (mrs : shr_record) (N D : Z) :
  shr_inv mrs N D -> shr_inv (SpecFloat.iter_pos shr_1 p mrs) N (D * 2 ^ Z.pos p).
Proof.
  revert mrs D. induction p as [p IH|p IH|]; intros mrs D H; simpl SpecFloat.iter_pos.
  - apply shr_1_inv in H. apply IH in H. apply IH in H.
    rewrite pow2_xI. replace (D * (2 * 2 ^ Z.pos p * 2 ^ Z.pos p))
      with (2 * D * 2 ^ Z.pos p * 2 ^ Z.pos p) by ring. exact H.
  - apply IH in H. apply IH in H.
    rewrite pow2_xO. replace (D * (2 ^ Z.pos p * 2 ^ Z.pos p))
      with (D * 2 ^ Z.pos p * 2 ^ Z.pos p) by ring. exact H.
  - apply shr_1_inv in H. replace (D * 2 ^ 1) with (2 * D) by (simpl; lia). exact H.
Qed.

Lemma shr_fexp_inv (m e : Z) (l : location) (N D : Z) :
  0 <= m -> e <= fexp prec emax (Zdigits2 m + e) ->
  shr_inv (shr_record_of_loc m l) N D ->
  exists mrs,
    shr_fexp prec emax m e l = (mrs, fexp prec emax (Zdigits2 m + e))
    /\ shr_m mrs = m / 2 ^ (fexp prec emax (Zdigits2 m + e) - e)
    /\ shr_inv mrs N (D * 2 ^ (fexp prec emax (Zdigits2 m + e) - e)).
Proof.
  intros Hm He Hinv. unfold shr_fexp, shr.
  destruct (fexp prec emax (Zdigits2 m + e) - e) as [|k|k] eqn:Hk; try lia.
  - eexists. split; [f_equal; lia|].
    rewrite shr_record_of_loc_m, Z.div_1_r. split; [reflexivity|].
    rewrite Z.mul_1_r. exact Hinv.
  - eexists. split; [f_equal; lia|].
    rewrite iter_pos_shr_1_m; rewrite shr_record_of_loc_m; [|assumption].
    split; [reflexivity|]. apply iter_pos_shr_1_inv, Hinv.
Qed.

Lemma round_nearest_even_inv (mrs : shr_record) (N D : Z) :
  shr_inv mrs N D ->
  let m2 := round_nearest_even (shr_m mrs) (loc_of_shr_record mrs) in
  shr_m mrs <= m2 <= shr_m mrs + 1 /\ - D <= 2 * (m2 * D - N) <= D.
Proof.
  destruct mrs as [m r s]. unfold shr_inv, frac_loc. cbn [shr_m shr_r shr_s].
  intros (Hm & rho & (HD & Hrho & Hloc) & ->).
  destruct r, s; cbn [loc_of_shr_record round_nearest_even]; try destruct (Z.even m); lia.
Qed.

Lemma shr_inv_exact (m D : Z) : 0 <= m -> 0 < D -> shr_inv (shr_record_of_loc m loc_Exact) (m * D) D.
Proof.
  intros Hm HD. split; [exact Hm|]. exists 0. simpl. unfold frac_loc. split; [|lia]. lia.
Qed.

Lemma new_location_inv (q my r : Z) :
  0 <= q -> 0 < my -> 0 <= r < my ->
  shr_inv (shr_record_of_loc q (new_location my r)) (q * my + r) my.
Proof.
  intros Hq Hmy Hr. unfold shr_inv. rewrite shr_record_of_loc_m. split; [exact Hq|].
  exists r. split; [|reflexivity]. unfold frac_loc. split; [exact Hmy|]. split; [exact Hr|].
  unfold new_location, new_location_even, new_location_odd.
  destruct (Z.even my) eqn:Hev.
  - destruct (r =? 0) eqn:Hr0; [apply Z.eqb_eq in Hr0; simpl; exact Hr0|].
    apply Z.eqb_neq in Hr0.
    destruct (Z.compare_spec (2 * r) my); simpl; lia.
  - destruct (r =? 0) eqn:Hr0; [apply Z.eqb_eq in Hr0; simpl; exact Hr0|].
    apply Z.eqb_neq in Hr0.
    assert (Hodd : my <> 2 * r).
    { intros E. rewrite E, Z.even_mul in Hev. discriminate. }
    destruct (Z.compare_spec (2 * r + 1) my); simpl; lia.
Qed.

(** What [binary_round_aux] returns for a number [N / D * 2^ex]: the
    mantissa [m3] and exponent [e3] of the result are canonical, and
    [m3 * 2^e3] is within half a unit of the exponent [e3]. *)
Lemma binary_round_aux_spec (sx : bool) (mx ex : Z) (lx : location) (N D : Z) :
  0 <= mx -> ex <= fexp prec emax (Zdigits2 mx + ex) ->
  shr_inv (shr_record_of_loc mx lx) N D ->
  exists m3 e3,
    binary_round_aux prec emax sx mx ex lx
    = match m3 with
      | 0 => S754_zero sx
      | Z.pos p => if e3 <=? emax - prec then S754_finite sx p e3 else S754_infinity sx
      | Z.neg _ => S754_nan
      end
    /\ 0 <= m3 /\ ex <= e3
    /\ e3 = fexp prec emax (Zdigits2 m3 + e3)
    /\ - D * 2 ^ (e3 - ex) <= 2 * (m3 * 2 ^ (e3 - ex) * D - N) <= D * 2 ^ (e3 - ex).
Proof.
  intros Hm He Hinv. unfold binary_round_aux.
  destruct (shr_fexp_inv mx ex lx N D Hm He Hinv) as (mrs1 & -> & Hm1 & Hinv1).
  set (fe := fexp prec emax (Zdigits2 mx + ex)) in *.
  set (k := fe - ex) in *.
  assert (Hk : 0 <= k) by (unfold k; lia).
  assert (Hpk : 0 < 2 ^ k) by (apply Z.pow_pos_nonneg; lia).
  assert (Hm1pos : 0 <= shr_m mrs1) by (rewrite Hm1; apply Z.div_pos; lia).
  pose proof (round_nearest_even_inv mrs1 N _ Hinv1) as [Hr Herr]. cbn zeta in Hr, Herr.
  set (m2 := round_nearest_even (shr_m mrs1) (loc_of_shr_record mrs1)) in *.
  assert (Hdig1 : Zdigits2 mx - k <= Zdigits2 (shr_m mrs1) <= 24).
  { destruct (Z.eq_dec (shr_m mrs1) 0) as [H0|H0].
    - rewrite H0. simpl. split; [|lia].
      destruct (Z.eq_dec mx 0) as [->|Hne]; [simpl; lia|].
      pose proof (Zdigits2_bound mx ltac:(lia)) as [_ Hhi].
      destruct (Z_le_gt_dec (Zdigits2 mx) k) as [|Hgt]; [lia|exfalso].
      assert (2 ^ k <= mx).
      { pose proof (Zdigits2_bound mx ltac:(lia)) as [Hlo _].
        assert (2 ^ k <= 2 ^ (Zdigits2 mx - 1)) by (apply Z.pow_le_mono_r; lia). lia. }
      assert (1 <= mx / 2 ^ k) by (apply Z.div_le_lower_bound; lia).
      lia.
    - assert (0 < mx).
      { destruct (Z.eq_dec mx 0) as [Hz|]; [|lia].
        rewrite Hz, Z.div_0_l in Hm1 by lia. lia. }
      rewrite Hm1 in H0, Hm1pos |- *. rewrite Zdigits2_div_pow2 by lia.
      split; [lia|]. unfold k, fe, fexp, emin, prec, emax. lia. }
  assert (Hfe : fe <= fexp prec emax (Zdigits2 m2 + fe)).
  { unfold fe at 1. apply fexp_mono.
    pose proof (Zdigits2_le (shr_m mrs1) m2 ltac:(lia)). unfold k in *. lia. }
  destruct (shr_fexp_spec m2 fe loc_Exact ltac:(lia) Hfe) as (mrs2 & -> & Hm2).
  set (e3 := fexp prec emax (Zdigits2 m2 + fe)) in *.
  assert (Hm2le : m2 <= 2 ^ 24).
  { destruct (Z.eq_dec (shr_m mrs1) 0) as [H0|H0]; [rewrite H0 in Hr; simpl; lia|].
    pose proof (Zdigits2_bound (shr_m mrs1) ltac:(lia)) as [_ Hhi].
    assert (2 ^ Zdigits2 (shr_m mrs1) <= 2 ^ 24) by (apply Z.pow_le_mono_r; lia). lia. }
  assert (Hk2 : (e3 = fe /\ shr_m mrs2 = m2) \/ (e3 = fe + 1 /\ m2 = 2 ^ 24 /\ shr_m mrs2 = 2 ^ 23)).
  { destruct (Z.eq_dec m2 (2 ^ 24)) as [E|NE].
    - right. assert (Hd : Zdigits2 m2 = 25) by (rewrite E; reflexivity).
      assert (He3 : e3 = fe + 1).
      { unfold e3. rewrite Hd. unfold fe, fexp, emin, prec, emax. lia. }
      split; [exact He3|]. split; [exact E|]. rewrite Hm2, He3, E.
      replace (fe + 1 - fe) with 1 by lia. reflexivity.
    - left. assert (Hd : Zdigits2 m2 <= 24).
      { destruct (Z.eq_dec m2 0) as [->|N0]; [simpl; lia|].
        pose proof (Zdigits2_bound m2 ltac:(lia)) as [Hlo _].
        destruct (Z_le_gt_dec (Zdigits2 m2) 24) as [|Hgt]; [assumption|exfalso].
        assert (2 ^ 24 <= 2 ^ (Zdigits2 m2 - 1)) by (apply Z.pow_le_mono_r; lia). lia. }
      assert (He3 : e3 = fe).
      { unfold e3 in *. unfold fe, fexp, emin, prec, emax in *. lia. }
      split; [exact He3|]. rewrite Hm2, He3, Z.sub_diag, Z.div_1_r. reflexivity. }
  exists (shr_m mrs2), e3.
  split; [reflexivity|]. split; [destruct Hk2 as [[_ ->]|[_ [_ ->]]]; lia|].
  split; [lia|]. split.
  - destruct Hk2 as [[He3 Hs]|[He3 [E Hs]]].
    + rewrite Hs. rewrite He3 at 2. reflexivity.
    + rewrite Hs. change (Zdigits2 (2 ^ 23)) with 24.
      rewrite He3. unfold fe, fexp, emin, prec, emax. lia.
  - destruct Hk2 as [[He3 Hs]|[He3 [E Hs]]].
    + rewrite Hs, He3. fold k. lia.
    + rewrite Hs, He3. replace (fe + 1 - ex) with (k + 1) by (unfold k; lia).
      rewrite Z.pow_add_r by lia. change (2 ^ 1) with 2. rewrite E in Herr.
      change (2 ^ 24) with (2 ^ 23 * 2) in Herr. nia.
Qed.

(** What a division of two finite numbers returns. *)
Lemma SFdiv_spec (sx sy : bool) (mx my : positive) (ex ey : Z) :
  exists m3 e3 e',
    float_div (S754_finite sx mx ex) (S754_finite sy my ey)
    = match m3 with
      | 0 => S754_zero (xorb sx sy)
      | Z.pos p =>
          if e3 <=? emax - prec then S754_finite (xorb sx sy) p e3
          else S754_infinity (xorb sx sy)
      | Z.neg _ => S754_nan
      end
    /\ 0 <= m3 /\ e' <= e3 /\ e' <= ex - ey
    /\ e3 = fexp prec emax (Zdigits2 m3 + e3)
    /\ - Z.pos my * 2 ^ (e3 - e')
       <= 2 * (m3 * 2 ^ (e3 - e') * Z.pos my - Z.pos mx * 2 ^ (ex - ey - e'))
       <= Z.pos my * 2 ^ (e3 - e').
Proof.
  pose proof (SFdiv_core_binary_exponent (Z.pos mx) ex (Z.pos my) ey
                ltac:(lia) ltac:(lia)) as Hcore.
  unfold float_div, SFdiv. unfold SFdiv_core_binary in *.
  set (e' := Z.min (fexp prec emax (Zdigits2 (Z.pos mx) + ex - (Zdigits2 (Z.pos my) + ey)))
               (ex - ey)) in *.
  assert (Hs : 0 <= ex - ey - e') by (unfold e'; lia).
  set (m' := match ex - ey - e' with
             | Z.pos _ => Z.shiftl (Z.pos mx) (ex - ey - e') | 0 => Z.pos mx | Z.neg _ => 0
             end) in *.
  assert (Hm' : m' = Z.pos mx * 2 ^ (ex - ey - e')).
  { unfold m'. destruct (ex - ey - e') as [|p|p]; try lia.
    apply Z.shiftl_mul_pow2. lia. }
  pose proof (Z_div_mod m' (Z.pos my) ltac:(lia)) as Hdm.
  destruct (Z.div_eucl m' (Z.pos my)) as [q r]. destruct Hdm as [Hdm Hr].
  destruct Hcore as [Hq He].
  pose proof (new_location_inv q (Z.pos my) r Hq ltac:(lia) Hr) as Hinv.
  destruct (binary_round_aux_spec (xorb sx sy) q e' (new_location (Z.pos my) r) _ _ Hq He Hinv)
    as (m3 & e3 & Hres & Hm3 & Hle & Hcan & Herr).
  exists m3, e3, e'. split; [exact Hres|]. split; [exact Hm3|]. split; [exact Hle|].
  split; [lia|]. split; [exact Hcan|].
  rewrite <- Hm'. rewrite Hdm. lia.
Qed.

Lemma pow2_pos (e : Z) : (0 < 2 ^ e)%Q.
Proof. apply Qpower_0_lt. reflexivity. Qed.

Lemma pow2_add (a b : Z) : (2 ^ (a + b) == 2 ^ a * 2 ^ b)%Q.
Proof. apply Qpower_plus. discriminate. Qed.

Lemma pow2_inject (k : Z) : 0 <= k -> (inject_Z (2 ^ k) == 2 ^ k)%Q.
Proof. intros Hk. rewrite Zpower_Qpower by exact Hk. reflexivity. Qed.

Lemma pow2_le (a b : Z) : a <= b -> (2 ^ a <= 2 ^ b)%Q.
Proof. intros H. apply Qpower_le_compat_l; [exact H|]. discriminate. Qed.

Lemma Qval_pos (m e : Z) : 0 < m -> (0 < Qval m e)%Q.
Proof.
  intros Hm. unfold Qval. apply Qmult_lt_0_compat; [|apply pow2_pos].
  change 0%Q with (inject_Z 0). rewrite <- Zlt_Qlt. exact Hm.
Qed.

Lemma Qval_mono (m n e : Z) : m <= n -> (Qval m e <= Qval n e)%Q.
Proof.
  intros H. unfold Qval. apply Qmult_le_compat_r; [|apply Qlt_le_weak, pow2_pos].
  rewrite <- Zle_Qle. exact H.
Qed.

(** The quotient of two finite numbers, as [float_div] rounds it: the
    result is canonical and within half a unit in its last place. *)
Lemma SFdiv_error (sx sy : bool) (mx my : positive) (ex ey : Z) :
  exists m3 e3,
    float_div (S754_finite sx mx ex) (S754_finite sy my ey)
    = match m3 with
      | 0 => S754_zero (xorb sx sy)
      | Z.pos p =>
          if e3 <=? emax - prec then S754_finite (xorb sx sy) p e3
          else S754_infinity (xorb sx sy)
      | Z.neg _ => S754_nan
      end
    /\ 0 <= m3
    /\ e3 = fexp prec emax (Zdigits2 m3 + e3)
    /\ (- (Qval (Z.pos my) ey * 2 ^ e3)
        <= 2 * (Qval m3 e3 * Qval (Z.pos my) ey - Qval (Z.pos mx) ex)
        <= Qval (Z.pos my) ey * 2 ^ e3)%Q.
Proof.
  destruct (SFdiv_spec sx sy mx my ex ey)
    as (m3 & e3 & e' & Hres & Hm3 & Hle & Hle' & Hcan & Hlo & Hhi).
  exists m3, e3. split; [exact Hres|]. split; [exact Hm3|]. split; [exact Hcan|].
  unfold Qval.
  remember (2 ^ (e3 - e')) as Pz eqn:HPz.
  remember (2 ^ (ex - ey - e')) as Sz eqn:HSz.
  assert (H3 : (2 ^ e3 == inject_Z Pz * 2 ^ e')%Q).
  { subst Pz. rewrite pow2_inject by lia. rewrite <- pow2_add. f_equiv. lia. }
  assert (Hx : (2 ^ ex == inject_Z Sz * 2 ^ e' * 2 ^ ey)%Q).
  { subst Sz. rewrite pow2_inject by lia. rewrite <- !pow2_add. f_equiv. lia. }
  rewrite H3, Hx. clear H3 Hx HPz HSz.
  assert (HQ : (- (inject_Z (Z.pos my) * inject_Z Pz)
                <= 2 * (inject_Z m3 * inject_Z Pz * inject_Z (Z.pos my)
                        - inject_Z (Z.pos mx) * inject_Z Sz)
                <= inject_Z (Z.pos my) * inject_Z Pz)%Q).
  { unfold Qle, Qmult, Qminus, Qplus, Qopp, inject_Z. cbn [Qnum Qden].
    rewrite ?Pos.mul_1_r. lia. }
  destruct HQ as [Hlo' Hhi']. clear Hlo Hhi.
  pose proof (pow2_pos e') as Ha. pose proof (pow2_pos ey) as Hy.
  set (a := (2 ^ e')%Q) in *. set (y := (2 ^ ey)%Q) in *.
  assert (Hay : (0 <= a * y)%Q) by (apply Qlt_le_weak, Qmult_lt_0_compat; assumption).
  apply (fun H => Qmult_le_compat_r _ _ _ H Hay) in Hlo', Hhi'.
  split; lra.
Qed.

(** An integer below 2^24 converts to a normal number of the same value. *)
Lemma float_of_int_exact (r : Z) :
  1 <= r < 2 ^ 24 ->
  exists mr er,
    float_of_int r = S754_finite false mr er
    /\ 2 ^ 23 <= Z.pos mr /\ (Qval (Z.pos mr) er == inject_Z r)%Q.
Proof.
  intros Hr. destruct r as [|n|n]; try lia.
  pose proof (digits2_pos_le n 24 ltac:(lia) ltac:(lia)) as Hdg.
  assert (Hshift : exists mz ez,
             shl_align n 0 (fexp prec emax (Z.pos (digits2_pos n) + 0)) = (mz, ez)
             /\ Z.pos (digits2_pos mz) = 24 /\ -23 <= ez <= 0
             /\ Z.pos mz = Z.pos n * 2 ^ (- ez)).
  { unfold shl_align, fexp, emin, prec, emax.
    replace (Z.max (Z.pos (digits2_pos n) + 0 - 24) (3 - 128 - 24))
      with (Z.pos (digits2_pos n) - 24) by lia.
    destruct (Z.pos (digits2_pos n) - 24 - 0) as [|d|d] eqn:Hd; try lia.
    - exists n, 0. repeat split; try lia.
    - destruct (iter_xO_spec n d) as [H1 H2].
      exists (Pos.iter xO n d), (Z.pos (digits2_pos n) - 24).
      repeat split; try lia.
      rewrite H2. f_equal. f_equal. lia. }
  destruct Hshift as (mz & ez & Hal & Hdz & Hez & Hmz).
  unfold float_of_int, binary_normalize, binary_round. rewrite Hal.
  assert (Hshr : forall l, shr_fexp prec emax (Z.pos mz) ez l
                           = (shr_record_of_loc (Z.pos mz) l, ez)).
  { intros l. unfold shr_fexp, fexp, emin, prec, emax. simpl Zdigits2. rewrite Hdz.
    replace (Z.max (24 + ez - 24) (3 - 128 - 24) - ez) with 0 by lia. reflexivity. }
  unfold binary_round_aux. rewrite Hshr. simpl. rewrite Hshr. simpl.
  replace (ez <=? emax - prec) with true by (symmetry; apply Z.leb_le; unfold emax, prec; lia).
  exists mz, ez. split; [reflexivity|]. split.
  - pose proof (digits2_pos_bound mz) as [Hlo _]. rewrite Hdz in Hlo. exact Hlo.
  - unfold Qval. rewrite Hmz, inject_Z_mult, pow2_inject by lia.
    rewrite <- Qmult_assoc, <- pow2_add. replace (- ez + ez) with 0 by lia.
    change (2 ^ 0)%Q with 1%Q. ring.
Qed.

Lemma is_binary32_canonical (s : bool) (m : positive) (e : Z) :
  is_binary32 (S754_finite s m e) ->
  e = fexp prec emax (Zdigits2 (Z.pos m) + e) /\ e <= emax - prec.
Proof.
  unfold is_binary32, valid_binary, bounded, canonical_mantissa. intros H.
  apply andb_true_iff in H as [H1 H2]. apply Z.eqb_eq in H1. apply Z.leb_le in H2.
  split; [symmetry; exact H1|exact H2].
Qed.

(** A canonical mantissa has 24 digits, or the exponent is the least one. *)
Lemma canonical_cases (m e : Z) :
  0 <= m -> e = fexp prec emax (Zdigits2 m + e) ->
  m < 2 ^ 24 /\ - 149 <= e /\ (2 ^ 23 <= m \/ (e = - 149 /\ m < 2 ^ 23)).
Proof.
  intros Hm He. destruct (Z.eq_dec m 0) as [->|Hne].
  { simpl in He. unfold fexp, emin, prec, emax in He. split; [reflexivity|]. split; [lia|].
    right. split; [lia|reflexivity]. }
  pose proof (Zdigits2_bound m ltac:(lia)) as [Hlo Hhi].
  pose proof (Zdigits2_pos m ltac:(lia)) as Hd.
  unfold fexp, emin, prec, emax in He.
  assert (Hd24 : Zdigits2 m <= 24) by lia.
  assert (2 ^ Zdigits2 m <= 2 ^ 24) by (apply Z.pow_le_mono_r; lia).
  split; [lia|]. split; [lia|].
  destruct (Z.eq_dec (Zdigits2 m) 24) as [E|NE].
  - left. rewrite E in Hlo. exact Hlo.
  - right. split; [lia|].
    assert (2 ^ Zdigits2 m <= 2 ^ 23) by (apply Z.pow_le_mono_r; lia). lia.
Qed.

(** The order of two binary32 numbers is the order of their values. *)
Lemma float_le_Qval (sx : bool) (mx mT : positive) (ex eT : Z) :
  is_binary32 (S754_finite sx mx ex) -> is_binary32 (S754_finite false mT eT) ->
  float_le (float_abs (S754_finite sx mx ex)) (S754_finite false mT eT) = true ->
  (Qval (Z.pos mx) ex <= Qval (Z.pos mT) eT)%Q.
Proof.
  intros Hx HT Hle.
  apply is_binary32_canonical in Hx as [Hx _], HT as [HT _].
  apply canonical_cases in Hx as (Hx1 & Hx2 & _); [|lia].
  apply canonical_cases in HT as (HT1 & HT2 & HT3); [|lia].
  unfold float_le, float_abs, SFleb, SFabs, SFcompare in Hle.
  destruct (Z.compare_spec ex eT) as [E|L|G]; try discriminate.
  - subst eT. apply Qval_mono.
    rewrite Pos.compare_cont_spec in Hle. unfold Pos.switch_Eq in Hle.
    destruct (Pos.compare_spec mx mT) as [E|L|G]; try discriminate; lia.
  - destruct HT3 as [HT3|[HT3 _]]; [|lia].
    unfold Qval.
    apply Qle_trans with (inject_Z (2 ^ 24) * 2 ^ ex)%Q.
    { apply Qmult_le_compat_r; [|apply Qlt_le_weak, pow2_pos]. rewrite <- Zle_Qle. lia. }
    apply Qle_trans with (inject_Z (2 ^ 23) * 2 ^ eT)%Q.
    { rewrite !pow2_inject by lia. rewrite <- !pow2_add. apply pow2_le. lia. }
    apply Qmult_le_compat_r; [|apply Qlt_le_weak, pow2_pos]. rewrite <- Zle_Qle. exact HT3.
Qed.

Lemma inject_Z_lt_half (n r : Z) : (inject_Z n < inject_Z r + (1 # 2))%Q -> n <= r.
Proof. unfold Qlt, Qplus, inject_Z. cbn [Qnum Qden]. lia. Qed.

Lemma half_le_inject_Z (n r : Z) : (inject_Z r - (1 # 2) <= inject_Z n)%Q -> r <= n.
Proof. unfold Qle, Qminus, Qplus, Qopp, inject_Z. cbn [Qnum Qden]. lia. Qed.

Lemma Qval_nonneg_exp (m e : Z) : 0 <= e -> (Qval m e == inject_Z (m * 2 ^ e))%Q.
Proof. intros He. unfold Qval. rewrite inject_Z_mult, pow2_inject by exact He. reflexivity. Qed.

Lemma Qval_neg_exp (m e : Z) : e < 0 -> (Qval m e * inject_Z (2 ^ (- e)) == inject_Z m)%Q.
Proof.
  intros He. unfold Qval. rewrite pow2_inject by lia.
  rewrite <- Qmult_assoc, <- pow2_add. replace (e + - e) with 0 by lia.
  change (2 ^ 0)%Q with 1%Q. ring.
Qed.

(** [std::round] of a number below [r + 1/2] in magnitude, cast to
    [int8_t]. *)
Lemma round_below (st : bool) (mt : positive) (et r : Z) :
  0 <= r <= 127 ->
  (Qval (Z.pos mt) et < inject_Z r + (1 # 2))%Q ->
  exists q, float_to_int8 (float_round (S754_finite st mt et)) = Ok q /\ - r <= q <= r.
Proof.
  intros Hr Hlt. unfold float_round. destruct (0 <=? et) eqn:He.
  - apply Z.leb_le in He. rewrite Qval_nonneg_exp in Hlt by exact He.
    apply inject_Z_lt_half in Hlt.
    assert (0 < 2 ^ et) by (apply Z.pow_pos_nonneg; lia).
    unfold float_to_int8, float_trunc. rewrite (proj2 (Z.leb_le 0 et) He).
    set (n := Z.pos mt * 2 ^ et) in *.
    assert (Hn : 0 <= n) by (unfold n; lia).
    replace ((-128 <=? cond_Zopp st n) && (cond_Zopp st n <=? 127)) with true.
    + eexists. split; [reflexivity|]. destruct st; simpl; lia.
    + symmetry. apply andb_true_iff. split; apply Z.leb_le; destruct st; simpl; lia.
  - apply Z.leb_gt in He.
    assert (HD : 0 < 2 ^ (- et)) by (apply Z.pow_pos_nonneg; lia).
    pose proof (Qval_neg_exp (Z.pos mt) et He) as Hv.
    set (D := 2 ^ (- et)) in *.
    assert (Hm : 2 * Z.pos mt < (2 * r + 1) * D).
    { assert (HQ : (inject_Z (Z.pos mt) < (inject_Z r + (1 # 2)) * inject_Z D)%Q).
      { rewrite <- Hv. apply Qmult_lt_compat_r; [|exact Hlt].
        change 0%Q with (inject_Z 0). rewrite <- Zlt_Qlt. exact HD. }
      revert HQ. unfold Qlt, Qmult, Qplus, inject_Z. cbn [Qnum Qden]. lia. }
    set (n := (2 * Z.pos mt + D) / (2 * D)).
    assert (Hn : 0 <= n <= r).
    { split; [apply Z.div_pos; lia|].
      assert (n < r + 1); [|lia]. apply Z.div_lt_upper_bound; lia. }
    unfold float_to_int8.
    rewrite (binary_normalize_int_exact st n) by (change (2 ^ 24) with 16777216; lia).
    replace ((-128 <=? cond_Zopp st n) && (cond_Zopp st n <=? 127)) with true.
    + eexists. split; [reflexivity|]. destruct st; simpl; lia.
    + symmetry. apply andb_true_iff. split; apply Z.leb_le; destruct st; simpl; lia.
Qed.

(** The two error bounds of the scale [s = T / r] and of a quotient
    [t = x / s] with [x <= T] bound [t]. *)
Lemma quotient_upper (qT qs qx qt us ut R : Q) :
  (0 < qs -> 0 <= ut -> 0 <= us -> 1 <= R -> R <= 127 ->
   - (R * us) <= 2 * (qs * R - qT) ->
   2 * (qt * qs - qx) <= qs * ut ->
   qx <= qT ->
   8388608 * us <= qs ->
   8388608 * ut <= qt ->
   qt < R + (1 # 2))%Q.
Proof.
  intros Hqs Hut Hus HR1 HR2 HsE HtE Hx Hsn Htn.
  destruct (Qlt_le_dec qt (R + (1 # 2))) as [|Hge]; [assumption|exfalso].
  assert (H1 : (R * (8388608 * us) <= R * qs)%Q).
  { apply Qmult_le_l; [lra|exact Hsn]. }
  assert (H2 : (qs * (8388608 * ut) <= qs * qt)%Q).
  { apply Qmult_le_l; [lra|exact Htn]. }
  assert (H3 : (0 < qs * (qt * (16777215 # 1) - R * (16777217 # 1)))%Q).
  { apply Qmult_lt_0_compat; [exact Hqs|]. lra. }
  lra.
Qed.

(** The scale [T / r] of a normal quotient: [T] is a positive finite
    number and the scale is within half a unit in the last place of T/r. *)
Lemma normal_scale (T : float) (r : Z) :
  1 <= r < 2 ^ 24 ->
  is_normal (float_div T (float_of_int r)) = true ->
  exists sT mT eT ms es,
    T = S754_finite sT mT eT
    /\ float_div T (float_of_int r) = S754_finite sT ms es
    /\ (8388608 * 2 ^ es <= Qval (Z.pos ms) es)%Q
    /\ (- (inject_Z r * 2 ^ es)
        <= 2 * (Qval (Z.pos ms) es * inject_Z r - Qval (Z.pos mT) eT)
        <= inject_Z r * 2 ^ es)%Q.
Proof.
  intros Hr Hn.
  destruct (float_of_int_exact r Hr) as (mr & er & Hrf & _ & Hrv).
  rewrite Hrf in *.
  destruct T as [sT|sT| |sT mT eT]; try discriminate Hn.
  destruct (SFdiv_error sT false mT mr eT er) as (m3 & e3 & Hres & Hm3 & _ & Herr).
  rewrite Hres in Hn |- *.
  destruct m3 as [|ms|ms]; try discriminate Hn.
  destruct (e3 <=? emax - prec); try discriminate Hn.
  simpl in Hn. apply Z.leb_le in Hn.
  exists sT, mT, eT, ms, e3. split; [reflexivity|].
  split; [destruct sT; reflexivity|]. split.
  - change 8388608%Q with (inject_Z (2 ^ 23)). apply (Qval_mono _ _ e3 Hn).
  - rewrite Hrv in Herr. exact Herr.
Qed.

(** Elements no larger than the threshold [T] quantize into
    [[-r, r]] with the scale [T / r]. *)
Lemma quantize_rounded_in_range (T x : float) (r : Z) :
  1 <= r <= 127 ->
  is_binary32 T -> is_binary32 x ->
  float_le (float_abs x) T = true ->
  is_normal (float_div T (float_of_int r)) = true ->
  exists q, quantize_rounded (float_div T (float_of_int r)) x = Ok q /\ - r <= q <= r.
Proof.
  intros Hr HT Hx Hle Hn.
  destruct (normal_scale T r ltac:(lia) Hn)
    as (sT & mT & eT & ms & es & -> & Hs & Hsn & Hslo & Hshi).
  rewrite Hs. unfold quantize_rounded.
  destruct x as [sx|sx| |sx mx ex]; try discriminate Hle.
  { exists 0. split; [reflexivity|lia]. }
  assert (sT = false) as -> by (destruct sT; [discriminate Hle|reflexivity]).
  pose proof (float_le_Qval sx mx mT ex eT Hx HT Hle) as HxT.
  destruct (SFdiv_error sx false mx ms ex es) as (mt & et & Hres & Hmt & Hcan & Htlo & Hthi).
  rewrite Hres.
  destruct mt as [|mt|mt]; try lia.
  { exists 0. split; [reflexivity|lia]. }
  apply canonical_cases in Hcan as (Hm24 & He149 & Hcases); [|lia].
  assert (HR1 : (1 <= inject_Z r)%Q) by (change 1%Q with (inject_Z 1); rewrite <- Zle_Qle; lia).
  assert (HR2 : (inject_Z r <= 127)%Q)
    by (change 127%Q with (inject_Z 127); rewrite <- Zle_Qle; lia).
  assert (Hlt : (Qval (Z.pos mt) et < inject_Z r + (1 # 2))%Q).
  { destruct Hcases as [Hnorm|[-> Hsub]].
    - apply (quotient_upper (Qval (Z.pos mT) eT) (Qval (Z.pos ms) es) (Qval (Z.pos mx) ex)
               (Qval (Z.pos mt) et) (2 ^ es) (2 ^ et) (inject_Z r));
        try assumption.
      + apply Qval_pos. lia.
      + apply Qlt_le_weak, pow2_pos.
      + apply Qlt_le_weak, pow2_pos.
      + change 8388608%Q with (inject_Z (2 ^ 23)). apply (Qval_mono _ _ et Hnorm).
    - apply Qle_lt_trans with (Qval (2 ^ 23) (- 149)).
      + apply Qval_mono. lia.
      + apply Qlt_le_trans with 1%Q; [vm_compute; reflexivity|lra]. }
  destruct (et <=? emax - prec) eqn:Hov.
  - apply round_below; [lia|exact Hlt].
  - exfalso. apply Z.leb_gt in Hov. unfold emax, prec in Hov.
    destruct Hcases as [Hnorm|[-> _]]; [|lia].
    pose proof (Qval_mono _ _ et Hnorm) as H1.
    pose proof (pow2_le 0 et ltac:(lia)) as H2.
    unfold Qval in H1 at 1. change (inject_Z (2 ^ 23)) with 8388608%Q in H1.
    change (2 ^ 0)%Q with 1%Q in H2. lra.
Qed.

Lemma quotient_lower (qT qs qx qt us ut R : Q) :
  (0 < qs -> 255 <= R ->
   2 * (qs * R - qT) <= R * us ->
   - (qs * ut) <= 2 * (qt * qs - qx) ->
   qT <= qx ->
   8388608 * us <= qs ->
   8388608 * ut <= qt + 8388608 ->
   254 <= qt)%Q.
Proof.
  intros Hqs HR HsE HtE Hx Hsn Htn.
  destruct (Qlt_le_dec qt 254) as [Hlt|]; [exfalso|assumption].
  assert (H1 : (R * (8388608 * us) <= R * qs)%Q).
  { apply Qmult_le_l; [lra|exact Hsn]. }
  assert (H2 : (qs * (8388608 * ut) <= qs * (qt + 8388608))%Q).
  { apply Qmult_le_l; [lra|exact Htn]. }
  assert (H3 : (0 < qs * (R * (16777215 # 1) - (8388608 # 1) - qt * (16777217 # 1)))%Q).
  { apply Qmult_lt_0_compat; [exact Hqs|]. lra. }
  lra.
Qed.

(** [std::round] of a number of magnitude 254 or more does not fit
    [int8_t]. *)
Lemma round_above (st : bool) (mt : positive) (et : Z) :
  Z.pos mt < 2 ^ 24 ->
  (254 <= Qval (Z.pos mt) et)%Q ->
  float_to_int8 (float_round (S754_finite st mt et)) = Err UndefinedBehavior.
Proof.
  intros Hm Hge. unfold float_round. destruct (0 <=? et) eqn:He.
  - apply Z.leb_le in He. rewrite Qval_nonneg_exp in Hge by exact He.
    change 254%Q with (inject_Z 254) in Hge. rewrite <- Zle_Qle in Hge.
    unfold float_to_int8, float_trunc. rewrite (proj2 (Z.leb_le 0 et) He).
    set (n := Z.pos mt * 2 ^ et) in *.
    replace ((-128 <=? cond_Zopp st n) && (cond_Zopp st n <=? 127)) with false; [reflexivity|].
    symmetry. apply andb_false_iff.
    destruct st; simpl; [left; apply Z.leb_gt|right; apply Z.leb_gt]; lia.
  - apply Z.leb_gt in He.
    assert (HD : 2 <= 2 ^ (- et)).
    { change 2 with (2 ^ 1) at 1. apply Z.pow_le_mono_r; lia. }
    pose proof (Qval_neg_exp (Z.pos mt) et He) as Hv.
    set (D := 2 ^ (- et)) in *.
    assert (HmD : 254 * D <= Z.pos mt).
    { assert (HQ : (254 * inject_Z D <= inject_Z (Z.pos mt))%Q).
      { rewrite <- Hv. apply Qmult_le_compat_r; [exact Hge|].
        change 0%Q with (inject_Z 0). rewrite <- Zle_Qle. lia. }
      revert HQ. unfold Qle, Qmult, inject_Z. cbn [Qnum Qden]. lia. }
    set (n := (2 * Z.pos mt + D) / (2 * D)).
    assert (Hn : 254 <= n < 2 ^ 24).
    { split.
      - apply Z.div_le_lower_bound; lia.
      - apply Z.div_lt_upper_bound; [lia|]. change (2 ^ 24) with 16777216 in *. nia. }
    unfold float_to_int8.
    rewrite (binary_normalize_int_exact st n) by lia.
    replace ((-128 <=? cond_Zopp st n) && (cond_Zopp st n <=? 127)) with false; [reflexivity|].
    symmetry. apply andb_false_iff.
    destruct st; simpl; [left; apply Z.leb_gt|right; apply Z.leb_gt]; lia.
Qed.

(** With a range of 255 or more, an element as large as the threshold
    [T] quantizes to a number that is no [int8_t]. *)
Lemma quantize_rounded_max_overflows (T x : float) (r : Z) :
  255 <= r < 2 ^ 24 ->
  float_abs x = T ->
  is_normal (float_div T (float_of_int r)) = true ->
  quantize_rounded (float_div T (float_of_int r)) x = Err UndefinedBehavior.
Proof.
  intros Hr Hx Hn.
  destruct (normal_scale T r ltac:(lia) Hn)
    as (sT & mT & eT & ms & es & -> & Hs & Hsn & Hslo & Hshi).
  rewrite Hs. unfold quantize_rounded.
  destruct x as [sx|sx| |sx mx ex]; try discriminate Hx.
  injection Hx as <- <- <-.
  destruct (SFdiv_error sx false mx ms ex es) as (mt & et & Hres & Hmt & Hcan & Htlo & Hthi).
  rewrite Hres.
  apply canonical_cases in Hcan as (Hm24 & He149 & Hcases); [|lia].
  assert (HR : (255 <= inject_Z r)%Q)
    by (change 255%Q with (inject_Z 255); rewrite <- Zle_Qle; lia).
  assert (Hge : (254 <= Qval mt et)%Q).
  { apply (quotient_lower (Qval (Z.pos mx) ex) (Qval (Z.pos ms) es) (Qval (Z.pos mx) ex)
             (Qval mt et) (2 ^ es) (2 ^ et) (inject_Z r)); try assumption.
    - apply Qval_pos. lia.
    - apply Qle_refl.
    - destruct Hcases as [Hnorm|[-> Hsub]].
      + pose proof (Qval_mono _ _ et Hnorm) as H1.
        unfold Qval in H1 at 1. change (inject_Z (2 ^ 23)) with 8388608%Q in H1. lra.
      + assert (H0 : (0 <= Qval mt (-149))%Q).
        { unfold Qval. apply Qmult_le_0_compat; [|apply Qlt_le_weak, pow2_pos].
          change 0%Q with (inject_Z 0). rewrite <- Zle_Qle. lia. }
        assert (H1 : (2 ^ (-149) <= 1)%Q) by (vm_compute; discriminate).
        lra. }
  destruct mt as [|mt|mt]; try lia.
  { exfalso. unfold Qval in Hge. change (inject_Z 0) with 0%Q in Hge.
    rewrite Qmult_0_l in Hge. vm_compute in Hge. apply Hge. reflexivity. }
  destruct (et <=? emax - prec); [|reflexivity].
  apply round_above; assumption.
Qed.

Lemma map_result_in_range {A B} (f : A -> result B) (P : B -> Prop) (l : list A) :
  Forall (fun x => exists y, f x = Ok y /\ P y) l ->
  exists ys, map_result f l = Ok ys /\ length ys = length l /\ Forall P ys.
Proof.
  induction 1 as [|x l (y & Hy & HP) _ (ys & Hys & Hlen & HPs)].
  - exists []. repeat split. constructor.
  - exists (y :: ys). simpl. rewrite Hy, Hys. simpl.
    split; [reflexivity|]. split; [congruence|]. constructor; assumption.
Qed.

Lemma map_result_fails {A B} (f : A -> result B) (e : error) (l : list A) (x : A) :
  (forall y e', f y = Err e' -> e' = e) ->
  x ∈ l -> f x = Err e ->
  map_result f l = Err e.
Proof.
  intros Hall Hin Hx. induction Hin as [x l|x y l _ IH].
  - simpl. rewrite Hx. reflexivity.
  - simpl. destruct (f y) as [z|e'] eqn:Hy; simpl.
    + rewrite (IH Hx). reflexivity.
    + rewrite (Hall _ _ Hy). reflexivity.
Qed.

Lemma is_binary32_abs (x : float) : is_binary32 x -> is_binary32 (float_abs x).
Proof. destruct x; intros H; exact H. Qed.

(** Property X20.  For a bit length of 2 to 8, a buffer of
    binary32 numbers and the scale [FindAbsMax / range] the code computes,
    if that scale is a normal number then [FindAbsMax] returns the
    threshold and [QuantizeTensorInPlace] returns: every quotient rounds
    to an integer of [[-range, range]], which is an [int8_t]. *)
Theorem QuantizeTensorInPlace_in_range (w : Tensor) (xs : list float) (T : float) (b : Z) :
  let range := 2 ^ (b - 1) - 1 in
  let scale := float_div T (float_of_int range) in
  buffer w = BufFloat xs ->
  numel w = Z.of_nat (length xs) ->
  2 <= b <= 8 ->
  Forall is_binary32 xs ->
  is_abs_max xs T ->
  is_normal scale = true ->
  FindAbsMax xs (numel w) = Ok T
  /\ exists qs,
       QuantizeTensorInPlace w scale = Ok (set_buffer (clear w) (BufInt8 qs))
       /\ length qs = length xs
       /\ Forall (fun q => - range <= q <= range) qs.
Proof.
  intros range scale Hbuf Hn Hb Hvalid Hmax Hnorm.
  split.
  { apply FindAbsMax_take; [lia|]. rewrite Hn, Nat2Z.id, firstn_all. exact Hmax. }
  assert (Hrange : 1 <= range <= 127).
  { unfold range. assert (2 ^ 1 <= 2 ^ (b - 1) <= 2 ^ 7)
      by (split; apply Z.pow_le_mono_r; lia).
    change (2 ^ 1) with 2 in *. change (2 ^ 7) with 128 in *. lia. }
  assert (HT : is_binary32 T).
  { destruct Hmax as [Hin _]. apply list_elem_of_fmap in Hin as (x & -> & Hin).
    apply is_binary32_abs. rewrite Forall_forall in Hvalid. apply Hvalid, Hin. }
  destruct (map_result_in_range (quantize_rounded scale)
              (fun q => - range <= q <= range) xs) as (qs & Hqs & Hlen & Hall).
  { destruct Hmax as [_ Hle]. rewrite Forall_forall in *. intros x Hx.
    apply quantize_rounded_in_range; auto. }
  exists qs. split; [|split; assumption].
  unfold QuantizeTensorInPlace, CopyDataFrom, data_float. rewrite Hbuf. cbn [bind].
  change (numel (clear w)) with (numel w). unfold convert_elements.
  replace ((numel w <? 0) || (Z.of_nat (length xs) <? numel w)) with false
    by (symmetry; apply orb_false_iff; split; apply Z.ltb_ge; lia).
  rewrite Hn, Nat2Z.id, firstn_all, Hqs. reflexivity.
Qed.

(** With a bit length of 9 to 25 the conversion has no defined result. *)
Lemma QuantizeTensorInPlace_wide (w : Tensor) (xs : list float) (T : float) (b : Z) :
  buffer w = BufFloat xs ->
  numel w = Z.of_nat (length xs) ->
  9 <= b <= 25 ->
  is_abs_max xs T ->
  is_normal (float_div T (float_of_int (2 ^ (b - 1) - 1))) = true ->
  QuantizeTensorInPlace w (float_div T (float_of_int (2 ^ (b - 1) - 1)))
  = Err UndefinedBehavior.
Proof.
  intros Hbuf Hn Hb [Hin _] Hnorm.
  assert (Hrange : 255 <= 2 ^ (b - 1) - 1 < 2 ^ 24).
  { assert (2 ^ 8 <= 2 ^ (b - 1) <= 2 ^ 24) by (split; apply Z.pow_le_mono_r; lia).
    change (2 ^ 8) with 256 in *. lia. }
  apply list_elem_of_fmap in Hin as (x & HxT & Hin).
  unfold QuantizeTensorInPlace, CopyDataFrom, data_float. rewrite Hbuf. cbn [bind].
  change (numel (clear w)) with (numel w). unfold convert_elements.
  replace ((numel w <? 0) || (Z.of_nat (length xs) <? numel w)) with false
    by (symmetry; apply orb_false_iff; split; apply Z.ltb_ge; lia).
  rewrite Hn, Nat2Z.id, firstn_all.
  rewrite (map_result_fails _ UndefinedBehavior xs x); [reflexivity| |exact Hin|].
  - intros y e'. apply quantize_rounded_error.
  - apply quantize_rounded_max_overflows; [exact Hrange|symmetry; exact HxT|exact Hnorm].
Qed.

Lemma QuantizeTensorInPlace_in_range_witness :
  FindAbsMax Examples.qdq_weight_data (numel Examples.qdq_weight) = Ok (float_of_int 2)
  /\ exists qs,
       QuantizeTensorInPlace Examples.qdq_weight
         (float_div (float_of_int 2) (float_of_int (2 ^ (8 - 1) - 1)))
       = Ok (set_buffer (clear Examples.qdq_weight) (BufInt8 qs))
       /\ length qs = length Examples.qdq_weight_data
       /\ Forall (fun q => - (2 ^ (8 - 1) - 1) <= q <= 2 ^ (8 - 1) - 1) qs.
Proof.
  apply (QuantizeTensorInPlace_in_range Examples.qdq_weight Examples.qdq_weight_data
           (float_of_int 2) 8).
  - reflexivity.
  - reflexivity.
  - lia.
  - apply Forall_cons. split; [reflexivity|]. apply Forall_replicate. reflexivity.
  - exact qdq_weight_abs_max.
  - reflexivity.
Defined.

Section WideBitLength.
Context `{GraphCollaborator}.

(** Property X21.  [QuantDequantOpFuser] converts weights with
    [QuantizeTensorInPlace<int8_t>] whatever the bit length.  For a bit
    length of 9 to 25 and a normal scale, the element of greatest
    absolute value has a quotient of magnitude 254 or more, which no
    [int8_t] holds: with a consumer of type mul, conv2d or
    depthwise_conv2d the rewrite has no defined behaviour. *)
Theorem QuantDequantOpFuser_wide_bit_length
    (st : State) (matched : key2nodes_t)
    (input_var_node quant_dequant_node output_scale_node output_var_node : node_id)
    (input_var_name output_var_name : string) (w_o : bool)
    (quant_dequant_info : OpInfo) (b : Z) (w : Tensor) (xs : list float)
    (threshold : float) (consumers : list node_id) :
  let g := graph st in
  matched !! "input_var_node" = Some input_var_node ->
  matched !! "quant_dequant_node" = Some quant_dequant_node ->
  matched !! "output_scale_node" = Some output_scale_node ->
  matched !! "output_var_node" = Some output_var_node ->
  input_var_node <> output_var_node ->
  kind_of g input_var_node = Some (Arg input_var_name true) ->
  kind_of g quant_dequant_node = Some (Stmt quant_dequant_info) ->
  kind_of g output_var_node = Some (Arg output_var_name w_o) ->
  outlinks <$> g !! output_var_node = Some consumers ->
  attrs quant_dequant_info !! "bit_length" = Some (AttrInt b) ->
  9 <= b <= 25 ->
  scope st !! input_var_name = Some w ->
  buffer w = BufFloat xs ->
  numel w = Z.of_nat (length xs) ->
  numel w < 2 ^ 31 ->
  is_abs_max xs threshold ->
  is_normal (float_div threshold (float_of_int (2 ^ (b - 1) - 1))) = true ->
  Forall (weight_consumer g (dims w)) consumers ->
  converting g consumers <> [] ->
  QuantDequantOpFuser.InsertNewNode "fake_quantize_dequantize_abs_max" st matched
  = Err UndefinedBehavior.
Proof.
  intros g Hm0 Hm1 Hm2 Hm3 Hne Hk0 Hk1 Hk3 Hout Hbit Hb Hsc Hbuf Hn Hlt Hmax Hnorm
    Hcons Hconv.
  eapply QuantDequant_weight_conversion_fails; try eassumption; [lia|].
  apply (QuantizeTensorInPlace_wide w xs threshold b); assumption.
Qed.
End WideBitLength.

Lemma QuantDequantOpFuser_wide_bit_length_witness :
  @QuantDequantOpFuser.InsertNewNode Examples.always_safe
    "fake_quantize_dequantize_abs_max" MoreExamples.qdq16_state Examples.qdq_match
  = Err UndefinedBehavior.
Proof.
  apply (@QuantDequantOpFuser_wide_bit_length Examples.always_safe
           MoreExamples.qdq16_state Examples.qdq_match 0%nat 1%nat 2%nat 3%nat
           "w" "w.qdq" false MoreExamples.qdq16_op 16
           Examples.qdq_weight Examples.qdq_weight_data (float_of_int 2) [5%nat]);
    try reflexivity.
  - discriminate.
  - lia.
  - exact qdq_weight_abs_max.
  - repeat constructor. exists Examples.qdq_conv_op, 4. repeat split; reflexivity || lia.
  - vm_compute. discriminate.
Defined.

(** ** The round-trip law *)

Lemma quantize_rounded_within (s x : float) (q : Z) (qs : Q) :
  float_to_Q s = Some qs ->
  quantize_rounded s x = Ok q ->
  scaled_within (1 # 2) s (float_div x s) q.
Proof.
  intros Hs Hq. unfold quantize_rounded in Hq.
  destruct (float_round_error _ _ (float_div_binary32 x s) Hq) as (qt & Hqt & Hbound).
  exists qt, qs. split; [exact Hqt|]. split; [exact Hs|].
  apply Qabs_scale. exact Hbound.
Qed.

Lemma quantize_truncated_within (s x : float) (q : Z) (qs : Q) :
  float_to_Q s = Some qs ->
  quantize_truncated x = Ok q ->
  scaled_within 1 s x q.
Proof.
  intros Hs Hq. unfold quantize_truncated in Hq.
  destruct (float_trunc_error _ _ Hq) as (qx & Hqx & Hbound).
  exists qx, qs. split; [exact Hqx|]. split; [exact Hs|].
  apply Qabs_scale. exact Hbound.
Qed.

Lemma Qval_opp (m e : Z) : (Qval (- m) e == - Qval m e)%Q.
Proof. unfold Qval. rewrite inject_Z_opp. ring. Qed.

Lemma Qval_cond_Zopp (s : bool) (m e : Z) :
  (Qval (cond_Zopp s m) e == if s then - Qval m e else Qval m e)%Q.
Proof. destruct s; simpl; [apply Qval_opp|reflexivity]. Qed.

(** The rational a finite float denotes is mantissa * 2^exponent. *)
Lemma float_to_Q_finite (s : bool) (m : positive) (e : Z) :
  exists q, float_to_Q (S754_finite s m e) = Some q
            /\ (q == Qval (cond_Zopp s (Z.pos m)) e)%Q.
Proof.
  unfold float_to_Q. destruct (0 <=? e) eqn:He; eexists; (split; [reflexivity|]).
  - apply Z.leb_le in He. rewrite Qval_nonneg_exp by exact He.
    destruct s; unfold cond_Zopp; [rewrite Z.mul_opp_l|]; reflexivity.
  - apply Z.leb_gt in He.
    assert (HD : 0 < 2 ^ (- e)) by (apply Z.pow_pos_nonneg; lia).
    pose proof (Qval_neg_exp (cond_Zopp s (Z.pos m)) e He) as Hv.
    rewrite (Qmake_Qdiv (cond_Zopp s (Z.pos m)) (Z.to_pos (2 ^ (- e)))).
    rewrite Z2Pos.id by exact HD. rewrite <- Hv.
    field. intros H0. revert H0. unfold Qeq, inject_Z. cbn [Qnum Qden]. lia.
Qed.

Lemma pow2_lt_inv (a b : Z) : (2 ^ a < 2 ^ b)%Q -> a < b.
Proof. intros H. apply (Qpower_lt_compat_l_inv 2); [exact H|reflexivity]. Qed.

(** A quotient that rounds to an [int8_t] has a unit in the last place of
    at most 2^-16. *)
Lemma small_quotient_ulp (m e : Z) :
  0 <= m -> e = fexp prec emax (Zdigits2 m + e) ->
  (Qval m e <= 129)%Q -> (2 ^ e <= 1 # 65536)%Q.
Proof.
  intros Hm Hcan Hle. apply canonical_cases in Hcan as (_ & _ & Hc); [|exact Hm].
  change (1 # 65536)%Q with (2 ^ (- 16))%Q. apply pow2_le.
  destruct Hc as [Hnorm|[-> _]]; [|lia].
  pose proof (Qval_mono _ _ e Hnorm) as H1. unfold Qval in H1 at 1.
  rewrite pow2_inject in H1 by lia. rewrite <- pow2_add in H1.
  assert (H2 : (2 ^ (23 + e) < 2 ^ 8)%Q).
  { eapply Qle_lt_trans; [exact H1|]. eapply Qle_lt_trans; [exact Hle|]. reflexivity. }
  apply pow2_lt_inv in H2. lia.
Qed.

(** The two errors of the rounded conversion add up. *)
Lemma roundtrip_sum (X Y Tt U qt q : Q) :
  (0 < Y -> 0 <= U -> U <= 1 # 65536 ->
   - (Y * U) <= 2 * (Tt * Y - X) <= Y * U ->
   Qabs (qt - q) <= 1 # 2 ->
   (qt == Tt \/ qt == - Tt) ->
   (qt == Tt -> Qabs (X - q * Y) <= (65537 # 131072) * Y)
   /\ (qt == - Tt -> Qabs (X + q * Y) <= (65537 # 131072) * Y))%Q.
Proof.
  intros HY HU0 HU [Hlo Hhi] Hq _.
  apply Qabs_Qle_condition in Hq as [Hq1 Hq2].
  assert (HYU : (Y * U <= Y * (1 # 65536))%Q) by (apply Qmult_le_l; assumption).
  split; intros E; rewrite E in Hq1, Hq2; apply Qabs_Qle_condition.
  - assert (H1 : (Y * (- (1 # 2)) <= Y * (Tt - q))%Q) by (apply Qmult_le_l; assumption).
    assert (H2 : (Y * (Tt - q) <= Y * (1 # 2))%Q) by (apply Qmult_le_l; assumption).
    split; lra.
  - assert (H1 : (Y * (- (1 # 2)) <= Y * (- Tt - q))%Q) by (apply Qmult_le_l; assumption).
    assert (H2 : (Y * (- Tt - q) <= Y * (1 # 2))%Q) by (apply Qmult_le_l; assumption).
    split; lra.
Qed.

(** The round trip of the rounded conversion, in the element [x] itself:
    |x - q * s| <= (1/2 + 2^-17) * |s|. *)
Lemma quantize_rounded_roundtrip (s x : float) (q : Z) (qs : Q) :
  float_to_Q s = Some qs ->
  quantize_rounded s x = Ok q ->
  exists qv,
    float_to_Q x = Some qv
    /\ (Qabs (qv - inject_Z q * qs) <= (65537 # 131072) * Qabs qs)%Q.
Proof.
  intros Hs Hq.
  destruct s as [ss|ss| |ss ms es]; try discriminate Hs.
  { rewrite quantize_rounded_zero_scale in Hq. discriminate. }
  destruct x as [sx|sx| |sx mx ex]; try discriminate Hq.
  { simpl in Hq. injection Hq as <-. exists 0%Q. split; [reflexivity|].
    setoid_replace (0 - inject_Z 0 * qs)%Q with 0%Q using relation Qeq by ring. simpl.
    apply Qmult_le_0_compat; [discriminate|apply Qabs_nonneg]. }
  destruct (float_to_Q_finite ss ms es) as (qs' & Hs' & Hsv).
  rewrite Hs in Hs'. injection Hs' as <-.
  destruct (float_to_Q_finite sx mx ex) as (qv & Hv & Hvv).
  exists qv. split; [exact Hv|].
  unfold quantize_rounded in Hq.
  pose proof (float_round_error _ _ (float_div_binary32 _ _) Hq) as (qt & Hqt & Hround).
  apply float_to_int8_Ok in Hq as [_ Hrange].
  destruct (SFdiv_error sx ss mx ms ex es) as (m3 & e3 & Hres & Hm3 & Hcan & Herr).
  rewrite Hres in Hqt.
  set (X := Qval (Z.pos mx) ex) in *. set (Y := Qval (Z.pos ms) es) in *.
  set (Tt := Qval m3 e3) in *.
  assert (HY : (0 < Y)%Q) by (apply Qval_pos; lia).
  assert (HT0 : (0 <= Tt)%Q).
  { unfold Tt, Qval. apply Qmult_le_0_compat; [|apply Qlt_le_weak, pow2_pos].
    change 0%Q with (inject_Z 0). rewrite <- Zle_Qle. exact Hm3. }
  assert (Hqt' : (qt == if xorb sx ss then - Tt else Tt)%Q).
  { destruct m3 as [|mt|mt]; try lia.
    - simpl in Hqt. injection Hqt as <-. unfold Tt, Qval.
      change (inject_Z 0) with 0%Q. destruct (xorb sx ss); ring.
    - destruct (e3 <=? emax - prec); [|discriminate Hqt].
      destruct (float_to_Q_finite (xorb sx ss) mt e3) as (qt' & Hqt'' & E).
      rewrite Hqt in Hqt''. injection Hqt'' as <-. rewrite E. apply Qval_cond_Zopp. }
  assert (Hq128 : (Qabs (inject_Z q) <= 128)%Q).
  { apply Qabs_Qle_condition. change 128%Q with (inject_Z 128).
    change (- inject_Z 128)%Q with (inject_Z (- 128)). rewrite <- !Zle_Qle. lia. }
  assert (HT129 : (Tt <= 129)%Q).
  { apply Qabs_Qle_condition in Hround as [R1 R2].
    apply Qabs_Qle_condition in Hq128 as [Q1 Q2].
    destruct (xorb sx ss); rewrite Hqt' in R1, R2; lra. }
  pose proof (small_quotient_ulp m3 e3 Hm3 Hcan HT129) as HU.
  pose proof (Qlt_le_weak _ _ (pow2_pos e3)) as HU0.
  destruct (roundtrip_sum X Y Tt (2 ^ e3) qt (inject_Z q) HY HU0 HU Herr Hround) as [Hp Hn].
  { destruct (xorb sx ss); [right|left]; exact Hqt'. }
  rewrite Hvv, Hsv, !Qval_cond_Zopp. fold X Y.
  destruct sx, ss; simpl in Hqt'.
  - (* both negative: the quotient is positive *)
    specialize (Hp Hqt'). rewrite Qabs_opp.
    setoid_replace (- X - inject_Z q * - Y)%Q with (- (X - inject_Z q * Y))%Q using relation Qeq by ring.
    rewrite Qabs_opp, (Qabs_pos Y) by lra. exact Hp.
  - specialize (Hn Hqt'). rewrite (Qabs_pos Y) by lra.
    setoid_replace (- X - inject_Z q * Y)%Q with (- (X + inject_Z q * Y))%Q using relation Qeq by ring.
    rewrite Qabs_opp. exact Hn.
  - specialize (Hn Hqt'). rewrite Qabs_opp, (Qabs_pos Y) by lra.
    setoid_replace (X - inject_Z q * - Y)%Q with (X + inject_Z q * Y)%Q using relation Qeq by ring.
    exact Hn.
  - specialize (Hp Hqt'). rewrite (Qabs_pos Y) by lra. exact Hp.
Qed.

Lemma quotient_near (qT qs qx qt us ut R : Q) :
  (0 < qs -> 1 <= R -> R <= 127 ->
   2 * (qs * R - qT) <= R * us ->
   - (qs * ut) <= 2 * (qt * qs - qx) ->
   qT <= qx ->
   8388608 * us <= qs ->
   8388608 * ut <= qt + 1 ->
   R - (1 # 2) <= qt)%Q.
Proof.
  intros Hqs HR1 HR2 HsE HtE Hx Hsn Htn.
  destruct (Qlt_le_dec qt (R - (1 # 2))) as [Hlt|]; [exfalso|assumption].
  assert (H1 : (R * (8388608 * us) <= R * qs)%Q).
  { apply Qmult_le_l; [lra|exact Hsn]. }
  assert (H2 : (qs * (8388608 * ut) <= qs * (qt + 1))%Q).
  { apply Qmult_le_l; [lra|exact Htn]. }
  assert (H3 : (0 < qs * (R * (16777215 # 1) - 1 - qt * (16777217 # 1)))%Q).
  { apply Qmult_lt_0_compat; [exact Hqs|]. lra. }
  lra.
Qed.

(** [std::round] of a number within 1/2 of the integer [r]. *)
Lemma round_exact (st : bool) (mt : positive) (et r : Z) :
  1 <= r <= 127 ->
  (inject_Z r - (1 # 2) <= Qval (Z.pos mt) et)%Q ->
  (Qval (Z.pos mt) et < inject_Z r + (1 # 2))%Q ->
  float_to_int8 (float_round (S754_finite st mt et)) = Ok (cond_Zopp st r).
Proof.
  intros Hr Hge Hlt.
  destruct (round_below st mt et r ltac:(lia) Hlt) as (q & Hq & Hqr).
  rewrite Hq. f_equal.
  apply float_to_int8_Ok in Hq as [Hq _].
  unfold float_round in Hq. destruct (0 <=? et) eqn:He.
  - apply Z.leb_le in He. rewrite Qval_nonneg_exp in Hge by exact He.
    apply half_le_inject_Z in Hge.
    unfold float_trunc in Hq. rewrite (proj2 (Z.leb_le 0 et) He) in Hq.
    injection Hq as <-. destruct st; simpl in *; lia.
  - apply Z.leb_gt in He.
    assert (HD : 0 < 2 ^ (- et)) by (apply Z.pow_pos_nonneg; lia).
    pose proof (Qval_neg_exp (Z.pos mt) et He) as Hv.
    set (D := 2 ^ (- et)) in *.
    assert (Hm : (2 * r - 1) * D <= 2 * Z.pos mt).
    { assert (HQ : ((inject_Z r - (1 # 2)) * inject_Z D <= inject_Z (Z.pos mt))%Q).
      { rewrite <- Hv. apply Qmult_le_compat_r; [exact Hge|].
        change 0%Q with (inject_Z 0). rewrite <- Zle_Qle. lia. }
      revert HQ. unfold Qle, Qmult, Qminus, Qplus, Qopp, inject_Z. cbn [Qnum Qden]. lia. }
    set (n := (2 * Z.pos mt + D) / (2 * D)) in *.
    assert (Hn : r <= n) by (apply Z.div_le_lower_bound; lia).
    assert (Hn24 : 0 <= n < 2 ^ 24).
    { split; [lia|]. destruct st; simpl in Hqr.
      - (* q = - n' with n' <= r *)
        assert (Hup : n < r + 1); [|change (2 ^ 24) with 16777216; lia].
        apply Z.div_lt_upper_bound; [lia|].
        assert (HQ : (inject_Z (Z.pos mt) < (inject_Z r + (1 # 2)) * inject_Z D)%Q).
        { rewrite <- Hv. apply Qmult_lt_compat_r; [|exact Hlt].
          change 0%Q with (inject_Z 0). rewrite <- Zlt_Qlt. exact HD. }
        revert HQ. unfold Qlt, Qmult, Qplus, inject_Z. cbn [Qnum Qden]. lia.
      - assert (Hup : n < r + 1); [|change (2 ^ 24) with 16777216; lia].
        apply Z.div_lt_upper_bound; [lia|].
        assert (HQ : (inject_Z (Z.pos mt) < (inject_Z r + (1 # 2)) * inject_Z D)%Q).
        { rewrite <- Hv. apply Qmult_lt_compat_r; [|exact Hlt].
          change 0%Q with (inject_Z 0). rewrite <- Zlt_Qlt. exact HD. }
        revert HQ. unfold Qlt, Qmult, Qplus, inject_Z. cbn [Qnum Qden]. lia. }
    rewrite (binary_normalize_int_exact st n Hn24) in Hq. injection Hq as <-.
    destruct st; simpl in *; lia.
Qed.

(** The element of greatest magnitude quantizes to the range itself, and
    there the round-trip bound of one half holds. *)
Lemma quantize_rounded_at_max (T x : float) (r : Z) :
  1 <= r <= 127 ->
  float_abs x = T ->
  is_normal (float_div T (float_of_int r)) = true ->
  exists q,
    quantize_rounded (float_div T (float_of_int r)) x = Ok q
    /\ Z.abs q = r
    /\ roundtrip_within (1 # 2) (float_div T (float_of_int r)) x q.
Proof.
  intros Hr Hx Hn.
  destruct (normal_scale T r ltac:(lia) Hn)
    as (sT & mT & eT & ms & es & -> & Hs & Hsn & Hslo & Hshi).
  rewrite Hs. unfold quantize_rounded.
  destruct x as [sx|sx| |sx mx ex]; try discriminate Hx.
  injection Hx as <- <- <-.
  destruct (SFdiv_error sx false mx ms ex es) as (mt & et & Hres & Hmt & Hcan & Htlo & Hthi).
  rewrite Hres.
  pose proof Hcan as Hcan'.
  apply canonical_cases in Hcan as (Hm24 & He149 & Hcases); [|lia].
  assert (HR1 : (1 <= inject_Z r)%Q) by (change 1%Q with (inject_Z 1); rewrite <- Zle_Qle; lia).
  assert (HR2 : (inject_Z r <= 127)%Q)
    by (change 127%Q with (inject_Z 127); rewrite <- Zle_Qle; lia).
  set (X := Qval (Z.pos mx) ex) in *. set (Y := Qval (Z.pos ms) es) in *.
  assert (HY : (0 < Y)%Q) by (apply Qval_pos; lia).
  assert (HT0 : (0 <= Qval mt et)%Q).
  { unfold Qval. apply Qmult_le_0_compat; [|apply Qlt_le_weak, pow2_pos].
    change 0%Q with (inject_Z 0). rewrite <- Zle_Qle. exact Hmt. }
  assert (Hut : (8388608 * 2 ^ et <= Qval mt et + 1)%Q).
  { destruct Hcases as [Hnorm|[-> Hsub]].
    - pose proof (Qval_mono _ _ et Hnorm) as H1.
      unfold Qval in H1 at 1. change (inject_Z (2 ^ 23)) with 8388608%Q in H1. lra.
    - assert (H1 : (8388608 * 2 ^ (-149) <= 1)%Q) by (vm_compute; discriminate). lra. }
  assert (Hge : (inject_Z r - (1 # 2) <= Qval mt et)%Q).
  { apply (quotient_near X Y X (Qval mt et) (2 ^ es) (2 ^ et) (inject_Z r));
      try assumption. apply Qle_refl. }
  destruct mt as [|mt|mt]; try lia.
  { exfalso. unfold Qval in Hge. change (inject_Z 0) with 0%Q in Hge.
    rewrite Qmult_0_l in Hge. lra. }
  assert (Hlt : (Qval (Z.pos mt) et < inject_Z r + (1 # 2))%Q).
  { destruct Hcases as [Hnorm|[-> Hsub]].
    - apply (quotient_upper X Y X (Qval (Z.pos mt) et) (2 ^ es) (2 ^ et) (inject_Z r));
        try assumption.
      + apply Qlt_le_weak, pow2_pos.
      + apply Qlt_le_weak, pow2_pos.
      + apply Qle_refl.
      + change 8388608%Q with (inject_Z (2 ^ 23)). apply (Qval_mono _ _ et Hnorm).
    - apply Qle_lt_trans with (Qval (2 ^ 23) (- 149)).
      + apply Qval_mono. lia.
      + apply Qlt_le_trans with 1%Q; [vm_compute; reflexivity|lra]. }
  destruct (et <=? emax - prec) eqn:Hov.
  2:{ exfalso. apply Z.leb_gt in Hov. unfold emax, prec in Hov.
      destruct Hcases as [Hnorm|[-> _]]; [|lia].
      pose proof (Qval_mono _ _ et Hnorm) as H1.
      pose proof (pow2_le 0 et ltac:(lia)) as H2.
      unfold Qval in H1 at 1. change (inject_Z (2 ^ 23)) with 8388608%Q in H1.
      change (2 ^ 0)%Q with 1%Q in H2. lra. }
  exists (cond_Zopp (xorb sx false) r).
  split; [apply round_exact; assumption|].
  split; [destruct sx; simpl; lia|].
  destruct (float_to_Q_finite sx mx ex) as (qv & Hv & Hvv).
  destruct (float_to_Q_finite false ms es) as (qs & Hqs & Hsv).
  exists qv, qs. split; [exact Hv|]. split; [exact Hqs|].
  rewrite Hvv, Hsv, !Qval_cond_Zopp. fold X Y.
  assert (H1 : (inject_Z r * (8388608 * 2 ^ es) <= inject_Z r * Y)%Q).
  { apply Qmult_le_l; [lra|exact Hsn]. }
  assert (H2 : (Y * inject_Z r <= Y * 127)%Q).
  { apply Qmult_le_l; [exact HY|exact HR2]. }
  apply Qabs_Qle_condition.
  destruct sx; simpl; [rewrite inject_Z_opp|]; split; lra.
Qed.

(** Claim C4, amended.  For a finite scale [s]:
    - [QuantizeTensorInPlace] (rule 4.5) and the conversion of
      [DynamicQuantOpFuser] (rule 4.6) store q = round(t), t being the
      binary32 quotient v / s the code computes; |t * s - q * s| <= |s| / 2,
      and for the element itself |v - q * s| <= (1/2 + 2^-17) * |s|.  The
      bound |s| / 2 on the element itself can fail, because the quotient
      is rounded to binary32 before [std::round];
    - the conversion of [DequantOpFuser] (rule 4.3) and of
      [ChannelWiseDequantOpFuser] (rule 4.4) stores q = trunc(v), the
      weight element itself without a division by the scale, and
      |v * s - q * s| <= |s|, for every element whose cast is defined:
      rule 4.4 truncates like rule 4.3, it does not round;
    - at the boundary values the bound of one half holds for the rounding
      rules: the value 0 is stored as 0 (by both conversions) when s is
      not zero, and with a normal scale s = T / r, 1 <= r <= 127, an
      element of magnitude T = max(|weights|) is stored as r or -r with
      |v - q * s| <= s / 2.
    The products and differences are those of rational numbers. *)
Theorem roundtrip_law (s : float) (qs : Q) :
  float_to_Q s = Some qs ->
  (* rules 4.5 and 4.6 round the quotient *)
  (forall w w' xs,
     buffer w = BufFloat xs ->
     QuantizeTensorInPlace w s = Ok w' \/ DynamicQuantOpFuser.convert_weight w s = Ok w' ->
     exists ys, buffer w' = BufInt8 ys
                /\ Forall2 (fun x q =>
                              quantize_rounded s x = Ok q
                              /\ scaled_within (1 # 2) s (float_div x s) q
                              /\ exists qv,
                                   float_to_Q x = Some qv
                                   /\ (Qabs (qv - inject_Z q * qs)
                                       <= (65537 # 131072) * Qabs qs)%Q)
                     (take (Z.to_nat (numel w)) xs) ys)
  (* rules 4.3 and 4.4 truncate the stored element *)
  /\ (forall w w' xs,
        buffer w = BufFloat xs ->
        cast_weight_to_int8 w = Ok w' ->
        exists ys, buffer w' = BufInt8 ys
                   /\ Forall2 (fun x q => quantize_truncated x = Ok q
                                          /\ scaled_within 1 s x q)
                        (take (Z.to_nat (numel w)) xs) ys)
  (* the boundary value 0 *)
  /\ (forall sign, s <> S754_zero true -> s <> S754_zero false ->
                   quantize_rounded s (S754_zero sign) = Ok 0
                   /\ quantize_truncated (S754_zero sign) = Ok 0)
  (* the boundary value max(|weights|) *)
  /\ (forall T x r,
        s = float_div T (float_of_int r) -> 1 <= r <= 127 ->
        is_normal s = true -> float_abs x = T ->
        exists q, quantize_rounded s x = Ok q
                  /\ Z.abs q = r
                  /\ roundtrip_within (1 # 2) s x q).
Proof.
  intros Hs. split; [|split; [|split]].
  - intros w w' xs Hbuf Hrun.
    assert (Hconv : exists ys, convert_elements (quantize_rounded s) (numel w) xs = Ok ys
                               /\ buffer w' = BufInt8 ys).
    { destruct Hrun as [Hrun|Hrun].
      - unfold QuantizeTensorInPlace, CopyDataFrom, data_float in Hrun.
        rewrite Hbuf in Hrun. cbn [bind] in Hrun.
        change (numel (clear w)) with (numel w) in Hrun.
        destruct (convert_elements _ _ _) as [ys|]; [|discriminate].
        injection Hrun as <-. eauto.
      - unfold DynamicQuantOpFuser.convert_weight, CopyDataFrom, data_float in Hrun.
        rewrite Hbuf in Hrun. cbn [bind] in Hrun.
        change (data_size (clear w)) with (numel w) in Hrun.
        destruct (convert_elements _ _ _) as [ys|]; [|discriminate].
        injection Hrun as <-. eauto. }
    destruct Hconv as (ys & Hconv & Hw'). exists ys. split; [exact Hw'|].
    apply convert_elements_Ok in Hconv as [_ Hconv].
    eapply Forall2_impl; [exact Hconv|].
    intros x q Hq. simpl in *. split; [exact Hq|]. split.
    + eapply quantize_rounded_within; eassumption.
    + eapply quantize_rounded_roundtrip; eassumption.
  - intros w w' xs Hbuf Hrun.
    unfold cast_weight_to_int8, CopyDataFrom, data_float, data_size in Hrun.
    rewrite Hbuf in Hrun. cbn [bind] in Hrun.
    destruct (convert_elements _ _ _) as [ys|] eqn:Hconv; [|discriminate].
    injection Hrun as <-. exists ys. split; [reflexivity|].
    apply convert_elements_Ok in Hconv as [_ Hconv].
    eapply Forall2_impl; [exact Hconv|].
    intros x q Hq. simpl in *. split; [exact Hq|].
    eapply quantize_truncated_within; eassumption.
  - intros sign Hz1 Hz2. split; [|reflexivity].
    destruct s as [b|b| |b m e]; try discriminate Hs.
    + destruct b; congruence.
    + destruct sign, b; reflexivity.
  - intros T x r -> Hr Hn Hx. apply quantize_rounded_at_max; assumption.
Qed.

Lemma roundtrip_law_witness :
  exists qs,
    float_to_Q Examples.five_over_127 = Some qs
    /\ exists ys,
         buffer (mkTensor [2] (BufInt8 [25; 0]) true kInt8) = BufInt8 ys
         /\ Forall2 (fun x q =>
                       quantize_rounded Examples.five_over_127 x = Ok q
                       /\ scaled_within (1 # 2) Examples.five_over_127
                            (float_div x Examples.five_over_127) q
                       /\ exists qv,
                            float_to_Q x = Some qv
                            /\ (Qabs (qv - inject_Z q * qs)
                                <= (65537 # 131072) * Qabs qs)%Q)
              (take (Z.to_nat (numel Examples.small_weight))
                 [float_of_int 1; float_of_int 0]) ys.
Proof.
  assert (Hs : exists qs, float_to_Q Examples.five_over_127 = Some qs)
    by (eexists; vm_compute; reflexivity).
  destruct Hs as [qs Hs]. exists qs. split; [exact Hs|].
  refine (proj1 (roundtrip_law Examples.five_over_127 qs Hs)
            Examples.small_weight (mkTensor [2] (BufInt8 [25; 0]) true kInt8)
            [float_of_int 1; float_of_int 0] _ _).
  - reflexivity.
  - left. vm_compute. reflexivity.
Defined.

(** Where the claim fails.  Rule 4.4 truncates: with the channel scale 1
    the stored 1.75 becomes 1.  Rules 4.5 and 4.6 round the binary32
    quotient: 0.25f / 0.1f is 2.5 in binary32, although 0.25f is less than
    2.5 times 0.1f, and it is stored as 3, more than half a step away. *)
Lemma roundtrip_law_counterexample :
  (exists st' op' w',
     ChannelWiseDequantOpFuser.InsertNewNode "conv2d"
       Examples.channel_wise_state Examples.channel_wise_match = Ok st'
     /\ kind_of (graph st') 7%nat = Some (Stmt op')
     /\ input_scales op' !! "w" = Some [float_of_int 1; float_of_int 2]
     /\ scope st' !! "w" = Some w'
     /\ buffer w' = BufInt8 [1; -3]
     /\ ~ roundtrip_within (1 # 2) (float_of_int 1) Examples.one_and_three_quarters 1)
  /\ (let s := float_div (float_of_int 1) (float_of_int 10) in
      let v := float_div (float_of_int 1) (float_of_int 4) in
      let w := mkTensor [1] (BufFloat [v]) true kFloat in
      float_div v s = float_div (float_of_int 5) (float_of_int 2)
      /\ QuantizeTensorInPlace w s = Ok (mkTensor [1] (BufInt8 [3]) true kInt8)
      /\ DynamicQuantOpFuser.convert_weight w s
         = Ok (mkTensor [1] (BufInt8 [3]) true kInt8)
      /\ ~ roundtrip_within (1 # 2) s v 3).
Proof.
  split.
  - eexists _, _, _. split; [vm_compute; reflexivity|].
    split; [vm_compute; reflexivity|].
    split; [vm_compute; reflexivity|].
    split; [vm_compute; reflexivity|].
    split; [reflexivity|].
    intros (qv & qs & Hv & Hs & Hle).
    vm_compute in Hv, Hs. injection Hv as <-. injection Hs as <-.
    vm_compute in Hle. apply Hle. reflexivity.
  - cbv zeta. split; [vm_compute; reflexivity|].
    split; [vm_compute; reflexivity|].
    split; [vm_compute; reflexivity|].
    intros (qv & qs & Hv & Hs & Hle).
    vm_compute in Hv, Hs. injection Hv as <-. injection Hs as <-.
    vm_compute in Hle. apply Hle. reflexivity.
Qed.
